(** * pitrac-light: ball detection and spin estimation core

    A shallow embedding of the detection facade
    ([ball_detection/ball_detector_facade.cpp]), the concentric-circle
    deduplication ([ball_detection/hough_detector.cpp]), the colour mask
    ([ball_detection/color_filter.cpp]), the single-class NMS
    ([ball_image_proc.cpp]) and the spin analyzer
    ([ball_detection/spin_analyzer.cpp]).

    Conventions.
    - [float] and [double] values are modelled as rationals ([Q]).  Where a
      floating-point result decides a comparison that the properties below
      depend on, its rounding is modelled: [CvUtils.f32_round] for [float]
      values (the tolerance limit of the candidate filter, every step of the
      IoU of two boxes), [CvUtils.f64_round] for [double] values (the
      threshold the adaptive loop accumulates).  Elsewhere arithmetic is
      exact.
    - [int] values are modelled as [Z] (signed overflow is undefined
      behaviour in C++ and lies outside the model).
    - [std::vector] is a [list]; indexing is stdpp's lookup [!!], [erase] is
      [delete], assignment to a slot is insert.
    - Calls into OpenCV whose results depend on pixel data (HoughCircles,
      colour statistics, Gabor filtering, trigonometry of the projection) are
      inputs of the model. *)

From Stdlib Require Import ZArith QArith Qround Qpower Lia Lqa Bool.
From Stdlib Require Import Sorting.Sorted Sorting.Permutation.
From stdpp Require Import base list.

Open Scope Z_scope.

(** ** CvUtils: numeric helpers *)

Module CvUtils.

(** [std::round]: nearest integer, halves away from zero. *)
Definition std_round (q : Q) : Z :=
  if Qle_bool 0 q then Qfloor (q + (1 # 2)) else Qceiling (q - (1 # 2)).

(** [(int)x] on a floating value: truncation toward zero. *)
Definition int_cast (q : Q) : Z :=
  if Qle_bool 0 q then Qfloor q else Qceiling q.

(** Conversion of an integer to [short]: the value modulo 2^16 that lies
    in [-2^15, 2^15). *)
Definition short_cast (z : Z) : Z := (z + 32768) mod 65536 - 32768.

(** Conversion of an integer to [ushort]: the value modulo 2^16. *)
Definition ushort_cast (z : Z) : Z := z mod 65536.

(** Position of the leading binary digit of a positive rational: the [e]
    with [2^e <= q < 2^(e+1)]. *)
Definition Qlog2_floor (q : Q) : Z :=
  if Qle_bool 1 q then Z.log2 (Qfloor q)
  else - Z.log2_up (Qceiling (/ q)).

(** Nearest integer, ties to even. *)
Definition round_half_even (q : Q) : Z :=
  let f := Qfloor q in
  let r := (q - inject_Z f)%Q in
  match Qcompare r (1 # 2) with
  | Lt => f
  | Gt => f + 1
  | Eq => if Z.even f then f else f + 1
  end.

(** Narrowing of a [double] to a [float] (IEEE-754 binary32, round to
    nearest even, 24-bit significand), for values in the normal range. *)
Definition f32_round (q : Q) : Q :=
  match Qcompare q 0 with
  | Eq => 0%Q
  | Gt =>
      let ulp := (2 ^ (Qlog2_floor q - 23))%Q in
      (inject_Z (round_half_even (q / ulp)) * ulp)%Q
  | Lt =>
      let ulp := (2 ^ (Qlog2_floor (- q) - 23))%Q in
      (- (inject_Z (round_half_even ((- q) / ulp)) * ulp))%Q
  end.

(** Rounding to a binary floating-point format with a significand of
    [p + 1] bits (round to nearest, ties to even), for values in the
    normal range.  [f32_round] is [fp_round 23]. *)
Definition fp_round (p : Z) (q : Q) : Q :=
  match Qcompare q 0 with
  | Eq => 0%Q
  | Gt =>
      let ulp := (2 ^ (Qlog2_floor q - p))%Q in
      (inject_Z (round_half_even (q / ulp)) * ulp)%Q
  | Lt =>
      let ulp := (2 ^ (Qlog2_floor (- q) - p))%Q in
      (- (inject_Z (round_half_even ((- q) / ulp)) * ulp))%Q
  end.

(** The result of an arithmetic operation on [double]s (IEEE-754
    binary64, 53-bit significand), written in lowest terms. *)
Definition f64_round (q : Q) : Q := Qred (fp_round 52 q).

End CvUtils.

(** ** Circles *)

(** [GsCircle] is [cv::Vec3f]: centre x, centre y, radius. *)
Record GsCircle := mkCircle { c0 : Q; c1 : Q; c2 : Q }.

Module CircleOps.

(** Modelled from the spec: [CvUtils::CircleXY] (declared in
    [utils/cv_utils.h], which is not part of the sources at hand) yields
    the integer centre of a circle as a [cv::Vec2i]; the unit test
    [CircleXYExtraction] fixes it on integral centres.  The coordinates are
    converted with [std::round], as the radius is everywhere in the
    detector. *)
Definition CircleXY (c : GsCircle) : Z * Z :=
  (CvUtils.std_round (c0 c), CvUtils.std_round (c1 c)).

Definition xy_eqb (a b : Z * Z) : bool :=
  (fst a =? fst b) && (snd a =? snd b).

(** [(int)std::round(circle[2])] *)
Definition rounded_radius (c : GsCircle) : Z := CvUtils.std_round (c2 c).

End CircleOps.

(** ** HoughDetector::RemoveSmallestConcentricCircles *)

Module HoughDetector.
Import CircleOps.

(** The inner loop [for (j = size-1; j > i; j--)], started at [j].  It
    returns the vector and the value of [i] when the loop is left: [i]
    itself when [j] reached [i], [i - 1] after the [erase(begin()+i); i--;
    break]. *)
Fixpoint inner_loop (circles : list GsCircle) (i : Z) (j : nat)
  : list GsCircle * Z :=
  match j with
  | O => (circles, i)
  | S j' =>
      if Z.of_nat j >? i then
        match circles !! Z.to_nat i, circles !! j with
        | Some circle_current, Some circle_other =>
            if xy_eqb (CircleXY circle_current) (CircleXY circle_other) then
              let radius_current := rounded_radius circle_current in
              let radius_other := rounded_radius circle_other in
              if radius_other <=? radius_current then
                inner_loop (delete j circles) i j'
              else
                (delete (Z.to_nat i) circles, i - 1)
            else inner_loop circles i j'
        | _, _ => (circles, i)
        end
      else (circles, i)
  end.

(** The outer loop [for (i = ...; i < size - 1; i++)], entered with the
    current value of [i].  [None] stands for a loop that is still running
    when the fuel is used up. *)
Fixpoint outer_loop (fuel : nat) (circles : list GsCircle) (i : Z)
  : option (list GsCircle) :=
  match fuel with
  | O => None
  | S fuel' =>
      if i <? Z.of_nat (length circles) - 1 then
        let '(circles', i') :=
          inner_loop circles i (length circles - 1)%nat in
        outer_loop fuel' circles' (i' + 1)
      else Some circles
  end.

(** The vector as the call leaves it.  [length circles + 1] rounds of the
    outer loop always suffice ([outer_loop_total] below), so the default is
    never taken. *)
Definition RemoveSmallestConcentricCircles (circles : list GsCircle)
  : list GsCircle :=
  default circles (outer_loop (S (length circles)) circles 0).

End HoughDetector.

(** ** Colour triplets and the colour filter *)

(** [GsColorTriplet]: three floating-point channels. *)
Record GsColorTriplet := mkTriplet { t0 : Q; t1 : Q; t2 : Q }.

Module ColorFilter.

(** One pixel of an 8-bit three-channel HSV image. *)
Record HsvPixel := mkPixel { px_h : Z; px_s : Z; px_v : Z }.

Definition kColorMaskWideningAmount : Q := 35.

(** Modelled from the spec: [CvUtils::kOpenCvHueMax] is declared in
    [utils/cv_utils.h], which is not part of the sources at hand; the spec
    gives the hue range as [0, 180) and the wrap point as 180, and the
    sibling branch of the source writes the literal [180.f]. *)
Definition kOpenCvHueMax : Q := 180.

(** [cv::inRange] on an 8-bit image with scalar bounds: OpenCV converts
    the bounds to integers ([cvRound], ties to even) and sets the mask to
    255 where every channel lies between them, to 0 elsewhere. *)
Definition cv_inRange_px (lb ub : GsColorTriplet) (p : HsvPixel) : Z :=
  let r := CvUtils.round_half_even in
  if (r (t0 lb) <=? px_h p) && (px_h p <=? r (t0 ub))
     && (r (t1 lb) <=? px_s p) && (px_s p <=? r (t1 ub))
     && (r (t2 lb) <=? px_v p) && (px_v p <=? r (t2 ub))
  then 255 else 0.

Definition cv_inRange (img : list (list HsvPixel)) (lb ub : GsColorTriplet)
  : list (list Z) :=
  map (map (cv_inRange_px lb ub)) img.

Definition cv_bitwise_or (a b : list (list Z)) : list (list Z) :=
  zip_with (zip_with Z.lor) a b.

Definition GetColorMaskImage (hsvImage : list (list HsvPixel))
    (input_lowerHsv input_upperHsv : GsColorTriplet) (wideningAmount : Q)
  : list (list Z) :=
  let w := kColorMaskWideningAmount in
  let lowerHsv :=
    mkTriplet (t0 input_lowerHsv - w)%Q (t1 input_lowerHsv - w)%Q
              (t2 input_lowerHsv - w)%Q in
  let upperHsv :=
    mkTriplet (t0 input_upperHsv + w)%Q (t1 input_upperHsv + w)%Q
              (t2 input_upperHsv + w)%Q in
  let upperHsv :=
    mkTriplet (t0 upperHsv)
              (inject_Z (Z.min (CvUtils.int_cast (t1 upperHsv)) 255))
              (inject_Z (Z.min (CvUtils.int_cast (t2 upperHsv)) 255)) in
  let f := CvUtils.f32_round in
  if Qle_bool 0 (t0 lowerHsv) && Qle_bool (t0 upperHsv) (f kOpenCvHueMax)
  then cv_inRange hsvImage lowerHsv upperHsv
  else
    let leftMostLowerHsv := mkTriplet 0 (f (t1 lowerHsv)) (f (t2 lowerHsv)) in
    let rightMostUpperHsv :=
      mkTriplet (f kOpenCvHueMax) (f (t1 upperHsv)) (f (t2 upperHsv)) in
    let leftMostUpperHsv :=
      if negb (Qle_bool 0 (t0 lowerHsv))
      then mkTriplet (f (t0 upperHsv)) (f (t1 upperHsv)) (f (t2 upperHsv))
      else mkTriplet (f (f (t0 upperHsv) - 180)%Q)
                     (f (t1 upperHsv)) (f (t2 upperHsv)) in
    let rightMostLowerHsv :=
      if negb (Qle_bool 0 (t0 lowerHsv))
      then mkTriplet (f (f kOpenCvHueMax + f (t0 lowerHsv))%Q)
                     (f (t1 lowerHsv)) (f (t2 lowerHsv))
      else mkTriplet (f (t0 lowerHsv)) (f (t1 lowerHsv)) (f (t2 lowerHsv)) in
    let firstColorMaskImage :=
      cv_inRange hsvImage leftMostLowerHsv leftMostUpperHsv in
    let secondColorMaskImage :=
      cv_inRange hsvImage rightMostLowerHsv rightMostUpperHsv in
    cv_bitwise_or firstColorMaskImage secondColorMaskImage.

End ColorFilter.

(** ** Search modes and their parameter bundle *)

Module SearchStrategy.

Inductive Mode :=
| kUnknown | kFindPlacedBall | kStrobed | kExternallyStrobed | kPutting.

Definition mode_eqb (a b : Mode) : bool :=
  match a, b with
  | kUnknown, kUnknown | kFindPlacedBall, kFindPlacedBall
  | kStrobed, kStrobed | kExternallyStrobed, kExternallyStrobed
  | kPutting, kPutting => true
  | _, _ => false
  end.

(** The fields of [DetectionParams] that the adaptive loop reads. *)
Record DetectionParams := mkParams {
  starting_param2 : Q;
  min_param2 : Q;
  max_param2 : Q;
  param2_increment : Q;
  min_hough_return_circles : Z;
  max_hough_return_circles : Z
}.

(** [GetParamsForMode(kExternallyStrobed)] with the values the static
    members of [HoughDetector] are initialised to. *)
Definition externally_strobed_defaults : DetectionParams :=
  mkParams 65 28 100 4 3 20.

(** [GetParamsForMode(kStrobed)], standard Hough algorithm. *)
Definition strobed_defaults : DetectionParams :=
  mkParams 40 30 60 4 1 12.

End SearchStrategy.

(** ** The detector facade *)

(** The fields of [GolfBall] that the facade reads or writes. *)
Record GolfBall := mkBall {
  quality_ranking : Z;
  ball_circle_ : GsCircle;
  measured_radius_pixels_ : Q;
  average_color_ : GsColorTriplet;
  median_color_ : GsColorTriplet;
  std_color_ : GsColorTriplet
}.

(** [std::sort(first, last, comp)].  The standard leaves the relative order
    of equivalent elements open; the model keeps it (insertion from the
    right), and the theorems below rely on nothing but the result being an
    ordered permutation. *)
Module StdSort.
Section Sort.
Context {A : Type} (comp : A -> A -> bool).

Fixpoint insert_sorted (x : A) (l : list A) : list A :=
  match l with
  | [] => [x]
  | y :: l' => if comp y x then y :: insert_sorted x l' else x :: l
  end.

Fixpoint std_sort (l : list A) : list A :=
  match l with
  | [] => []
  | x :: l' => insert_sorted x (std_sort l')
  end.

(** [a] may stand before [b] in a sorted range: [comp b a] is false. *)
Definition may_precede (a b : A) : Prop := comp b a = false.
End Sort.
End StdSort.

Module BallDetectorFacade.
Import CvUtils SearchStrategy CircleOps StdSort.

(** *** The adaptive Hough loop of [GetBallHough] *)

Record LoopState := mkLoop {
  circles : list GsCircle;
  currentParam2 : Q;
  currentlyLooseningSearch : bool;
  finalNumberOfFoundCircles : Z;
  done : bool
}.

Definition initial_state (params : DetectionParams) : LoopState :=
  mkLoop [] (starting_param2 params) false 0 false.

(** One pass through the body of [while (!done)].  [hough] is
    [cv::HoughCircles] on the prepared search image as a function of
    [param2], the only argument that changes between passes.
    [currentParam2] is a [double]; [currentParam2 += param2_increment]
    and [-=] round their result to double precision. *)
Definition loop_body (params : DetectionParams)
    (hough : Q -> list GsCircle) (st : LoopState) : LoopState :=
  let test_circles := hough (currentParam2 st) in
  let priorNumCircles := Z.of_nat (length (circles st)) in
  let test_circles :=
    HoughDetector.RemoveSmallestConcentricCircles test_circles in
  let numCircles := Z.of_nat (length test_circles) in
  let accept :=
    mkLoop test_circles (currentParam2 st) (currentlyLooseningSearch st)
           numCircles true in
  if (min_hough_return_circles params <=? numCircles)
     && (numCircles <=? max_hough_return_circles params)
  then accept
  else if numCircles >? max_hough_return_circles params then
    if (priorNumCircles =? 0)
       && negb (Qeq_bool (currentParam2 st) (starting_param2 params))
    then accept
    else if Qle_bool (max_param2 params) (currentParam2 st) then accept
    else
      mkLoop test_circles
             (f64_round (currentParam2 st + param2_increment params))
             false (finalNumberOfFoundCircles st) false
  else
    if (numCircles =? 0) && (priorNumCircles =? 0) then
      if Qle_bool (currentParam2 st) (min_param2 params) then
        mkLoop (circles st) (currentParam2 st)
               (currentlyLooseningSearch st)
               (finalNumberOfFoundCircles st) true
      else
        mkLoop (circles st)
               (f64_round (currentParam2 st - param2_increment params))
               true (finalNumberOfFoundCircles st) false
    else if ((0 <? numCircles)
             && (numCircles <? min_hough_return_circles params)
             && (priorNumCircles =? 0))
            || currentlyLooseningSearch st then
      if Qle_bool (currentParam2 st) (min_param2 params) then accept
      else
        mkLoop test_circles
               (f64_round (currentParam2 st - param2_increment params))
               true (finalNumberOfFoundCircles st) false
    else if (numCircles =? 0) && (priorNumCircles >? 0) then
      mkLoop (circles st) (currentParam2 st)
             (currentlyLooseningSearch st) priorNumCircles true
    else st.

(** [while (!done) { ... }]: [None] when the loop is still running after
    [fuel] passes. *)
Fixpoint adaptive_loop (fuel : nat) (params : DetectionParams)
    (hough : Q -> list GsCircle) (st : LoopState) : option LoopState :=
  if done st then Some st
  else
    match fuel with
    | O => None
    | S fuel' => adaptive_loop fuel' params hough (loop_body params hough st)
    end.

(** The state after exactly [n] passes (the loop condition not looked at). *)
Fixpoint iterate_body (n : nat) (params : DetectionParams)
    (hough : Q -> list GsCircle) (st : LoopState) : LoopState :=
  match n with
  | O => st
  | S n' => iterate_body n' params hough (loop_body params hough st)
  end.

(** *** [FilterAndScoreCandidates] *)

Definition MIN_BALL_CANDIDATE_RADIUS : Z := 10.
Definition CANDIDATE_BALL_COLOR_TOLERANCE : Q := 50.
Definition MAX_CIRCLES_TO_EVALUATE : Z := 200.

Record CircleCandidateListElement := mkCand {
  cand_number : Z;
  circle : GsCircle;
  calculated_color_difference : Q;
  found_radius : Z;
  avg_RGB : GsColorTriplet;
  rgb_avg_diff : Q;
  rgb_median_diff : Q;
  rgb_std_diff : Q
}.

(** What the image says about one circle: the mean colour
    [CvUtils::GetBallColorRgb] measures inside it, and the three
    [CvUtils::ColorDistance] values of its statistics to the expected
    ones. *)
Record ColorMeasure := mkMeasure {
  m_avg_RGB : GsColorTriplet;
  m_avg_diff : Q;
  m_median_diff : Q;
  m_std_diff : Q
}.

Definition triplet_is_zero (t : GsColorTriplet) : bool :=
  Qeq_bool (t0 t) 0 && Qeq_bool (t1 t) 0 && Qeq_bool (t2 t) 0.

Definition zero_triplet : GsColorTriplet := mkTriplet 0 0 0.

(** [pow(avg,2) + 20*pow(std,2) + 200*pow(10*i,3)] *)
Definition color_score (avg_diff std_diff : Q) (i : Z) : Q :=
  (avg_diff ^ 2 + 20 * std_diff ^ 2 + 200 * inject_Z ((10 * i) ^ 3))%Q.

(** The scoring loop [for (const auto& c : circles)], entered with the
    counter at [i] and the candidates found so far. *)
Fixpoint score_loop (measure : GsCircle -> ColorMeasure)
    (uses_color : bool) (i : Z) (cs : list GsCircle)
    (foundCircleList : list CircleCandidateListElement)
  : list CircleCandidateListElement :=
  match cs with
  | [] => foundCircleList
  | c :: rest =>
      let i := i + 1 in
      if i >? MAX_CIRCLES_TO_EVALUATE then foundCircleList
      else
        let radius := rounded_radius c in
        if radius <? MIN_BALL_CANDIDATE_RADIUS then
          score_loop measure uses_color i rest foundCircleList
        else
          let e :=
            if uses_color then
              let m := measure c in
              mkCand i c (color_score (m_avg_diff m) (m_std_diff m) i)
                     radius (m_avg_RGB m)
                     (m_avg_diff m) (m_median_diff m) (m_std_diff m)
            else mkCand i c 0 radius zero_triplet 0 0 0 in
          score_loop measure uses_color i rest (foundCircleList ++ [e])
  end.

Definition by_color_difference (a b : CircleCandidateListElement) : bool :=
  negb (Qle_bool (calculated_color_difference b)
                 (calculated_color_difference a)).

Definition by_radius_desc (a b : CircleCandidateListElement) : bool :=
  found_radius a >? found_radius b.

(** [float maxRGBDistance = first.calculated_color_difference + 50] *)
Definition maxRGBDistance (firstCircle : CircleCandidateListElement) : Q :=
  CvUtils.f32_round
    (calculated_color_difference firstCircle
     + CANDIDATE_BALL_COLOR_TOLERANCE)%Q.

(** The strobed branch: tolerance filter against the first element, then
    the sort by radius. *)
Definition strobed_candidates
    (foundCircleList : list CircleCandidateListElement)
  : list CircleCandidateListElement :=
  match foundCircleList with
  | [] => []
  | firstCircle :: _ =>
      let limit := maxRGBDistance firstCircle in
      let candidates :=
        filter (fun e => Qle_bool (calculated_color_difference e) limit = true)
               foundCircleList in
      std_sort by_radius_desc candidates
  end.

Definition final_candidates (search_mode : Mode)
    (expectedBallColorExists : bool)
    (foundCircleList : list CircleCandidateListElement)
  : list CircleCandidateListElement :=
  let foundCircleList :=
    if negb (mode_eqb search_mode kStrobed) && expectedBallColorExists
    then std_sort by_color_difference foundCircleList
    else foundCircleList in
  if mode_eqb search_mode kStrobed && expectedBallColorExists
  then strobed_candidates foundCircleList
  else foundCircleList.

(** The conversion loop that fills [return_balls]. *)
Fixpoint to_balls (index : Z) (l : list CircleCandidateListElement)
  : list GolfBall :=
  match l with
  | [] => []
  | c :: rest =>
      mkBall index (circle c) (inject_Z (found_radius c))
             (avg_RGB c) (avg_RGB c) zero_triplet
      :: to_balls (index + 1) rest
  end.

Definition scored_candidates (circles : list GsCircle) (baseBall : GolfBall)
    (measure : GsCircle -> ColorMeasure) (search_mode : Mode)
  : list CircleCandidateListElement :=
  let expectedBallColorExists :=
    negb (triplet_is_zero (average_color_ baseBall)) in
  score_loop measure
    (expectedBallColorExists || mode_eqb search_mode kPutting)
    0 circles [].

(** The result is the returned flag and [return_balls] as the call leaves
    it. *)
Definition FilterAndScoreCandidates (circles : list GsCircle)
    (baseBall : GolfBall) (return_balls : list GolfBall)
    (measure : GsCircle -> ColorMeasure) (search_mode : Mode)
  : bool * list GolfBall :=
  match circles with
  | [] => (false, return_balls)
  | _ =>
      let expectedBallColorExists :=
        negb (triplet_is_zero (average_color_ baseBall)) in
      let foundCircleList :=
        scored_candidates circles baseBall measure search_mode in
      match foundCircleList with
      | [] => (false, return_balls)
      | _ =>
          let finalCandidates :=
            final_candidates search_mode expectedBallColorExists
                             foundCircleList in
          match finalCandidates with
          | [] => (false, return_balls)
          | _ => (true, to_balls 0 finalCandidates)
          end
      end
  end.

(** *** [GetBallHough] and [GetBall] *)

Definition PreprocessForMode (mode : Mode) : bool :=
  match mode with
  | kFindPlacedBall | kStrobed | kExternallyStrobed | kPutting => true
  | kUnknown => false
  end.

Definition translate (offset_sub_to_full : Z * Z) (c : GsCircle) : GsCircle :=
  mkCircle (c0 c + inject_Z (fst offset_sub_to_full))%Q
           (c1 c + inject_Z (snd offset_sub_to_full))%Q
           (c2 c).

(** [params] is the bundle [SearchStrategy::GetParamsForMode] yields for
    [search_mode] under the configuration in force; [offset_sub_to_full]
    the origin of the expected ball area, (0, 0) when there is none.
    [None]: the adaptive loop has not finished within [fuel] passes. *)
Definition GetBallHough (fuel : nat) (params : DetectionParams)
    (hough : Q -> list GsCircle) (measure : GsCircle -> ColorMeasure)
    (offset_sub_to_full : Z * Z) (baseBallWithSearchParams : GolfBall)
    (return_balls : list GolfBall) (search_mode : Mode)
  : option (bool * list GolfBall) :=
  if negb (PreprocessForMode search_mode) then Some (false, return_balls)
  else
    match adaptive_loop fuel params hough (initial_state params) with
    | None => None
    | Some st =>
        if finalNumberOfFoundCircles st =? 0 then Some (false, return_balls)
        else
          Some (FilterAndScoreCandidates
                  (map (translate offset_sub_to_full) (circles st))
                  baseBallWithSearchParams return_balls measure search_mode)
    end.

Definition GetBall (fuel : nat) (img_empty : bool)
    (params : DetectionParams)
    (hough : Q -> list GsCircle) (measure : GsCircle -> ColorMeasure)
    (offset_sub_to_full : Z * Z) (baseBallWithSearchParams : GolfBall)
    (return_balls : list GolfBall) (search_mode : Mode)
  : option (bool * list GolfBall) :=
  if img_empty then Some (false, return_balls)
  else
    GetBallHough fuel params hough measure offset_sub_to_full
                 baseBallWithSearchParams return_balls search_mode.

End BallDetectorFacade.

(** ** BallImageProc::SingleClassNMS *)

Module BallImageProc.
Import CvUtils StdSort.

(** [cv::Rect] *)
Record Rect := mkRect { rx : Z; ry : Z; rwidth : Z; rheight : Z }.

(** The overlap measure computed in the inner loop.  The areas are
    [int] products converted to [float]; the union, the quotient and the
    value compared with the threshold are [float] results, each rounded
    to single precision. *)
Definition iou (box_i box_j : Rect) : Q :=
  let x1 := Z.max (rx box_i) (rx box_j) in
  let y1 := Z.max (ry box_i) (ry box_j) in
  let x2 := Z.min (rx box_i + rwidth box_i) (rx box_j + rwidth box_j) in
  let y2 := Z.min (ry box_i + rheight box_i) (ry box_j + rheight box_j) in
  let intersection_width := Z.max 0 (x2 - x1) in
  let intersection_height := Z.max 0 (y2 - y1) in
  let intersection_area :=
    f32_round (inject_Z (intersection_width * intersection_height)) in
  let box_i_area := f32_round (inject_Z (rwidth box_i * rheight box_i)) in
  let box_j_area := f32_round (inject_Z (rwidth box_j * rheight box_j)) in
  let union_area :=
    f32_round (f32_round (box_i_area + box_j_area) - intersection_area) in
  if negb (Qle_bool union_area 0)
  then f32_round (intersection_area / union_area)
  else 0%Q.

(** The prefilter loop over [confidences], entered at index [i]. *)
Fixpoint confidence_pairs (confidences : list Q) (i : nat)
    (conf_threshold : Q) : list (Q * nat) :=
  match confidences with
  | [] => []
  | c :: rest =>
      if Qle_bool conf_threshold c
      then (c, i) :: confidence_pairs rest (S i) conf_threshold
      else confidence_pairs rest (S i) conf_threshold
  end.

Definition by_confidence_desc (a b : Q * nat) : bool :=
  negb (Qle_bool (fst a) (fst b)).

(** One pass of the inner loop body at position [j].  A lookup that fails
    stands for an access outside a vector; it cannot happen when every
    confidence has its box. *)
Definition inner_step (boxes : list Rect) (pairs : list (Q * nat))
    (nms_threshold : Q) (box_i : Rect) (suppressed : list bool) (j : nat)
  : list bool :=
  match suppressed !! j with
  | Some true => suppressed
  | _ =>
      match pairs !! j with
      | Some (_, idx_j) =>
          match boxes !! idx_j with
          | Some box_j =>
              if negb (Qle_bool (iou box_i box_j) nms_threshold)
              then <[j := true]> suppressed
              else suppressed
          | None => suppressed
          end
      | None => suppressed
      end
  end.

(** One pass of the outer loop body at position [i]; the state is
    [suppressed] and [indices]. *)
Definition outer_step (boxes : list Rect) (pairs : list (Q * nat))
    (nms_threshold : Q) (st : list bool * list nat) (i : nat)
  : list bool * list nat :=
  let '(suppressed, indices) := st in
  match suppressed !! i with
  | Some true => st
  | _ =>
      match pairs !! i with
      | Some (_, idx_i) =>
          let indices := indices ++ [idx_i] in
          match boxes !! idx_i with
          | Some box_i =>
              (fold_left (inner_step boxes pairs nms_threshold box_i)
                         (seq (S i) (length pairs - S i)) suppressed,
               indices)
          | None => (suppressed, indices)
          end
      | None => st
      end
  end.

(** The greedy pass over the sorted pairs. *)
Definition suppress (boxes : list Rect) (pairs : list (Q * nat))
    (nms_threshold : Q) : list bool * list nat :=
  fold_left (outer_step boxes pairs nms_threshold)
            (seq 0 (length pairs))
            (replicate (length pairs) false, []).

Definition SingleClassNMS (boxes : list Rect) (confidences : list Q)
    (conf_threshold nms_threshold : Q) : list nat :=
  let confidence_index_pairs :=
    confidence_pairs confidences 0 conf_threshold in
  match confidence_index_pairs with
  | [] => []
  | _ =>
      let confidence_index_pairs :=
        std_sort by_confidence_desc confidence_index_pairs in
      snd (suppress boxes confidence_index_pairs nms_threshold)
  end.

End BallImageProc.

(** ** The spin analyzer *)

Module SpinAnalyzer.
Import CvUtils.

(** Sentinel for pixels that take no part in a comparison. *)
Definition kPixelIgnoreValue : Z := 128.

Definition px_at {A : Type} (img : list (list A)) (x y : nat) : option A :=
  match img !! x with
  | Some row => row !! y
  | None => None
  end.

(** [img.at<T>(x, y) = v]; a position outside the image is not written. *)
Definition set_px {A : Type} (img : list (list A)) (x y : nat) (v : A)
  : list (list A) :=
  match img !! x with
  | Some row => <[x := <[y := v]> row]> img
  | None => img
  end.

(** *** Gabor threshold *)

(** [cv::threshold(src, dst, thresh, maxval, cv::THRESH_BINARY)] on an
    8-bit image. *)
Definition cv_threshold_binary (thresh maxval : Z) (src : list (list Z))
  : list (list Z) :=
  map (map (fun p => if p >? thresh then maxval else 0)) src.

Definition countNonZero (img : list (list Z)) : Z :=
  Z.of_nat (length (filter (fun p => p ≠ 0) (concat img))).

Definition image_rows {A : Type} (img : list (list A)) : Z :=
  Z.of_nat (length img).

Definition image_cols {A : Type} (img : list (list A)) : Z :=
  match img with
  | [] => 0
  | row :: _ => Z.of_nat (length row)
  end.

(** [accumGray] is the 8-bit image of the maximal response over the 32
    Gabor orientations ([filter2D], [max], [convertTo]), the part of
    [ApplyTestGaborFilter] that depends on pixel data only.  The result is
    [dimpleEdges] and [white_percent]. *)
Definition ApplyTestGaborFilter (accumGray : list (list Z))
    (binary_threshold : Q) : list (list Z) * Z :=
  let edgeThresholdLow := std_round (binary_threshold * 10)%Q in
  let edgeThresholdHigh := 255 in
  let dimpleEdges :=
    cv_threshold_binary edgeThresholdLow edgeThresholdHigh accumGray in
  let white_percent :=
    std_round
      ((inject_Z (countNonZero dimpleEdges) * 100)
       / (inject_Z (image_rows dimpleEdges)
          * inject_Z (image_cols dimpleEdges)))%Q in
  (dimpleEdges, white_percent).

(** *** Reflections and the ball-edge mask *)

(** [morph] is the closed and dilated mask of the over-bright pixels of
    the original image. *)
Definition RemoveReflections (morph filtered_image : list (list Z))
  : list (list Z) :=
  imap (fun x row =>
          imap (fun y p =>
                  match px_at morph x y with
                  | Some p1 => if p1 =? 255 then kPixelIgnoreValue else p
                  | None => p
                  end) row)
       filtered_image.

(** [in_circle x y] tells whether [cv::circle] (filled, centre the ball,
    radius [mask_radius]) paints the pixel.  The image is masked with the
    white disc ([bitwise_and]) and then combined ([bitwise_xor]) with the
    rectangle of [maskValue] that has the black disc cut out. *)
Definition MaskAreaOutsideBall (in_circle : nat -> nat -> bool)
    (ball_image : list (list Z)) (maskValue : Z) : list (list Z) :=
  imap (fun x row =>
          imap (fun y p =>
                  let white_disc := if in_circle x y then 255 else 0 in
                  let result := Z.land p white_disc in
                  let maskImage := if in_circle x y then 0 else maskValue in
                  Z.lxor result maskImage) row)
       ball_image.

(** *** Projection onto the hemisphere *)

(** The geometry of one source pixel under one rotation, as
    [projectionOp::operator()] computes it with [getBallZ] and the sines
    and cosines of the rotation: whether the unrotated point misses the
    ball, [(int)ball3dZOfUnrotatedPoint], and, when the rotated point lands
    inside the image on the visible side, its rounded position and
    [(int)ball3dZOfRotatedPoint]. *)
Record ProjGeom := mkGeom {
  prerotatedPointNotValid : bool;
  unrotatedZ : Z;
  target : option (nat * nat * Z)
}.

Definition projectionOp (geom : nat -> nat -> ProjGeom)
    (projectedImg_ : list (list (Z * Z))) (pixelValue : Z) (x y : nat)
  : list (list (Z * Z)) :=
  let g := geom x y in
  let img1 :=
    if prerotatedPointNotValid g
    then set_px projectedImg_ x y (unrotatedZ g, kPixelIgnoreValue)
    else projectedImg_ in
  match target g with
  | Some (roundedImageX, roundedImageY, z) =>
      set_px img1 roundedImageX roundedImageY
             (z, if prerotatedPointNotValid g then kPixelIgnoreValue
                 else pixelValue)
  | None => img1
  end.

(** [image_gray.forEach<uchar>(projectionOp())] runs the callback once per
    pixel in an order the scheduler picks; [order] is that order. *)
Definition Project2dImageTo3dBall (geom : nat -> nat -> ProjGeom)
    (order : list (nat * nat)) (image_gray : list (list Z))
  : list (list (Z * Z)) :=
  let projectedImg :=
    map (map (fun _ : Z => (0, kPixelIgnoreValue))) image_gray in
  fold_left
    (fun acc pos =>
       match px_at image_gray (fst pos) (snd pos) with
       | Some pixel => projectionOp geom acc pixel (fst pos) (snd pos)
       | None => acc
       end)
    order projectedImg.

(** The value channel goes back into an 8-bit image ([int] to [uchar]). *)
Definition Unproject3dBallTo2dImage (src3D : list (list (Z * Z)))
    (destination_image_gray : list (list Z)) : list (list Z) :=
  imap (fun x row =>
          imap (fun y p =>
                  match px_at src3D x y with
                  | Some (_, pixelValue) => pixelValue mod 256
                  | None => p
                  end) row)
       destination_image_gray.

Definition GetRotatedImage (geom : nat -> nat -> ProjGeom)
    (order : list (nat * nat)) (gray_2D_input_image : list (list Z))
  : list (list Z) :=
  let ball3DImage :=
    Project2dImageTo3dBall geom order gray_2D_input_image in
  let outputGrayImg := map (map (fun _ : Z => 0)) gray_2D_input_image in
  Unproject3dBallTo2dImage ball3DImage outputGrayImg.

(** The dimple image of one ball as [GetBallRotation] prepares it: Gabor
    threshold, reflections, edge mask with the sentinel, perspective
    de-rotation. *)
Definition prepare_dimple_image (accumGray : list (list Z))
    (binary_threshold : Q) (morph : list (list Z))
    (in_circle : nat -> nat -> bool)
    (geom : nat -> nat -> ProjGeom) (order : list (nat * nat))
  : list (list Z) :=
  let dimpleEdges := fst (ApplyTestGaborFilter accumGray binary_threshold) in
  let dimpleEdges := RemoveReflections morph dimpleEdges in
  let dimpleEdges :=
    MaskAreaOutsideBall in_circle dimpleEdges kPixelIgnoreValue in
  GetRotatedImage geom order dimpleEdges.

(** *** Comparison of a candidate with the target *)

Definition compare_step (acc : Z * Z) (p : Z * Z) : Z * Z :=
  let '(score, totalPixelsExamined) := acc in
  let '(p1, p2) := p in
  if negb (p1 =? kPixelIgnoreValue) && negb (p2 =? kPixelIgnoreValue) then
    (if p1 =? p2 then score + 1 else score, totalPixelsExamined + 1)
  else acc.

(** The pixel pairs in the order the two loops visit them; [p2] is the
    value channel read into a [uchar]. *)
Definition pixel_pairs (img1 : list (list Z)) (img2 : list (list (Z * Z)))
  : list (Z * Z) :=
  concat (zip_with (zip_with (fun p1 q => (p1, snd q mod 256))) img1 img2).

(** The [CV_Assert] at the head of [CompareRotationImage]:
    [img1.rows == img2.rows && img1.rows == img2.cols]. *)
Definition comparison_asserts {A B : Type} (img1 : list (list A))
    (img2 : list (list B)) : bool :=
  (image_rows img1 =? image_rows img2)
  && (image_rows img1 =? image_cols img2).

(** Result of the two loops: [(score, totalPixelsExamined)].  The
    [CV_Assert] that precedes them is [comparison_asserts]; it is checked
    where the comparison is run over the candidates, in [search_pass]. *)
Definition CompareRotationImage (img1 : list (list Z))
    (img2 : list (list (Z * Z))) : Z * Z :=
  fold_left compare_step (pixel_pairs img1 img2) (0, 0).

(** *** Rotation candidates *)

Record RotationSearchSpace := mkSpace {
  anglex_rotation_degrees_increment : Z;
  anglex_rotation_degrees_start : Z;
  anglex_rotation_degrees_end : Z;
  angley_rotation_degrees_increment : Z;
  angley_rotation_degrees_start : Z;
  angley_rotation_degrees_end : Z;
  anglez_rotation_degrees_increment : Z;
  anglez_rotation_degrees_start : Z;
  anglez_rotation_degrees_end : Z
}.

(** [index] is a [short].  [score] is a [double]; [None] stands for the
    NaN that [0. / 0.] yields. *)
Record RotationCandidate := mkCandidate {
  index : Z;
  img : list (list (Z * Z));
  x_rotation_degrees : Z;
  y_rotation_degrees : Z;
  z_rotation_degrees : Z;
  pixels_examined : Z;
  pixels_matching : Z;
  score : option Q
}.

(** [(int)std::ceil((end - start) / increment) + 1]: the operands are
    [int], so the quotient is the truncating integer quotient and
    [std::ceil] receives a whole number.  (A zero increment is a division
    by zero in the source.) *)
Definition axis_size (angle_start angle_end increment : Z) : Z :=
  Z.quot (angle_end - angle_start) increment + 1.

(** The values one axis loop [for (v = start; v <= end; v += increment)]
    runs through, from [v] on; [None] when it is still running after
    [fuel] rounds. *)
Fixpoint axis_values (fuel : nat) (v angle_end increment : Z)
  : option (list Z) :=
  if v <=? angle_end then
    match fuel with
    | O => None
    | S fuel' => cons v <$> axis_values fuel' (v + increment) angle_end increment
    end
  else Some [].

(** The rotations of the three nested loops, in the order they are
    visited, each with its position [(xIndex, yIndex, zIndex)]. *)
Definition rotation_grid (xs ys zs : list Z)
  : list ((nat * nat * nat) * (Z * Z * Z)) :=
  concat (imap (fun xi x =>
    concat (imap (fun yi y =>
      imap (fun zi z => ((xi, yi, zi), (x, y, z))) zs) ys)) xs).

(** Outputs of [ComputeCandidateAngleImages]. *)
Record CandidateAngleImages := mkImages {
  output_candidate_elements_mat_size : Z * Z * Z;
  outputCandidateElementsMat : list ((nat * nat * nat) * Z);
  output_candidates : list RotationCandidate
}.

(** [geom r] is the projection geometry under the rotation [r] and
    [order r] the order in which [forEach] visits the pixels while the
    candidate for [r] is projected.  The counter [vectorIndex] is a
    [short]: a candidate's [index] is its position in the vector
    converted to [short], and the cell of the index matrix (of type
    [CV_16U]) holds that value converted to [ushort]. *)
Definition ComputeCandidateAngleImages (fuel : nat)
    (geom : Z * Z * Z -> nat -> nat -> ProjGeom)
    (order : Z * Z * Z -> list (nat * nat))
    (base_dimple_image : list (list Z))
    (search_space : RotationSearchSpace) : option CandidateAngleImages :=
  let xSize := axis_size (anglex_rotation_degrees_start search_space)
                         (anglex_rotation_degrees_end search_space)
                         (anglex_rotation_degrees_increment search_space) in
  let ySize := axis_size (angley_rotation_degrees_start search_space)
                         (angley_rotation_degrees_end search_space)
                         (angley_rotation_degrees_increment search_space) in
  let zSize := axis_size (anglez_rotation_degrees_start search_space)
                         (anglez_rotation_degrees_end search_space)
                         (anglez_rotation_degrees_increment search_space) in
  let sizes := (xSize, ySize, zSize) in
  let finish xs ys zs :=
    let grid := rotation_grid xs ys zs in
    mkImages sizes
      (imap (fun vectorIndex e =>
               (fst e, ushort_cast (short_cast (Z.of_nat vectorIndex))))
            grid)
      (imap (fun vectorIndex e =>
               let '(x, y, z) := snd e in
               mkCandidate (short_cast (Z.of_nat vectorIndex))
                 (Project2dImageTo3dBall (geom (x, y, z)) (order (x, y, z))
                                         base_dimple_image)
                 x y z 0 0 (Some 0%Q)) grid) in
  match axis_values fuel (anglex_rotation_degrees_start search_space)
                    (anglex_rotation_degrees_end search_space)
                    (anglex_rotation_degrees_increment search_space) with
  | None => None
  | Some [] => Some (finish [] [] [])
  | Some xs =>
      match axis_values fuel (angley_rotation_degrees_start search_space)
                        (angley_rotation_degrees_end search_space)
                        (angley_rotation_degrees_increment search_space) with
      | None => None
      | Some [] => Some (finish xs [] [])
      | Some ys =>
          match axis_values fuel
                  (anglez_rotation_degrees_start search_space)
                  (anglez_rotation_degrees_end search_space)
                  (anglez_rotation_degrees_increment search_space) with
          | None => None
          | Some zs => Some (finish xs ys zs)
          end
      end
  end.

(** What [ImgComparisonOp] stores into one candidate. *)
Definition compare_candidate (target_image : list (list Z))
    (c : RotationCandidate) : RotationCandidate :=
  let results := CompareRotationImage target_image (img c) in
  let scaledScore :=
    if snd results =? 0 then None
    else Some (inject_Z (fst results) / inject_Z (snd results))%Q in
  mkCandidate (index c) (img c) (x_rotation_degrees c)
              (y_rotation_degrees c) (z_rotation_degrees c)
              (snd results) (fst results) scaledScore.

(** First loop over the candidates: the largest [pixels_examined]. *)
Definition max_pixels_examined (candidates : list RotationCandidate) : Z :=
  fold_left (fun maxPixelsExamined c =>
               if pixels_examined c >? maxPixelsExamined
               then pixels_examined c else maxPixelsExamined)
            candidates (-1).

(** [(score * 10.) - low_count_penalty]; NaN stays NaN. *)
Definition final_scaled_score (maxPixelsExamined : Z)
    (c : RotationCandidate) : option Q :=
  let low_count_penalty :=
    (((inject_Z maxPixelsExamined - inject_Z (pixels_examined c)) / 500) ^ 2
     / 1000)%Q in
  match score c with
  | Some s => Some (s * 10 - low_count_penalty)%Q
  | None => None
  end.

(** Second loop: state [(maxScaledScore, maxScaledScoreIndex)]. *)
Definition best_step (maxPixelsExamined : Z) (st : Q * Z)
    (c : RotationCandidate) : Q * Z :=
  match final_scaled_score maxPixelsExamined c with
  | Some f => if negb (Qle_bool f (fst st)) then (f, index c) else st
  | None => st
  end.

(** The candidates after the comparison and [maxScaledScoreIndex].  The
    index matrix addresses every candidate once; the model visits them in
    list order. *)
Definition CompareCandidateAngleImages (target_image : list (list Z))
    (candidates : list RotationCandidate) : list RotationCandidate * Z :=
  let candidates := map (compare_candidate target_image) candidates in
  let maxPixelsExamined := max_pixels_examined candidates in
  (candidates,
   snd (fold_left (best_step maxPixelsExamined) candidates ((-1)%Q, -1))).

(** *** [GetBallRotation], from the coarse search on *)

Inductive Warning :=
| NoBestCandidateFound
| NoBestFinalCandidateFound.

(** Cosines and sines of [spin_offset_angle_radians_X] and [_Y]. *)
Record SpinOffsetTrig := mkTrig {
  cos_X : Q; sin_X : Q; cos_Y : Q; sin_Y : Q
}.

Definition fine_search_space (initialSearchSpace : RotationSearchSpace)
    (c : RotationCandidate) : RotationSearchSpace :=
  let anglex_window_width :=
    Qceiling (inject_Z (anglex_rotation_degrees_increment initialSearchSpace)
              / 2)%Q in
  let angley_window_width :=
    Qceiling (inject_Z (angley_rotation_degrees_increment initialSearchSpace)
              / 2)%Q in
  let anglez_window_width :=
    Qceiling (inject_Z (anglez_rotation_degrees_increment initialSearchSpace)
              / 2)%Q in
  mkSpace 1
          (x_rotation_degrees c - anglex_window_width)
          (x_rotation_degrees c + anglex_window_width)
          (std_round
             (inject_Z (angley_rotation_degrees_increment initialSearchSpace)
              / 2)%Q)
          (y_rotation_degrees c - angley_window_width)
          (y_rotation_degrees c + angley_window_width)
          1
          (z_rotation_degrees c - anglez_window_width)
          (z_rotation_degrees c + anglez_window_width).

(** The camera-frame normalisation and the sign convention on X. *)
Definition normalize_rotation (trig : SpinOffsetTrig)
    (best_rot : Z * Z * Z) : Z * Z * Z :=
  let '(best_rot_x, best_rot_y, best_rot_z) := best_rot in
  let normalized_rot_x :=
    std_round (inject_Z best_rot_x * cos_Y trig
               + inject_Z best_rot_z * sin_Y trig)%Q in
  let normalized_rot_y :=
    std_round (inject_Z best_rot_y * cos_X trig
               - inject_Z best_rot_z * sin_X trig)%Q in
  let normalized_rot_z :=
    std_round (inject_Z best_rot_z * cos_X trig * cos_Y trig)%Q
    - std_round (inject_Z best_rot_y * sin_X trig)%Q
    - std_round (inject_Z best_rot_x * sin_Y trig)%Q in
  (- normalized_rot_x, normalized_rot_y, normalized_rot_z).

Definition rotation_of (c : RotationCandidate) : Z * Z * Z :=
  (x_rotation_degrees c, y_rotation_degrees c, z_rotation_degrees c).

(** One search pass, [ComputeCandidateAngleImages] followed by
    [CompareCandidateAngleImages]: the candidates after the comparison and
    the winner's index.  [None] when an axis loop has not finished within
    [fuel] rounds, or when the [CV_Assert] of [CompareRotationImage] fails
    for a candidate: the exception is caught nowhere in
    [GetBallRotation]. *)
Definition search_pass (fuel : nat)
    (geom : Z * Z * Z -> nat -> nat -> ProjGeom)
    (order : Z * Z * Z -> list (nat * nat))
    (initialSearchSpace : RotationSearchSpace)
    (ball_image1DimpleEdges ball_image2DimpleEdges : list (list Z))
  : option (list RotationCandidate * Z) :=
  match ComputeCandidateAngleImages fuel geom order
          ball_image1DimpleEdges initialSearchSpace with
  | None => None
  | Some images =>
      if forallb (fun c => comparison_asserts ball_image2DimpleEdges (img c))
                 (output_candidates images)
      then Some (CompareCandidateAngleImages ball_image2DimpleEdges
                   (output_candidates images))
      else None
  end.

(** The two dimple images are the prepared ones; [initialSearchSpace] is
    filled from the static coarse settings; [order_coarse] and
    [order_fine] are the visiting orders of [forEach] in the two passes.
    The result is the returned vector and the warnings logged.  [None]: a
    search pass has no result (see [search_pass]), or a vector was indexed
    outside its bounds. *)
Definition GetBallRotation (fuel : nat)
    (geom : Z * Z * Z -> nat -> nat -> ProjGeom)
    (order_coarse order_fine : Z * Z * Z -> list (nat * nat))
    (trig : SpinOffsetTrig)
    (initialSearchSpace : RotationSearchSpace)
    (ball_image1DimpleEdges ball_image2DimpleEdges : list (list Z))
  : option ((Z * Z * Z) * list Warning) :=
  match search_pass fuel geom order_coarse initialSearchSpace
          ball_image1DimpleEdges ball_image2DimpleEdges with
  | None => None
  | Some (candidates, best_candidate_index) =>
      if best_candidate_index <? 0 then
        Some ((0, 0, 0), [NoBestCandidateFound])
      else
        match candidates !! Z.to_nat best_candidate_index with
        | None => None
        | Some c =>
            let finalSearchSpace :=
              fine_search_space initialSearchSpace c in
            match search_pass fuel geom order_fine finalSearchSpace
                    ball_image1DimpleEdges ball_image2DimpleEdges with
            | None => None
            | Some (finalCandidates, best_candidate_index) =>
                if best_candidate_index >=? 0 then
                  match finalCandidates !! Z.to_nat best_candidate_index with
                  | None => None
                  | Some finalC =>
                      Some (normalize_rotation trig (rotation_of finalC), [])
                  end
                else
                  Some (normalize_rotation trig (0, 0, 0),
                        [NoBestFinalCandidateFound])
            end
        end
  end.

End SpinAnalyzer.

(** ** Vocabulary of the statements *)

Module HoughSpec.
Import CircleOps.

(** For every circle of [cs] the list [cs'] holds a circle with the same
    integer centre whose rounded radius is at least as large. *)
Definition dominates (cs cs' : list GsCircle) : Prop :=
  forall c, c ∈ cs ->
    exists d, d ∈ cs' /\ CircleXY d = CircleXY c
              /\ rounded_radius c <= rounded_radius d.

(** None of the first [i] circles shares its integer centre with a circle
    that comes after it. *)
Fixpoint prefix_unique (i : nat) (cs : list GsCircle) : Prop :=
  match i, cs with
  | S i', c :: cs' =>
      Forall (fun d => CircleXY c <> CircleXY d) cs' /\ prefix_unique i' cs'
  | _, _ => True
  end.

End HoughSpec.

Module NmsSpec.
Import BallImageProc.

(** The box of the pair at position [p] of the sorted pairs. *)
Definition pair_box (boxes : list Rect) (pairs : list (Q * nat)) (p : nat)
  : option Rect :=
  match pairs !! p with
  | Some (_, idx) => boxes !! idx
  | None => None
  end.

(** The box at position [j] overlaps [box_i] by more than the threshold. *)
Definition hits (boxes : list Rect) (pairs : list (Q * nat))
    (nms_threshold : Q) (box_i : Rect) (j : nat) : bool :=
  match pair_box boxes pairs j with
  | Some box_j => negb (Qle_bool (iou box_i box_j) nms_threshold)
  | None => false
  end.

(** The state of the greedy pass when the positions below [i] are done. *)
Definition nms_invariant (boxes : list Rect) (pairs : list (Q * nat))
    (nms_threshold : Q) (i : nat) (st : list bool * list nat) : Prop :=
  length (fst st) = length pairs
  /\ (forall k, k ∈ snd st <->
                exists p c, (p < i)%nat /\ fst st !! p = Some false
                            /\ pairs !! p = Some (c, k))
  /\ (forall p q bp bq,
         (p < i)%nat -> (p < q)%nat ->
         fst st !! p = Some false -> fst st !! q = Some false ->
         pair_box boxes pairs p = Some bp ->
         pair_box boxes pairs q = Some bq ->
         Qle_bool (iou bp bq) nms_threshold = true)
  /\ (forall q, fst st !! q = Some true ->
         exists p bp bq,
           (p < q)%nat /\ (p < i)%nat /\ fst st !! p = Some false
           /\ pair_box boxes pairs p = Some bp
           /\ pair_box boxes pairs q = Some bq
           /\ Qle_bool (iou bp bq) nms_threshold = false).

(** Axis-aligned intersection area of two boxes. *)
Definition intersection_area (a b : Rect) : Z :=
  Z.max 0 (Z.min (rx a + rwidth a) (rx b + rwidth b) - Z.max (rx a) (rx b))
  * Z.max 0 (Z.min (ry a + rheight a) (ry b + rheight b)
             - Z.max (ry a) (ry b)).

(** Sum of the two areas minus the intersection. *)
Definition union_area (a b : Rect) : Z :=
  rwidth a * rheight a + rwidth b * rheight b - intersection_area a b.

(** Three boxes: the second overlaps the first, the third lies apart. *)
Definition three_boxes : list Rect :=
  [mkRect 0 0 10 10; mkRect 1 1 10 10; mkRect 100 100 10 10].

Definition three_confidences : list Q := [9 # 10; 8 # 10; 7 # 10].

End NmsSpec.

Module SpinSpec.
Import SpinAnalyzer.

(** A search space whose three axes run upward with a positive step. *)
Definition well_formed_space (s : RotationSearchSpace) : Prop :=
  0 < anglex_rotation_degrees_increment s
  /\ anglex_rotation_degrees_start s <= anglex_rotation_degrees_end s
  /\ 0 < angley_rotation_degrees_increment s
  /\ angley_rotation_degrees_start s <= angley_rotation_degrees_end s
  /\ 0 < anglez_rotation_degrees_increment s
  /\ anglez_rotation_degrees_start s <= anglez_rotation_degrees_end s.

(** Rounds that let every axis loop of a space run to its end. *)
Definition enough_fuel (s : RotationSearchSpace) (fuel : nat) : Prop :=
  anglex_rotation_degrees_end s - anglex_rotation_degrees_start s
    < Z.of_nat fuel
  /\ angley_rotation_degrees_end s - angley_rotation_degrees_start s
    < Z.of_nat fuel
  /\ anglez_rotation_degrees_end s - anglez_rotation_degrees_start s
    < Z.of_nat fuel.

(** The count the axis loop and the matrix dimension agree on:
    the integer quotient, plus one. *)
Definition axis_count (angle_start angle_end increment : Z) : Z :=
  (angle_end - angle_start) / increment + 1.

(** The count as the specification words it: the quotient rounded up,
    plus one. *)
Definition axis_count_rounded_up (angle_start angle_end increment : Z) : Z :=
  Qceiling (inject_Z (angle_end - angle_start) / inject_Z increment)%Q + 1.

(** The values a prepared dimple image may hold. *)
Definition is_dimple_value (v : Z) : Prop :=
  v = 0 \/ v = 255 \/ v = kPixelIgnoreValue.

Definition is_binary_value (v : Z) : Prop := v = 0 \/ v = 255.

(** Every pixel of an image satisfies [P]. *)
Definition all_pixels {A : Type} (P : A -> Prop) (img : list (list A))
  : Prop :=
  Forall (Forall P) img.

(** A pair that takes part in the comparison: neither side is the
    sentinel. *)
Definition compared (p : Z * Z) : Prop :=
  fst p <> kPixelIgnoreValue /\ snd p <> kPixelIgnoreValue.

#[global] Instance compared_dec (p : Z * Z) : Decision (compared p).
Proof. unfold compared. apply _. Defined.

Definition compared_equal (p : Z * Z) : Prop :=
  compared p /\ fst p = snd p.

#[global] Instance compared_equal_dec (p : Z * Z)
  : Decision (compared_equal p).
Proof. unfold compared_equal. apply _. Defined.

(** The number of candidates the three nested loops generate. *)
Definition candidate_count (s : RotationSearchSpace) : Z :=
  axis_count (anglex_rotation_degrees_start s)
             (anglex_rotation_degrees_end s)
             (anglex_rotation_degrees_increment s)
  * axis_count (angley_rotation_degrees_start s)
               (angley_rotation_degrees_end s)
               (angley_rotation_degrees_increment s)
  * axis_count (anglez_rotation_degrees_start s)
               (anglez_rotation_degrees_end s)
               (anglez_rotation_degrees_increment s).

(** Every position of the candidate vector is a value of the [short]
    counter: there are at most 2^15 candidates. *)
Definition fits_short (s : RotationSearchSpace) : Prop :=
  candidate_count s <= 32768.

(** An image of [n] rows of [n] pixels. *)
Definition square_image {A : Type} (n : nat) (img : list (list A)) : Prop :=
  length img = n /\ Forall (fun row => length row = n) img.

(** The projected image of a rotation is the same in both passes: as it
    is when [forEach] visits the pixels in the same order, or when no two
    pixels are written to the same position. *)
Definition same_projection
    (geom : Z * Z * Z -> nat -> nat -> ProjGeom)
    (order_coarse order_fine : Z * Z * Z -> list (nat * nat))
    (image : list (list Z)) : Prop :=
  forall r,
    Project2dImageTo3dBall (geom r) (order_fine r) image
    = Project2dImageTo3dBall (geom r) (order_coarse r) image.

(** The fine pass around any coarse winner runs to its end within [fuel]
    rounds per axis and has at most 2^15 candidates. *)
Definition fine_pass_fits (s : RotationSearchSpace) (fuel : nat) : Prop :=
  forall c, enough_fuel (fine_search_space s c) fuel
            /\ fits_short (fine_search_space s c).

(** What a search pass holds for the rotation [r] at position [k] of the
    candidate vector, once it is compared with the second image. *)
Definition compared_candidate
    (geom : Z * Z * Z -> nat -> nat -> ProjGeom)
    (order : Z * Z * Z -> list (nat * nat))
    (image1 image2 : list (list Z)) (k : nat) (r : Z * Z * Z)
  : RotationCandidate :=
  compare_candidate image2
    (mkCandidate (Z.of_nat k)
       (Project2dImageTo3dBall (geom r) (order r) image1)
       (fst (fst r)) (snd (fst r)) (snd r) 0 0 (Some 0%Q)).

(** A coarse space of 3 x 3 x 3 rotations. *)
Definition small_space : RotationSearchSpace :=
  mkSpace 6 (-6) 6 5 (-5) 5 6 (-6) 6.

(** A geometry in which every pixel is on the ball and stays where it
    is. *)
Definition facing_geometry (r : Z * Z * Z) (x y : nat) : ProjGeom :=
  mkGeom false 1 (Some (x, y, 1)).

(** The pixels of a two-by-two image, row by row. *)
Definition row_by_row (r : Z * Z * Z) : list (nat * nat) :=
  [(O, O); (O, 1%nat); (1%nat, O); (1%nat, 1%nat)].

(** Two-by-two dimple images: one with two edge pixels, one in which
    every pixel is masked. *)
Definition two_dimples : list (list Z) := [[255; 0]; [0; 255]].

Definition all_masked : list (list Z) := [[128; 128]; [128; 128]].

Definition no_offset : SpinOffsetTrig := mkTrig 1 0 1 0.

End SpinSpec.

Module ColorSpec.
Import ColorFilter.

Definition triplet_of (a b c : Z) : GsColorTriplet :=
  mkTriplet (inject_Z a) (inject_Z b) (inject_Z c).

Definition within (lo hi x : Z) : bool := (lo <=? x) && (x <=? hi).

(** Hue [h] lies in the hue range [L, U], where a range that leaves
    [0, 180] continues at the other end of the hue circle. *)
Definition hue_in_range (L U h : Z) : bool :=
  if (0 <=? L) && (U <=? 180) then within L U h
  else if L <? 0 then within 0 U h || within (180 + L) 180 h
  else within 0 (U - 180) h || within L 180 h.

(** Modelled from the spec: the pixel's HSV lies within
    [lower - w, upper + w], the upper bounds in S and V capped at 255 and
    the hue taken cyclically. *)
Definition in_widened_range (w lh ls lv uh us uv : Z) (p : HsvPixel) : bool :=
  hue_in_range (lh - w) (uh + w) (px_h p)
  && within (ls - w) (Z.min (us + w) 255) (px_s p)
  && within (lv - w) (Z.min (uv + w) 255) (px_v p).

(** Bounds small enough for single precision to hold them exactly. *)
Definition small_bound (z : Z) : Prop := Z.abs z <= 2 ^ 23.

End ColorSpec.

Module FacadeSpec.
Import BallDetectorFacade.

(** The smallest composite score of a non-empty candidate list. *)
Definition best_score (first : CircleCandidateListElement)
    (rest : list CircleCandidateListElement) : Q :=
  fold_left (fun m e =>
               if Qle_bool (calculated_color_difference e) m
               then calculated_color_difference e else m)
            rest (calculated_color_difference first).

(** The score does not exceed the limit. *)
Definition within_tolerance (limit : Q) (e : CircleCandidateListElement)
  : Prop :=
  Qle_bool (calculated_color_difference e) limit = true.

#[global] Instance within_tolerance_dec (limit : Q)
    (e : CircleCandidateListElement) : Decision (within_tolerance limit e).
Proof. unfold within_tolerance. apply _. Defined.

(** [n] circles with pairwise different centres and radius [r]. *)
Definition row_of_circles (n : nat) (r : Q) : list GsCircle :=
  map (fun i => mkCircle (inject_Z (Z.of_nat i)) 0 r) (seq 0 n).

(** Hough results for the externally-strobed defaults: 21 circles at the
    starting threshold 65, two at 69, none elsewhere. *)
Definition stuck_hough (param2 : Q) : list GsCircle :=
  if Qeq_bool param2 65 then row_of_circles 21 70
  else if Qeq_bool param2 69 then row_of_circles 2 70
  else [].

(** The loop state after the first pass over [stuck_hough]. *)
Definition stuck_state : LoopState :=
  mkLoop (row_of_circles 21 70) 69 false 0 false.

(** A reference ball with a known colour. *)
Definition white_ball : GolfBall :=
  mkBall 0 (mkCircle 0 0 0) 0
         (mkTriplet 200 200 200) (mkTriplet 200 200 200)
         (mkTriplet 10 10 10).

(** Seventeen circles of radius 5 followed by one of radius 20. *)
Definition tiny_then_ball : list GsCircle :=
  row_of_circles 17 5 ++ [mkCircle 100 100 20].

(** Every circle measures a mean colour at distance 3 from the expected
    one, with the expected deviation. *)
Definition near_white (c : GsCircle) : ColorMeasure :=
  mkMeasure (mkTriplet 203 200 200) 3 0 0.

(** Seventeen circles of radius 5 followed by two of radius 20 and 30. *)
Definition tiny_then_two_balls : list GsCircle :=
  row_of_circles 17 5 ++ [mkCircle 100 100 20; mkCircle 200 100 30].

(** Colour distances as 8-bit statistics yield them.
    [CvUtils::ColorDistance] is the Euclidean distance of two triplets
    (as its unit test fixes it); the mean colours lie in [0, 255] and the
    standard deviations in [0, 127.5] on each of the three channels, so
    the squared distance of the means is at most 3 * 255^2 and that of
    the deviations at most 3 * 127.5^2: the colour part of the score,
    avg^2 + 20 * std^2, is at most 1170450. *)
Definition attainable (measure : GsCircle -> ColorMeasure) : Prop :=
  forall c,
    (0 <= m_avg_diff (measure c) ^ 2 + 20 * m_std_diff (measure c) ^ 2)%Q
    /\ (m_avg_diff (measure c) ^ 2 + 20 * m_std_diff (measure c) ^ 2
        <= 1170450)%Q.

(** Two circles; the first, smaller one deviates more from the expected
    colour statistics than the second. *)
Definition two_circles : list GsCircle :=
  [mkCircle 50 50 20; mkCircle 90 50 30].

Definition first_is_worse (c : GsCircle) : ColorMeasure :=
  if CircleOps.rounded_radius c =? 20
  then mkMeasure (mkTriplet 200 200 200) 0 0 400
  else mkMeasure (mkTriplet 200 200 200) 0 0 273.

End FacadeSpec.

(** ** Vocabulary of the further statements *)

Module LoopSpec.
Import SearchStrategy BallDetectorFacade.

(** The number of circles one pass of the adaptive loop counts at the
    threshold [param2]: the Hough result after the concentric circles
    are removed. *)
Definition found (hough : Q -> list GsCircle) (param2 : Q) : Z :=
  Z.of_nat (length (HoughDetector.RemoveSmallestConcentricCircles
                      (hough param2))).

(** Passes that take the threshold from its start down to the lower
    limit, and one more. *)
Definition loosening_passes (params : DetectionParams) : nat :=
  S (Z.to_nat (Qceiling ((starting_param2 params - min_param2 params)
                         / param2_increment params))).

(** Passes that take the threshold from its start up to the upper limit,
    and one more. *)
Definition tightening_passes (params : DetectionParams) : nat :=
  S (Z.to_nat (Qceiling ((max_param2 params - starting_param2 params)
                         / param2_increment params))).

(** A threshold on the grid of step [2^c]: [n * 2^c] for a whole number
    [n] of magnitude below [2^52].  The sum and the difference of two
    such values are doubles, so that the loop forms them without a
    rounding error. *)
Definition on_grid (c : Z) (q : Q) : Prop :=
  exists n : Z, Z.abs n < 2 ^ 52 /\ (q == inject_Z n * 2 ^ c)%Q.

(** The starting threshold, its two limits and the step lie on one
    grid. *)
Definition exact_steps (params : DetectionParams) : Prop :=
  exists c : Z,
    on_grid c (starting_param2 params)
    /\ on_grid c (min_param2 params)
    /\ on_grid c (max_param2 params)
    /\ on_grid c (param2_increment params).

(** The circles [FilterAndScoreCandidates] looks at: the first
    [MAX_CIRCLES_TO_EVALUATE] whose rounded radius reaches
    [MIN_BALL_CANDIDATE_RADIUS]. *)
Definition eligible (circles : list GsCircle) : list GsCircle :=
  filter (fun c => MIN_BALL_CANDIDATE_RADIUS <= CircleOps.rounded_radius c)
         (take (Z.to_nat MAX_CIRCLES_TO_EVALUATE) circles).

(** What every state of the adaptive loop satisfies: the reported count
    is the length of the kept circles once the loop is done and still 0
    before, and the kept circles are nothing or a deduplicated Hough
    result. *)
Definition loop_invariant (hough : Q -> list GsCircle) (st : LoopState)
  : Prop :=
  finalNumberOfFoundCircles st
  = (if done st then Z.of_nat (length (circles st)) else 0)
  /\ (circles st = []
      \/ exists p, circles st
                   = HoughDetector.RemoveSmallestConcentricCircles
                       (hough p)).

(** The loop is in its loosening phase, or has kept no circles yet. *)
Definition loosening_phase (st : LoopState) : Prop :=
  currentlyLooseningSearch st = true \/ circles st = [].

End LoopSpec.

(** ** ROIManager *)

Module ROIManager.
Import CvUtils BallImageProc.

(** [cv::Rect(pt1, pt2)]: the rectangle spanned by two corner points,
    whichever order they come in. *)
Definition rect_of_points (pt1 pt2 : Z * Z) : Rect :=
  let x := Z.min (fst pt1) (fst pt2) in
  let y := Z.min (snd pt1) (snd pt2) in
  mkRect x y (Z.max (fst pt1) (fst pt2) - x)
             (Z.max (snd pt1) (snd pt2) - y).

(** [img_cols] and [img_rows] are [img.cols] and [img.rows]. *)
Definition GetAreaOfInterest (ball : GolfBall) (img_cols img_rows : Z)
  : Rect :=
  let x := int_cast (c0 (ball_circle_ ball)) in
  let y := int_cast (c1 (ball_circle_ ball)) in
  let r := int_cast (c2 (ball_circle_ ball)) in
  let xmin := Z.max x 0 in
  let xmax := Z.min (x + 10 * r) img_cols in
  let ymin := Z.max (y - 6 * r) 0 in
  let ymax := Z.min (y + int_cast (inject_Z r * (3 # 2))) img_rows in
  rect_of_points (xmin, ymin) (xmax, ymax).

End ROIManager.

(** ** SpinAnalyzer: brightness statistics, threshold calibration, ball
    isolation *)

Module SpinImage.
Import CvUtils BallImageProc SpinAnalyzer.

(** [cv::calcHist] over the one channel of an 8-bit image, 256 uniform
    bins on [0, 256): bin [i] counts the pixels of value [i].  (The bins
    are stored as [float] and read back with [cvRound]; counts below
    2^24 survive that unchanged.) *)
Definition calcHist (img : list (list Z)) : list Z :=
  map (fun i => Z.of_nat (length (filter (fun p => p = Z.of_nat i)
                                         (concat img))))
      (seq 0 256).

(** The scan [while (i >= 0 && !foundPercentPoint)], entered with
    [i = k - 1]; the result is [brightness_cutoff] (the value [i + 1]
    when the loop is left) and [highest_brightness]. *)
Fixpoint brightness_scan (b_hist : list Z) (targetPoints : Q) (k : nat)
    (accum highest_brightness : Z) : Z * Z :=
  match k with
  | O => (0, highest_brightness)
  | S i =>
      let numPixelsInBin := default 0 (b_hist !! i) in
      let accum := accum + numPixelsInBin in
      let foundPercentPoint := Qle_bool targetPoints (inject_Z accum) in
      let highest_brightness :=
        if (highest_brightness <? 0) && (numPixelsInBin >? 0)
        then Z.of_nat i else highest_brightness in
      if foundPercentPoint then (Z.of_nat i, highest_brightness)
      else brightness_scan b_hist targetPoints i accum highest_brightness
  end.

(** The outputs [brightness_cutoff] and [highest_brightness];
    [lowest_brightness] is never written. *)
Definition GetImageCharacteristics (img : list (list Z))
    (brightness_percentage : Z) : Z * Z :=
  let b_hist := calcHist img in
  let totalPoints := image_rows img * image_cols img in
  let targetPoints :=
    (inject_Z totalPoints * inject_Z (100 - brightness_percentage)
     / 100)%Q in
  brightness_scan b_hist targetPoints 256 0 (-1).

(** The starting [binary_threshold] ([GS_USING_IMAGE_EQ] is defined). *)
Definition kDefaultBinaryThreshold : Q := 11.

(** The loop [while (white_percent < kGaborMinWhitePercent ||
    white_percent >= kGaborMaxWhitePercent)] of
    [ApplyGaborFilterToBall].  The result is [dimpleImg],
    [binary_threshold] and [white_percent] when the loop is left;
    [None] when it is still running after [fuel] rounds. *)
Fixpoint gabor_calibration (fuel : nat) (accumGray : list (list Z))
    (kGaborMinWhitePercent kGaborMaxWhitePercent : Z)
    (ratheting_threshold_down : bool) (binary_threshold : Q)
    (white_percent : Z) (dimpleImg : list (list Z))
  : option (list (list Z) * Q * Z) :=
  if (white_percent <? kGaborMinWhitePercent)
     || (white_percent >=? kGaborMaxWhitePercent) then
    match fuel with
    | O => None
    | S fuel' =>
        let binary_threshold :=
          if ratheting_threshold_down then
            if kGaborMinWhitePercent - white_percent >? 5
            then (binary_threshold - 1)%Q
            else (binary_threshold - (1 # 2))%Q
          else
            if white_percent - kGaborMaxWhitePercent >? 5
            then (binary_threshold + 1)%Q
            else (binary_threshold + (1 # 2))%Q in
        let r := ApplyTestGaborFilter accumGray binary_threshold in
        if negb (Qle_bool binary_threshold 30)
           || negb (Qle_bool 2 binary_threshold)
        then Some (fst r, binary_threshold, snd r)
        else gabor_calibration fuel' accumGray kGaborMinWhitePercent
               kGaborMaxWhitePercent ratheting_threshold_down
               binary_threshold (snd r) (fst r)
    end
  else Some (dimpleImg, binary_threshold, white_percent).

(** [accumGray] is the Gabor response of the ball image (see
    [ApplyTestGaborFilter]); the two white-percent limits are the static
    members of [SpinAnalyzer].  The result is the returned dimple image
    and [calibrated_binary_threshold] as the call leaves it. *)
Definition ApplyGaborFilterToBall (fuel : nat)
    (accumGray : list (list Z))
    (kGaborMinWhitePercent kGaborMaxWhitePercent : Z)
    (calibrated_binary_threshold prior_binary_threshold : Q)
  : option (list (list Z) * Q) :=
  let binary_threshold :=
    if negb (Qle_bool prior_binary_threshold 0)
    then prior_binary_threshold else kDefaultBinaryThreshold in
  let r := ApplyTestGaborFilter accumGray binary_threshold in
  let white_percent := snd r in
  let ratheting_threshold_down :=
    white_percent <? kGaborMinWhitePercent in
  if negb (Qle_bool 0 prior_binary_threshold)
     && ((white_percent <? kGaborMinWhitePercent)
         || (white_percent >=? kGaborMaxWhitePercent)) then
    match gabor_calibration fuel accumGray kGaborMinWhitePercent
            kGaborMaxWhitePercent ratheting_threshold_down
            binary_threshold white_percent (fst r) with
    | Some (dimpleImg, binary_threshold, _) =>
        Some (dimpleImg, binary_threshold)
    | None => None
    end
  else Some (fst r, calibrated_binary_threshold).

(** The two calls in [GetBallRotation]: the first ball is filtered
    without a prior threshold, the second with whatever the first call
    left in [calibrated_binary_threshold] (initially 0). *)
Definition dimple_edges_of_both_balls (fuel : nat)
    (accumGray1 accumGray2 : list (list Z))
    (kGaborMinWhitePercent kGaborMaxWhitePercent : Z)
  : option (list (list Z) * list (list Z)) :=
  let calibrated_binary_threshold := 0%Q in
  match ApplyGaborFilterToBall fuel accumGray1 kGaborMinWhitePercent
          kGaborMaxWhitePercent calibrated_binary_threshold (-1) with
  | None => None
  | Some (ball_image1DimpleEdges, calibrated_binary_threshold) =>
      match ApplyGaborFilterToBall fuel accumGray2 kGaborMinWhitePercent
              kGaborMaxWhitePercent calibrated_binary_threshold
              calibrated_binary_threshold with
      | None => None
      | Some (ball_image2DimpleEdges, _) =>
          Some (ball_image1DimpleEdges, ball_image2DimpleEdges)
      end
  end.

(** The rectangle [IsolateBall] cuts out, from the clamping on: [x1] and
    [y1] are [ball.x() - r1] and [ball.y() - r1], [r1] the radius
    enlarged by 5 percent and rounded. *)
Definition IsolateBall_rect (x1 y1 r1 img_cols img_rows : Z) : Rect :=
  let x_width := 2 * r1 in
  let y_height := 2 * r1 in
  let x1 := Z.max 0 x1 in
  let y1 := Z.max 0 y1 in
  let x1 := if x1 + x_width >=? img_cols
            then img_cols - x_width - 1 else x1 in
  let y1 := if y1 + y_height >=? img_rows
            then img_rows - y_height - 1 else y1 in
  mkRect x1 y1 x_width y_height.

End SpinImage.

Module SpinImageSpec.
Import SpinAnalyzer.

(** All rows of the image have the width of the first, and every pixel
    is an 8-bit value. *)
Definition gray_image (img : list (list Z)) : Prop :=
  Forall (fun row => Z.of_nat (length row) = image_cols img) img
  /\ Forall (Forall (fun p => 0 <= p <= 255)) img.

(** The number of pixels at least as bright as [c]. *)
Definition count_at_least (img : list (list Z)) (c : Z) : Z :=
  Z.of_nat (length (filter (fun p => c <= p) (concat img))).

(** The share of the pixels that [GetImageCharacteristics] looks for. *)
Definition target_points (img : list (list Z)) (brightness_percentage : Z)
  : Q :=
  (inject_Z (image_rows img * image_cols img)
   * inject_Z (100 - brightness_percentage) / 100)%Q.

(** The state of the scan when the bins from [k] upward are done:
    [highest] is -1 and no pixel is as bright as [k], or it is the
    brightest value of the image and at least [k]. *)
Definition brightest_from (pixels : list Z) (k : Z) (highest : Z) : Prop :=
  (highest = -1 /\ Forall (fun p => p < k) pixels)
  \/ (k <= highest /\ highest ∈ pixels
      /\ Forall (fun p => p <= highest) pixels).

(** A two-by-two image whose brightest pixel is 200. *)
Definition four_pixels : list (list Z) := [[10; 20]; [30; 200]].

(** The white share lies in the wanted band. *)
Definition balanced (kGaborMinWhitePercent kGaborMaxWhitePercent : Z)
    (white_percent : Z) : Prop :=
  kGaborMinWhitePercent <= white_percent < kGaborMaxWhitePercent.

(** The rectangle lies inside an image of the given size. *)
Definition inside_image (r : BallImageProc.Rect) (img_cols img_rows : Z)
  : Prop :=
  0 <= BallImageProc.rx r /\ 0 <= BallImageProc.ry r
  /\ 0 <= BallImageProc.rwidth r /\ 0 <= BallImageProc.rheight r
  /\ BallImageProc.rx r + BallImageProc.rwidth r <= img_cols
  /\ BallImageProc.ry r + BallImageProc.rheight r <= img_rows.

End SpinImageSpec.

(** ** HoughDetector: the configurable settings *)

Module HoughSettings.

(** The static members of [HoughDetector] that the parameter selection
    and the preprocessing read.  They are variables, not constants: the
    configuration may overwrite them. *)
Record Settings := mkSettings {
  kPlacedBallCannyLower : Q;
  kPlacedBallCannyUpper : Q;
  kPlacedBallStartingParam2 : Q;
  kPlacedBallMinParam2 : Q;
  kPlacedBallMaxParam2 : Q;
  kPlacedBallCurrentParam1 : Q;
  kPlacedBallParam2Increment : Q;
  kPlacedMinHoughReturnCircles : Z;
  kPlacedMaxHoughReturnCircles : Z;
  kPlacedPreHoughBlurSize : Z;
  kPlacedPreCannyBlurSize : Z;
  kPlacedBallHoughDpParam1 : Q;
  kStrobedBallsCannyLower : Q;
  kStrobedBallsCannyUpper : Q;
  kStrobedBallsPreCannyBlurSize : Z;
  kStrobedBallsPreHoughBlurSize : Z;
  kStrobedBallsStartingParam2 : Q;
  kStrobedBallsMinParam2 : Q;
  kStrobedBallsMaxParam2 : Q;
  kStrobedBallsCurrentParam1 : Q;
  kStrobedBallsParam2Increment : Q;
  kStrobedBallsMinHoughReturnCircles : Z;
  kStrobedBallsMaxHoughReturnCircles : Z;
  kStrobedBallsHoughDpParam1 : Q;
  kStrobedBallsUseAltHoughAlgorithm : bool;
  kStrobedBallsAltCannyLower : Q;
  kStrobedBallsAltCannyUpper : Q;
  kStrobedBallsAltPreCannyBlurSize : Z;
  kStrobedBallsAltPreHoughBlurSize : Z;
  kStrobedBallsAltStartingParam2 : Q;
  kStrobedBallsAltMinParam2 : Q;
  kStrobedBallsAltMaxParam2 : Q;
  kStrobedBallsAltCurrentParam1 : Q;
  kStrobedBallsAltHoughDpParam1 : Q;
  kStrobedBallsAltParam2Increment : Q;
  kUseCLAHEProcessing : bool;
  kCLAHEClipLimit : Z;
  kCLAHETilesGridSize : Z;
  kPuttingBallStartingParam2 : Q;
  kPuttingBallMinParam2 : Q;
  kPuttingBallMaxParam2 : Q;
  kPuttingBallCurrentParam1 : Q;
  kPuttingBallParam2Increment : Q;
  kPuttingMinHoughReturnCircles : Z;
  kPuttingMaxHoughReturnCircles : Z;
  kPuttingPreHoughBlurSize : Z;
  kPuttingHoughDpParam1 : Q;
  kExternallyStrobedEnvCannyLower : Q;
  kExternallyStrobedEnvCannyUpper : Q;
  kExternallyStrobedEnvCurrentParam1 : Q;
  kExternallyStrobedEnvMinParam2 : Q;
  kExternallyStrobedEnvMaxParam2 : Q;
  kExternallyStrobedEnvStartingParam2 : Q;
  kExternallyStrobedEnvNarrowingParam2 : Q;
  kExternallyStrobedEnvNarrowingDpParam : Q;
  kExternallyStrobedEnvParam2Increment : Q;
  kExternallyStrobedEnvMinHoughReturnCircles : Z;
  kExternallyStrobedEnvMaxHoughReturnCircles : Z;
  kExternallyStrobedEnvPreHoughBlurSize : Z;
  kExternallyStrobedEnvPreCannyBlurSize : Z;
  kExternallyStrobedEnvHoughDpParam1 : Q;
  kExternallyStrobedEnvMinimumSearchRadius : Z;
  kExternallyStrobedEnvMaximumSearchRadius : Z;
  kStrobedNarrowingRadiiDpParam : Q;
  kStrobedNarrowingRadiiParam2 : Q;
  kExternallyStrobedEnvNarrowingPreCannyBlurSize : Z;
  kExternallyStrobedEnvNarrowingPreHoughBlurSize : Z;
  kExternallyStrobedUseCLAHEProcessing : bool;
  kExternallyStrobedCLAHEClipLimit : Z;
  kExternallyStrobedCLAHETilesGridSize : Z;
  kUseDynamicRadiiAdjustment : bool;
  kNumberRadiiToAverageForDynamicAdjustment : Z;
  kStrobedNarrowingRadiiMinRatio : Q;
  kStrobedNarrowingRadiiMaxRatio : Q;
  kPlacedNarrowingRadiiMinRatio : Q;
  kPlacedNarrowingRadiiMaxRatio : Q;
  kPlacedNarrowingStartingParam2 : Q;
  kPlacedNarrowingRadiiDpParam : Q;
  kPlacedNarrowingParam1 : Q
}.

(** The values the members are initialised with in
    [hough_detector.cpp]. *)
Definition initial_settings : Settings :=
  mkSettings
    0 0 40 30 60 120 4 1 4 11 5 (3 # 2) 50 110 5 13 40 30 60 120 4 1 12
    (3 # 2) true 35 70 11 16 (95 # 100) (6 # 10) 1 130 (3 # 2) (5 # 100)
    false 0 0 40 30 60 120 4 1 12 9 (3 # 2) 35 80 130 28 100 65 (6 # 10)
    (11 # 10) 4 3 20 11 3 1 60 80 (18 # 10) 100 3 9 true 6 6 true 3
    (8 # 10) (12 # 10) (9 # 10) (11 # 10) 80 2 130.

End HoughSettings.

(** ** SearchStrategy: the whole parameter bundle *)

Module SearchParams.
Import HoughSettings.

(** [SearchStrategy::DetectionParams] with all its fields. *)
Record DetectionParams := mkDetectionParams {
  hough_dp_param1 : Q;
  canny_lower : Q;
  canny_upper : Q;
  param1 : Q;
  starting_param2 : Q;
  min_param2 : Q;
  max_param2 : Q;
  param2_increment : Q;
  min_hough_return_circles : Z;
  max_hough_return_circles : Z;
  pre_canny_blur_size : Z;
  pre_hough_blur_size : Z;
  use_clahe : bool;
  clahe_clip_limit : Z;
  clahe_tiles_grid_size : Z;
  minimum_search_radius : Z;
  maximum_search_radius : Z;
  narrowing_radii_min_ratio : Q;
  narrowing_radii_max_ratio : Q;
  narrowing_starting_param2 : Q;
  narrowing_radii_dp_param : Q;
  narrowing_param1 : Q;
  narrowing_radii_param2 : Q;
  narrowing_pre_canny_blur_size : Z;
  narrowing_pre_hough_blur_size : Z;
  use_dynamic_radii_adjustment : bool;
  num_radii_to_average : Z
}.

Definition placed_ball_params (cfg : Settings) : DetectionParams :=
  {| hough_dp_param1 := kPlacedBallHoughDpParam1 cfg;
     canny_lower := kPlacedBallCannyLower cfg;
     canny_upper := kPlacedBallCannyUpper cfg;
     param1 := kPlacedBallCurrentParam1 cfg;
     starting_param2 := kPlacedBallStartingParam2 cfg;
     min_param2 := kPlacedBallMinParam2 cfg;
     max_param2 := kPlacedBallMaxParam2 cfg;
     param2_increment := kPlacedBallParam2Increment cfg;
     min_hough_return_circles := kPlacedMinHoughReturnCircles cfg;
     max_hough_return_circles := kPlacedMaxHoughReturnCircles cfg;
     pre_canny_blur_size := kPlacedPreCannyBlurSize cfg;
     pre_hough_blur_size := kPlacedPreHoughBlurSize cfg;
     use_clahe := kUseCLAHEProcessing cfg;
     clahe_clip_limit := kCLAHEClipLimit cfg;
     clahe_tiles_grid_size := kCLAHETilesGridSize cfg;
     minimum_search_radius := -1;
     maximum_search_radius := -1;
     narrowing_radii_min_ratio := kPlacedNarrowingRadiiMinRatio cfg;
     narrowing_radii_max_ratio := kPlacedNarrowingRadiiMaxRatio cfg;
     narrowing_starting_param2 := kPlacedNarrowingStartingParam2 cfg;
     narrowing_radii_dp_param := kPlacedNarrowingRadiiDpParam cfg;
     narrowing_param1 := kPlacedNarrowingParam1 cfg;
     narrowing_radii_param2 := 0;
     narrowing_pre_canny_blur_size := kPlacedPreCannyBlurSize cfg;
     narrowing_pre_hough_blur_size := kPlacedPreHoughBlurSize cfg;
     use_dynamic_radii_adjustment := kUseDynamicRadiiAdjustment cfg;
     num_radii_to_average :=
       kNumberRadiiToAverageForDynamicAdjustment cfg |}.

(** [cfg] holds the static members of [HoughDetector] at the time of the
    call. *)
Definition GetParamsForMode (cfg : Settings) (mode : SearchStrategy.Mode)
  : DetectionParams :=
  match mode with
  | SearchStrategy.kFindPlacedBall => placed_ball_params cfg
  | SearchStrategy.kStrobed =>
      let alt := kStrobedBallsUseAltHoughAlgorithm cfg in
      let pre_canny :=
        if alt then kStrobedBallsAltPreCannyBlurSize cfg
        else kStrobedBallsPreCannyBlurSize cfg in
      let pre_hough :=
        if alt then kStrobedBallsAltPreHoughBlurSize cfg
        else kStrobedBallsPreHoughBlurSize cfg in
      {| hough_dp_param1 :=
           if alt then kStrobedBallsAltHoughDpParam1 cfg
           else kStrobedBallsHoughDpParam1 cfg;
         canny_lower :=
           if alt then kStrobedBallsAltCannyLower cfg
           else kStrobedBallsCannyLower cfg;
         canny_upper :=
           if alt then kStrobedBallsAltCannyUpper cfg
           else kStrobedBallsCannyUpper cfg;
         param1 :=
           if alt then kStrobedBallsAltCurrentParam1 cfg
           else kStrobedBallsCurrentParam1 cfg;
         starting_param2 :=
           if alt then kStrobedBallsAltStartingParam2 cfg
           else kStrobedBallsStartingParam2 cfg;
         min_param2 :=
           if alt then kStrobedBallsAltMinParam2 cfg
           else kStrobedBallsMinParam2 cfg;
         max_param2 :=
           if alt then kStrobedBallsAltMaxParam2 cfg
           else kStrobedBallsMaxParam2 cfg;
         param2_increment :=
           if alt then kStrobedBallsAltParam2Increment cfg
           else kStrobedBallsParam2Increment cfg;
         min_hough_return_circles := kStrobedBallsMinHoughReturnCircles cfg;
         max_hough_return_circles := kStrobedBallsMaxHoughReturnCircles cfg;
         pre_canny_blur_size := pre_canny;
         pre_hough_blur_size := pre_hough;
         use_clahe := kUseCLAHEProcessing cfg;
         clahe_clip_limit := kCLAHEClipLimit cfg;
         clahe_tiles_grid_size := kCLAHETilesGridSize cfg;
         minimum_search_radius := -1;
         maximum_search_radius := -1;
         narrowing_radii_min_ratio := kStrobedNarrowingRadiiMinRatio cfg;
         narrowing_radii_max_ratio := kStrobedNarrowingRadiiMaxRatio cfg;
         narrowing_starting_param2 := 0;
         narrowing_radii_dp_param := kStrobedNarrowingRadiiDpParam cfg;
         narrowing_param1 := 0;
         narrowing_radii_param2 := kStrobedNarrowingRadiiParam2 cfg;
         narrowing_pre_canny_blur_size := pre_canny;
         narrowing_pre_hough_blur_size := pre_hough;
         use_dynamic_radii_adjustment := kUseDynamicRadiiAdjustment cfg;
         num_radii_to_average :=
           kNumberRadiiToAverageForDynamicAdjustment cfg |}
  | SearchStrategy.kExternallyStrobed =>
      {| hough_dp_param1 := kExternallyStrobedEnvHoughDpParam1 cfg;
         canny_lower := kExternallyStrobedEnvCannyLower cfg;
         canny_upper := kExternallyStrobedEnvCannyUpper cfg;
         param1 := kExternallyStrobedEnvCurrentParam1 cfg;
         starting_param2 := kExternallyStrobedEnvStartingParam2 cfg;
         min_param2 := kExternallyStrobedEnvMinParam2 cfg;
         max_param2 := kExternallyStrobedEnvMaxParam2 cfg;
         param2_increment := kExternallyStrobedEnvParam2Increment cfg;
         min_hough_return_circles :=
           kExternallyStrobedEnvMinHoughReturnCircles cfg;
         max_hough_return_circles :=
           kExternallyStrobedEnvMaxHoughReturnCircles cfg;
         pre_canny_blur_size := kExternallyStrobedEnvPreCannyBlurSize cfg;
         pre_hough_blur_size := kExternallyStrobedEnvPreHoughBlurSize cfg;
         use_clahe := kExternallyStrobedUseCLAHEProcessing cfg;
         clahe_clip_limit := kExternallyStrobedCLAHEClipLimit cfg;
         clahe_tiles_grid_size := kExternallyStrobedCLAHETilesGridSize cfg;
         minimum_search_radius :=
           kExternallyStrobedEnvMinimumSearchRadius cfg;
         maximum_search_radius :=
           kExternallyStrobedEnvMaximumSearchRadius cfg;
         narrowing_radii_min_ratio := kStrobedNarrowingRadiiMinRatio cfg;
         narrowing_radii_max_ratio := kStrobedNarrowingRadiiMaxRatio cfg;
         narrowing_starting_param2 :=
           kExternallyStrobedEnvNarrowingParam2 cfg;
         narrowing_radii_dp_param :=
           kExternallyStrobedEnvNarrowingDpParam cfg;
         narrowing_param1 := kExternallyStrobedEnvCurrentParam1 cfg;
         narrowing_radii_param2 := kExternallyStrobedEnvNarrowingParam2 cfg;
         narrowing_pre_canny_blur_size :=
           kExternallyStrobedEnvNarrowingPreCannyBlurSize cfg;
         narrowing_pre_hough_blur_size :=
           kExternallyStrobedEnvNarrowingPreHoughBlurSize cfg;
         use_dynamic_radii_adjustment := kUseDynamicRadiiAdjustment cfg;
         num_radii_to_average :=
           kNumberRadiiToAverageForDynamicAdjustment cfg |}
  | SearchStrategy.kPutting =>
      {| hough_dp_param1 := kPuttingHoughDpParam1 cfg;
         canny_lower := 0;
         canny_upper := 0;
         param1 := kPuttingBallCurrentParam1 cfg;
         starting_param2 := kPuttingBallStartingParam2 cfg;
         min_param2 := kPuttingBallMinParam2 cfg;
         max_param2 := kPuttingBallMaxParam2 cfg;
         param2_increment := kPuttingBallParam2Increment cfg;
         min_hough_return_circles := kPuttingMinHoughReturnCircles cfg;
         max_hough_return_circles := kPuttingMaxHoughReturnCircles cfg;
         pre_canny_blur_size := 0;
         pre_hough_blur_size := kPuttingPreHoughBlurSize cfg;
         use_clahe := kUseCLAHEProcessing cfg;
         clahe_clip_limit := kCLAHEClipLimit cfg;
         clahe_tiles_grid_size := kCLAHETilesGridSize cfg;
         minimum_search_radius := -1;
         maximum_search_radius := -1;
         narrowing_radii_min_ratio := kPlacedNarrowingRadiiMinRatio cfg;
         narrowing_radii_max_ratio := kPlacedNarrowingRadiiMaxRatio cfg;
         narrowing_starting_param2 := kPlacedNarrowingStartingParam2 cfg;
         narrowing_radii_dp_param := kPlacedNarrowingRadiiDpParam cfg;
         narrowing_param1 := kPlacedNarrowingParam1 cfg;
         narrowing_radii_param2 := 0;
         narrowing_pre_canny_blur_size := 0;
         narrowing_pre_hough_blur_size := kPuttingPreHoughBlurSize cfg;
         use_dynamic_radii_adjustment := kUseDynamicRadiiAdjustment cfg;
         num_radii_to_average :=
           kNumberRadiiToAverageForDynamicAdjustment cfg |}
  | SearchStrategy.kUnknown => placed_ball_params cfg
  end.

End SearchParams.

(** ** HoughDetector: preprocessing and best-circle refinement *)

Module HoughPipeline.
Import CvUtils HoughSettings.

(** The OpenCV operations the preprocessing applies to the search image,
    with the arguments that the code computes. *)
Inductive CvCall :=
| CLAHE_apply (clipLimit tilesGridSize : Z)
| GaussianBlur (ksize : Z)
| MedianBlur (ksize : Z)
| Canny (threshold1 threshold2 : Q)
| Clone
| EDPF_inverted.

(** [blur_size % 2 != 1] on an [int]: the remainder has the sign of the
    dividend. *)
Definition force_odd (blur_size : Z) : Z :=
  if (blur_size >? 0) && negb (Z.rem blur_size 2 =? 1)
  then blur_size + 1 else blur_size.

(** The result is the returned flag and the operations carried out on
    [search_image], in their order; [search_image_empty] is
    [search_image.empty()].  The two strobed values of
    [HoughDetector::BallSearchMode] are written with the names of
    [SearchStrategy::Mode], as the facade translates them.  The flag is
    what the function returns when every OpenCV call returns: the last
    [cv::GaussianBlur] is called whatever its kernel size, and with a
    sigma of 0 it raises an exception for a size that is not positive
    (see [HoughPipelineSpec.accepted]). *)
Definition PreProcessStrobedImage (cfg : Settings)
    (search_image_empty : bool) (search_mode : SearchStrategy.Mode)
  : bool * list CvCall :=
  if search_image_empty then (false, [])
  else
    match search_mode with
    | SearchStrategy.kStrobed | SearchStrategy.kExternallyStrobed =>
        let externally :=
          SearchStrategy.mode_eqb search_mode
            SearchStrategy.kExternallyStrobed in
        let use_clahe_processing :=
          if externally then kExternallyStrobedUseCLAHEProcessing cfg
          else kUseCLAHEProcessing cfg in
        let clahe_tiles_grid_size :=
          if externally then kExternallyStrobedCLAHETilesGridSize cfg
          else kCLAHETilesGridSize cfg in
        let clahe_clip_limit :=
          if externally then kExternallyStrobedCLAHEClipLimit cfg
          else kCLAHEClipLimit cfg in
        let clahe :=
          if use_clahe_processing then
            let clahe_tiles_grid_size :=
              if clahe_tiles_grid_size <? 1 then 1
              else clahe_tiles_grid_size in
            let clahe_clip_limit :=
              if clahe_clip_limit <? 1 then 1 else clahe_clip_limit in
            [CLAHE_apply clahe_clip_limit clahe_tiles_grid_size]
          else [] in
        let '(canny_lower, canny_upper, pre_canny_blur_size,
              pre_hough_blur_size) :=
          if externally then
            (kExternallyStrobedEnvCannyLower cfg,
             kExternallyStrobedEnvCannyUpper cfg,
             kExternallyStrobedEnvPreCannyBlurSize cfg,
             kExternallyStrobedEnvPreHoughBlurSize cfg)
          else if kStrobedBallsUseAltHoughAlgorithm cfg then
            (kStrobedBallsAltCannyLower cfg,
             kStrobedBallsAltCannyUpper cfg,
             kStrobedBallsAltPreCannyBlurSize cfg,
             kStrobedBallsAltPreHoughBlurSize cfg)
          else
            (kStrobedBallsCannyLower cfg,
             kStrobedBallsCannyUpper cfg,
             kStrobedBallsPreCannyBlurSize cfg,
             kStrobedBallsPreHoughBlurSize cfg) in
        let pre_canny_blur_size := force_odd pre_canny_blur_size in
        let pre_hough_blur_size := force_odd pre_hough_blur_size in
        let blur :=
          if pre_canny_blur_size >? 0
          then [GaussianBlur pre_canny_blur_size] else [] in
        let edges :=
          if externally && (pre_canny_blur_size =? 0) then [Clone]
          else [Canny canny_lower canny_upper] in
        (true,
         clahe ++ blur ++ edges ++ [GaussianBlur pre_hough_blur_size])
    | _ => (false, [])
    end.

(** [BallDetectorFacade::PreprocessForMode], with the operations it
    carries out. *)
Definition PreprocessForMode (cfg : Settings) (search_image_empty : bool)
    (mode : SearchStrategy.Mode) : bool * list CvCall :=
  let params := SearchParams.GetParamsForMode cfg mode in
  match mode with
  | SearchStrategy.kFindPlacedBall =>
      (true,
       [GaussianBlur (SearchParams.pre_canny_blur_size params);
        Canny (SearchParams.canny_lower params)
              (SearchParams.canny_upper params);
        GaussianBlur (SearchParams.pre_hough_blur_size params)])
  | SearchStrategy.kStrobed | SearchStrategy.kExternallyStrobed =>
      PreProcessStrobedImage cfg search_image_empty mode
  | SearchStrategy.kPutting =>
      (true,
       [MedianBlur (SearchParams.pre_hough_blur_size params);
        EDPF_inverted; GaussianBlur 5])
  | SearchStrategy.kUnknown => (false, [])
  end.

Definition RoundCircleData (circles : list GsCircle) : list GsCircle :=
  map (fun c => mkCircle (inject_Z (std_round (c0 c)))
                         (inject_Z (std_round (c1 c)))
                         (inject_Z (std_round (c2 c))))
      circles.

Definition kMaximumBestCirclesToEvaluate : Z := 3.

(** The loop over [finalTargetedCircles]; [i] counts the circles seen so
    far. *)
Fixpoint best_circle_loop (i : Z) (cs : list GsCircle)
    (final_circle : GsCircle) : GsCircle :=
  match cs with
  | [] => final_circle
  | c :: rest =>
      let i := i + 1 in
      if (i >? kMaximumBestCirclesToEvaluate) && negb (i =? 1)
      then final_circle
      else
        let found_radius := c2 c in
        let final_circle :=
          if negb (Qle_bool found_radius (c2 final_circle))
          then c else final_circle in
        best_circle_loop i rest final_circle
  end.

(** [DetermineBestCircle] from the targeted Hough transform on:
    [finalTargetedCircles] is what [cv::HoughCircles] finds in the region
    of interest, [offset_sub_to_full] the origin of that region in the
    full image.  The result is the returned flag and [final_circle]. *)
Definition DetermineBestCircle (finalTargetedCircles : list GsCircle)
    (offset_sub_to_full : Z * Z) (choose_largest_final_ball : bool)
    (final_circle : GsCircle) : bool * GsCircle :=
  match finalTargetedCircles with
  | [] => (false, final_circle)
  | first :: _ =>
      let final_circle :=
        best_circle_loop 0 finalTargetedCircles first in
      let final_circle :=
        if negb choose_largest_final_ball then first else final_circle in
      (true,
       mkCircle
         (f32_round (c0 final_circle
                     + inject_Z (fst offset_sub_to_full)))%Q
         (f32_round (c1 final_circle
                     + inject_Z (snd offset_sub_to_full)))%Q
         (c2 final_circle))
  end.

End HoughPipeline.

Module HoughPipelineSpec.
Import HoughPipeline.

(** The arguments OpenCV accepts: a CLAHE clip limit and grid size of at
    least 1, and blur kernels of odd size (a kernel size of 0 or less is
    left to OpenCV, which derives it from sigma or rejects it). *)
Definition acceptable (c : CvCall) : Prop :=
  match c with
  | CLAHE_apply clipLimit tilesGridSize =>
      1 <= clipLimit /\ 1 <= tilesGridSize
  | GaussianBlur ksize => 0 < ksize -> Z.odd ksize = true
  | _ => True
  end.

(** The arguments with which the OpenCV call returns: a CLAHE clip limit
    and grid size of at least 1, and for a Gaussian blur with sigma 0 a
    kernel of positive odd size. *)
Definition accepted (c : CvCall) : Prop :=
  match c with
  | CLAHE_apply clipLimit tilesGridSize =>
      1 <= clipLimit /\ 1 <= tilesGridSize
  | GaussianBlur ksize => 0 < ksize /\ Z.odd ksize = true
  | _ => True
  end.

(** The operations the bundle of [GetParamsForMode] announces for a
    strobed mode. *)
Definition announced (p : SearchParams.DetectionParams)
    (externally : bool) : list CvCall :=
  (if SearchParams.use_clahe p
   then [CLAHE_apply (Z.max 1 (SearchParams.clahe_clip_limit p))
                     (Z.max 1 (SearchParams.clahe_tiles_grid_size p))]
   else [])
  ++ (if SearchParams.pre_canny_blur_size p >? 0
      then [GaussianBlur (force_odd (SearchParams.pre_canny_blur_size p))]
      else [])
  ++ (if externally && (SearchParams.pre_canny_blur_size p =? 0)
      then [Clone]
      else [Canny (SearchParams.canny_lower p)
                  (SearchParams.canny_upper p)])
  ++ [GaussianBlur (force_odd (SearchParams.pre_hough_blur_size p))].

(** The choice after one more circle has been looked at. *)
Definition keep_larger (final_circle c : GsCircle) : GsCircle :=
  if negb (Qle_bool (c2 c) (c2 final_circle)) then c else final_circle.

(** The circle is one of the first three of the list and has the largest
    radius among them; of several largest it is the earliest. *)
Definition largest_of_first_three (cs : list GsCircle) (c : GsCircle)
  : Prop :=
  exists k : nat,
    (k < 3)%nat /\ cs !! k = Some c
    /\ (forall j d, (j < 3)%nat -> cs !! j = Some d -> (c2 d <= c2 c)%Q)
    /\ (forall j d, (j < k)%nat -> cs !! j = Some d -> (c2 d < c2 c)%Q).

End HoughPipelineSpec.

(** ** BallImageProc: the OpenCV DNN detection path *)

Module OnnxDetection.
Import CvUtils BallImageProc.

(** One row of the network output: centre, size and confidence, in
    letterbox coordinates. *)
Record Detection := mkDetection {
  cx_letterbox : Q;
  cy_letterbox : Q;
  w_letterbox : Q;
  h_letterbox : Q;
  confidence : Q
}.

(** [std::min] on two [float] values. *)
Definition std_min (a b : Q) : Q := if negb (Qle_bool a b) then b else a.

(** [static_cast<int>(kSAHISliceWidth * kSAHIOverlapRatio)], a [float]
    product. *)
Definition sahi_overlap (kSAHISliceWidth : Z) (kSAHIOverlapRatio : Q) : Z :=
  int_cast (f32_round (inject_Z kSAHISliceWidth * kSAHIOverlapRatio)%Q).

(** The values a loop [for (v = 0; v < limit; v += step)] runs through,
    from [v] on; [None] when it is still running after [fuel] rounds. *)
Fixpoint slice_origins (fuel : nat) (v limit step : Z) : option (list Z) :=
  if v <? limit then
    match fuel with
    | O => None
    | S fuel' => cons v <$> slice_origins fuel' (v + step) limit step
    end
  else Some [].

(** The slices of the SAHI branch for an image of [cols] by [rows]
    pixels.  The inner loop runs once per value of [y], every time
    through the same values of [x]; it is not entered when there is no
    [y]. *)
Definition sahi_slices (fuel : nat) (cols rows : Z)
    (kSAHISliceWidth kSAHISliceHeight overlap : Z) : option (list Rect) :=
  match slice_origins fuel 0 rows (kSAHISliceHeight - overlap) with
  | None => None
  | Some [] => Some []
  | Some ys =>
      match slice_origins fuel 0 cols (kSAHISliceWidth - overlap) with
      | None => None
      | Some xs =>
          Some (concat
                  (map (fun y =>
                          map (fun x =>
                                 mkRect x y
                                   (Z.min kSAHISliceWidth (cols - x))
                                   (Z.min kSAHISliceHeight (rows - y)))
                              xs)
                       ys))
      end
  end.

(** The body of the loop over the detections of one slice: the state is
    [yolo_detection_boxes_] and [yolo_detection_confidences_].  Every
    [float] operation rounds to [float]. *)
Definition parse_detection (kONNXInputSize : Z) (kONNXConfidenceThreshold : Q)
    (cols rows : Z) (slice : Rect)
    (st : list Rect * list Q) (d : Detection) : list Rect * list Q :=
  let f := f32_round in
  let scale :=
    std_min (f (f (inject_Z kONNXInputSize) / inject_Z (rwidth slice))%Q)
            (f (f (inject_Z kONNXInputSize) / inject_Z (rheight slice))%Q)
  in
  let new_width := int_cast (f (inject_Z (rwidth slice) * scale)%Q) in
  let new_height := int_cast (f (inject_Z (rheight slice) * scale)%Q) in
  let x_offset := Z.quot (kONNXInputSize - new_width) 2 in
  let y_offset := Z.quot (kONNXInputSize - new_height) 2 in
  if Qle_bool kONNXConfidenceThreshold (confidence d) then
    let cx_slice := f (f (cx_letterbox d - inject_Z x_offset) / scale)%Q in
    let cy_slice := f (f (cy_letterbox d - inject_Z y_offset) / scale)%Q in
    let w_slice := f (w_letterbox d / scale)%Q in
    let h_slice := f (h_letterbox d / scale)%Q in
    let x := int_cast (f (cx_slice - f (w_slice / 2))%Q) + rx slice in
    let y := int_cast (f (cy_slice - f (h_slice / 2))%Q) + ry slice in
    let w := int_cast w_slice in
    let h := int_cast h_slice in
    if (w >? 0) && (h >? 0) && (x >=? 0) && (y >=? 0)
       && (x + w <=? cols) && (y + h <=? rows)
    then (fst st ++ [mkRect x y w h], snd st ++ [confidence d])
    else st
  else st.

(** The loop over the slices; [net slice] is the first output of the
    network for the slice, row by row (no row when the network returns
    nothing).  For a slice without pixels the source divides by zero
    when it computes [scale]; here that quotient is 0. *)
Definition collect_detections (kONNXInputSize : Z)
    (kONNXConfidenceThreshold : Q) (cols rows : Z)
    (net : Rect -> list Detection) (slices : list Rect)
  : list Rect * list Q :=
  fold_left
    (fun st slice =>
       fold_left (parse_detection kONNXInputSize kONNXConfidenceThreshold
                    cols rows slice)
                 (net slice) st)
    slices ([], []).

(** The circle made from a kept box. *)
Definition circle_of_box (box : Rect) : GsCircle :=
  mkCircle
    (f32_round (inject_Z (rx box + std_round (inject_Z (rwidth box) / 2)%Q)))
    (f32_round (inject_Z (ry box + std_round (inject_Z (rheight box) / 2)%Q)))
    (f32_round
       (inject_Z (Z.max (rwidth box)
                        (int_cast (inject_Z (rheight box) / 2)%Q)))).

(** The slices the detections are looked for in: the SAHI slices when
    [use_sahi] holds, else the whole image. *)
Definition dnn_slices (fuel : nat) (cols rows : Z) (use_sahi : bool)
    (kSAHISliceWidth kSAHISliceHeight : Z) (kSAHIOverlapRatio : Q)
  : option (list Rect) :=
  if use_sahi then
    sahi_slices fuel cols rows kSAHISliceWidth kSAHISliceHeight
      (sahi_overlap kSAHISliceWidth kSAHIOverlapRatio)
  else Some [mkRect 0 0 cols rows].

(** [DetectBallsOpenCVDNN] once the model is loaded, for the runs in
    which the body of the [try] block reaches its end (an exception
    thrown by OpenCV makes the source return false with
    [detected_circles] as they were).  [channels], [cols] and [rows]
    describe [preprocessed_img]; [use_sahi] is the comparison of
    [kDetectionMethod] with [experimental_sahi].  The result is the
    returned flag and [detected_circles]; [None] when the slicing is
    still running after [fuel] rounds.  A box index outside the boxes
    would be an access outside the vector. *)
Definition DetectBallsOpenCVDNN (fuel : nat) (channels cols rows : Z)
    (use_sahi : bool)
    (kSAHISliceWidth kSAHISliceHeight : Z) (kSAHIOverlapRatio : Q)
    (kONNXInputSize : Z) (kONNXConfidenceThreshold kONNXNMSThreshold : Q)
    (net : Rect -> list Detection) (detected_circles : list GsCircle)
  : option (bool * list GsCircle) :=
  if negb ((channels =? 1) || (channels =? 3))
  then Some (false, detected_circles)
  else
    match dnn_slices fuel cols rows use_sahi kSAHISliceWidth
            kSAHISliceHeight kSAHIOverlapRatio with
    | None => None
    | Some slices =>
        let '(boxes, confidences) :=
          collect_detections kONNXInputSize kONNXConfidenceThreshold
            cols rows net slices in
        let indices :=
          SingleClassNMS boxes confidences kONNXConfidenceThreshold
            kONNXNMSThreshold in
        let detected_circles :=
          omap (fun idx => circle_of_box <$> boxes !! idx) indices in
        Some (negb (Nat.eqb (length detected_circles) 0), detected_circles)
    end.

End OnnxDetection.

Module OnnxSpec.
Import BallImageProc.

(** The pixel lies in the rectangle. *)
Definition covers (r : Rect) (px py : Z) : Prop :=
  rx r <= px < rx r + rwidth r /\ ry r <= py < ry r + rheight r.

(** A non-empty rectangle inside an image of the given size. *)
Definition proper_slice (cols rows : Z) (r : Rect) : Prop :=
  0 <= rx r /\ 0 <= ry r /\ 0 < rwidth r /\ 0 < rheight r
  /\ rx r + rwidth r <= cols /\ ry r + rheight r <= rows.

(** The slicing comes to an end within [fuel] rounds: the overlap is
    smaller than a slice in both directions and the fuel covers the
    image. *)
Definition slicing_ends (fuel : nat) (cols rows : Z) (use_sahi : bool)
    (kSAHISliceWidth kSAHISliceHeight : Z) (kSAHIOverlapRatio : Q)
  : Prop :=
  use_sahi = true ->
  0 <= OnnxDetection.sahi_overlap kSAHISliceWidth kSAHIOverlapRatio
    < kSAHISliceWidth
  /\ OnnxDetection.sahi_overlap kSAHISliceWidth kSAHIOverlapRatio
     < kSAHISliceHeight
  /\ cols <= Z.of_nat fuel /\ rows <= Z.of_nat fuel.

(** What the two vectors of detections satisfy throughout: every
    confidence has its box, and every box has passed the bounds check. *)
Definition in_step (cols rows : Z) (st : list Rect * list Q) : Prop :=
  length (fst st) = length (snd st)
  /\ Forall (proper_slice cols rows) (fst st).

(** The centre of the circle lies in the image and its radius is at
    least one pixel. *)
Definition ball_in_image (cols rows : Z) (c : GsCircle) : Prop :=
  (0 <= c0 c)%Q /\ (c0 c <= inject_Z cols)%Q
  /\ (0 <= c1 c)%Q /\ (c1 c <= inject_Z rows)%Q
  /\ (1 <= c2 c)%Q.

End OnnxSpec.

(** ** EllipseDetector: the threshold search of [FindLargestEllipse] *)

Module EllipseDetector.

Definition kMinFinalizationCannyMean : Q := 8.
Definition kMaxFinalizationCannyMean : Q := 15.
Definition kCannyToleranceIncrement : Z := 4.

(** The loop [while (!edgeDetectDone)], entered with [edgeDetectDone]
    false.  [edge_mean low high] is the mean of the Canny output for the
    two thresholds once the mask circles are drawn.  The result is
    [lowThresh], [highThresh] and [edgeDetectionFailed] when the loop is
    left; [None] when it is still running after [fuel] rounds.
    [cannyIterations] is read and never written. *)
Fixpoint canny_loop (fuel : nat) (edge_mean : Z -> Z -> Q)
    (lowThresh highThresh cannyIterations : Z) : option (Z * Z * bool) :=
  match fuel with
  | O => None
  | S fuel' =>
      let mean := edge_mean lowThresh highThresh in
      let '(lowThresh, highThresh, edgeDetectDone) :=
        if negb (Qle_bool mean kMaxFinalizationCannyMean)
        then (lowThresh + kCannyToleranceIncrement,
              highThresh + kCannyToleranceIncrement, false)
        else if negb (Qle_bool kMinFinalizationCannyMean mean)
        then (lowThresh - kCannyToleranceIncrement,
              highThresh - kCannyToleranceIncrement, false)
        else (lowThresh, highThresh, true) in
      let '(edgeDetectDone, edgeDetectionFailed) :=
        if cannyIterations >? 30 then (true, true)
        else (edgeDetectDone, false) in
      if edgeDetectDone
      then Some (lowThresh, highThresh, edgeDetectionFailed)
      else canny_loop fuel' edge_mean lowThresh highThresh cannyIterations
  end.

(** The threshold search as [FindLargestEllipse] starts it. *)
Definition find_canny_thresholds (fuel : nat) (edge_mean : Z -> Z -> Q)
  : option (Z * Z * bool) :=
  canny_loop fuel edge_mean 30 70 0.

End EllipseDetector.

(** * Part II: theorems *)

(** * Numeric helpers on whole numbers *)

Section WholeNumbers.
Import CvUtils.

Lemma Qle_bool_ext (x x' y y' : Q) :
  (x == x')%Q -> (y == y')%Q -> Qle_bool x y = Qle_bool x' y'.
Proof.
  intros Hx Hy. apply eq_true_iff_eq.
  rewrite !Qle_bool_iff, Hx, Hy. reflexivity.
Qed.

Lemma Qle_bool_inject (a b : Z) :
  Qle_bool (inject_Z a) (inject_Z b) = (a <=? b).
Proof.
  apply eq_true_iff_eq. rewrite Qle_bool_iff, Z.leb_le, Zle_Qle.
  reflexivity.
Qed.

Lemma Qle_bool_whole (x y : Q) (a b : Z) :
  (x == inject_Z a)%Q -> (y == inject_Z b)%Q -> Qle_bool x y = (a <=? b).
Proof.
  intros Hx Hy. rewrite (Qle_bool_ext _ _ _ _ Hx Hy).
  apply Qle_bool_inject.
Qed.

Lemma round_half_even_whole (q : Q) (z : Z) :
  (q == inject_Z z)%Q -> round_half_even q = z.
Proof.
  intros Hq. unfold round_half_even.
  rewrite (Qfloor_comp _ _ Hq), Qfloor_Z.
  assert (Hr : (q - inject_Z z == 0)%Q) by (rewrite Hq; ring).
  rewrite (Qcompare_comp _ _ Hr (1 # 2)%Q (1 # 2)%Q (Qeq_refl _)).
  reflexivity.
Qed.

Lemma int_cast_whole (q : Q) (z : Z) :
  (q == inject_Z z)%Q -> int_cast q = z.
Proof.
  intros Hq. unfold int_cast.
  rewrite (Qfloor_comp _ _ Hq), (Qceiling_comp _ _ Hq), Qfloor_Z, Qceiling_Z.
  destruct (Qle_bool 0 q); reflexivity.
Qed.

Lemma std_round_whole (q : Q) (z : Z) :
  (q == inject_Z z)%Q -> std_round q = z.
Proof.
  intros Hq. unfold std_round.
  destruct (Qle_bool 0 q).
  - apply Z.le_antisymm.
    + apply Z.lt_succ_r. rewrite Zlt_Qlt.
      eapply Qle_lt_trans; [apply Qfloor_le|].
      rewrite Hq. unfold Z.succ. rewrite inject_Z_plus.
      apply Qplus_lt_r. reflexivity.
    + transitivity (Qfloor (inject_Z z)); [rewrite Qfloor_Z; lia|].
      apply Qfloor_resp_le.
      rewrite Hq. rewrite <- (Qplus_0_r (inject_Z z)) at 1.
      apply Qplus_le_r. discriminate.
  - apply Z.le_antisymm.
    + transitivity (Qceiling (inject_Z z)); [|rewrite Qceiling_Z; lia].
      apply Qceiling_resp_le.
      rewrite Hq. rewrite <- (Qplus_0_r (inject_Z z)) at 2.
      apply Qplus_le_r. discriminate.
    + apply Z.lt_pred_le. rewrite Zlt_Qlt.
      eapply Qlt_le_trans; [|apply Qle_ceiling].
      rewrite Hq. unfold Z.pred. rewrite inject_Z_plus.
      apply Qplus_lt_r. reflexivity.
Qed.

Lemma two_power_whole (k : Z) :
  0 <= k -> (2 ^ k == inject_Z (2 ^ k))%Q.
Proof. intros Hk. rewrite Zpower_Qpower by assumption. reflexivity. Qed.

Lemma f32_round_positive_whole (q : Q) (z : Z) :
  (q == inject_Z z)%Q -> 0 < z < 2 ^ 24 ->
  (f32_round q == inject_Z z)%Q.
Proof.
  intros Hq Hz. unfold f32_round.
  assert (Hc : (q ?= 0)%Q = Gt).
  { apply (proj1 (Qgt_alt q 0)). rewrite Hq. change 0%Q with (inject_Z 0). rewrite <- Zlt_Qlt. lia. }
  rewrite Hc.
  assert (He : Qlog2_floor q = Z.log2 z).
  { unfold Qlog2_floor.
    rewrite (Qle_bool_whole 1%Q q 1 z) by (first [reflexivity|assumption]).
    destruct (Z.leb_spec 1 z); [|lia].
    rewrite (Qfloor_comp _ _ Hq), Qfloor_Z. reflexivity. }
  rewrite He.
  set (e := Z.log2 z).
  assert (He0 : 0 <= e) by apply Z.log2_nonneg.
  assert (He1 : e < 24) by (apply Z.log2_lt_pow2; lia).
  set (k := 23 - e).
  assert (Hk : 0 <= k) by lia.
  assert (Hulp : (2 ^ (e - 23) == / inject_Z (2 ^ k))%Q).
  { replace (e - 23) with (- k) by lia.
    rewrite Qpower_opp, two_power_whole by assumption. reflexivity. }
  assert (Hpos : 0 < 2 ^ k) by (apply Z.pow_pos_nonneg; lia).
  assert (Hnz : ~ (inject_Z (2 ^ k) == 0)%Q).
  { unfold Qeq. cbn. lia. }
  assert (Hm : (q / 2 ^ (e - 23) == inject_Z (z * 2 ^ k))%Q).
  { rewrite Hulp, Hq, inject_Z_mult. field. exact Hnz. }
  rewrite (round_half_even_whole _ _ Hm).
  rewrite Hulp, inject_Z_mult. field. exact Hnz.
Qed.

Lemma f32_round_whole (q : Q) (z : Z) :
  (q == inject_Z z)%Q -> Z.abs z < 2 ^ 24 ->
  (f32_round q == inject_Z z)%Q.
Proof.
  intros Hq Hz.
  destruct (Z.lt_trichotomy z 0) as [Hneg|[Hzero|Hpos]].
  - unfold f32_round.
    assert (Hc : (q ?= 0)%Q = Lt).
    { apply (proj1 (Qlt_alt q 0)). rewrite Hq. change 0%Q with (inject_Z 0). rewrite <- Zlt_Qlt. lia. }
    rewrite Hc.
    assert (Hq' : (- q == inject_Z (- z))%Q)
      by (rewrite Hq, inject_Z_opp; reflexivity).
    pose proof (f32_round_positive_whole (- q) (- z) Hq' ltac:(lia)) as H.
    unfold f32_round in H.
    assert (Hc' : (- q ?= 0)%Q = Gt).
    { apply (proj1 (Qgt_alt (- q) 0)). rewrite Hq'. change 0%Q with (inject_Z 0). rewrite <- Zlt_Qlt. lia. }
    rewrite Hc' in H. rewrite H, inject_Z_opp. ring.
  - subst z. unfold f32_round.
    assert (Hc : (q ?= 0)%Q = Eq) by (apply (proj1 (Qeq_alt q 0)); exact Hq).
    rewrite Hc. reflexivity.
  - apply f32_round_positive_whole; [assumption|lia].
Qed.

End WholeNumbers.

(** * Floating-point rounding *)

Section FloatingPoint.
Import CvUtils.

Lemma f32_round_fp (q : Q) : f32_round q = fp_round 23 q.
Proof. reflexivity. Qed.

Lemma two_power_pos (e : Z) : (0 < 2 ^ e)%Q.
Proof. apply Qpower_0_lt. reflexivity. Qed.

Lemma two_power_succ (e : Z) : (2 ^ (e + 1) == 2 * 2 ^ e)%Q.
Proof. rewrite Qpower_plus by discriminate. ring. Qed.

Lemma two_power_le (e e' : Z) : e <= e' -> (2 ^ e <= 2 ^ e')%Q.
Proof. intros H. apply Qpower_le_compat_l; [exact H|discriminate]. Qed.

Lemma two_power_lt_inv (e e' : Z) : (2 ^ e < 2 ^ e')%Q -> e < e'.
Proof. intros H. apply (Qpower_lt_compat_l_inv 2); [exact H|reflexivity]. Qed.

Lemma two_power_shift (a b : Z) : (2 ^ a / 2 ^ b == 2 ^ (a - b))%Q.
Proof. rewrite Qpower_minus by discriminate. reflexivity. Qed.

(** The leading binary digit of a positive rational. *)
Lemma Qlog2_floor_spec (q : Q) :
  (0 < q)%Q ->
  (2 ^ Qlog2_floor q <= q)%Q /\ (q < 2 ^ (Qlog2_floor q + 1))%Q.
Proof.
  intros Hq. unfold Qlog2_floor.
  destruct (Qle_bool 1 q) eqn:H1.
  - apply Qle_bool_iff in H1.
    assert (Hf : 1 <= Qfloor q).
    { change 1 with (Qfloor (inject_Z 1)). apply Qfloor_resp_le. exact H1. }
    destruct (Z.log2_spec (Qfloor q) ltac:(lia)) as [Hlo Hhi].
    pose proof (Z.log2_nonneg (Qfloor q)) as He.
    split.
    + apply Qle_trans with (inject_Z (Qfloor q)); [|apply Qfloor_le].
      rewrite two_power_whole by assumption.
      rewrite <- Zle_Qle. exact Hlo.
    + apply Qlt_le_trans with (inject_Z (Qfloor q + 1)); [apply Qlt_floor|].
      rewrite two_power_whole by lia.
      rewrite <- Zle_Qle. unfold Z.succ in Hhi. lia.
  - assert (Hlt : (q < 1)%Q).
    { apply Qnot_le_lt. intros H. apply Qle_bool_iff in H. congruence. }
    assert (Hinv : (1 < / q)%Q).
    { apply Qlt_shift_inv_l; [exact Hq|]. rewrite Qmult_1_l. exact Hlt. }
    assert (Hc : 1 < Qceiling (/ q)).
    { assert (H : (inject_Z 1 < inject_Z (Qceiling (/ q)))%Q)
        by (eapply Qlt_le_trans; [exact Hinv|apply Qle_ceiling]).
      rewrite <- Zlt_Qlt in H. exact H. }
    destruct (Z.log2_up_spec (Qceiling (/ q)) Hc) as [Hlo Hhi].
    set (k := Z.log2_up (Qceiling (/ q))) in *.
    assert (Hk : 0 < k) by (apply Z.log2_up_pos; exact Hc).
    assert (Hqnz : ~ (q == 0)%Q) by (intros E; rewrite E in Hq; discriminate).
    split.
    + rewrite Qpower_opp.
      apply Qle_shift_inv_r; [apply two_power_pos|].
      (* 1 <= q * 2^k *)
      assert (Hle : (/ q <= 2 ^ k)%Q).
      { apply Qle_trans with (inject_Z (Qceiling (/ q)));
          [apply Qle_ceiling|].
        rewrite two_power_whole by lia. rewrite <- Zle_Qle. exact Hhi. }
      apply (Qmult_le_compat_r _ _ q) in Hle; [|apply Qlt_le_weak, Hq].
      rewrite (Qmult_comm (/ q)), Qmult_inv_r in Hle by exact Hqnz.
      rewrite Qmult_comm. exact Hle.
    + replace (- k + 1) with (- (k - 1)) by lia.
      rewrite Qpower_opp.
      apply Qlt_shift_inv_l; [apply two_power_pos|].
      assert (Hgt : (2 ^ (k - 1) < / q)%Q).
      { apply Qle_lt_trans with (inject_Z (Qceiling (/ q) - 1));
          [|apply Qceiling_lt].
        rewrite two_power_whole by lia. rewrite <- Zle_Qle.
        rewrite <- Z.sub_1_r in Hlo. lia. }
      apply (Qmult_lt_compat_r _ _ q) in Hgt; [|exact Hq].
      rewrite (Qmult_comm (/ q)), Qmult_inv_r in Hgt by exact Hqnz.
      rewrite Qmult_comm. exact Hgt.
Qed.

Lemma Qlog2_floor_unique (q : Q) (e : Z) :
  (2 ^ e <= q)%Q -> (q < 2 ^ (e + 1))%Q -> Qlog2_floor q = e.
Proof.
  intros Hlo Hhi.
  assert (Hq : (0 < q)%Q)
    by (eapply Qlt_le_trans; [apply two_power_pos|exact Hlo]).
  destruct (Qlog2_floor_spec q Hq) as [Hlo' Hhi'].
  assert (H1 : e < Qlog2_floor q + 1).
  { apply two_power_lt_inv. eapply Qle_lt_trans; eassumption. }
  assert (H2 : Qlog2_floor q < e + 1).
  { apply two_power_lt_inv. eapply Qle_lt_trans; eassumption. }
  lia.
Qed.

Lemma Qlog2_floor_comp (q q' : Q) :
  (q == q')%Q -> Qlog2_floor q = Qlog2_floor q'.
Proof.
  intros H. unfold Qlog2_floor.
  rewrite (Qle_bool_ext 1 1 q q' (Qeq_refl _) H).
  rewrite (Qfloor_comp _ _ H).
  assert (Hi : (/ q == / q')%Q) by (rewrite H; reflexivity).
  rewrite (Qceiling_comp _ _ Hi). reflexivity.
Qed.

Lemma round_half_even_comp (q q' : Q) :
  (q == q')%Q -> round_half_even q = round_half_even q'.
Proof.
  intros H. unfold round_half_even.
  rewrite (Qfloor_comp _ _ H).
  assert (Hr : (q - inject_Z (Qfloor q') == q' - inject_Z (Qfloor q'))%Q)
    by (rewrite H; reflexivity).
  rewrite (Qcompare_comp _ _ Hr (1 # 2)%Q (1 # 2)%Q (Qeq_refl _)).
  reflexivity.
Qed.

(** The rounded value is the floor or the floor plus one, and lies within
    one half of the argument. *)
Lemma round_half_even_near (q : Q) :
  (inject_Z (round_half_even q) - (1 # 2) <= q)%Q
  /\ (q <= inject_Z (round_half_even q) + (1 # 2))%Q
  /\ Qfloor q <= round_half_even q <= Qfloor q + 1.
Proof.
  unfold round_half_even.
  pose proof (Qfloor_le q) as Hlo. pose proof (Qlt_floor q) as Hhi.
  rewrite inject_Z_plus in Hhi. change (inject_Z 1) with 1%Q in Hhi.
  set (f := Qfloor q) in *.
  destruct (Qcompare_spec (q - inject_Z f) (1 # 2)) as [E|L|G].
  - destruct (Z.even f); repeat split; try lia;
      rewrite ?inject_Z_plus; change (inject_Z 1) with 1%Q; lra.
  - repeat split; try lia; lra.
  - repeat split; try lia;
      rewrite ?inject_Z_plus; change (inject_Z 1) with 1%Q; lra.
Qed.

Lemma round_half_even_mono (p q : Q) :
  (p <= q)%Q -> round_half_even p <= round_half_even q.
Proof.
  intros Hpq.
  pose proof (Qfloor_resp_le _ _ Hpq) as Hf.
  destruct (round_half_even_near p) as (_ & _ & Hp1 & Hp2).
  destruct (round_half_even_near q) as (_ & _ & Hq1 & Hq2).
  destruct (Z.eq_dec (Qfloor p) (Qfloor q)) as [E|NE].
  - (* same floor: compare the fractions *)
    unfold round_half_even. rewrite E.
    set (f := Qfloor q) in *.
    destruct (Qcompare_spec (p - inject_Z f) (1 # 2)) as [Ep|Lp|Gp];
      destruct (Qcompare_spec (q - inject_Z f) (1 # 2)) as [Eq'|Lq|Gq];
      try (destruct (Z.even f)); try lia; exfalso; lra.
  - assert (Hlt : Qfloor p + 1 <= Qfloor q) by lia. lia.
Qed.

Lemma round_half_even_between (a b : Z) (q : Q) :
  (inject_Z a <= q)%Q -> (q <= inject_Z b)%Q ->
  a <= round_half_even q <= b.
Proof.
  intros Ha Hb. split.
  - rewrite <- (round_half_even_whole (inject_Z a) a (Qeq_refl _)).
    apply round_half_even_mono. exact Ha.
  - rewrite <- (round_half_even_whole (inject_Z b) b (Qeq_refl _)).
    apply round_half_even_mono. exact Hb.
Qed.

Variable p : Z.
Hypothesis p_nonneg : 0 <= p.

Lemma fp_round_comp (q q' : Q) : (q == q')%Q -> fp_round p q = fp_round p q'.
Proof.
  intros H. unfold fp_round.
  rewrite (Qcompare_comp _ _ H 0%Q 0%Q (Qeq_refl _)).
  assert (Hn : (- q == - q')%Q) by (rewrite H; reflexivity).
  rewrite (Qlog2_floor_comp _ _ H), (Qlog2_floor_comp _ _ Hn).
  destruct (q' ?= 0)%Q; [reflexivity| |].
  - rewrite (round_half_even_comp (- q / _) (- q' / 2 ^ (Qlog2_floor (- q') - p))%Q)
      by (rewrite H; reflexivity).
    reflexivity.
  - rewrite (round_half_even_comp (q / _) (q' / 2 ^ (Qlog2_floor q' - p))%Q)
      by (rewrite H; reflexivity).
    reflexivity.
Qed.

Lemma fp_round_zero (q : Q) : (q == 0)%Q -> fp_round p q = 0%Q.
Proof.
  intros H. unfold fp_round.
  rewrite (proj1 (Qeq_alt q 0) H). reflexivity.
Qed.

Lemma fp_round_positive (q : Q) :
  (0 < q)%Q ->
  fp_round p q
  = (inject_Z (round_half_even (q / 2 ^ (Qlog2_floor q - p)))
     * 2 ^ (Qlog2_floor q - p))%Q.
Proof.
  intros H. unfold fp_round.
  rewrite (proj1 (Qgt_alt q 0) H). reflexivity.
Qed.

(** The significand of a rounded positive value lies between [2^p] and
    [2^(p+1)]. *)
Lemma significand_bounds (q : Q) :
  (0 < q)%Q ->
  2 ^ p <= round_half_even (q / 2 ^ (Qlog2_floor q - p)) <= 2 ^ (p + 1).
Proof.
  intros Hq.
  destruct (Qlog2_floor_spec q Hq) as [Hlo Hhi].
  set (e := Qlog2_floor q) in *.
  pose proof (two_power_pos (e - p)) as Hu.
  apply round_half_even_between.
  - apply Qle_shift_div_l; [exact Hu|].
    rewrite <- two_power_whole by assumption.
    rewrite <- Qpower_plus by discriminate.
    replace (p + (e - p)) with e by lia. exact Hlo.
  - apply Qle_shift_div_r; [exact Hu|].
    rewrite <- two_power_whole by lia.
    rewrite <- Qpower_plus by discriminate.
    replace (p + 1 + (e - p)) with (e + 1) by lia.
    apply Qlt_le_weak. exact Hhi.
Qed.

Lemma fp_round_nonneg (q : Q) : (0 <= q)%Q -> (0 <= fp_round p q)%Q.
Proof.
  intros Hq. destruct (Qlt_le_dec 0 q) as [Hpos|Hle].
  - rewrite (fp_round_positive q Hpos).
    apply Qmult_le_0_compat; [|apply Qlt_le_weak, two_power_pos].
    change 0%Q with (inject_Z 0). rewrite <- Zle_Qle.
    pose proof (significand_bounds q Hpos) as [H _].
    pose proof (Z.pow_pos_nonneg 2 p ltac:(lia) p_nonneg). lia.
  - rewrite (fp_round_zero q) by (apply Qle_antisym; assumption).
    apply Qle_refl.
Qed.

(** A positive value stays within its binade when it is rounded. *)
Lemma fp_round_binade (q : Q) :
  (0 < q)%Q ->
  (2 ^ Qlog2_floor q <= fp_round p q)%Q
  /\ (fp_round p q <= 2 ^ (Qlog2_floor q + 1))%Q.
Proof.
  intros Hq. rewrite (fp_round_positive q Hq).
  destruct (significand_bounds q Hq) as [Hlo Hhi].
  set (e := Qlog2_floor q) in *.
  set (m := round_half_even _) in *.
  pose proof (two_power_pos (e - p)) as Hu.
  split.
  - replace e with (p + (e - p)) at 1 by lia.
    rewrite Qpower_plus by discriminate.
    apply Qmult_le_compat_r; [|apply Qlt_le_weak, Hu].
    rewrite two_power_whole by assumption.
    rewrite <- Zle_Qle. exact Hlo.
  - replace (e + 1) with (p + 1 + (e - p)) by lia.
    rewrite Qpower_plus by discriminate.
    apply Qmult_le_compat_r; [|apply Qlt_le_weak, Hu].
    rewrite two_power_whole by lia.
    rewrite <- Zle_Qle. exact Hhi.
Qed.

Lemma fp_round_mono (a b : Q) :
  (0 <= a)%Q -> (a <= b)%Q -> (fp_round p a <= fp_round p b)%Q.
Proof.
  intros Ha Hab.
  destruct (Qlt_le_dec 0 a) as [Hpos|Hle].
  2:{ rewrite (fp_round_zero a) by (apply Qle_antisym; assumption).
      apply fp_round_nonneg. eapply Qle_trans; eassumption. }
  assert (Hb : (0 < b)%Q) by (eapply Qlt_le_trans; eassumption).
  destruct (Qlog2_floor_spec a Hpos) as [Hlo Hhi].
  destruct (Qlog2_floor_spec b Hb) as [Hlo' Hhi'].
  assert (He : Qlog2_floor a <= Qlog2_floor b).
  { assert (H : Qlog2_floor a < Qlog2_floor b + 1); [|lia].
    apply two_power_lt_inv.
    eapply Qle_lt_trans; [exact Hlo|].
    eapply Qle_lt_trans; [exact Hab|exact Hhi']. }
  destruct (Z.eq_dec (Qlog2_floor a) (Qlog2_floor b)) as [E|NE].
  - rewrite (fp_round_positive a Hpos), (fp_round_positive b Hb), E.
    pose proof (two_power_pos (Qlog2_floor b - p)) as Hu.
    apply Qmult_le_compat_r; [|apply Qlt_le_weak, Hu].
    rewrite <- Zle_Qle. apply round_half_even_mono.
    apply Qmult_le_compat_r; [exact Hab|].
    apply Qlt_le_weak, Qinv_lt_0_compat, Hu.
  - destruct (fp_round_binade a Hpos) as [_ Ha2].
    destruct (fp_round_binade b Hb) as [Hb1 _].
    eapply Qle_trans; [exact Ha2|].
    eapply Qle_trans; [|exact Hb1].
    apply two_power_le. lia.
Qed.

(** Values [n * 2^c] with a significand [n] of at most [p + 1] bits are
    kept as they are. *)
Lemma fp_round_fix_positive (q : Q) (n c : Z) :
  0 < n <= 2 ^ (p + 1) -> (q == inject_Z n * 2 ^ c)%Q ->
  (fp_round p q == q)%Q.
Proof.
  intros Hn Hq.
  pose proof (two_power_pos c) as Hc.
  assert (Hpos : (0 < q)%Q).
  { rewrite Hq. apply Qmult_lt_0_compat; [|exact Hc].
    change 0%Q with (inject_Z 0). rewrite <- Zlt_Qlt. lia. }
  rewrite (fp_round_positive q Hpos).
  destruct (Z.log2_spec n ltac:(lia)) as [Hlo Hhi].
  pose proof (Z.log2_nonneg n) as Hl0.
  set (l := Z.log2 n) in *.
  assert (Hl : l <= p + 1).
  { destruct (Z.le_gt_cases l (p + 1)) as [H|H]; [exact H|].
    exfalso.
    assert (2 ^ (p + 2) <= 2 ^ l) by (apply Z.pow_le_mono_r; lia).
    assert (2 ^ (p + 1) < 2 ^ (p + 2)) by (apply Z.pow_lt_mono_r; lia).
    lia. }
  assert (He : Qlog2_floor q = l + c).
  { apply Qlog2_floor_unique; rewrite Hq.
    - rewrite Qpower_plus by discriminate.
      apply Qmult_le_compat_r; [|apply Qlt_le_weak, Hc].
      rewrite two_power_whole by assumption.
      rewrite <- Zle_Qle. exact Hlo.
    - replace (l + c + 1) with (l + 1 + c) by lia.
      rewrite Qpower_plus by discriminate.
      apply Qmult_lt_compat_r; [exact Hc|].
      rewrite two_power_whole by lia.
      rewrite <- Zlt_Qlt. unfold Z.succ in Hhi. lia. }
  rewrite He.
  destruct (Z.le_gt_cases l p) as [Hlp|Hlp].
  - (* the significand is n * 2^(p - l) *)
    assert (Hm : (q / 2 ^ (l + c - p) == inject_Z (n * 2 ^ (p - l)))%Q).
    { rewrite Hq, inject_Z_mult, <- two_power_whole by lia.
      unfold Qdiv. rewrite <- Qpower_opp, <- Qmult_assoc.
      rewrite <- Qpower_plus by discriminate.
      replace (c + - (l + c - p)) with (p - l) by lia. reflexivity. }
    rewrite (round_half_even_whole _ _ Hm).
    rewrite Hq, inject_Z_mult, <- two_power_whole by lia.
    rewrite <- Qmult_assoc, <- Qpower_plus by discriminate.
    replace (p - l + (l + c - p)) with c by lia. reflexivity.
  - (* n = 2^(p+1) *)
    assert (El : l = p + 1) by lia.
    assert (Hn' : n = 2 ^ (p + 1)) by (rewrite El in Hlo; lia).
    rewrite El.
    assert (Hm : (q / 2 ^ (p + 1 + c - p) == inject_Z (2 ^ p))%Q).
    { rewrite Hq, Hn', <- !two_power_whole by lia.
      unfold Qdiv. rewrite <- Qpower_opp, <- Qmult_assoc.
      rewrite <- Qpower_plus by discriminate.
      rewrite <- Qpower_plus by discriminate.
      replace (p + 1 + (c + - (p + 1 + c - p))) with p by lia.
      reflexivity. }
    rewrite (round_half_even_whole _ _ Hm).
    rewrite Hq, Hn', <- !two_power_whole by lia.
    rewrite <- !Qpower_plus by discriminate.
    replace (p + (p + 1 + c - p)) with (p + 1 + c) by lia. reflexivity.
Qed.

Lemma fp_round_representable (q : Q) :
  (0 < q)%Q ->
  exists n c : Z,
    0 < n <= 2 ^ (p + 1) /\ (fp_round p q == inject_Z n * 2 ^ c)%Q.
Proof.
  intros Hq. rewrite (fp_round_positive q Hq).
  destruct (significand_bounds q Hq) as [Hlo Hhi].
  pose proof (Z.pow_pos_nonneg 2 p ltac:(lia) p_nonneg).
  eexists _, _. split; [|reflexivity]. lia.
Qed.

(** A rounded value is rounded to itself, and so is its double. *)
Lemma fp_round_idem (q : Q) :
  (0 <= q)%Q -> (fp_round p (fp_round p q) == fp_round p q)%Q.
Proof.
  intros Hq. destruct (Qlt_le_dec 0 q) as [Hpos|Hle].
  - destruct (fp_round_representable q Hpos) as (n & c & Hn & E).
    exact (fp_round_fix_positive _ n c Hn E).
  - rewrite (fp_round_zero q) by (apply Qle_antisym; assumption).
    rewrite fp_round_zero; reflexivity.
Qed.

Lemma fp_round_double (q : Q) :
  (0 <= q)%Q -> (fp_round p (2 * fp_round p q) == 2 * fp_round p q)%Q.
Proof.
  intros Hq. destruct (Qlt_le_dec 0 q) as [Hpos|Hle].
  - destruct (fp_round_representable q Hpos) as (n & c & Hn & E).
    apply (fp_round_fix_positive _ n (c + 1) Hn).
    rewrite E, two_power_succ. ring.
  - rewrite (fp_round_zero q) by (apply Qle_antisym; assumption).
    rewrite fp_round_zero; reflexivity.
Qed.

Lemma fp_round_one : (fp_round p 1 == 1)%Q.
Proof.
  apply (fp_round_fix_positive 1 1 0); [|reflexivity].
  pose proof (Z.pow_pos_nonneg 2 (p + 1) ltac:(lia) ltac:(lia)). lia.
Qed.

Lemma fp_round_negative (q : Q) :
  (q < 0)%Q -> fp_round p q = (- fp_round p (- q))%Q.
Proof.
  intros Hq.
  assert (Hpos : (0 < - q)%Q) by lra.
  rewrite (fp_round_positive (- q) Hpos). unfold fp_round.
  rewrite (proj1 (Qlt_alt q 0) Hq). reflexivity.
Qed.

Lemma fp_round_fix (q : Q) (n c : Z) :
  Z.abs n <= 2 ^ (p + 1) -> (q == inject_Z n * 2 ^ c)%Q ->
  (fp_round p q == q)%Q.
Proof.
  intros Hn Hq.
  pose proof (two_power_pos c) as Hc.
  destruct (Z.lt_trichotomy n 0) as [Hneg|[Hzero|Hpos]].
  - assert (Hlt : (q < 0)%Q).
    { rewrite Hq.
      assert (Hn0 : (inject_Z n < 0)%Q)
        by (change 0%Q with (inject_Z 0); rewrite <- Zlt_Qlt; exact Hneg).
      pose proof (Qmult_lt_compat_r _ _ (2 ^ c)%Q Hc Hn0) as H.
      rewrite Qmult_0_l in H. exact H. }
    rewrite (fp_round_negative q Hlt).
    rewrite (fp_round_fix_positive (- q) (- n) c); [ring|lia|].
    rewrite Hq, inject_Z_opp. ring.
  - rewrite fp_round_zero; rewrite Hq, Hzero; ring.
  - apply (fp_round_fix_positive q n c); [lia|exact Hq].
Qed.

End FloatingPoint.

(** ** Single and double precision *)

Section SingleAndDouble.
Import CvUtils.

Lemma f32_round_comp (q q' : Q) : (q == q')%Q -> f32_round q = f32_round q'.
Proof. apply (fp_round_comp 23). Qed.

Lemma f32_round_nonneg (q : Q) : (0 <= q)%Q -> (0 <= f32_round q)%Q.
Proof. apply (fp_round_nonneg 23). lia. Qed.

Lemma f32_round_mono (a b : Q) :
  (0 <= a)%Q -> (a <= b)%Q -> (f32_round a <= f32_round b)%Q.
Proof. apply (fp_round_mono 23). lia. Qed.

Lemma f32_round_idem (q : Q) :
  (0 <= q)%Q -> (f32_round (f32_round q) == f32_round q)%Q.
Proof. apply (fp_round_idem 23). lia. Qed.

Lemma f32_round_double (q : Q) :
  (0 <= q)%Q -> (f32_round (2 * f32_round q) == 2 * f32_round q)%Q.
Proof. apply (fp_round_double 23). lia. Qed.

Lemma f32_round_one : (f32_round 1 == 1)%Q.
Proof. apply (fp_round_one 23). lia. Qed.

Lemma f32_round_zero : f32_round 0 = 0%Q.
Proof. reflexivity. Qed.

Lemma f64_round_comp (q q' : Q) : (q == q')%Q -> f64_round q = f64_round q'.
Proof.
  intros H. unfold f64_round. rewrite (fp_round_comp 52 q q' H).
  reflexivity.
Qed.

(** Doubles [n * 2^c] with [|n| <= 2^53] are kept as they are. *)
Lemma f64_round_fix (q : Q) (n c : Z) :
  Z.abs n <= 2 ^ 53 -> (q == inject_Z n * 2 ^ c)%Q ->
  (f64_round q == q)%Q.
Proof.
  intros Hn Hq. unfold f64_round. rewrite Qred_correct.
  apply (fp_round_fix 52 ltac:(lia) q n c); assumption.
Qed.

End SingleAndDouble.

(** * The sort: an ordered permutation *)

Section SortFacts.
Import StdSort.
Context {A : Type} (comp : A -> A -> bool).
Hypothesis comp_asym : forall a b, comp a b = true -> comp b a = false.
Hypothesis comp_negtrans :
  forall a b c, comp a b = false -> comp b c = false -> comp a c = false.

Lemma insert_sorted_perm (x : A) (l : list A) :
  Permutation (insert_sorted comp x l) (x :: l).
Proof.
  induction l as [|y l IH]; cbn; [reflexivity|].
  destruct (comp y x); [|reflexivity].
  rewrite IH. apply perm_swap.
Qed.

Lemma std_sort_perm (l : list A) : Permutation (std_sort comp l) l.
Proof.
  induction l as [|x l IH]; cbn; [reflexivity|].
  rewrite insert_sorted_perm. constructor. exact IH.
Qed.

Lemma insert_sorted_sorted (x : A) (l : list A) :
  StronglySorted (may_precede comp) l ->
  StronglySorted (may_precede comp) (insert_sorted comp x l).
Proof.
  induction l as [|y l IH]; intros Hs; cbn.
  - constructor; constructor.
  - inversion Hs as [|? ? Hl Hy]; subst.
    destruct (comp y x) eqn:Hyx.
    + constructor; [apply IH; exact Hl|].
      rewrite (insert_sorted_perm x l).
      constructor; [exact (comp_asym _ _ Hyx)|exact Hy].
    + constructor; [exact Hs|].
      constructor; [exact Hyx|].
      eapply Forall_impl; [exact Hy|].
      intros z Hz. unfold may_precede in *.
      exact (comp_negtrans z y x Hz Hyx).
Qed.

Lemma std_sort_sorted (l : list A) :
  StronglySorted (may_precede comp) (std_sort comp l).
Proof.
  induction l as [|x l IH]; cbn; [constructor|].
  apply insert_sorted_sorted. exact IH.
Qed.

Lemma std_sort_length (l : list A) : length (std_sort comp l) = length l.
Proof. apply Permutation_length, std_sort_perm. Qed.

End SortFacts.

Lemma StronglySorted_weaken {A : Type} (R S : A -> A -> Prop) (l : list A) :
  (forall a b, R a b -> S a b) -> StronglySorted R l -> StronglySorted S l.
Proof.
  intros HRS. induction 1 as [|a l Hl IH Ha]; constructor.
  - exact IH.
  - eapply Forall_impl; [exact Ha|]. intros b. apply HRS.
Qed.

(** * Concentric deduplication (claim C6) *)

Section Concentric.
Import CircleOps HoughDetector HoughSpec.

Lemma xy_eqb_true (a b : Z * Z) : xy_eqb a b = true <-> a = b.
Proof.
  destruct a as [a1 a2], b as [b1 b2]. unfold xy_eqb. cbn.
  rewrite andb_true_iff, !Z.eqb_eq. split.
  - intros [-> ->]. reflexivity.
  - intros [= -> ->]. auto.
Qed.

Lemma xy_eqb_false (a b : Z * Z) : xy_eqb a b = false <-> a <> b.
Proof.
  rewrite <- xy_eqb_true. destruct (xy_eqb a b); split; congruence.
Qed.

Lemma dominates_refl (cs : list GsCircle) : dominates cs cs.
Proof. intros c Hc. exists c. repeat split; [exact Hc|lia]. Qed.

Lemma dominates_trans (a b c : list GsCircle) :
  dominates a b -> dominates b c -> dominates a c.
Proof.
  intros Hab Hbc x Hx.
  destruct (Hab x Hx) as (y & Hy & Exy & Rxy).
  destruct (Hbc y Hy) as (z & Hz & Eyz & Ryz).
  exists z. split; [exact Hz|]. split; [congruence|lia].
Qed.

(** Erasing the circle at [j] is covered by a circle at another index
    [k] with the same centre and a rounded radius at least as large. *)
Lemma dominates_delete (cs : list GsCircle) (j k : nat) (cj ck : GsCircle) :
  cs !! j = Some cj -> cs !! k = Some ck -> j <> k ->
  CircleXY ck = CircleXY cj -> rounded_radius cj <= rounded_radius ck ->
  dominates cs (delete j cs).
Proof.
  intros Hj Hk Hne Hxy Hr c Hc.
  apply list_elem_of_lookup in Hc. destruct Hc as [n Hn].
  destruct (decide (n = j)) as [->|Hnj].
  - assert (c = cj) by congruence. subst c.
    exists ck. split; [|split; assumption].
    apply list_elem_of_lookup.
    destruct (decide (k < j)%nat).
    + exists k. rewrite list_lookup_delete_lt by assumption. exact Hk.
    + exists (k - 1)%nat. rewrite list_lookup_delete_ge by lia.
      replace (S (k - 1)) with k by lia. exact Hk.
  - exists c. split; [|split; [reflexivity|lia]].
    apply list_elem_of_lookup.
    destruct (decide (n < j)%nat).
    + exists n. rewrite list_lookup_delete_lt by assumption. exact Hn.
    + exists (n - 1)%nat. rewrite list_lookup_delete_ge by lia.
      replace (S (n - 1)) with n by lia. exact Hn.
Qed.

Lemma prefix_unique_delete (i : nat) : forall (j : nat) (cs : list GsCircle),
  (i <= j)%nat -> prefix_unique i cs -> prefix_unique i (delete j cs).
Proof.
  induction i as [|i IH]; intros j cs Hij Hp; [destruct (delete j cs); exact I|].
  destruct cs as [|c cs]; [exact I|].
  destruct j as [|j]; [lia|].
  destruct Hp as [Hc Hp]. cbn. split.
  - apply Forall_delete. exact Hc.
  - apply IH; [lia|exact Hp].
Qed.

Lemma prefix_unique_extend (i : nat) : forall (cs : list GsCircle) c,
  prefix_unique i cs -> cs !! i = Some c ->
  Forall (fun d => CircleXY c <> CircleXY d) (drop (S i) cs) ->
  prefix_unique (S i) cs.
Proof.
  induction i as [|i IH]; intros cs c Hp Hc Hall.
  - destruct cs as [|c' cs]; [discriminate|].
    cbn in Hc. injection Hc as ->. cbn in Hall.
    cbn. split; [|destruct cs; exact I].
    rewrite drop_0 in Hall. exact Hall.
  - destruct cs as [|c' cs]; [discriminate|].
    destruct Hp as [Hc' Hp]. cbn in Hc.
    change (prefix_unique (S (S i)) (c' :: cs))
      with (Forall (fun d => CircleXY c' <> CircleXY d) cs
            /\ prefix_unique (S i) cs).
    split; [exact Hc'|].
    apply (IH cs c); assumption.
Qed.

Lemma prefix_unique_NoDup (cs : list GsCircle) : forall i : nat,
  (length cs <= S i)%nat -> prefix_unique i cs ->
  NoDup (map CircleXY cs).
Proof.
  induction cs as [|c cs IH]; intros i Hlen Hp; cbn; [constructor|].
  destruct i as [|i].
  - destruct cs; [|cbn in Hlen; lia]. cbn.
    constructor; [apply not_elem_of_nil|constructor].
  - destruct Hp as [Hc Hp]. constructor.
    + intros Hin. apply list_elem_of_In, in_map_iff in Hin.
      destruct Hin as (d & Hd & Hin). apply list_elem_of_In in Hin.
      exact (proj1 (Forall_forall _ _) Hc d Hin (eq_sym Hd)).
    + apply (IH i); [cbn in Hlen; lia|exact Hp].
Qed.


Lemma drop_after_delete {A : Type} (l : list A) (j : nat) :
  drop j (delete j l) = drop (S j) l.
Proof.
  revert j. induction l as [|a l IH]; intros [|j]; cbn; try reflexivity.
  apply IH.
Qed.

(** What one run of the inner loop achieves for the circle at [i]. *)
Lemma inner_loop_spec (j : nat) : forall (cs : list GsCircle) (i : nat) cur,
  cs !! i = Some cur -> (i <= j)%nat -> (j < length cs)%nat ->
  prefix_unique i cs ->
  Forall (fun d => CircleXY cur <> CircleXY d) (drop (S j) cs) ->
  exists cs' i',
    inner_loop cs (Z.of_nat i) j = (cs', i')
    /\ cs' `sublist_of` cs
    /\ dominates cs cs'
    /\ ((i' = Z.of_nat i /\ prefix_unique (S i) cs')
        \/ (i' = Z.of_nat i - 1 /\ prefix_unique i cs'
            /\ (length cs' < length cs)%nat)).
Proof.
  induction j as [|j IH]; intros cs i cur Hcur Hij Hj Hp Hafter.
  - assert (i = O) by lia. subst i.
    exists cs, 0. cbn [inner_loop Z.of_nat].
    split; [reflexivity|]. split; [reflexivity|].
    split; [apply dominates_refl|]. left. split; [reflexivity|].
    eapply prefix_unique_extend; eassumption.
  - cbn [inner_loop].
    destruct (Z.gtb_spec (Z.of_nat (S j)) (Z.of_nat i)) as [Hgt|Hle].
    + rewrite Nat2Z.id, Hcur.
      destruct (cs !! S j) as [other|] eqn:Hother;
        [|apply lookup_ge_None in Hother; lia].
      assert (Hi : (i <= j)%nat) by lia.
      destruct (xy_eqb (CircleXY cur) (CircleXY other)) eqn:Hxy.
      * apply xy_eqb_true in Hxy.
        destruct (Z.leb_spec (rounded_radius other) (rounded_radius cur))
          as [Hr|Hr].
        -- assert (Hdom : dominates cs (delete (S j) cs)).
           { eapply (dominates_delete cs (S j) i other cur);
               eauto; lia. }
           destruct (IH (delete (S j) cs) i cur) as (cs' & i' & E & Hs & Hd & Hres).
           ++ rewrite list_lookup_delete_lt by lia. exact Hcur.
           ++ exact Hi.
           ++ rewrite length_delete by (rewrite Hother; eauto). lia.
           ++ apply prefix_unique_delete; [lia|exact Hp].
           ++ rewrite drop_after_delete. exact Hafter.
           ++ exists cs', i'. split; [exact E|].
              split; [etransitivity; [exact Hs|apply sublist_delete]|].
              split; [eapply dominates_trans; eassumption|].
              destruct Hres as [Hres|(Hi' & Hp' & Hlen)]; [left; exact Hres|].
              right. split; [exact Hi'|]. split; [exact Hp'|].
              rewrite length_delete in Hlen by (rewrite Hother; eauto). lia.
        -- exists (delete i cs), (Z.of_nat i - 1).
           split; [reflexivity|]. split; [apply sublist_delete|].
           split.
           { eapply (dominates_delete cs i (S j) cur other);
               eauto; lia. }
           right. split; [reflexivity|].
           split; [apply prefix_unique_delete; [lia|exact Hp]|].
           rewrite length_delete by (rewrite Hcur; eauto).
           apply lookup_lt_Some in Hcur. lia.
      * apply xy_eqb_false in Hxy.
        apply (IH cs i cur); try assumption; [lia|].
        rewrite (drop_S _ _ _ Hother). constructor; assumption.
    + assert (i = S j) by lia. subst i.
      exists cs, (Z.of_nat (S j)).
      split; [reflexivity|]. split; [reflexivity|].
      split; [apply dominates_refl|]. left. split; [reflexivity|].
      eapply prefix_unique_extend; eassumption.
Qed.

(** The outer loop finishes within [length cs - i + 1] rounds. *)
Lemma outer_loop_spec (fuel : nat) : forall (cs : list GsCircle) (i : nat),
  prefix_unique i cs -> (length cs - i < fuel)%nat ->
  exists out,
    outer_loop fuel cs (Z.of_nat i) = Some out
    /\ out `sublist_of` cs
    /\ dominates cs out
    /\ NoDup (map CircleXY out).
Proof.
  induction fuel as [|fuel IH]; intros cs i Hp Hfuel; [lia|].
  cbn [outer_loop].
  destruct (Z.ltb_spec (Z.of_nat i) (Z.of_nat (length cs) - 1)) as [Hlt|Hge].
  - destruct (cs !! i) as [cur|] eqn:Hcur;
      [|apply lookup_ge_None in Hcur; lia].
    destruct (inner_loop_spec (length cs - 1) cs i cur)
      as (cs' & i' & E & Hs & Hd & Hres); try assumption; try lia.
    { rewrite drop_ge by lia. constructor. }
    rewrite E.
    pose proof (sublist_length _ _ Hs) as Hlen.
    destruct Hres as [[-> Hp']|(-> & Hp' & Hlen')].
    + replace (Z.of_nat i + 1) with (Z.of_nat (S i)) by lia.
      destruct (IH cs' (S i) Hp') as (out & Eo & Hso & Hdo & Hn); [lia|].
      exists out. split; [exact Eo|].
      split; [etransitivity; eassumption|].
      split; [eapply dominates_trans; eassumption|exact Hn].
    + replace (Z.of_nat i - 1 + 1) with (Z.of_nat i) by lia.
      destruct (IH cs' i Hp') as (out & Eo & Hso & Hdo & Hn); [lia|].
      exists out. split; [exact Eo|].
      split; [etransitivity; eassumption|].
      split; [eapply dominates_trans; eassumption|exact Hn].
  - exists cs. split; [reflexivity|]. split; [reflexivity|].
    split; [apply dominates_refl|].
    apply (prefix_unique_NoDup cs i); [lia|exact Hp].
Qed.

Lemma outer_loop_total (cs : list GsCircle) :
  exists out,
    outer_loop (S (length cs)) cs 0 = Some out
    /\ RemoveSmallestConcentricCircles cs = out
    /\ out `sublist_of` cs
    /\ dominates cs out
    /\ NoDup (map CircleXY out).
Proof.
  destruct (outer_loop_spec (S (length cs)) cs O) as (out & E & H);
    [destruct cs; exact I|lia|].
  exists out. split; [exact E|]. split; [|exact H].
  unfold RemoveSmallestConcentricCircles.
  change (Z.of_nat 0) with 0 in E. rewrite E. reflexivity.
Qed.

Lemma same_centre_same_circle (l : list GsCircle) (c d : GsCircle) :
  NoDup (map CircleXY l) -> c ∈ l -> d ∈ l ->
  CircleXY c = CircleXY d -> c = d.
Proof.
  induction l as [|a l IH]; intros Hn Hc Hd Hxy; [inversion Hc|].
  cbn in Hn. apply NoDup_cons in Hn. destruct Hn as [Ha Hn].
  apply elem_of_cons in Hc. apply elem_of_cons in Hd.
  destruct Hc as [->|Hc], Hd as [->|Hd].
  - reflexivity.
  - exfalso. apply Ha. rewrite Hxy.
    apply list_elem_of_In, in_map, list_elem_of_In. exact Hd.
  - exfalso. apply Ha. rewrite <- Hxy.
    apply list_elem_of_In, in_map, list_elem_of_In. exact Hc.
  - apply IH; assumption.
Qed.

End Concentric.

(** What the code keeps.  For any list L of circles, after
    [RemoveSmallestConcentricCircles]: no two circles of the output share an
    integer centre; the integer centres of the output are those of L; each
    circle of the output has the largest rounded radius seen at its centre
    in L; and the output is L with circles left out, the others in their
    order. *)
Lemma RemoveSmallestConcentricCircles_rounded (L : list GsCircle) :
  let out := HoughDetector.RemoveSmallestConcentricCircles L in
  NoDup (map CircleOps.CircleXY out)
  /\ (forall xy, xy ∈ map CircleOps.CircleXY out
                 <-> xy ∈ map CircleOps.CircleXY L)
  /\ (forall c d, c ∈ out -> d ∈ L ->
                  CircleOps.CircleXY d = CircleOps.CircleXY c ->
                  CircleOps.rounded_radius d <= CircleOps.rounded_radius c)
  /\ out `sublist_of` L.
Proof.
  destruct (outer_loop_total L) as (out & _ & -> & Hs & Hd & Hn).
  cbn zeta. split; [exact Hn|]. split; [|split; [|exact Hs]].
  - intros xy. split; intros Hin.
    + apply list_elem_of_In, in_map_iff in Hin. destruct Hin as (c & <- & Hc).
      apply list_elem_of_In, in_map, list_elem_of_In.
      eapply elem_of_sublist; [|exact Hs]. apply list_elem_of_In. exact Hc.
    + apply list_elem_of_In, in_map_iff in Hin. destruct Hin as (c & <- & Hc).
      apply list_elem_of_In in Hc.
      destruct (Hd c Hc) as (d & Hdo & <- & _).
      apply list_elem_of_In, in_map, list_elem_of_In. exact Hdo.
  - intros c d Hc Hdl Hxy.
    destruct (Hd d Hdl) as (d' & Hd' & Hxy' & Hr).
    assert (d' = c).
    { apply (same_centre_same_circle out); try assumption. congruence. }
    subst d'. exact Hr.
Qed.

(** C6.  Two circles at the centre (320, 240) with the radii 40.25 and
    40.375, as [cv::HoughCircles] may report them: the radii are compared
    after [std::round], both round to 40, and the second circle is erased
    although it is the larger one.  The circle that stays does not have the
    largest radius seen at its centre. *)
Theorem C6_larger_circle_erased :
  HoughDetector.RemoveSmallestConcentricCircles
    [mkCircle 320 240 (161 # 4); mkCircle 320 240 (323 # 8)]
  = [mkCircle 320 240 (161 # 4)]
  /\ CircleOps.CircleXY (mkCircle 320 240 (323 # 8))
     = CircleOps.CircleXY (mkCircle 320 240 (161 # 4))
  /\ CircleOps.rounded_radius (mkCircle 320 240 (161 # 4)) = 40
  /\ CircleOps.rounded_radius (mkCircle 320 240 (323 # 8)) = 40
  /\ (c2 (mkCircle 320 240 (161 # 4)) < c2 (mkCircle 320 240 (323 # 8)))%Q.
Proof. repeat split; vm_compute; reflexivity. Qed.

(** * The colour mask (claim C4) *)

Section ColourMask.
Import CvUtils ColorFilter ColorSpec.

Lemma cv_inRange_px_whole (lb ub : GsColorTriplet)
    (a0 a1 a2 b0 b1 b2 : Z) (p : HsvPixel) :
  (t0 lb == inject_Z a0)%Q -> (t1 lb == inject_Z a1)%Q ->
  (t2 lb == inject_Z a2)%Q ->
  (t0 ub == inject_Z b0)%Q -> (t1 ub == inject_Z b1)%Q ->
  (t2 ub == inject_Z b2)%Q ->
  cv_inRange_px lb ub p
  = if within a0 b0 (px_h p) && within a1 b1 (px_s p)
       && within a2 b2 (px_v p)
    then 255 else 0.
Proof.
  intros H0 H1 H2 H3 H4 H5. unfold cv_inRange_px, within.
  rewrite (round_half_even_whole _ _ H0), (round_half_even_whole _ _ H1),
    (round_half_even_whole _ _ H2), (round_half_even_whole _ _ H3),
    (round_half_even_whole _ _ H4), (round_half_even_whole _ _ H5).
  f_equal. rewrite <- !andb_assoc. reflexivity.
Qed.

Lemma bitwise_or_maps {A : Type} (f g : A -> Z) (img : list (list A)) :
  cv_bitwise_or (map (map f) img) (map (map g) img)
  = map (map (fun p => Z.lor (f p) (g p))) img.
Proof.
  unfold cv_bitwise_or.
  induction img as [|row img IH]; [reflexivity|].
  cbn. f_equal; [|exact IH].
  clear IH. induction row as [|p row IH]; [reflexivity|].
  cbn. f_equal. exact IH.
Qed.

Lemma lor_mask (a b : bool) :
  Z.lor (if a then 255 else 0) (if b then 255 else 0)
  = if a || b then 255 else 0.
Proof. destruct a, b; reflexivity. Qed.

Lemma whole_minus (a b : Z) : (inject_Z a - inject_Z b == inject_Z (a - b))%Q.
Proof. unfold Z.sub. rewrite inject_Z_plus, inject_Z_opp. reflexivity. Qed.

Lemma whole_plus (a b : Z) : (inject_Z a + inject_Z b == inject_Z (a + b))%Q.
Proof. rewrite inject_Z_plus. reflexivity. Qed.

End ColourMask.

(** What the code computes, whatever widening is passed: for whole-numbered
    bounds, the mask of the shape of the image that is 255 exactly at the
    pixels within the bounds widened by the constant 35 (S and V capped at
    255, the hue taken cyclically), and 0 elsewhere. *)
Lemma GetColorMaskImage_widens_by_35
    (hsvImage : list (list ColorFilter.HsvPixel))
    (lh ls lv uh us uv : Z) (wideningAmount : Q) :
  ColorSpec.small_bound lh -> ColorSpec.small_bound ls ->
  ColorSpec.small_bound lv -> ColorSpec.small_bound uh ->
  ColorSpec.small_bound us -> ColorSpec.small_bound uv ->
  ColorFilter.GetColorMaskImage hsvImage
    (ColorSpec.triplet_of lh ls lv) (ColorSpec.triplet_of uh us uv)
    wideningAmount
  = map (map (fun p =>
                if ColorSpec.in_widened_range 35 lh ls lv uh us uv p
                then 255 else 0)) hsvImage.
Proof.
  intros Hlh Hls Hlv Huh Hus Huv.
  unfold ColorSpec.small_bound in *.
  assert (H23 : 2 ^ 23 = 8388608) by reflexivity.
  assert (H24 : 2 ^ 24 = 16777216) by reflexivity.
  unfold ColorFilter.GetColorMaskImage, ColorSpec.triplet_of.
  cbn [t0 t1 t2].
  unfold ColorFilter.kColorMaskWideningAmount, ColorFilter.kOpenCvHueMax.
  change 35%Q with (inject_Z 35). change 180%Q with (inject_Z 180).
  change 0%Q with (inject_Z 0).
  pose proof (whole_minus lh 35) as El0.
  pose proof (whole_minus ls 35) as El1.
  pose proof (whole_minus lv 35) as El2.
  pose proof (whole_plus uh 35) as Eu0.
  pose proof (whole_plus us 35) as Eu1'.
  pose proof (whole_plus uv 35) as Eu2'.
  rewrite (int_cast_whole _ _ Eu1'), (int_cast_whole _ _ Eu2').
  set (u1 := Z.min (us + 35) 255). set (u2 := Z.min (uv + 35) 255).
  assert (Ef180 : (CvUtils.f32_round (inject_Z 180) == inject_Z 180)%Q)
    by (apply f32_round_whole; [reflexivity|cbn; lia]).
  rewrite (Qle_bool_whole _ _ 0 (lh - 35) (Qeq_refl _) El0).
  rewrite (Qle_bool_whole _ _ (uh + 35) 180 Eu0 Ef180).
  assert (Efl1 : (CvUtils.f32_round (inject_Z ls - inject_Z 35)
                  == inject_Z (ls - 35))%Q)
    by (apply f32_round_whole; [exact El1|lia]).
  assert (Efl2 : (CvUtils.f32_round (inject_Z lv - inject_Z 35)
                  == inject_Z (lv - 35))%Q)
    by (apply f32_round_whole; [exact El2|lia]).
  assert (Efu1 : (CvUtils.f32_round (inject_Z u1) == inject_Z u1)%Q)
    by (apply f32_round_whole; [reflexivity|subst u1; lia]).
  assert (Efu2 : (CvUtils.f32_round (inject_Z u2) == inject_Z u2)%Q)
    by (apply f32_round_whole; [reflexivity|subst u2; lia]).
  assert (Efl0 : (CvUtils.f32_round (inject_Z lh - inject_Z 35)
                  == inject_Z (lh - 35))%Q)
    by (apply f32_round_whole; [exact El0|lia]).
  assert (Efu0 : (CvUtils.f32_round (inject_Z uh + inject_Z 35)
                  == inject_Z (uh + 35))%Q)
    by (apply f32_round_whole; [exact Eu0|lia]).
  unfold ColorSpec.in_widened_range, ColorSpec.hue_in_range.
  fold u1 u2.
  destruct ((0 <=? lh - 35) && (uh + 35 <=? 180)) eqn:Hwrap.
  - unfold ColorFilter.cv_inRange.
    apply map_ext. intros row. apply map_ext. intros p.
    apply cv_inRange_px_whole; cbn [t0 t1 t2];
      first [assumption | reflexivity].
  - destruct (Z.leb_spec 0 (lh - 35)) as [Hl|Hl]; cbn [negb].
    + destruct (Z.ltb_spec (lh - 35) 0) as [?|_]; [lia|].
      unfold ColorFilter.cv_inRange. rewrite bitwise_or_maps.
      apply map_ext. intros row. apply map_ext. intros p.
      assert (Ediff : (CvUtils.f32_round
                         (CvUtils.f32_round (inject_Z uh + inject_Z 35)
                          - 180)
                       == inject_Z (uh + 35 - 180))%Q).
      { apply f32_round_whole; [|lia].
        rewrite Efu0. change 180%Q with (inject_Z 180). apply whole_minus. }
      rewrite (cv_inRange_px_whole _ _ 0 (ls - 35) (lv - 35)
                 (uh + 35 - 180) u1 u2);
        cbn [t0 t1 t2]; try first [assumption | reflexivity].
      rewrite (cv_inRange_px_whole _ _ (lh - 35) (ls - 35) (lv - 35)
                 180 u1 u2);
        cbn [t0 t1 t2]; try first [assumption | reflexivity].
      rewrite lor_mask. f_equal.
      destruct (ColorSpec.within 0 (uh + 35 - 180) (ColorFilter.px_h p)),
        (ColorSpec.within (lh - 35) 180 (ColorFilter.px_h p)),
        (ColorSpec.within (ls - 35) u1 (ColorFilter.px_s p)),
        (ColorSpec.within (lv - 35) u2 (ColorFilter.px_v p)); reflexivity.
    + destruct (Z.ltb_spec (lh - 35) 0) as [_|?]; [|lia].
      unfold ColorFilter.cv_inRange. rewrite bitwise_or_maps.
      apply map_ext. intros row. apply map_ext. intros p.
      assert (Esum : (CvUtils.f32_round
                        (CvUtils.f32_round (inject_Z 180)
                         + CvUtils.f32_round (inject_Z lh - inject_Z 35))
                      == inject_Z (180 + (lh - 35)))%Q).
      { apply f32_round_whole; [|lia].
        rewrite Ef180, Efl0. apply whole_plus. }
      rewrite (cv_inRange_px_whole _ _ 0 (ls - 35) (lv - 35)
                 (uh + 35) u1 u2);
        cbn [t0 t1 t2]; try first [assumption | reflexivity].
      rewrite (cv_inRange_px_whole _ _ (180 + (lh - 35)) (ls - 35) (lv - 35)
                 180 u1 u2);
        cbn [t0 t1 t2]; try first [assumption | reflexivity].
      rewrite lor_mask. f_equal.
      destruct (ColorSpec.within 0 (uh + 35) (ColorFilter.px_h p)),
        (ColorSpec.within (180 + (lh - 35)) 180 (ColorFilter.px_h p)),
        (ColorSpec.within (ls - 35) u1 (ColorFilter.px_s p)),
        (ColorSpec.within (lv - 35) u2 (ColorFilter.px_v p)); reflexivity.
Qed.

(** C4.  [GetColorMaskImage] never reads its widening argument: the mask is
    the same for every value of it, the one for a widening of 35.  Called
    with the widening 0 (the default, which every caller in the sources
    uses) and the bounds (50, 100, 100) and (60, 200, 200), it sets the
    pixel (70, 150, 150) to 255, although the hue 70 lies outside
    [50 - 0, 60 + 0]. *)
Theorem C4_widening_argument_ignored :
  (forall (hsvImage : list (list ColorFilter.HsvPixel))
          (input_lowerHsv input_upperHsv : GsColorTriplet) (w w' : Q),
      ColorFilter.GetColorMaskImage hsvImage input_lowerHsv input_upperHsv w
      = ColorFilter.GetColorMaskImage hsvImage input_lowerHsv input_upperHsv
          w')
  /\ ColorFilter.GetColorMaskImage [[ColorFilter.mkPixel 70 150 150]]
       (ColorSpec.triplet_of 50 100 100) (ColorSpec.triplet_of 60 200 200) 0
     = [[255]]
  /\ ColorSpec.in_widened_range 0 50 100 100 60 200 200
       (ColorFilter.mkPixel 70 150 150) = false
  /\ ColorSpec.in_widened_range 35 50 100 100 60 200 200
       (ColorFilter.mkPixel 70 150 150) = true.
Proof.
  split; [reflexivity|].
  split; [vm_compute; reflexivity|].
  split; reflexivity.
Qed.

(** * The detector facade (claims C1, C2, C5, C10) *)

Section AdaptiveLoop.
Import BallDetectorFacade SearchStrategy FacadeSpec.

Lemma stuck_first_pass :
  loop_body externally_strobed_defaults stuck_hough
            (initial_state externally_strobed_defaults)
  = stuck_state.
Proof. vm_compute. reflexivity. Qed.

Lemma stuck_state_fixed :
  loop_body externally_strobed_defaults stuck_hough stuck_state
  = stuck_state.
Proof. vm_compute. reflexivity. Qed.

Lemma stuck_forever (fuel : nat) :
  adaptive_loop fuel externally_strobed_defaults stuck_hough stuck_state
  = None.
Proof.
  induction fuel as [|fuel IH]; [reflexivity|].
  cbn [adaptive_loop]. change (done stuck_state) with false. cbv iota.
  rewrite stuck_state_fixed. exact IH.
Qed.

End AdaptiveLoop.

(** C1 (the code at the failing input).  With the externally-strobed
    defaults (start 65, min 28, max 100, step 4, between 3 and 20 circles)
    and a Hough transform that finds 21 circles at threshold 65 and two at
    69, the loop never finishes: after the first pass every pass leaves the
    state as it was.  The bound of the claim would be 20 passes. *)
Theorem C1_adaptive_loop_diverges :
  forall fuel : nat,
    BallDetectorFacade.adaptive_loop fuel
      SearchStrategy.externally_strobed_defaults FacadeSpec.stuck_hough
      (BallDetectorFacade.initial_state
         SearchStrategy.externally_strobed_defaults)
    = None.
Proof.
  intros [|fuel]; [reflexivity|].
  cbn [BallDetectorFacade.adaptive_loop].
  change (BallDetectorFacade.done
            (BallDetectorFacade.initial_state
               SearchStrategy.externally_strobed_defaults)) with false.
  cbv iota. rewrite stuck_first_pass. apply stuck_forever.
Qed.

Section FilterAndScore.
Import BallDetectorFacade SearchStrategy FacadeSpec.

Lemma to_balls_first (index : Z) (l : list CircleCandidateListElement) :
  l <> [] ->
  exists b rest, to_balls index l = b :: rest /\ quality_ranking b = index.
Proof.
  destruct l as [|c l]; [congruence|]. intros _.
  cbn. eexists _, _. split; reflexivity.
Qed.

Lemma FilterAndScoreCandidates_result circles baseBall measure mode
    (ret : bool) (balls : list GolfBall) :
  FilterAndScoreCandidates circles baseBall [] measure mode = (ret, balls) ->
  (ret = false <-> balls = [])
  /\ (ret = true ->
      exists b rest, balls = b :: rest /\ quality_ranking b = 0).
Proof.
  unfold FilterAndScoreCandidates.
  destruct circles as [|c cs]; [intros [= <- <-]; intuition congruence|].
  destruct (scored_candidates (c :: cs) baseBall measure mode)
    as [|e found]; [intros [= <- <-]; intuition congruence|].
  destruct (final_candidates mode _ (e :: found)) as [|f final] eqn:Hf;
    [intros [= <- <-]; intuition congruence|].
  intros [= <- <-]. split.
  - split; [congruence|]. cbn. congruence.
  - intros _. apply (to_balls_first 0 (f :: final)). congruence.
Qed.

End FilterAndScore.

(** C2.  Whenever [GetBall] returns, on a non-empty image and with
    [return_balls] empty at entry: it returns false exactly when
    [return_balls] is empty on return, and when it returns true the first
    ball has quality rank 0. *)
Theorem C2_false_iff_empty (fuel : nat)
    (params : SearchStrategy.DetectionParams)
    (hough : Q -> list GsCircle)
    (measure : GsCircle -> BallDetectorFacade.ColorMeasure)
    (offset_sub_to_full : Z * Z) (baseBall : GolfBall)
    (search_mode : SearchStrategy.Mode)
    (ret : bool) (out_balls : list GolfBall) :
  BallDetectorFacade.GetBall fuel false params hough measure
    offset_sub_to_full baseBall [] search_mode = Some (ret, out_balls) ->
  (ret = false <-> out_balls = [])
  /\ (ret = true ->
      exists b rest, out_balls = b :: rest /\ quality_ranking b = 0).
Proof.
  unfold BallDetectorFacade.GetBall, BallDetectorFacade.GetBallHough.
  destruct (negb (BallDetectorFacade.PreprocessForMode search_mode)).
  { intros [= <- <-]. intuition congruence. }
  destruct (BallDetectorFacade.adaptive_loop fuel params hough _) as [st|];
    [|discriminate].
  destruct (BallDetectorFacade.finalNumberOfFoundCircles st =? 0).
  { intros [= <- <-]. intuition congruence. }
  intros [= H]. eapply FilterAndScoreCandidates_result. exact H.
Qed.

Lemma C2_false_iff_empty_witness :
  BallDetectorFacade.GetBall 10 false SearchStrategy.strobed_defaults
    (fun _ => [mkCircle 100 100 20]) FacadeSpec.near_white (0, 0)
    FacadeSpec.white_ball [] SearchStrategy.kStrobed
  = Some (true,
          [mkBall 0 (mkCircle 100 100 20) 20 (mkTriplet 203 200 200)
                  (mkTriplet 203 200 200) (mkTriplet 0 0 0)])
  /\ ((true = false <->
       [mkBall 0 (mkCircle 100 100 20) 20 (mkTriplet 203 200 200)
               (mkTriplet 203 200 200) (mkTriplet 0 0 0)] = [])
      /\ (true = true ->
          exists b rest,
            [mkBall 0 (mkCircle 100 100 20) 20 (mkTriplet 203 200 200)
                    (mkTriplet 203 200 200) (mkTriplet 0 0 0)] = b :: rest
            /\ quality_ranking b = 0)).
Proof.
  assert (E : BallDetectorFacade.GetBall 10 false
                SearchStrategy.strobed_defaults
                (fun _ => [mkCircle 100 100 20]) FacadeSpec.near_white (0, 0)
                FacadeSpec.white_ball [] SearchStrategy.kStrobed
              = Some (true,
                      [mkBall 0 (mkCircle 100 100 20) 20
                              (mkTriplet 203 200 200)
                              (mkTriplet 203 200 200) (mkTriplet 0 0 0)])).
  { vm_compute. reflexivity. }
  split; [exact E|].
  exact (C2_false_iff_empty _ _ _ _ _ _ _ _ _ E).
Defined.

(** C10 (the code at the failing input).  Seventeen circles of radius 5
    precede one of radius 20, so the only scored candidate carries the
    number 18 and the score 1166400009.  Its limit, 1166400059 held in
    single precision, is 1166400000, the candidate fails the test against
    its own limit, the filtered list is empty, and the call fails. *)
Theorem C10_first_candidate_dropped :
  exists e,
    BallDetectorFacade.scored_candidates FacadeSpec.tiny_then_ball
      FacadeSpec.white_ball FacadeSpec.near_white SearchStrategy.kStrobed
    = [e]
    /\ BallDetectorFacade.calculated_color_difference e = 1166400009%Q
    /\ BallDetectorFacade.maxRGBDistance e = 1166400000%Q
    /\ BallDetectorFacade.final_candidates SearchStrategy.kStrobed true [e]
       = []
    /\ BallDetectorFacade.FilterAndScoreCandidates FacadeSpec.tiny_then_ball
         FacadeSpec.white_ball [] FacadeSpec.near_white
         SearchStrategy.kStrobed = (false, [])
    /\ BallDetectorFacade.GetBall 10 false SearchStrategy.strobed_defaults
         (fun _ => FacadeSpec.tiny_then_ball) FacadeSpec.near_white (0, 0)
         FacadeSpec.white_ball [] SearchStrategy.kStrobed
       = Some (false, []).
Proof.
  eexists. split; [vm_compute; reflexivity|].
  repeat split; vm_compute; reflexivity.
Qed.

(** * Single-class non-maximum suppression (claim C7) *)

Section Overlap.
Import CvUtils BallImageProc NmsSpec.

(** The steps of the overlap measure, over the intersection area. *)
Lemma iou_steps (a b : Rect) :
  iou a b
  = (let inter := f32_round (inject_Z (intersection_area a b)) in
     let union :=
       f32_round (f32_round (f32_round (inject_Z (rwidth a * rheight a))
                             + f32_round (inject_Z (rwidth b * rheight b)))
                  - inter) in
     if negb (Qle_bool union 0) then f32_round (inter / union) else 0)%Q.
Proof. reflexivity. Qed.

Lemma intersection_area_sym (a b : Rect) :
  intersection_area a b = intersection_area b a.
Proof.
  unfold intersection_area.
  rewrite (Z.min_comm (rx a + rwidth a)), (Z.max_comm (rx a)),
    (Z.min_comm (ry a + rheight a)), (Z.max_comm (ry a)).
  reflexivity.
Qed.

Lemma union_area_sym (a b : Rect) : union_area a b = union_area b a.
Proof. unfold union_area. rewrite intersection_area_sym. lia. Qed.

Lemma iou_sym (a b : Rect) : (iou a b == iou b a)%Q.
Proof.
  rewrite !iou_steps. cbv zeta.
  rewrite (intersection_area_sym b a).
  rewrite (f32_round_comp
             (f32_round (inject_Z (rwidth b * rheight b))
              + f32_round (inject_Z (rwidth a * rheight a)))
             (f32_round (inject_Z (rwidth a * rheight a))
              + f32_round (inject_Z (rwidth b * rheight b))))
    by ring.
  reflexivity.
Qed.

Lemma intersection_within_boxes (a b : Rect) :
  0 <= rwidth a -> 0 <= rheight a -> 0 <= rwidth b -> 0 <= rheight b ->
  0 <= intersection_area a b
  /\ intersection_area a b <= rwidth a * rheight a
  /\ intersection_area a b <= rwidth b * rheight b.
Proof.
  intros Hwa Hha Hwb Hhb. unfold intersection_area.
  set (dx := Z.max 0 (Z.min (rx a + rwidth a) (rx b + rwidth b)
                      - Z.max (rx a) (rx b))).
  set (dy := Z.max 0 (Z.min (ry a + rheight a) (ry b + rheight b)
                      - Z.max (ry a) (ry b))).
  assert (0 <= dx <= rwidth a /\ dx <= rwidth b) by (subst dx; lia).
  assert (0 <= dy <= rheight a /\ dy <= rheight b) by (subst dy; lia).
  clearbody dx dy. nia.
Qed.

(** Areas below 2^24 are represented exactly: the measure is the exact
    ratio, rounded once. *)
Lemma iou_formula (a b : Rect) :
  0 <= rwidth a -> 0 <= rheight a -> 0 <= rwidth b -> 0 <= rheight b ->
  rwidth a * rheight a + rwidth b * rheight b < 2 ^ 24 ->
  (iou a b ==
   if 0 <? union_area a b
   then f32_round (inject_Z (intersection_area a b)
                   / inject_Z (union_area a b))
   else 0)%Q.
Proof.
  intros Hwa Hha Hwb Hhb Hsum.
  destruct (intersection_within_boxes a b Hwa Hha Hwb Hhb)
    as (Hi0 & Hia & Hib).
  assert (Ha0 : 0 <= rwidth a * rheight a) by (apply Z.mul_nonneg_nonneg; lia).
  assert (Hb0 : 0 <= rwidth b * rheight b) by (apply Z.mul_nonneg_nonneg; lia).
  rewrite iou_steps. cbv zeta.
  set (i := intersection_area a b) in *.
  set (sa := rwidth a * rheight a) in *.
  set (sb := rwidth b * rheight b) in *.
  assert (EI : (f32_round (inject_Z i) == inject_Z i)%Q)
    by (apply f32_round_whole; [reflexivity|lia]).
  assert (EA : (f32_round (inject_Z sa) == inject_Z sa)%Q)
    by (apply f32_round_whole; [reflexivity|lia]).
  assert (EB : (f32_round (inject_Z sb) == inject_Z sb)%Q)
    by (apply f32_round_whole; [reflexivity|lia]).
  assert (ES : (f32_round (f32_round (inject_Z sa) + f32_round (inject_Z sb))
                == inject_Z (sa + sb))%Q).
  { apply f32_round_whole; [|lia].
    rewrite EA, EB, inject_Z_plus. reflexivity. }
  assert (EU : (f32_round
                  (f32_round (f32_round (inject_Z sa)
                              + f32_round (inject_Z sb))
                   - f32_round (inject_Z i))
                == inject_Z (union_area a b))%Q).
  { apply f32_round_whole; [|unfold union_area; fold i sa sb; lia].
    rewrite ES, EI. unfold union_area. fold i sa sb.
    unfold Z.sub. rewrite !inject_Z_plus, inject_Z_opp. reflexivity. }
  rewrite (Qle_bool_whole _ 0%Q (union_area a b) 0 EU (Qeq_refl _)).
  destruct (Z.ltb_spec 0 (union_area a b)) as [Hpos|Hneg].
  - destruct (Z.leb_spec (union_area a b) 0); [lia|]. cbn [negb].
    rewrite (f32_round_comp _ (inject_Z i / inject_Z (union_area a b)))
      by (rewrite EU, EI; reflexivity).
    reflexivity.
  - destruct (Z.leb_spec (union_area a b) 0); [|lia]. reflexivity.
Qed.

(** The rounded intersection does not exceed the rounded union. *)
Lemma iou_parts_ordered (i sa sb : Z) :
  0 <= i -> i <= sa -> i <= sb ->
  let inter := f32_round (inject_Z i) in
  let union :=
    f32_round (f32_round (f32_round (inject_Z sa) + f32_round (inject_Z sb))
               - inter) in
  (0 <= inter)%Q /\ (inter <= union)%Q.
Proof.
  intros Hi Hsa Hsb. cbv zeta.
  assert (Hi0 : (0 <= inject_Z i)%Q)
    by (change 0%Q with (inject_Z 0); rewrite <- Zle_Qle; exact Hi).
  pose proof (f32_round_nonneg _ Hi0) as HI0.
  assert (Hia : (inject_Z i <= inject_Z sa)%Q)
    by (rewrite <- Zle_Qle; exact Hsa).
  assert (Hib : (inject_Z i <= inject_Z sb)%Q)
    by (rewrite <- Zle_Qle; exact Hsb).
  pose proof (f32_round_mono _ _ Hi0 Hia) as HIA.
  pose proof (f32_round_mono _ _ Hi0 Hib) as HIB.
  pose proof (f32_round_double _ Hi0) as HD.
  pose proof (f32_round_idem _ Hi0) as HID.
  set (I := f32_round (inject_Z i)) in *.
  set (A := f32_round (inject_Z sa)) in *.
  set (B := f32_round (inject_Z sb)) in *.
  assert (HS : (2 * I <= f32_round (A + B))%Q).
  { rewrite <- HD. apply f32_round_mono; lra. }
  split; [exact HI0|].
  rewrite <- HID at 1. apply f32_round_mono; lra.
Qed.

End Overlap.

Section Pairs.
Import BallImageProc NmsSpec StdSort.

Lemma confidence_pairs_elem (confidences : list Q) :
  forall (i0 : nat) (conf_threshold c : Q) (idx : nat),
    (c, idx) ∈ confidence_pairs confidences i0 conf_threshold
    <-> exists k, idx = (i0 + k)%nat /\ confidences !! k = Some c
                  /\ (conf_threshold <= c)%Q.
Proof.
  induction confidences as [|c0 rest IH]; intros i0 ct c idx; cbn.
  - split; [intros H; inversion H|intros (k & _ & H & _); discriminate].
  - destruct (Qle_bool ct c0) eqn:Hc0.
    + rewrite elem_of_cons, IH. split.
      * intros [[= -> ->]|(k & -> & Hk & Hle)].
        -- exists O. split; [lia|]. split; [reflexivity|].
           apply Qle_bool_iff. exact Hc0.
        -- exists (S k). split; [lia|]. split; assumption.
      * intros ([|k] & -> & Hk & Hle).
        -- left. cbn in Hk. injection Hk as ->. f_equal. lia.
        -- right. exists k. split; [lia|]. split; assumption.
    + rewrite IH. split.
      * intros (k & -> & Hk & Hle). exists (S k).
        split; [lia|]. split; assumption.
      * intros ([|k] & -> & Hk & Hle).
        -- cbn in Hk. injection Hk as ->.
           apply Qle_bool_iff in Hle. congruence.
        -- exists k. split; [lia|]. split; assumption.
Qed.

Lemma by_confidence_desc_asym (a b : Q * nat) :
  by_confidence_desc a b = true -> by_confidence_desc b a = false.
Proof.
  unfold by_confidence_desc. rewrite negb_true_iff, negb_false_iff.
  intros H. apply Qle_bool_iff.
  destruct (Qlt_le_dec (fst a) (fst b)) as [Hlt|Hle].
  - apply Qlt_le_weak in Hlt. apply Qle_bool_iff in Hlt. congruence.
  - exact Hle.
Qed.

Lemma by_confidence_desc_negtrans (a b c : Q * nat) :
  by_confidence_desc a b = false -> by_confidence_desc b c = false ->
  by_confidence_desc a c = false.
Proof.
  unfold by_confidence_desc. rewrite !negb_false_iff, !Qle_bool_iff.
  apply Qle_trans.
Qed.

Lemma StronglySorted_lookup {A : Type} (R : A -> A -> Prop) (l : list A) :
  StronglySorted R l ->
  forall p q a b, (p < q)%nat -> l !! p = Some a -> l !! q = Some b -> R a b.
Proof.
  induction 1 as [|x l Hs IH Hx]; intros p q a b Hpq Hp Hq;
    [discriminate|].
  destruct q as [|q]; [lia|]. cbn in Hq.
  destruct p as [|p].
  - cbn in Hp. injection Hp as ->.
    apply (proj1 (Forall_forall _ _) Hx).
    apply list_elem_of_lookup. eauto.
  - cbn in Hp. apply (IH p q); [lia|assumption..].
Qed.

(** The sorted pairs: exactly the confidences that pass the prefilter,
    each with its index, in descending order. *)
Lemma sorted_pairs_spec (confidences : list Q) (conf_threshold : Q) :
  let pairs :=
    std_sort by_confidence_desc
             (confidence_pairs confidences 0 conf_threshold) in
  (forall c idx, (c, idx) ∈ pairs <->
                 confidences !! idx = Some c /\ (conf_threshold <= c)%Q)
  /\ (forall p q a b, (p < q)%nat -> pairs !! p = Some a ->
                      pairs !! q = Some b -> (fst b <= fst a)%Q).
Proof.
  cbn zeta. split.
  - intros c idx.
    rewrite (std_sort_perm by_confidence_desc (confidence_pairs _ _ _)).
    rewrite confidence_pairs_elem. split.
    + intros (k & -> & Hk & Hle). auto.
    + intros [Hk Hle]. exists idx. auto.
  - intros p q a b Hpq Hp Hq.
    pose proof (std_sort_sorted by_confidence_desc by_confidence_desc_asym
                  by_confidence_desc_negtrans
                  (confidence_pairs confidences 0 conf_threshold)) as Hs.
    pose proof (StronglySorted_lookup _ _ Hs p q a b Hpq Hp Hq) as H.
    unfold may_precede, by_confidence_desc in H.
    apply negb_false_iff, Qle_bool_iff in H. exact H.
Qed.

End Pairs.

Section Greedy.
Import BallImageProc NmsSpec.
Variables (boxes : list Rect) (pairs : list (Q * nat)) (nms_threshold : Q).

Lemma inner_step_hits (box_i : Rect) (suppressed : list bool) (j : nat) :
  inner_step boxes pairs nms_threshold box_i suppressed j
  = if hits boxes pairs nms_threshold box_i j
    then <[j := true]> suppressed else suppressed.
Proof.
  unfold inner_step, hits, pair_box.
  destruct (suppressed !! j) as [[|]|] eqn:Hj.
  - rewrite (list_insert_id _ _ _ Hj).
    destruct (pairs !! j) as [[c idx]|]; [|reflexivity].
    destruct (boxes !! idx); [|reflexivity].
    destruct (negb _); reflexivity.
  - destruct (pairs !! j) as [[c idx]|]; [|reflexivity].
    destruct (boxes !! idx); reflexivity.
  - destruct (pairs !! j) as [[c idx]|]; [|reflexivity].
    destruct (boxes !! idx); reflexivity.
Qed.

(** The inner loop over the positions [a, a + m). *)
Lemma inner_fold_spec (box_i : Rect) (m : nat) :
  forall (a : nat) (suppressed : list bool),
    let suppressed' :=
      fold_left (inner_step boxes pairs nms_threshold box_i)
                (seq a m) suppressed in
    length suppressed' = length suppressed
    /\ forall q b, suppressed !! q = Some b ->
         suppressed' !! q
         = Some (b || ((a <=? q)%nat && (q <? a + m)%nat
                       && hits boxes pairs nms_threshold box_i q)).
Proof.
  induction m as [|m IH]; intros a suppressed; cbn zeta.
  - cbn [seq fold_left]. split; [reflexivity|].
    intros q b Hq. rewrite Hq. f_equal.
    destruct (q <? a + 0)%nat eqn:E; [apply Nat.ltb_lt in E|].
    + destruct (Nat.leb_spec a q); [lia|]. cbn. rewrite orb_false_r.
      reflexivity.
    + rewrite andb_false_r. cbn. rewrite orb_false_r. reflexivity.
  - cbn [seq fold_left].
    set (s1 := inner_step boxes pairs nms_threshold box_i suppressed a).
    destruct (IH (S a) s1) as [Hlen Hq'].
    assert (Hlen1 : length s1 = length suppressed).
    { subst s1. rewrite inner_step_hits.
      destruct (hits _ _ _ _ _); [apply length_insert|reflexivity]. }
    split; [congruence|].
    intros q b Hq.
    assert (H1 : s1 !! q
                 = Some (b || ((q =? a)%nat
                               && hits boxes pairs nms_threshold box_i q))).
    { subst s1. rewrite inner_step_hits.
      destruct (Nat.eqb_spec q a) as [->|Hne].
      - destruct (hits boxes pairs nms_threshold box_i a).
        + rewrite list_lookup_insert_eq
            by (apply lookup_lt_Some in Hq; exact Hq).
          rewrite orb_true_r. reflexivity.
        + rewrite Hq, orb_false_r. reflexivity.
      - cbn [andb]. rewrite orb_false_r.
        destruct (hits boxes pairs nms_threshold box_i a);
          [rewrite list_lookup_insert_ne by congruence|]; exact Hq. }
    rewrite (Hq' q _ H1). f_equal.
    destruct (Nat.eqb_spec q a) as [->|Hne].
    + destruct (Nat.leb_spec (S a) a); [lia|].
      destruct (Nat.leb_spec a a); [|lia].
      destruct (Nat.ltb_spec a (a + S m)); [|lia].
      cbn [andb]. rewrite orb_false_r. reflexivity.
    + cbn [andb]. rewrite orb_false_r.
      replace (S a <=? q)%nat with (a <=? q)%nat
        by (destruct (Nat.leb_spec a q), (Nat.leb_spec (S a) q);
            try reflexivity; lia).
      replace (q <? S a + m)%nat with (q <? a + S m)%nat
        by (f_equal; lia).
      reflexivity.
Qed.

Hypothesis boxes_present :
  forall p c idx, pairs !! p = Some (c, idx) -> is_Some (boxes !! idx).

Lemma outer_step_invariant (i : nat) (st : list bool * list nat) :
  (i < length pairs)%nat ->
  nms_invariant boxes pairs nms_threshold i st ->
  nms_invariant boxes pairs nms_threshold (S i)
                (outer_step boxes pairs nms_threshold st i).
Proof.
  intros Hi. destruct st as [sup out]. unfold nms_invariant.
  cbn [fst snd]. intros (Hlen & Hout & Hpair & Hsup).
  unfold outer_step.
  destruct (sup !! i) as [[|]|] eqn:Hsi.
  - (* position [i] is suppressed: nothing changes *)
    cbn [fst snd]. split; [exact Hlen|]. split; [|split].
    + intros k. rewrite Hout. split; intros (p & c & Hp & Hs & Hk).
      * exists p, c. split; [lia|]. split; assumption.
      * exists p, c. split; [|split; assumption].
        destruct (decide (p = i)) as [->|]; [congruence|lia].
    + intros p q bp bq Hp Hpq Hsp Hsq Hbp Hbq.
      apply (Hpair p q bp bq); try assumption.
      destruct (decide (p = i)) as [->|]; [congruence|lia].
    + intros q Hq.
      destruct (Hsup q Hq) as (p & bp & bq & H1 & H2 & H3).
      exists p, bp, bq. split; [exact H1|]. split; [lia|exact H3].
  - (* position [i] is kept *)
    destruct (pairs !! i) as [[ci idx_i]|] eqn:Hpi;
      [|apply lookup_ge_None in Hpi; lia].
    destruct (boxes_present i ci idx_i Hpi) as [box_i Hbi]. rewrite Hbi.
    destruct (inner_fold_spec box_i (length pairs - S i) (S i) sup)
      as [Hlen' Hq'].
    set (sup' := fold_left _ _ sup) in *.
    cbn [fst snd].
    assert (Hbox_i : pair_box boxes pairs i = Some box_i).
    { unfold pair_box. rewrite Hpi. exact Hbi. }
    assert (Hlow : forall q, (q <= i)%nat -> sup' !! q = sup !! q).
    { intros q Hq. destruct (sup !! q) as [b|] eqn:Hsq.
      - rewrite (Hq' q b Hsq).
        destruct (Nat.leb_spec (S i) q); [lia|].
        cbn [andb]. rewrite orb_false_r. reflexivity.
      - apply lookup_ge_None in Hsq. apply lookup_ge_None. lia. }
    assert (Hback : forall q b', sup' !! q = Some b' ->
               (q < length pairs)%nat
               /\ exists b, sup !! q = Some b
                 /\ b' = b || ((S i <=? q)%nat
                               && hits boxes pairs nms_threshold box_i q)).
    { intros q b' Hsq'.
      pose proof (lookup_lt_Some _ _ _ Hsq') as Hlt.
      split; [lia|].
      destruct (sup !! q) as [b|] eqn:Hsq;
        [|apply lookup_ge_None in Hsq; lia].
      exists b. split; [reflexivity|].
      rewrite (Hq' q b Hsq) in Hsq'.
      assert (Hr : (q <? S i + (length pairs - S i))%nat = true)
        by (apply Nat.ltb_lt; lia).
      rewrite Hr, andb_true_r in Hsq'. congruence. }
    split; [lia|]. split; [|split].
    + intros k. rewrite elem_of_app, list_elem_of_singleton, Hout. split.
      * intros [(p & c & Hp & Hs & Hk)| ->].
        -- exists p, c. split; [lia|].
           split; [rewrite Hlow by lia; exact Hs|exact Hk].
        -- exists i, ci. split; [lia|].
           split; [rewrite Hlow by lia; exact Hsi|exact Hpi].
      * intros (p & c & Hp & Hs & Hk).
        rewrite Hlow in Hs by lia.
        destruct (decide (p = i)) as [->|Hne].
        -- right. congruence.
        -- left. exists p, c. split; [lia|]. split; assumption.
    + intros p q bp bq Hp Hpq Hsp Hsq Hbp Hbq.
      rewrite Hlow in Hsp by lia.
      destruct (Hback q false Hsq) as (Hqn & b & Hb & Hor).
      symmetry in Hor. apply orb_false_iff in Hor. destruct Hor as [-> Hx].
      destruct (decide (p = i)) as [->|Hne].
      * assert (bp = box_i) by congruence. subst bp.
        destruct (Nat.leb_spec (S i) q); [|lia]. cbn [andb] in Hx.
        unfold hits in Hx. rewrite Hbq in Hx.
        apply negb_false_iff in Hx. exact Hx.
      * apply (Hpair p q bp bq); try assumption. lia.
    + intros q Hq.
      destruct (Hback q true Hq) as (Hqn & b & Hb & Hor).
      destruct b.
      * destruct (Hsup q Hb) as (p & bp & bq & H1 & H2 & H3 & H4).
        exists p, bp, bq. split; [exact H1|]. split; [lia|].
        split; [rewrite Hlow by lia; exact H3|exact H4].
      * cbn [orb] in Hor. symmetry in Hor.
        apply andb_true_iff in Hor. destruct Hor as [Hle Hh].
        apply Nat.leb_le in Hle.
        unfold hits in Hh.
        destruct (pair_box boxes pairs q) as [bq|] eqn:Hbq;
          [|discriminate].
        apply negb_true_iff in Hh.
        exists i, box_i, bq. split; [lia|]. split; [lia|].
        split; [rewrite Hlow by lia; exact Hsi|].
        split; [exact Hbox_i|]. split; [reflexivity|exact Hh].
  - apply lookup_ge_None in Hsi. lia.
Qed.

Lemma outer_fold_invariant (m : nat) :
  forall (i : nat) (st : list bool * list nat),
    (i + m <= length pairs)%nat ->
    nms_invariant boxes pairs nms_threshold i st ->
    nms_invariant boxes pairs nms_threshold (i + m)
      (fold_left (outer_step boxes pairs nms_threshold) (seq i m) st).
Proof.
  induction m as [|m IH]; intros i st Hm Hinv.
  - rewrite Nat.add_0_r. exact Hinv.
  - cbn [seq fold_left].
    replace (i + S m)%nat with (S i + m)%nat by lia.
    apply IH; [lia|]. apply outer_step_invariant; [lia|exact Hinv].
Qed.

Lemma suppress_invariant :
  nms_invariant boxes pairs nms_threshold (length pairs)
                (suppress boxes pairs nms_threshold).
Proof.
  unfold suppress.
  apply (outer_fold_invariant (length pairs) O); [lia|].
  unfold nms_invariant. cbn [fst snd].
  split; [apply length_replicate|]. split; [|split].
  - intros k. split; [intros H; inversion H|].
    intros (p & c & Hp & _). lia.
  - intros p q bp bq Hp. lia.
  - intros q Hq. apply lookup_replicate in Hq. destruct Hq as [Hq _].
    discriminate.
Qed.

End Greedy.

Section NmsResult.
Import BallImageProc NmsSpec StdSort.

Lemma SingleClassNMS_suppress (boxes : list Rect) (confidences : list Q)
    (conf_threshold nms_threshold : Q) :
  SingleClassNMS boxes confidences conf_threshold nms_threshold
  = snd (suppress boxes
           (std_sort by_confidence_desc
              (confidence_pairs confidences 0 conf_threshold))
           nms_threshold).
Proof.
  unfold SingleClassNMS.
  destruct (confidence_pairs confidences 0 conf_threshold); reflexivity.
Qed.

End NmsResult.

(** C7 (counterexample).  Two identical boxes with the same confidence: the
    second is not returned, and the returned box that overlaps it has an
    equal confidence, not a higher one.  And the boxes (0, 0, 14, 1) and
    (5, 0, 15, 1) with the NMS threshold 0.45f, the [float] nearest to
    0.45: their intersection is 9 and their union 20, the quotient is
    rounded to single precision and equals the threshold, so both boxes
    are returned although 9/20 exceeds the threshold. *)
Lemma C7_counterexample :
  (BallImageProc.SingleClassNMS
     [BallImageProc.mkRect 0 0 10 10; BallImageProc.mkRect 0 0 10 10]
     [9 # 10; 9 # 10] (1 # 2) (1 # 2) = [O]
   /\ ([9 # 10; 9 # 10] : list Q) !! 1%nat = Some (9 # 10)
   /\ (1 # 2 <= 9 # 10)%Q
   /\ forall i ci, i ∈ [O] -> ([9 # 10; 9 # 10] : list Q) !! i = Some ci ->
                   ~ (9 # 10 < ci)%Q)
  /\ (BallImageProc.SingleClassNMS
        [BallImageProc.mkRect 0 0 14 1; BallImageProc.mkRect 5 0 15 1]
        [3 # 4; 5 # 8] (1 # 2) (CvUtils.f32_round (45 # 100))
      = [O; 1%nat]
      /\ NmsSpec.intersection_area (BallImageProc.mkRect 0 0 14 1)
                                   (BallImageProc.mkRect 5 0 15 1) = 9
      /\ NmsSpec.union_area (BallImageProc.mkRect 0 0 14 1)
                            (BallImageProc.mkRect 5 0 15 1) = 20
      /\ (CvUtils.f32_round (45 # 100) < 9 # 20)%Q
      /\ (BallImageProc.iou (BallImageProc.mkRect 0 0 14 1)
                            (BallImageProc.mkRect 5 0 15 1)
          == CvUtils.f32_round (45 # 100))%Q).
Proof.
  split.
  - split; [vm_compute; reflexivity|].
    split; [reflexivity|]. split; [discriminate|].
    intros i ci Hi. apply list_elem_of_singleton in Hi. subst i.
    cbn. intros [= <-]. apply Qlt_irrefl.
  - split; [vm_compute; reflexivity|].
    split; [reflexivity|]. split; [reflexivity|].
    split; vm_compute; reflexivity.
Qed.

(** C7 (amended).  When every confidence has its box, the indices
    [SingleClassNMS] returns are indices of confidences that pass the
    confidence threshold; any two boxes returned have IoU <= nms_threshold;
    and every box whose confidence passes the threshold and that is not
    returned has IoU > nms_threshold with a returned box whose confidence is
    at least as high.  The IoU is the one the code computes in single
    precision; for boxes with sides that are not negative and areas that
    sum to less than 2^24 it is the axis-aligned intersection over the sum
    of the areas minus the intersection, rounded to the nearest [float],
    and 0 when that union is not positive. *)
Theorem C7_nms_invariants (boxes : list BallImageProc.Rect)
    (confidences : list Q) (conf_threshold nms_threshold : Q) :
  (length confidences <= length boxes)%nat ->
  let kept :=
    BallImageProc.SingleClassNMS boxes confidences conf_threshold
                                 nms_threshold in
  (forall k, k ∈ kept ->
     exists c, confidences !! k = Some c /\ (conf_threshold <= c)%Q)
  /\ (forall i j bi bj,
         i ∈ kept -> j ∈ kept -> i <> j ->
         boxes !! i = Some bi -> boxes !! j = Some bj ->
         (BallImageProc.iou bi bj <= nms_threshold)%Q)
  /\ (forall j c bj,
         confidences !! j = Some c -> (conf_threshold <= c)%Q ->
         boxes !! j = Some bj -> j ∉ kept ->
         exists i ci bi,
           i ∈ kept /\ confidences !! i = Some ci /\ (c <= ci)%Q
           /\ boxes !! i = Some bi
           /\ (nms_threshold < BallImageProc.iou bi bj)%Q)
  /\ (forall a b,
         0 <= BallImageProc.rwidth a -> 0 <= BallImageProc.rheight a ->
         0 <= BallImageProc.rwidth b -> 0 <= BallImageProc.rheight b ->
         BallImageProc.rwidth a * BallImageProc.rheight a
         + BallImageProc.rwidth b * BallImageProc.rheight b < 2 ^ 24 ->
         (BallImageProc.iou a b ==
          if 0 <? NmsSpec.union_area a b
          then CvUtils.f32_round
                 (inject_Z (NmsSpec.intersection_area a b)
                  / inject_Z (NmsSpec.union_area a b))
          else 0)%Q).
Proof.
  intros Hlen. cbn zeta. rewrite SingleClassNMS_suppress.
  set (pairs := StdSort.std_sort BallImageProc.by_confidence_desc
                  (BallImageProc.confidence_pairs confidences 0
                                                  conf_threshold)).
  destruct (sorted_pairs_spec confidences conf_threshold)
    as [Hmem Hsorted]. fold pairs in Hmem, Hsorted.
  assert (Hpresent : forall p c idx, pairs !! p = Some (c, idx) ->
                                     is_Some (boxes !! idx)).
  { intros p c idx Hp. apply lookup_lt_is_Some.
    assert (Hin : (c, idx) ∈ pairs) by (apply list_elem_of_lookup; eauto).
    apply Hmem in Hin. destruct Hin as [Hc _].
    apply lookup_lt_Some in Hc. lia. }
  destruct (suppress_invariant boxes pairs nms_threshold Hpresent)
    as (Hl & Hout & Hpair & Hsup).
  set (st := BallImageProc.suppress boxes pairs nms_threshold) in *.
  assert (Hbox : forall p c idx, pairs !! p = Some (c, idx) ->
                   NmsSpec.pair_box boxes pairs p = boxes !! idx).
  { intros p c idx Hp. unfold NmsSpec.pair_box. rewrite Hp. reflexivity. }
  split; [|split; [|split; [|exact iou_formula]]].
  - intros k Hk. apply Hout in Hk. destruct Hk as (p & c & _ & _ & Hp).
    exists c. apply Hmem. apply list_elem_of_lookup. eauto.
  - intros i j bi bj Hi Hj Hne Hbi Hbj.
    apply Hout in Hi. destruct Hi as (p & ci & _ & Hsp & Hp).
    apply Hout in Hj. destruct Hj as (q & cj & _ & Hsq & Hq).
    assert (Hpb : NmsSpec.pair_box boxes pairs p = Some bi)
      by (rewrite (Hbox p ci i Hp); exact Hbi).
    assert (Hqb : NmsSpec.pair_box boxes pairs q = Some bj)
      by (rewrite (Hbox q cj j Hq); exact Hbj).
    assert (Hpl := lookup_lt_Some _ _ _ Hp).
    assert (Hql := lookup_lt_Some _ _ _ Hq).
    destruct (Nat.lt_trichotomy p q) as [Hlt|[->|Hgt]].
    + apply Qle_bool_iff. apply (Hpair p q bi bj); assumption.
    + congruence.
    + rewrite iou_sym. apply Qle_bool_iff.
      apply (Hpair q p bj bi); assumption.
  - intros j c bj Hc Hct Hbj Hnot.
    assert (Hin : (c, j) ∈ pairs) by (apply Hmem; auto).
    apply list_elem_of_lookup in Hin. destruct Hin as [q Hq].
    assert (Hql := lookup_lt_Some _ _ _ Hq).
    destruct (st.1 !! q) as [[|]|] eqn:Hsq.
    + destruct (Hsup q Hsq) as (p & bp & bq & Hpq & _ & Hsp & Hbp & Hbq & Hiou).
      unfold NmsSpec.pair_box in Hbp.
      destruct (pairs !! p) as [[cp ip]|] eqn:Hp; [|discriminate].
      rewrite (Hbox q c j Hq), Hbj in Hbq. injection Hbq as <-.
      exists ip, cp, bp.
      split; [apply Hout; exists p, cp; repeat split; try assumption; lia|].
      assert (Hinp : (cp, ip) ∈ pairs) by (apply list_elem_of_lookup; eauto).
      apply Hmem in Hinp. destruct Hinp as [Hcp _].
      split; [exact Hcp|].
      split; [exact (Hsorted p q (cp, ip) (c, j) Hpq Hp Hq)|].
      split; [exact Hbp|].
      apply Qnot_le_lt. intros Hle. apply Qle_bool_iff in Hle. congruence.
    + exfalso. apply Hnot. apply Hout. exists q, c.
      repeat split; assumption.
    + apply lookup_ge_None in Hsq. lia.
Qed.

Lemma C7_nms_invariants_witness :
  (length NmsSpec.three_confidences <= length NmsSpec.three_boxes)%nat
  /\ (exists i ci bi,
        i ∈ BallImageProc.SingleClassNMS NmsSpec.three_boxes
              NmsSpec.three_confidences (1 # 2) (1 # 2)
        /\ NmsSpec.three_confidences !! i = Some ci
        /\ (8 # 10 <= ci)%Q
        /\ NmsSpec.three_boxes !! i = Some bi
        /\ (1 # 2 < BallImageProc.iou bi (BallImageProc.mkRect 1 1 10 10))%Q)
  /\ (BallImageProc.iou (BallImageProc.mkRect 0 0 10 10)
                        (BallImageProc.mkRect 1 1 10 10)
      == CvUtils.f32_round (81 # 119))%Q.
Proof.
  pose proof (C7_nms_invariants NmsSpec.three_boxes
                NmsSpec.three_confidences (1 # 2) (1 # 2)
                ltac:(cbn; lia)) as (_ & _ & Hcover & Hformula).
  split; [cbn; lia|]. split.
  - apply (Hcover 1%nat (8 # 10)%Q (BallImageProc.mkRect 1 1 10 10)).
    + reflexivity.
    + vm_compute. discriminate.
    + reflexivity.
    + apply (bool_decide_unpack _). vm_compute. exact I.
  - rewrite (Hformula (BallImageProc.mkRect 0 0 10 10)
                      (BallImageProc.mkRect 1 1 10 10))
      by (cbn; lia).
    vm_compute. reflexivity.
Defined.

(** * The spin analyzer: pixel values (claim C8) *)

Section PixelValues.
Import SpinAnalyzer SpinSpec.

Lemma all_pixels_px_at {A : Type} (P : A -> Prop) (img : list (list A))
    (x y : nat) (p : A) :
  all_pixels P img -> px_at img x y = Some p -> P p.
Proof.
  unfold all_pixels, px_at. intros Hall.
  destruct (img !! x) as [row|] eqn:Hrow; [|discriminate].
  intros Hp.
  pose proof (proj1 (Forall_lookup _ _) Hall x row Hrow) as Hr.
  exact (proj1 (Forall_lookup _ _) Hr y p Hp).
Qed.

Lemma all_pixels_set_px {A : Type} (P : A -> Prop) (img : list (list A))
    (x y : nat) (v : A) :
  all_pixels P img -> P v -> all_pixels P (set_px img x y v).
Proof.
  unfold all_pixels, set_px. intros Hall Hv.
  destruct (img !! x) as [row|] eqn:Hrow; [|exact Hall].
  apply Forall_insert; [exact Hall|].
  apply Forall_insert; [|exact Hv].
  exact (proj1 (Forall_lookup _ _) Hall x row Hrow).
Qed.

Lemma Forall_imap_intro {A B : Type} (P : B -> Prop) (f : nat -> A -> B)
    (l : list A) :
  (forall i a, l !! i = Some a -> P (f i a)) -> Forall P (imap f l).
Proof.
  revert f. induction l as [|a l IH]; intros f Hf; cbn; constructor.
  - apply (Hf O a). reflexivity.
  - apply IH. intros i b Hb. apply (Hf (S i) b). exact Hb.
Qed.

Lemma all_pixels_imap {A B : Type} (P : A -> Prop) (Q : B -> Prop)
    (f : nat -> nat -> A -> B) (img : list (list A)) :
  all_pixels P img ->
  (forall x y p, P p -> Q (f x y p)) ->
  all_pixels Q (imap (fun x row => imap (fun y p => f x y p) row) img).
Proof.
  intros Hall Hf. apply Forall_imap_intro. intros x row Hrow.
  apply Forall_imap_intro. intros y p Hp.
  apply Hf.
  exact (proj1 (Forall_lookup _ _)
               (proj1 (Forall_lookup _ _) Hall x row Hrow) y p Hp).
Qed.

Lemma all_pixels_map {A B : Type} (Q : B -> Prop) (f : A -> B)
    (img : list (list A)) :
  (forall p, Q (f p)) -> all_pixels Q (map (map f) img).
Proof.
  intros Hf. unfold all_pixels.
  apply Forall_forall. intros row Hrow.
  apply list_elem_of_In, in_map_iff in Hrow. destruct Hrow as (r & <- & _).
  apply Forall_forall. intros q Hq.
  apply list_elem_of_In, in_map_iff in Hq. destruct Hq as (p & <- & _).
  apply Hf.
Qed.

Lemma threshold_binary (accumGray : list (list Z)) (binary_threshold : Q) :
  all_pixels is_binary_value
             (fst (ApplyTestGaborFilter accumGray binary_threshold)).
Proof.
  cbn [ApplyTestGaborFilter fst]. unfold cv_threshold_binary.
  apply all_pixels_map. intros p. unfold is_binary_value.
  destruct (p >? _); auto.
Qed.

Lemma RemoveReflections_values (morph filtered_image : list (list Z)) :
  all_pixels is_dimple_value filtered_image ->
  all_pixels is_dimple_value (RemoveReflections morph filtered_image).
Proof.
  intros Hall. unfold RemoveReflections.
  apply (all_pixels_imap is_dimple_value is_dimple_value
           (fun x y p => match px_at morph x y with
                         | Some p1 => if p1 =? 255 then kPixelIgnoreValue
                                      else p
                         | None => p
                         end)); [exact Hall|].
  intros x y p Hp. destruct (px_at morph x y) as [p1|]; [|exact Hp].
  destruct (p1 =? 255); [|exact Hp].
  unfold is_dimple_value. auto.
Qed.

Lemma MaskAreaOutsideBall_values (in_circle : nat -> nat -> bool)
    (ball_image : list (list Z)) :
  all_pixels is_dimple_value ball_image ->
  all_pixels is_dimple_value
             (MaskAreaOutsideBall in_circle ball_image kPixelIgnoreValue).
Proof.
  intros Hall. unfold MaskAreaOutsideBall.
  apply (all_pixels_imap is_dimple_value is_dimple_value
           (fun x y p =>
              Z.lxor (Z.land p (if in_circle x y then 255 else 0))
                     (if in_circle x y then 0 else kPixelIgnoreValue)));
    [exact Hall|].
  intros x y p Hp. unfold is_dimple_value in *.
  destruct (in_circle x y).
  - rewrite Z.lxor_0_r.
    destruct Hp as [->|[->| ->]]; vm_compute; auto.
  - rewrite Z.land_0_r. vm_compute. auto.
Qed.

Lemma projectionOp_values (P : Z -> Prop)
    (geom : nat -> nat -> ProjGeom) (acc : list (list (Z * Z)))
    (pixel : Z) (x y : nat) :
  P kPixelIgnoreValue -> P pixel ->
  all_pixels (fun px => P (snd px)) acc ->
  all_pixels (fun px => P (snd px)) (projectionOp geom acc pixel x y).
Proof.
  intros Hs Hp Hacc. unfold projectionOp.
  set (img1 := if prerotatedPointNotValid (geom x y) then _ else _).
  assert (H1 : all_pixels (fun px => P (snd px)) img1).
  { subst img1. destruct (prerotatedPointNotValid (geom x y));
      [|exact Hacc].
    apply all_pixels_set_px; [exact Hacc|exact Hs]. }
  destruct (target (geom x y)) as [[[rX rY] z]|]; [|exact H1].
  apply all_pixels_set_px; [exact H1|].
  cbn. destruct (prerotatedPointNotValid (geom x y)); assumption.
Qed.

Lemma Project_values (P : Z -> Prop) (geom : nat -> nat -> ProjGeom)
    (order : list (nat * nat)) (image_gray : list (list Z)) :
  P kPixelIgnoreValue ->
  all_pixels P image_gray ->
  all_pixels (fun px => P (snd px))
             (Project2dImageTo3dBall geom order image_gray).
Proof.
  intros Hs Himg. unfold Project2dImageTo3dBall.
  set (init := map (map _) image_gray).
  assert (Hinit : all_pixels (fun px : Z * Z => P (snd px)) init).
  { subst init. apply all_pixels_map. intros _. exact Hs. }
  clearbody init. revert init Hinit.
  induction order as [|pos order IH]; intros acc Hacc; cbn; [exact Hacc|].
  apply IH.
  destruct (px_at image_gray pos.1 pos.2) as [pixel|] eqn:Hpx;
    [|exact Hacc].
  apply projectionOp_values; [exact Hs| |exact Hacc].
  exact (all_pixels_px_at _ _ _ _ _ Himg Hpx).
Qed.

Lemma dimple_value_uchar (v : Z) :
  is_dimple_value v -> is_dimple_value (v mod 256).
Proof.
  unfold is_dimple_value. intros [->|[->| ->]]; vm_compute; auto.
Qed.

Lemma GetRotatedImage_values (geom : nat -> nat -> ProjGeom)
    (order : list (nat * nat)) (image : list (list Z)) :
  all_pixels is_dimple_value image ->
  all_pixels is_dimple_value (GetRotatedImage geom order image).
Proof.
  intros Himg. unfold GetRotatedImage, Unproject3dBallTo2dImage.
  pose proof (Project_values is_dimple_value geom order image
                ltac:(unfold is_dimple_value; auto) Himg) as Hproj.
  set (src3D := Project2dImageTo3dBall geom order image) in *.
  apply (all_pixels_imap (fun p => p = 0) is_dimple_value
           (fun x y p => match px_at src3D x y with
                         | Some (_, pixelValue) => pixelValue mod 256
                         | None => p
                         end)).
  - apply all_pixels_map. reflexivity.
  - intros x y p ->.
    destruct (px_at src3D x y) as [[z v]|] eqn:Hpx.
    + apply dimple_value_uchar.
      exact (all_pixels_px_at _ _ _ _ _ Hproj Hpx).
    + unfold is_dimple_value. auto.
Qed.

Lemma prepare_dimple_image_values accumGray binary_threshold morph
    in_circle geom order :
  all_pixels is_dimple_value
    (prepare_dimple_image accumGray binary_threshold morph in_circle
                          geom order).
Proof.
  unfold prepare_dimple_image.
  apply GetRotatedImage_values, MaskAreaOutsideBall_values,
    RemoveReflections_values.
  eapply Forall_impl; [apply threshold_binary|].
  intros row Hrow. eapply Forall_impl; [exact Hrow|].
  unfold is_binary_value, is_dimple_value. tauto.
Qed.

Lemma compare_fold (pairs : list (Z * Z)) (score total : Z) :
  fold_left compare_step pairs (score, total)
  = (score + Z.of_nat (length (filter compared_equal pairs)),
     total + Z.of_nat (length (filter compared pairs))).
Proof.
  revert score total.
  induction pairs as [|[p1 p2] pairs IH]; intros score total.
  - cbn. f_equal; lia.
  - cbn [fold_left]. rewrite !filter_cons.
    unfold compare_step at 2. unfold kPixelIgnoreValue.
    destruct (decide (compared (p1, p2))) as [Hc|Hc].
    + pose proof Hc as [H1 H2]. cbn in H1, H2.
      unfold kPixelIgnoreValue in H1, H2.
      rewrite (proj2 (Z.eqb_neq _ _) H1), (proj2 (Z.eqb_neq _ _) H2).
      cbn [negb andb].
      destruct (decide (compared_equal (p1, p2))) as [He|He].
      * destruct He as [_ He]. cbn in He. subst p2.
        rewrite Z.eqb_refl, IH. cbn [length]. f_equal; lia.
      * destruct (Z.eqb_spec p1 p2) as [->|Hne].
        -- exfalso. apply He. split; [exact Hc|reflexivity].
        -- rewrite IH. cbn [length]. f_equal; lia.
    + destruct (decide (compared_equal (p1, p2))) as [He|He];
        [exfalso; apply Hc, He|].
      assert (Hb : negb (p1 =? 128) && negb (p2 =? 128) = false).
      { destruct (Z.eqb_spec p1 128), (Z.eqb_spec p2 128);
          try reflexivity.
        exfalso. apply Hc. split; assumption. }
      rewrite Hb. apply IH.
Qed.

End PixelValues.

(** C8.  The thresholded Gabor image holds only 0 and 255; the prepared
    dimple image (reflections removed, ball edge masked, de-rotated) and the
    value channel of its projection hold only 0, 255 and the sentinel 128;
    and the comparison counts exactly the pixel pairs in which neither side
    is the sentinel: [totalPixelsExamined] is their number and [score] the
    number of those that are equal. *)
Theorem C8_sentinel_purity :
  (forall (accumGray : list (list Z)) (binary_threshold : Q),
      SpinSpec.all_pixels SpinSpec.is_binary_value
        (fst (SpinAnalyzer.ApplyTestGaborFilter accumGray binary_threshold)))
  /\ (forall (accumGray : list (list Z)) (binary_threshold : Q)
             (morph : list (list Z)) (in_circle : nat -> nat -> bool)
             (geom0 geom : nat -> nat -> SpinAnalyzer.ProjGeom)
             (order0 order : list (nat * nat)),
         SpinSpec.all_pixels SpinSpec.is_dimple_value
           (SpinAnalyzer.prepare_dimple_image accumGray binary_threshold
              morph in_circle geom0 order0)
         /\ SpinSpec.all_pixels
              (fun px => SpinSpec.is_dimple_value (snd px))
              (SpinAnalyzer.Project2dImageTo3dBall geom order
                 (SpinAnalyzer.prepare_dimple_image accumGray
                    binary_threshold morph in_circle geom0 order0)))
  /\ (forall (img1 : list (list Z)) (img2 : list (list (Z * Z))),
         SpinAnalyzer.CompareRotationImage img1 img2
         = (Z.of_nat (length (filter SpinSpec.compared_equal
                                (SpinAnalyzer.pixel_pairs img1 img2))),
            Z.of_nat (length (filter SpinSpec.compared
                                (SpinAnalyzer.pixel_pairs img1 img2))))).
Proof.
  split; [exact threshold_binary|]. split.
  - intros. split; [apply prepare_dimple_image_values|].
    apply (Project_values SpinSpec.is_dimple_value).
    + unfold SpinSpec.is_dimple_value. auto.
    + apply prepare_dimple_image_values.
  - intros. unfold SpinAnalyzer.CompareRotationImage.
    rewrite compare_fold. reflexivity.
Qed.

(** * Rotation search space (claim C9) *)

Section AxisLoop.
Import SpinAnalyzer.

Lemma axis_values_spec (fuel : nat) : forall v angle_end increment,
  0 < increment ->
  angle_end - v < Z.of_nat fuel ->
  exists l,
    axis_values fuel v angle_end increment = Some l
    /\ Z.of_nat (length l)
       = (if v <=? angle_end then (angle_end - v) / increment + 1 else 0)
    /\ Forall (fun a => v <= a <= angle_end) l.
Proof.
  induction fuel as [|fuel IH]; intros v e inc Hinc Hfuel.
  - exists []. cbn. destruct (Z.leb_spec v e); [lia|]. auto.
  - cbn [axis_values]. destruct (Z.leb_spec v e) as [Hle|Hgt].
    + destruct (IH (v + inc) e inc Hinc) as (l & Hl & Hlen & Hall); [lia|].
      exists (v :: l). rewrite Hl. cbn. split; [reflexivity|]. split.
      * rewrite Nat2Z.inj_succ, Hlen.
        destruct (Z.leb_spec (v + inc) e) as [Hle'|Hgt'].
        -- replace (e - v) with ((e - (v + inc)) + 1 * inc) by ring.
           rewrite Z.div_add by lia. lia.
        -- rewrite (Z.div_small (e - v) inc) by lia. lia.
      * constructor; [lia|].
        eapply Forall_impl; [exact Hall|]. cbn. intros; lia.
    + exists []. auto.
Qed.

Lemma axis_size_floor angle_start angle_end increment :
  0 < increment -> angle_start <= angle_end ->
  axis_size angle_start angle_end increment
  = (angle_end - angle_start) / increment + 1.
Proof.
  intros Hinc Hle. unfold axis_size.
  rewrite Z.quot_div_nonneg by lia. reflexivity.
Qed.

Lemma rotation_grid_length xs ys zs :
  length (rotation_grid xs ys zs)
  = (length xs * (length ys * length zs))%nat.
Proof.
  unfold rotation_grid.
  assert (Hy : forall (f : nat -> Z -> list ((nat * nat * nat) * (Z * Z * Z))),
             (forall i y, length (f i y) = length zs) ->
             forall ys0, length (concat (imap f ys0)) = (length ys0 * length zs)%nat).
  { intros f Hf ys0. revert f Hf.
    induction ys0 as [|y ys0 IH]; intros f Hf; [reflexivity|].
    cbn. rewrite length_app, Hf. f_equal. apply IH. intros; apply Hf. }
  assert (Hx : forall (f : nat -> Z -> list ((nat * nat * nat) * (Z * Z * Z))) n,
             (forall i x, length (f i x) = n) ->
             forall xs0, length (concat (imap f xs0)) = (length xs0 * n)%nat).
  { intros f n Hf xs0. revert f Hf.
    induction xs0 as [|x xs0 IH]; intros f Hf; [reflexivity|].
    cbn. rewrite length_app, Hf. f_equal. apply IH. intros; apply Hf. }
  apply Hx. intros i x. apply Hy. intros j y. apply length_imap.
Qed.


Lemma imap_map_snd {A B C : Type} (f : nat -> A -> B * C) (g : A -> C)
    (l : list A) :
  (forall i a, snd (f i a) = g a) -> map snd (imap f l) = map g l.
Proof.
  revert f. induction l as [|a l IH]; intros f Hf; [reflexivity|].
  cbn. rewrite Hf. f_equal. apply IH. intros; apply Hf.
Qed.

End AxisLoop.

Section CandidateImages.
Import SpinAnalyzer SpinSpec.

Lemma imap_length_candidates {A B : Type} (f : nat -> A -> B) (l : list A) :
  length (imap f l) = length l.
Proof. apply length_imap. Qed.

Lemma map_imap {A B C : Type} (g : B -> C) (f : nat -> A -> B) (l : list A) :
  map g (imap f l) = imap (fun i a => g (f i a)) l.
Proof.
  revert f. induction l as [|a l IH]; intros f; [reflexivity|].
  cbn. f_equal. apply IH.
Qed.

Lemma imap_const_fn {A B : Type} (g : A -> B) (l : list A) :
  imap (fun _ a => g a) l = map g l.
Proof.
  induction l as [|a l IH]; [reflexivity|]. cbn. f_equal.
  exact IH.
Qed.

End CandidateImages.

(** C9 (counterexample).  With the default Z axis, from -50 to 60 in steps
    of 6, the loop produces 19 rotations and the matrix dimension is 19,
    whereas the quotient rounded up, plus one, is 20. *)
Lemma C9_counterexample :
  exists l,
    SpinAnalyzer.axis_values 20 (-50) 60 6 = Some l
    /\ Z.of_nat (length l) <> SpinSpec.axis_count_rounded_up (-50) 60 6
    /\ SpinAnalyzer.axis_size (-50) 60 6
       <> SpinSpec.axis_count_rounded_up (-50) 60 6.
Proof.
  eexists. split; [vm_compute; reflexivity|].
  split; vm_compute; discriminate.
Qed.

(** C9 (amended).  For a search space whose axes have a positive increment
    and start <= end, each axis loop of [ComputeCandidateAngleImages]
    generates floor((end - start) / inc) + 1 rotations, the matching
    dimension of the candidate index matrix is the same number, and the
    candidates are the rotations of the three axes combined. *)
Theorem C9_axis_cardinality (fuel : nat)
    (geom : Z * Z * Z -> nat -> nat -> SpinAnalyzer.ProjGeom)
    (order : Z * Z * Z -> list (nat * nat))
    (base_dimple_image : list (list Z))
    (s : SpinAnalyzer.RotationSearchSpace) :
  SpinSpec.well_formed_space s ->
  SpinSpec.enough_fuel s fuel ->
  exists images xs ys zs,
    SpinAnalyzer.ComputeCandidateAngleImages fuel geom order
      base_dimple_image s = Some images
    /\ SpinAnalyzer.axis_values fuel
         (SpinAnalyzer.anglex_rotation_degrees_start s)
         (SpinAnalyzer.anglex_rotation_degrees_end s)
         (SpinAnalyzer.anglex_rotation_degrees_increment s) = Some xs
    /\ SpinAnalyzer.axis_values fuel
         (SpinAnalyzer.angley_rotation_degrees_start s)
         (SpinAnalyzer.angley_rotation_degrees_end s)
         (SpinAnalyzer.angley_rotation_degrees_increment s) = Some ys
    /\ SpinAnalyzer.axis_values fuel
         (SpinAnalyzer.anglez_rotation_degrees_start s)
         (SpinAnalyzer.anglez_rotation_degrees_end s)
         (SpinAnalyzer.anglez_rotation_degrees_increment s) = Some zs
    /\ Z.of_nat (length xs)
       = SpinSpec.axis_count (SpinAnalyzer.anglex_rotation_degrees_start s)
           (SpinAnalyzer.anglex_rotation_degrees_end s)
           (SpinAnalyzer.anglex_rotation_degrees_increment s)
    /\ Z.of_nat (length ys)
       = SpinSpec.axis_count (SpinAnalyzer.angley_rotation_degrees_start s)
           (SpinAnalyzer.angley_rotation_degrees_end s)
           (SpinAnalyzer.angley_rotation_degrees_increment s)
    /\ Z.of_nat (length zs)
       = SpinSpec.axis_count (SpinAnalyzer.anglez_rotation_degrees_start s)
           (SpinAnalyzer.anglez_rotation_degrees_end s)
           (SpinAnalyzer.anglez_rotation_degrees_increment s)
    /\ SpinAnalyzer.output_candidate_elements_mat_size images
       = (Z.of_nat (length xs), Z.of_nat (length ys), Z.of_nat (length zs))
    /\ map SpinAnalyzer.rotation_of (SpinAnalyzer.output_candidates images)
       = map snd (SpinAnalyzer.rotation_grid xs ys zs)
    /\ length (SpinAnalyzer.output_candidates images)
       = (length xs * (length ys * length zs))%nat.
Proof.
  intros (Hix & Hx & Hiy & Hy & Hiz & Hz) (Hfx & Hfy & Hfz).
  destruct (axis_values_spec fuel _ _ _ Hix Hfx) as (xs & Exs & Lxs & _).
  destruct (axis_values_spec fuel _ _ _ Hiy Hfy) as (ys & Eys & Lys & _).
  destruct (axis_values_spec fuel _ _ _ Hiz Hfz) as (zs & Ezs & Lzs & _).
  rewrite (proj2 (Z.leb_le _ _) Hx) in Lxs.
  rewrite (proj2 (Z.leb_le _ _) Hy) in Lys.
  rewrite (proj2 (Z.leb_le _ _) Hz) in Lzs.
  assert (Hpx : 0 <= (SpinAnalyzer.anglex_rotation_degrees_end s
                       - SpinAnalyzer.anglex_rotation_degrees_start s)
                      / SpinAnalyzer.anglex_rotation_degrees_increment s)
    by (apply Z.div_pos; lia).
  assert (Hpy : 0 <= (SpinAnalyzer.angley_rotation_degrees_end s
                       - SpinAnalyzer.angley_rotation_degrees_start s)
                      / SpinAnalyzer.angley_rotation_degrees_increment s)
    by (apply Z.div_pos; lia).
  destruct xs as [|x xs]; [cbn in Lxs; lia|].
  destruct ys as [|y ys]; [cbn in Lys; lia|].
  unfold SpinAnalyzer.ComputeCandidateAngleImages.
  rewrite Exs, Eys, Ezs.
  eexists _, (x :: xs), (y :: ys), zs.
  split; [reflexivity|].
  repeat (split; [first [reflexivity | assumption]|]).
  cbn [SpinAnalyzer.output_candidate_elements_mat_size
       SpinAnalyzer.output_candidates].
  split; [|split].
  - rewrite !axis_size_floor by assumption.
    unfold SpinSpec.axis_count in *. congruence.
  - rewrite map_imap.
    rewrite <- (imap_const_fn snd).
    apply imap_ext. intros i [pos [[a b] c]] _. reflexivity.
  - rewrite length_imap. apply (rotation_grid_length (x :: xs) (y :: ys) zs).
Qed.

Lemma C9_axis_cardinality_witness :
  exists images,
    SpinAnalyzer.ComputeCandidateAngleImages 200
      (fun _ _ _ => SpinAnalyzer.mkGeom false 0 None) (fun _ => [])
      [[0]] (SpinAnalyzer.mkSpace 6 (-42) 42 5 (-30) 30 6 (-50) 60)
    = Some images
    /\ SpinAnalyzer.output_candidate_elements_mat_size images = (15, 13, 19)
    /\ length (SpinAnalyzer.output_candidates images) = 3705%nat.
Proof.
  destruct (C9_axis_cardinality 200
              (fun _ _ _ => SpinAnalyzer.mkGeom false 0 None) (fun _ => [])
              [[0]] (SpinAnalyzer.mkSpace 6 (-42) 42 5 (-30) 30 6 (-50) 60))
    as (images & xs & ys & zs & E & Ex & Ey & Ez & Lx & Ly & Lz & Sz & _ & Len).
  - unfold SpinSpec.well_formed_space; cbn; lia.
  - unfold SpinSpec.enough_fuel; cbn; lia.
  - exists images. split; [exact E|].
    cbn in Lx, Ly, Lz. unfold SpinSpec.axis_count in *.
    split.
    + rewrite Sz, Lx, Ly, Lz. reflexivity.
    + rewrite Len.
      apply Nat2Z.inj. rewrite !Nat2Z.inj_mul, Lx, Ly, Lz. reflexivity.
Defined.

(** * Further properties of the code

    ** Rationals: ceilings and comparisons *)

Section Ceilings.

Lemma Qceiling_le_iff (q : Q) (z : Z) :
  Qceiling q <= z <-> (q <= inject_Z z)%Q.
Proof.
  split; intros H.
  - apply Qle_trans with (inject_Z (Qceiling q)); [apply Qle_ceiling|].
    rewrite <- Zle_Qle. exact H.
  - assert (Hlt : (inject_Z (Qceiling q - 1) < inject_Z z)%Q)
      by (eapply Qlt_le_trans; [apply Qceiling_lt | exact H]).
    rewrite <- Zlt_Qlt in Hlt. lia.
Qed.

Lemma Qceiling_pos (q : Q) : (0 < q)%Q -> 0 < Qceiling q.
Proof.
  intros H.
  assert (Hlt : (inject_Z 0 < inject_Z (Qceiling q))%Q)
    by (eapply Qlt_le_trans; [exact H | apply Qle_ceiling]).
  rewrite <- Zlt_Qlt in Hlt. exact Hlt.
Qed.

Lemma Qle_bool_false (x y : Q) : Qle_bool x y = false <-> (y < x)%Q.
Proof.
  split; intros H.
  - apply Qnot_le_lt. intros Hle. apply Qle_bool_iff in Hle. congruence.
  - destruct (Qle_bool x y) eqn:E; [|reflexivity].
    apply Qle_bool_iff in E. exfalso. exact (Qlt_not_le _ _ H E).
Qed.

End Ceilings.

(** * The adaptive loop: what every run keeps, and when it ends *)

Section LoopInvariant.
Import SearchStrategy BallDetectorFacade LoopSpec.
Variables (params : DetectionParams) (hough : Q -> list GsCircle).

Lemma initial_invariant : loop_invariant hough (initial_state params).
Proof. split; [reflexivity | left; reflexivity]. Qed.

Lemma loop_body_invariant (st : LoopState) :
  done st = false -> loop_invariant hough st ->
  loop_invariant hough (loop_body params hough st).
Proof.
  intros Hnd [Hfin Hcirc]. rewrite Hnd in Hfin.
  assert (Hdedup : exists p,
             HoughDetector.RemoveSmallestConcentricCircles
               (hough (currentParam2 st))
             = HoughDetector.RemoveSmallestConcentricCircles (hough p))
    by (eexists; reflexivity).
  unfold loop_body. cbv zeta.
  repeat match goal with
         | |- context [if ?b then _ else _] => destruct b eqn:?
         end;
    unfold loop_invariant; cbn [finalNumberOfFoundCircles circles done];
    try (split; [first [reflexivity | assumption] | (right; assumption) || assumption]).
  - (* nothing found now and nothing before, at the lower limit *)
    split; [|assumption].
    apply andb_true_iff in Heqb1 as [_ Hprior].
    apply Z.eqb_eq in Hprior. lia.
  - split; [|assumption]. rewrite Hnd. assumption.
Qed.

Lemma adaptive_loop_invariant (fuel : nat) : forall st st',
  loop_invariant hough st ->
  adaptive_loop fuel params hough st = Some st' ->
  loop_invariant hough st' /\ done st' = true.
Proof.
  induction fuel as [|fuel IH]; intros st st' Hinv Hrun; cbn in Hrun.
  - destruct (done st) eqn:Hd; [|discriminate].
    injection Hrun as <-. split; assumption.
  - destruct (done st) eqn:Hd.
    + injection Hrun as <-. split; assumption.
    + apply (IH _ _ (loop_body_invariant st Hd Hinv) Hrun).
Qed.

End LoopInvariant.

Section Termination.
Import CvUtils SearchStrategy BallDetectorFacade LoopSpec.
Variables (params : DetectionParams) (hough : Q -> list GsCircle).
Hypothesis increment_positive : (0 < param2_increment params)%Q.

(** The exponent of the grid the thresholds lie on. *)
Variable c : Z.

Lemma grid_lt (a b : Z) :
  (inject_Z a * 2 ^ c < inject_Z b * 2 ^ c)%Q -> a < b.
Proof.
  intros H. pose proof (two_power_pos c) as Hc.
  destruct (Z.lt_ge_cases a b) as [Hlt|Hge]; [exact Hlt|].
  exfalso. apply (Qlt_not_le _ _ H).
  apply Qmult_le_compat_r; [|apply Qlt_le_weak, Hc].
  rewrite <- Zle_Qle. exact Hge.
Qed.

Lemma step_count_positive (n_step : Z) :
  (param2_increment params == inject_Z n_step * 2 ^ c)%Q -> 0 < n_step.
Proof.
  intros E. apply grid_lt. rewrite <- E.
  change (inject_Z 0) with 0%Q. rewrite Qmult_0_l.
  exact increment_positive.
Qed.

Lemma adaptive_loop_done (fuel : nat) (st : LoopState) :
  done st = true -> adaptive_loop fuel params hough st = Some st.
Proof. intros H. destruct fuel; cbn; rewrite H; reflexivity. Qed.

Lemma adaptive_loop_step (fuel : nat) (st : LoopState) :
  done st = false ->
  adaptive_loop (S fuel) params hough st
  = adaptive_loop fuel params hough (loop_body params hough st).
Proof. intros H. cbn. rewrite H. reflexivity. Qed.

(** One pass of the loosening phase when Hough never finds too many
    circles. *)
Lemma loosening_step (st : LoopState) :
  (forall p, found hough p <= max_hough_return_circles params) ->
  done st = false -> loosening_phase st ->
  let st' := loop_body params hough st in
  done st' = true
  \/ (done st' = false /\ loosening_phase st'
      /\ currentParam2 st'
         = f64_round (currentParam2 st - param2_increment params)
      /\ (min_param2 params < currentParam2 st)%Q).
Proof.
  intros Hmax Hnd Hphase. cbv zeta.
  specialize (Hmax (currentParam2 st)). unfold found in Hmax.
  unfold loop_body. cbv zeta.
  repeat match goal with
         | |- context [if ?b then _ else _] => destruct b eqn:?
         end;
    cbn [done currentParam2 currentlyLooseningSearch circles];
    try (left; reflexivity);
    try (right; repeat split;
         [left; reflexivity | apply Qle_bool_false; assumption]).
  - (* too many circles: excluded *)
    apply Z.gtb_lt in Heqb0. lia.
  - (* no branch applies: excluded in the loosening phase *)
    exfalso.
    apply orb_false_iff in Heqb2 as [Hsome Hloose].
    destruct Hphase as [Hl | Hempty]; [congruence|].
    rewrite Hempty in *. cbn in *.
    apply andb_false_iff in Heqb. 
    rewrite Z.gtb_ltb in Heqb0. apply Z.ltb_ge in Heqb0.
    rewrite andb_true_r in Hsome, Heqb1.
    apply andb_false_iff in Hsome.
    apply Z.eqb_neq in Heqb1.
    destruct Hsome as [H | H]; [apply Z.ltb_ge in H | apply Z.ltb_ge in H];
      destruct Heqb as [H' | H'];
      try apply Z.leb_gt in H'; lia.
Qed.

Section Loosening.
Variables (n_start n_min n_step : Z).
Hypothesis start_on_grid :
  Z.abs n_start < 2 ^ 52
  /\ (starting_param2 params == inject_Z n_start * 2 ^ c)%Q.
Hypothesis min_on_grid :
  Z.abs n_min < 2 ^ 52 /\ (min_param2 params == inject_Z n_min * 2 ^ c)%Q.
Hypothesis step_on_grid :
  Z.abs n_step < 2 ^ 52
  /\ (param2_increment params == inject_Z n_step * 2 ^ c)%Q.

(** A difference the loosening phase forms is exact. *)
Lemma loosening_exact (p : Q) (n : Z) :
  n <= n_start -> (p == inject_Z n * 2 ^ c)%Q ->
  (min_param2 params < p)%Q ->
  (f64_round (p - param2_increment params)
   == inject_Z (n - n_step) * 2 ^ c)%Q
  /\ n - n_step <= n_start.
Proof.
  intros Hn Hp Hgt.
  destruct start_on_grid as [Hs _]. destruct min_on_grid as [Hm Em].
  destruct step_on_grid as [Hd Ed].
  pose proof (step_count_positive n_step Ed) as Hd0.
  assert (Hlt : n_min < n).
  { apply grid_lt. rewrite <- Em, <- Hp. exact Hgt. }
  assert (E : (p - param2_increment params
               == inject_Z (n - n_step) * 2 ^ c)%Q).
  { rewrite Hp, Ed. unfold Z.sub. rewrite inject_Z_plus, inject_Z_opp.
    ring. }
  split; [|lia].
  rewrite (f64_round_fix _ (n - n_step) c); [exact E| |exact E].
  assert (2 ^ 53 = 2 * 2 ^ 52) by reflexivity. lia.
Qed.

Lemma loosening_terminates (k : nat) : forall st n,
  (forall p, found hough p <= max_hough_return_circles params) ->
  loosening_phase st ->
  n <= n_start -> (currentParam2 st == inject_Z n * 2 ^ c)%Q ->
  Qceiling ((currentParam2 st - min_param2 params)
            / param2_increment params) <= Z.of_nat k ->
  exists st', adaptive_loop (S k) params hough st = Some st'.
Proof.
  induction k as [|k IH]; intros st n Hmax Hphase Hn Hgrid Hk;
    destruct (done st) eqn:Hd;
    try (eexists; apply adaptive_loop_done; assumption);
    rewrite (adaptive_loop_step _ _ Hd);
    destruct (loosening_step st Hmax Hd Hphase)
      as [Hdone | (Hnd' & Hphase' & Hcur & Hgt)];
    try (eexists; apply adaptive_loop_done; assumption).
  - (* no pass left although the threshold is above the limit *)
    exfalso.
    assert (Hpos : 0 < Qceiling ((currentParam2 st - min_param2 params)
                                 / param2_increment params)).
    { apply Qceiling_pos. apply Qlt_shift_div_l; [assumption|].
      rewrite Qmult_0_l. rewrite <- (Qplus_opp_r (min_param2 params)).
      apply Qplus_lt_l. assumption. }
    lia.
  - destruct (loosening_exact _ n Hn Hgrid Hgt) as [Hexact Hn'].
    assert (Hsub : (currentParam2 (loop_body params hough st)
                    == currentParam2 st - param2_increment params)%Q).
    { rewrite Hcur, Hexact, Hgrid, (proj2 step_on_grid).
      unfold Z.sub. rewrite inject_Z_plus, inject_Z_opp. ring. }
    apply (IH _ (n - n_step)); [assumption | assumption | exact Hn' | |].
    { rewrite Hcur. exact Hexact. }
    apply Qceiling_le_iff. rewrite Hsub.
    apply Qceiling_le_iff in Hk.
    assert (Heq : ((currentParam2 st - param2_increment params
                    - min_param2 params) / param2_increment params
                   == (currentParam2 st - min_param2 params)
                      / param2_increment params - 1)%Q).
    { field. intros H0. rewrite H0 in increment_positive.
      exact (Qlt_irrefl _ increment_positive). }
    rewrite Heq.
    rewrite Nat2Z.inj_succ in Hk. unfold Z.succ in Hk.
    rewrite inject_Z_plus in Hk.
    clear Heq.
    set (x := ((currentParam2 st - min_param2 params)
               / param2_increment params)%Q) in *.
    set (y := inject_Z (Z.of_nat k)) in *.
    clearbody x y. change (inject_Z 1) with 1%Q in Hk. lra.
Qed.

End Loosening.

(** One pass of the tightening phase when Hough never finds too few
    circles. *)
Lemma tightening_step (st : LoopState) :
  (forall p, min_hough_return_circles params <= found hough p) ->
  done st = false ->
  let st' := loop_body params hough st in
  done st' = true
  \/ (done st' = false
      /\ currentParam2 st'
         = f64_round (currentParam2 st + param2_increment params)
      /\ (currentParam2 st < max_param2 params)%Q).
Proof.
  intros Hmin Hnd. cbv zeta.
  specialize (Hmin (currentParam2 st)). unfold found in Hmin.
  unfold loop_body. cbv zeta.
  repeat match goal with
         | |- context [if ?b then _ else _] => destruct b eqn:?
         end;
    cbn [done currentParam2 currentlyLooseningSearch circles];
    try (left; reflexivity);
    try (right; repeat split; apply Qle_bool_false; assumption);
    exfalso;
    rewrite Z.gtb_ltb in Heqb0; apply Z.ltb_ge in Heqb0;
    apply andb_false_iff in Heqb;
    destruct Heqb as [H | H]; apply Z.leb_gt in H; lia.
Qed.

Section Tightening.
Variables (n_start n_max n_step : Z).
Hypothesis start_on_grid :
  Z.abs n_start < 2 ^ 52
  /\ (starting_param2 params == inject_Z n_start * 2 ^ c)%Q.
Hypothesis max_on_grid :
  Z.abs n_max < 2 ^ 52 /\ (max_param2 params == inject_Z n_max * 2 ^ c)%Q.
Hypothesis step_on_grid :
  Z.abs n_step < 2 ^ 52
  /\ (param2_increment params == inject_Z n_step * 2 ^ c)%Q.

(** A sum the tightening phase forms is exact. *)
Lemma tightening_exact (p : Q) (n : Z) :
  n_start <= n -> (p == inject_Z n * 2 ^ c)%Q ->
  (p < max_param2 params)%Q ->
  (f64_round (p + param2_increment params)
   == inject_Z (n + n_step) * 2 ^ c)%Q
  /\ n_start <= n + n_step.
Proof.
  intros Hn Hp Hlt.
  destruct start_on_grid as [Hs _]. destruct max_on_grid as [Hm Em].
  destruct step_on_grid as [Hd Ed].
  pose proof (step_count_positive n_step Ed) as Hd0.
  assert (Hlt' : n < n_max).
  { apply grid_lt. rewrite <- Em, <- Hp. exact Hlt. }
  assert (E : (p + param2_increment params
               == inject_Z (n + n_step) * 2 ^ c)%Q).
  { rewrite Hp, Ed. rewrite inject_Z_plus. ring. }
  split; [|lia].
  rewrite (f64_round_fix _ (n + n_step) c); [exact E| |exact E].
  assert (2 ^ 53 = 2 * 2 ^ 52) by reflexivity. lia.
Qed.

Lemma tightening_terminates (k : nat) : forall st n,
  (forall p, min_hough_return_circles params <= found hough p) ->
  n_start <= n -> (currentParam2 st == inject_Z n * 2 ^ c)%Q ->
  Qceiling ((max_param2 params - currentParam2 st)
            / param2_increment params) <= Z.of_nat k ->
  exists st', adaptive_loop (S k) params hough st = Some st'.
Proof.
  induction k as [|k IH]; intros st n Hmin Hn Hgrid Hk;
    destruct (done st) eqn:Hd;
    try (eexists; apply adaptive_loop_done; assumption);
    rewrite (adaptive_loop_step _ _ Hd);
    destruct (tightening_step st Hmin Hd) as [Hdone | (Hnd' & Hcur & Hlt)];
    try (eexists; apply adaptive_loop_done; assumption).
  - exfalso.
    assert (Hpos : 0 < Qceiling ((max_param2 params - currentParam2 st)
                                 / param2_increment params)).
    { apply Qceiling_pos. apply Qlt_shift_div_l; [assumption|].
      rewrite Qmult_0_l. rewrite <- (Qplus_opp_r (currentParam2 st)).
      apply Qplus_lt_l. assumption. }
    lia.
  - destruct (tightening_exact _ n Hn Hgrid Hlt) as [Hexact Hn'].
    assert (Hadd : (currentParam2 (loop_body params hough st)
                    == currentParam2 st + param2_increment params)%Q).
    { rewrite Hcur, Hexact, Hgrid, (proj2 step_on_grid).
      rewrite inject_Z_plus. ring. }
    apply (IH _ (n + n_step)); [assumption | exact Hn' | |].
    { rewrite Hcur. exact Hexact. }
    apply Qceiling_le_iff. rewrite Hadd.
    apply Qceiling_le_iff in Hk.
    assert (Heq : ((max_param2 params
                    - (currentParam2 st + param2_increment params))
                   / param2_increment params
                   == (max_param2 params - currentParam2 st)
                      / param2_increment params - 1)%Q).
    { field. intros H0. rewrite H0 in increment_positive.
      exact (Qlt_irrefl _ increment_positive). }
    rewrite Heq.
    rewrite Nat2Z.inj_succ in Hk. unfold Z.succ in Hk.
    rewrite inject_Z_plus in Hk. clear Heq.
    set (x := ((max_param2 params - currentParam2 st)
               / param2_increment params)%Q) in *.
    set (y := inject_Z (Z.of_nat k)) in *.
    clearbody x y. change (inject_Z 1) with 1%Q in Hk. lra.
Qed.

End Tightening.

End Termination.

(** X1.  Whatever Hough reports, a run of the adaptive loop that ends
    leaves a consistent result: the loop is done, the reported number of
    circles is the number of circles kept, the kept circles are either
    none or the deduplicated Hough result of one threshold, and no two of
    them share an integer centre. *)
Theorem X1_loop_result_consistent (fuel : nat)
    (params : SearchStrategy.DetectionParams) (hough : Q -> list GsCircle)
    (st : BallDetectorFacade.LoopState) :
  BallDetectorFacade.adaptive_loop fuel params hough
    (BallDetectorFacade.initial_state params) = Some st ->
  BallDetectorFacade.done st = true
  /\ BallDetectorFacade.finalNumberOfFoundCircles st
     = Z.of_nat (length (BallDetectorFacade.circles st))
  /\ (BallDetectorFacade.circles st = []
      \/ exists p, BallDetectorFacade.circles st
                   = HoughDetector.RemoveSmallestConcentricCircles (hough p))
  /\ NoDup (map CircleOps.CircleXY (BallDetectorFacade.circles st)).
Proof.
  intros Hrun.
  destruct (adaptive_loop_invariant params hough fuel _ _
              (initial_invariant params hough) Hrun) as [[Hfin Hcirc] Hdone].
  rewrite Hdone in Hfin.
  repeat split; try assumption.
  destruct Hcirc as [-> | [p ->]]; [constructor|].
  destruct (outer_loop_total (hough p)) as (out & _ & -> & _ & _ & Hnodup).
  exact Hnodup.
Qed.

Lemma X1_loop_result_consistent_witness :
  BallDetectorFacade.adaptive_loop 10 SearchStrategy.strobed_defaults
    (fun _ => [mkCircle 100 100 20; mkCircle 100 100 12])
    (BallDetectorFacade.initial_state SearchStrategy.strobed_defaults)
  = Some (BallDetectorFacade.mkLoop [mkCircle 100 100 20] 40 false 1 true)
  /\ BallDetectorFacade.finalNumberOfFoundCircles
       (BallDetectorFacade.mkLoop [mkCircle 100 100 20] 40 false 1 true)
     = Z.of_nat (length [mkCircle 100 100 20]).
Proof.
  assert (E : BallDetectorFacade.adaptive_loop 10
                SearchStrategy.strobed_defaults
                (fun _ => [mkCircle 100 100 20; mkCircle 100 100 12])
                (BallDetectorFacade.initial_state
                   SearchStrategy.strobed_defaults)
              = Some (BallDetectorFacade.mkLoop [mkCircle 100 100 20]
                                                40 false 1 true)).
  { vm_compute. reflexivity. }
  split; [exact E|].
  exact (proj1 (proj2 (X1_loop_result_consistent _ _ _ _ E))).
Defined.

(** X2.  Let the starting threshold, its limits and the step be whole
    multiples of one power of two, below 2^52 such multiples in magnitude,
    so that the loop adds and subtracts the step without a rounding error.
    If the Hough transform never reports more circles than the mode's upper
    bound, the adaptive loop ends within ceil((start - min) / step) + 1
    passes: it only ever loosens, and stops at the lower limit at the
    latest. *)
Theorem X2_loop_ends_when_never_too_many
    (params : SearchStrategy.DetectionParams) (hough : Q -> list GsCircle) :
  (0 < SearchStrategy.param2_increment params)%Q ->
  LoopSpec.exact_steps params ->
  (forall p, LoopSpec.found hough p
             <= SearchStrategy.max_hough_return_circles params) ->
  exists st,
    BallDetectorFacade.adaptive_loop (LoopSpec.loosening_passes params)
      params hough (BallDetectorFacade.initial_state params) = Some st
    /\ BallDetectorFacade.done st = true.
Proof.
  intros Hinc (c & (ns & Hs) & (nm & Hm) & _ & (nd & Hd)) Hmax.
  destruct (loosening_terminates params hough Hinc c ns nm nd Hs Hm Hd
              (Z.to_nat (Qceiling
                 ((SearchStrategy.starting_param2 params
                   - SearchStrategy.min_param2 params)
                  / SearchStrategy.param2_increment params)))
              (BallDetectorFacade.initial_state params) ns Hmax)
    as [st Hst].
  - right. reflexivity.
  - lia.
  - exact (proj2 Hs).
  - cbn [BallDetectorFacade.currentParam2 BallDetectorFacade.initial_state].
    lia.
  - exists st. split; [exact Hst|].
    exact (proj2 (adaptive_loop_invariant params hough _ _ _
                    (initial_invariant params hough) Hst)).
Qed.

Lemma X2_loop_ends_when_never_too_many_witness :
  (0 < SearchStrategy.param2_increment SearchStrategy.strobed_defaults)%Q
  /\ LoopSpec.exact_steps SearchStrategy.strobed_defaults
  /\ LoopSpec.loosening_passes SearchStrategy.strobed_defaults = 4%nat
  /\ exists st,
       BallDetectorFacade.adaptive_loop 4 SearchStrategy.strobed_defaults
         (fun _ => [])
         (BallDetectorFacade.initial_state SearchStrategy.strobed_defaults)
       = Some st
       /\ BallDetectorFacade.done st = true.
Proof.
  assert (Hgrid : LoopSpec.exact_steps SearchStrategy.strobed_defaults).
  { exists 0. repeat split.
    - exists 40. split; reflexivity.
    - exists 30. split; reflexivity.
    - exists 60. split; reflexivity.
    - exists 4. split; reflexivity. }
  split; [reflexivity|]. split; [exact Hgrid|]. split; [reflexivity|].
  apply (X2_loop_ends_when_never_too_many SearchStrategy.strobed_defaults
           (fun _ => [])).
  - reflexivity.
  - exact Hgrid.
  - intros p. vm_compute. discriminate.
Defined.

(** X3.  Under the same condition on the thresholds, if the Hough
    transform never reports fewer circles than the mode's lower bound, the
    adaptive loop ends within ceil((max - start) / step) + 1 passes: it
    only ever tightens, and stops at the upper limit at the latest. *)
Theorem X3_loop_ends_when_never_too_few
    (params : SearchStrategy.DetectionParams) (hough : Q -> list GsCircle) :
  (0 < SearchStrategy.param2_increment params)%Q ->
  LoopSpec.exact_steps params ->
  (forall p, SearchStrategy.min_hough_return_circles params
             <= LoopSpec.found hough p) ->
  exists st,
    BallDetectorFacade.adaptive_loop (LoopSpec.tightening_passes params)
      params hough (BallDetectorFacade.initial_state params) = Some st
    /\ BallDetectorFacade.done st = true.
Proof.
  intros Hinc (c & (ns & Hs) & _ & (nM & HM) & (nd & Hd)) Hmin.
  destruct (tightening_terminates params hough Hinc c ns nM nd Hs HM Hd
              (Z.to_nat (Qceiling
                 ((SearchStrategy.max_param2 params
                   - SearchStrategy.starting_param2 params)
                  / SearchStrategy.param2_increment params)))
              (BallDetectorFacade.initial_state params) ns Hmin)
    as [st Hst].
  - lia.
  - exact (proj2 Hs).
  - cbn [BallDetectorFacade.currentParam2 BallDetectorFacade.initial_state].
    lia.
  - exists st. split; [exact Hst|].
    exact (proj2 (adaptive_loop_invariant params hough _ _ _
                    (initial_invariant params hough) Hst)).
Qed.

Lemma X3_loop_ends_when_never_too_few_witness :
  (0 < SearchStrategy.param2_increment SearchStrategy.strobed_defaults)%Q
  /\ LoopSpec.exact_steps SearchStrategy.strobed_defaults
  /\ LoopSpec.tightening_passes SearchStrategy.strobed_defaults = 6%nat
  /\ exists st,
       BallDetectorFacade.adaptive_loop 6 SearchStrategy.strobed_defaults
         (fun _ => FacadeSpec.row_of_circles 13 20)
         (BallDetectorFacade.initial_state SearchStrategy.strobed_defaults)
       = Some st
       /\ BallDetectorFacade.done st = true.
Proof.
  assert (Hgrid : LoopSpec.exact_steps SearchStrategy.strobed_defaults).
  { exists 0. repeat split.
    - exists 40. split; reflexivity.
    - exists 30. split; reflexivity.
    - exists 60. split; reflexivity.
    - exists 4. split; reflexivity. }
  split; [reflexivity|]. split; [exact Hgrid|]. split; [reflexivity|].
  apply (X3_loop_ends_when_never_too_few SearchStrategy.strobed_defaults
           (fun _ => FacadeSpec.row_of_circles 13 20)).
  - reflexivity.
  - exact Hgrid.
  - intros p. vm_compute. discriminate.
Defined.

(** X4.  Under the same condition on the thresholds, on an image in which
    the Hough transform finds no circle at any threshold, [GetBall] gives
    up after at most ceil((start - min) / step) + 1 passes: it returns
    false and leaves [return_balls] as it was, in every search mode. *)
Theorem X4_no_circles_no_ball
    (params : SearchStrategy.DetectionParams) (hough : Q -> list GsCircle)
    (measure : GsCircle -> BallDetectorFacade.ColorMeasure)
    (offset_sub_to_full : Z * Z) (baseBall : GolfBall)
    (return_balls : list GolfBall) (search_mode : SearchStrategy.Mode) :
  (0 < SearchStrategy.param2_increment params)%Q ->
  LoopSpec.exact_steps params ->
  0 <= SearchStrategy.max_hough_return_circles params ->
  (forall p, hough p = []) ->
  BallDetectorFacade.GetBall (LoopSpec.loosening_passes params) false
    params hough measure offset_sub_to_full baseBall return_balls
    search_mode
  = Some (false, return_balls).
Proof.
  intros Hinc (c & (ns & Hs) & (nm & Hm) & _ & (nd & Hd)) Hmax Hnone.
  unfold BallDetectorFacade.GetBall, BallDetectorFacade.GetBallHough.
  destruct (negb (BallDetectorFacade.PreprocessForMode search_mode));
    [reflexivity|].
  assert (Hfound : forall p, LoopSpec.found hough p
                             <= SearchStrategy.max_hough_return_circles
                                  params).
  { intros p. unfold LoopSpec.found. rewrite Hnone. exact Hmax. }
  destruct (loosening_terminates params hough Hinc c ns nm nd Hs Hm Hd
              (Z.to_nat (Qceiling
                 ((SearchStrategy.starting_param2 params
                   - SearchStrategy.min_param2 params)
                  / SearchStrategy.param2_increment params)))
              (BallDetectorFacade.initial_state params) ns Hfound)
    as [st Hst].
  - right. reflexivity.
  - lia.
  - exact (proj2 Hs).
  - cbn [BallDetectorFacade.currentParam2 BallDetectorFacade.initial_state].
    lia.
  - unfold LoopSpec.loosening_passes. rewrite Hst.
    destruct (adaptive_loop_invariant params hough _ _ _
                (initial_invariant params hough) Hst)
      as [[Hfin Hcirc] Hdone].
    rewrite Hdone in Hfin.
    assert (Hempty : BallDetectorFacade.circles st = []).
    { destruct Hcirc as [E | [p E]]; [exact E|].
      rewrite E, Hnone. reflexivity. }
    rewrite Hempty in Hfin. cbn in Hfin. rewrite Hfin. reflexivity.
Qed.

Lemma X4_no_circles_no_ball_witness :
  BallDetectorFacade.GetBall 4 false SearchStrategy.strobed_defaults
    (fun _ => []) FacadeSpec.near_white (0, 0) FacadeSpec.white_ball []
    SearchStrategy.kStrobed
  = Some (false, []).
Proof.
  apply (X4_no_circles_no_ball SearchStrategy.strobed_defaults (fun _ => [])).
  - reflexivity.
  - exists 0. repeat split.
    + exists 40. split; reflexivity.
    + exists 30. split; reflexivity.
    + exists 60. split; reflexivity.
    + exists 4. split; reflexivity.
  - vm_compute. discriminate.
  - reflexivity.
Defined.

(** * Candidate scoring: which circles come back, and in what order *)

Section Scoring.
Import SearchStrategy BallDetectorFacade LoopSpec CircleOps StdSort.

Lemma score_loop_spec (measure : GsCircle -> ColorMeasure)
    (uses_color : bool) (cs : list GsCircle) :
  forall (i : Z) (acc : list CircleCandidateListElement),
    0 <= i ->
    exists new,
      score_loop measure uses_color i cs acc = acc ++ new
      /\ map circle new
         = filter (fun c => MIN_BALL_CANDIDATE_RADIUS <= rounded_radius c)
                  (take (Z.to_nat (MAX_CIRCLES_TO_EVALUATE - i)) cs)
      /\ Forall (fun e => found_radius e = rounded_radius (circle e)
                          /\ (uses_color = false ->
                              avg_RGB e = zero_triplet)
                          /\ (uses_color = true ->
                              avg_RGB e = m_avg_RGB (measure (circle e))))
                new.
Proof.
  induction cs as [|c rest IH]; intros i acc Hi.
  - exists []. rewrite app_nil_r, take_nil. repeat split; constructor.
  - cbn [score_loop].
    destruct (i + 1 >? MAX_CIRCLES_TO_EVALUATE) eqn:Hmax.
    + exists []. rewrite app_nil_r.
      apply Z.gtb_lt in Hmax.
      replace (Z.to_nat (MAX_CIRCLES_TO_EVALUATE - i)) with O by lia.
      repeat split; constructor.
    + rewrite Z.gtb_ltb in Hmax. apply Z.ltb_ge in Hmax.
      replace (Z.to_nat (MAX_CIRCLES_TO_EVALUATE - i))
        with (S (Z.to_nat (MAX_CIRCLES_TO_EVALUATE - (i + 1)))) by lia.
      cbn [take]. rewrite filter_cons.
      destruct (rounded_radius c <? MIN_BALL_CANDIDATE_RADIUS) eqn:Hr.
      * apply Z.ltb_lt in Hr.
        destruct (IH (i + 1) acc ltac:(lia)) as (new & E & Hc & Hf).
        exists new. rewrite E. split; [reflexivity|]. split; [|exact Hf].
        rewrite decide_False by lia. exact Hc.
      * apply Z.ltb_ge in Hr.
        match goal with
        | |- context [score_loop _ _ _ _ (acc ++ [?e])] =>
            destruct (IH (i + 1) (acc ++ [e]) ltac:(lia))
              as (new & E & Hc & Hf);
            exists (e :: new)
        end.
        rewrite E, <- app_assoc. split; [reflexivity|].
        rewrite decide_True by lia.
        split.
        -- cbn [map]. rewrite Hc.
           destruct uses_color; reflexivity.
        -- constructor; [|exact Hf].
           destruct uses_color; cbn; repeat split; congruence.
Qed.

Lemma scored_candidates_spec (circles : list GsCircle)
    (baseBall : GolfBall) (measure : GsCircle -> ColorMeasure)
    (search_mode : Mode) :
  map circle (scored_candidates circles baseBall measure search_mode)
  = eligible circles
  /\ Forall (fun e => found_radius e = rounded_radius (circle e))
            (scored_candidates circles baseBall measure search_mode).
Proof.
  unfold scored_candidates, eligible.
  destruct (score_loop_spec measure
              (negb (triplet_is_zero (average_color_ baseBall))
               || mode_eqb search_mode kPutting) circles 0 []
              ltac:(lia)) as (new & E & Hc & Hf).
  rewrite E. cbn [app]. rewrite Z.sub_0_r in Hc.
  split; [exact Hc|].
  eapply Forall_impl; [exact Hf|]. intros e He. apply He.
Qed.

Lemma to_balls_spec (l : list CircleCandidateListElement) :
  forall index : Z,
    map ball_circle_ (to_balls index l) = map circle l
    /\ forall (k : nat) (b : GolfBall),
         to_balls index l !! k = Some b ->
         exists e, l !! k = Some e
                   /\ quality_ranking b = index + Z.of_nat k
                   /\ ball_circle_ b = circle e
                   /\ measured_radius_pixels_ b = inject_Z (found_radius e)
                   /\ average_color_ b = avg_RGB e
                   /\ median_color_ b = avg_RGB e
                   /\ std_color_ b = zero_triplet.
Proof.
  induction l as [|e rest IH]; intros index.
  - split; [reflexivity|]. intros k b H. destruct k; discriminate.
  - destruct (IH (index + 1)) as [Hmap Hk]. split.
    + cbn. rewrite Hmap. reflexivity.
    + intros [|k] b H.
      * cbn in H. injection H as <-. exists e.
        cbn. repeat split; try reflexivity. lia.
      * cbn in H. destruct (Hk k b H) as (e' & He' & Hq & Hrest).
        exists e'. split; [exact He'|]. split; [lia|exact Hrest].
Qed.

Lemma by_color_difference_asym (a b : CircleCandidateListElement) :
  by_color_difference a b = true -> by_color_difference b a = false.
Proof.
  unfold by_color_difference. intros H.
  apply negb_true_iff, Qle_bool_false in H.
  apply negb_false_iff, Qle_bool_iff, Qlt_le_weak. exact H.
Qed.

Lemma by_color_difference_negtrans (a b c : CircleCandidateListElement) :
  by_color_difference a b = false -> by_color_difference b c = false ->
  by_color_difference a c = false.
Proof.
  unfold by_color_difference. intros H1 H2.
  apply negb_false_iff, Qle_bool_iff in H1.
  apply negb_false_iff, Qle_bool_iff in H2.
  apply negb_false_iff, Qle_bool_iff.
  eapply Qle_trans; eassumption.
Qed.

(** In every mode the final candidates are taken from the scored ones. *)
Lemma final_candidates_subset (search_mode : Mode)
    (expectedBallColorExists : bool)
    (foundCircleList : list CircleCandidateListElement) :
  forall e,
    e ∈ final_candidates search_mode expectedBallColorExists
          foundCircleList ->
    e ∈ foundCircleList.
Proof.
  intros e. unfold final_candidates.
  destruct (mode_eqb search_mode kStrobed), expectedBallColorExists;
    cbn [negb andb]; try (intros H; exact H).
  - unfold strobed_candidates.
    destruct foundCircleList as [|first rest]; [intros H; exact H|].
    intros H.
    rewrite (std_sort_perm by_radius_desc) in H.
    apply list_elem_of_filter in H. apply H.
  - intros H.
    rewrite (std_sort_perm by_color_difference) in H.
    exact H.
Qed.

Lemma final_candidates_length (search_mode : Mode)
    (expectedBallColorExists : bool)
    (foundCircleList : list CircleCandidateListElement) :
  (length (final_candidates search_mode expectedBallColorExists
             foundCircleList)
   <= length foundCircleList)%nat.
Proof.
  unfold final_candidates.
  destruct (mode_eqb search_mode kStrobed), expectedBallColorExists;
    cbn [negb andb]; try lia.
  - unfold strobed_candidates.
    destruct foundCircleList as [|first rest]; [cbn; lia|].
    rewrite std_sort_length. apply length_filter.
  - rewrite std_sort_length. lia.
Qed.

End Scoring.

(** X5.  Whenever [FilterAndScoreCandidates] succeeds, in any mode and
    with or without a reference colour: at most 200 balls come back; the
    ball at position k has quality ranking k; its circle is one of the
    first 200 input circles and has a rounded radius of at least 10; its
    measured radius is that rounded radius; its median colour repeats its
    average colour and its colour deviation is zero. *)
Theorem X5_returned_balls_are_eligible_circles (circles : list GsCircle)
    (baseBall : GolfBall) (return_balls : list GolfBall)
    (measure : GsCircle -> BallDetectorFacade.ColorMeasure)
    (search_mode : SearchStrategy.Mode) (balls : list GolfBall) :
  BallDetectorFacade.FilterAndScoreCandidates circles baseBall return_balls
    measure search_mode = (true, balls) ->
  (length balls <= 200)%nat
  /\ forall (k : nat) (b : GolfBall),
       balls !! k = Some b ->
       quality_ranking b = Z.of_nat k
       /\ ball_circle_ b ∈ LoopSpec.eligible circles
       /\ ball_circle_ b ∈ take 200 circles
       /\ BallDetectorFacade.MIN_BALL_CANDIDATE_RADIUS
          <= CircleOps.rounded_radius (ball_circle_ b)
       /\ measured_radius_pixels_ b
          = inject_Z (CircleOps.rounded_radius (ball_circle_ b))
       /\ median_color_ b = average_color_ b
       /\ std_color_ b = BallDetectorFacade.zero_triplet.
Proof.
  unfold BallDetectorFacade.FilterAndScoreCandidates.
  destruct circles as [|c0 cs]; [discriminate|].
  set (circles := c0 :: cs).
  destruct (scored_candidates_spec circles baseBall measure search_mode)
    as [Hmap Hrad].
  destruct (BallDetectorFacade.scored_candidates circles baseBall measure
              search_mode) as [|f0 fs] eqn:Hfound; [discriminate|].
  set (found := f0 :: fs) in *.
  pose proof (final_candidates_subset search_mode
                (negb (BallDetectorFacade.triplet_is_zero
                         (average_color_ baseBall))) found) as Hsub.
  pose proof (final_candidates_length search_mode
                (negb (BallDetectorFacade.triplet_is_zero
                         (average_color_ baseBall))) found) as Hlen.
  destruct (BallDetectorFacade.final_candidates search_mode _ found)
    as [|g0 gs] eqn:Hfinal; [discriminate|].
  set (final := g0 :: gs) in *.
  intros [= <-].
  destruct (to_balls_spec final 0) as [Hcirc Hk].
  split.
  - assert (L1 : length (BallDetectorFacade.to_balls 0 final) = length final).
    { rewrite <- (length_map ball_circle_), Hcirc, length_map. reflexivity. }
    assert (L2 : length found = length (LoopSpec.eligible circles)).
    { rewrite <- Hmap, length_map. reflexivity. }
    assert (L3 : (length (LoopSpec.eligible circles) <= 200)%nat).
    { unfold LoopSpec.eligible.
      etransitivity; [apply length_filter|].
      rewrite length_take. change (Z.to_nat _) with 200%nat. lia. }
    change (length (BallDetectorFacade.to_balls 0 final) <= 200)%nat.
    lia.
  - intros k b Hb.
    destruct (Hk k b Hb) as (e & He & Hq & Hc & Hm & Ha & Hmed & Hstd).
    assert (Hin : e ∈ found).
    { apply Hsub. eapply list_elem_of_lookup_2. exact He. }
    assert (Hel : ball_circle_ b ∈ LoopSpec.eligible circles).
    { rewrite Hc, <- Hmap. apply list_elem_of_fmap_2. exact Hin. }
    pose proof Hel as Hel'. unfold LoopSpec.eligible in Hel'.
    apply list_elem_of_filter in Hel' as [Hr Ht].
    split; [lia|]. split; [exact Hel|]. split; [exact Ht|].
    split; [exact Hr|]. split; [|split; [congruence | exact Hstd]].
    rewrite Hm, Hc.
    rewrite Forall_forall in Hrad. rewrite (Hrad e Hin). reflexivity.
Qed.

Lemma X5_returned_balls_are_eligible_circles_witness :
  BallDetectorFacade.FilterAndScoreCandidates FacadeSpec.two_circles
    FacadeSpec.white_ball [] FacadeSpec.first_is_worse
    SearchStrategy.kFindPlacedBall
  = (true,
     [mkBall 0 (mkCircle 90 50 30) 30 (mkTriplet 200 200 200)
             (mkTriplet 200 200 200) (mkTriplet 0 0 0);
      mkBall 1 (mkCircle 50 50 20) 20 (mkTriplet 200 200 200)
             (mkTriplet 200 200 200) (mkTriplet 0 0 0)])
  /\ (length [mkBall 0 (mkCircle 90 50 30) 30 (mkTriplet 200 200 200)
                     (mkTriplet 200 200 200) (mkTriplet 0 0 0);
              mkBall 1 (mkCircle 50 50 20) 20 (mkTriplet 200 200 200)
                     (mkTriplet 200 200 200) (mkTriplet 0 0 0)]
      <= 200)%nat.
Proof.
  assert (E : BallDetectorFacade.FilterAndScoreCandidates
                FacadeSpec.two_circles FacadeSpec.white_ball []
                FacadeSpec.first_is_worse SearchStrategy.kFindPlacedBall
              = (true,
                 [mkBall 0 (mkCircle 90 50 30) 30 (mkTriplet 200 200 200)
                         (mkTriplet 200 200 200) (mkTriplet 0 0 0);
                  mkBall 1 (mkCircle 50 50 20) 20 (mkTriplet 200 200 200)
                         (mkTriplet 200 200 200) (mkTriplet 0 0 0)])).
  { vm_compute. reflexivity. }
  split; [exact E|].
  exact (proj1 (X5_returned_balls_are_eligible_circles _ _ _ _ _ _ E)).
Defined.

(** X6.  With a reference colour and in any mode but the strobed one, the
    balls come back in the order of their composite colour score, best
    match first: the result is built from the scored candidates sorted by
    non-decreasing score, none dropped and none added. *)
Theorem X6_colour_match_ranks_the_balls (circles : list GsCircle)
    (baseBall : GolfBall) (return_balls : list GolfBall)
    (measure : GsCircle -> BallDetectorFacade.ColorMeasure)
    (search_mode : SearchStrategy.Mode)
    (first : BallDetectorFacade.CircleCandidateListElement)
    (rest : list BallDetectorFacade.CircleCandidateListElement) :
  BallDetectorFacade.triplet_is_zero (average_color_ baseBall) = false ->
  search_mode <> SearchStrategy.kStrobed ->
  BallDetectorFacade.scored_candidates circles baseBall measure search_mode
  = first :: rest ->
  exists final,
    BallDetectorFacade.FilterAndScoreCandidates circles baseBall
      return_balls measure search_mode
    = (true, BallDetectorFacade.to_balls 0 final)
    /\ Permutation final (first :: rest)
    /\ StronglySorted
         (fun a b => (BallDetectorFacade.calculated_color_difference a
                      <= BallDetectorFacade.calculated_color_difference b)%Q)
         final.
Proof.
  intros Hcolor Hmode Hscored.
  exists (StdSort.std_sort BallDetectorFacade.by_color_difference
            (first :: rest)).
  assert (Hperm := std_sort_perm BallDetectorFacade.by_color_difference
                     (first :: rest)).
  split; [|split].
  - unfold BallDetectorFacade.FilterAndScoreCandidates.
    destruct circles as [|c cs]; [discriminate|].
    rewrite Hscored, Hcolor. cbn [negb].
    unfold BallDetectorFacade.final_candidates.
    assert (Hm : SearchStrategy.mode_eqb search_mode SearchStrategy.kStrobed
                 = false)
      by (destruct search_mode; try reflexivity; contradiction).
    rewrite Hm. cbn [negb andb].
    destruct (StdSort.std_sort BallDetectorFacade.by_color_difference
                (first :: rest)) as [|g gs] eqn:Hs; [|reflexivity].
    apply Permutation_nil_l in Hperm. discriminate.
  - exact Hperm.
  - eapply StronglySorted_weaken;
      [|apply (std_sort_sorted BallDetectorFacade.by_color_difference
                 by_color_difference_asym by_color_difference_negtrans)].
    intros a b H. unfold StdSort.may_precede,
      BallDetectorFacade.by_color_difference in H.
    apply negb_false_iff, Qle_bool_iff in H. exact H.
Qed.

Lemma X6_colour_match_ranks_the_balls_witness :
  exists final,
    BallDetectorFacade.FilterAndScoreCandidates FacadeSpec.two_circles
      FacadeSpec.white_ball [] FacadeSpec.first_is_worse
      SearchStrategy.kFindPlacedBall
    = (true, BallDetectorFacade.to_balls 0 final)
    /\ length final = 2%nat.
Proof.
  destruct (BallDetectorFacade.scored_candidates FacadeSpec.two_circles
              FacadeSpec.white_ball FacadeSpec.first_is_worse
              SearchStrategy.kFindPlacedBall) as [|first rest] eqn:E;
    [vm_compute in E; discriminate|].
  destruct (X6_colour_match_ranks_the_balls FacadeSpec.two_circles
              FacadeSpec.white_ball [] FacadeSpec.first_is_worse
              SearchStrategy.kFindPlacedBall first rest)
    as (final & Hres & Hperm & _).
  - reflexivity.
  - discriminate.
  - exact E.
  - exists final. split; [exact Hres|].
    rewrite (Permutation_length Hperm).
    vm_compute in E. injection E as <- <-. reflexivity.
Defined.

(** X7.  Without a reference colour (the base ball's average colour is
    (0,0,0)) nothing is sorted or filtered by colour, in any mode: the
    returned balls are exactly the first 200 input circles whose rounded
    radius is at least 10, in the order Hough listed them, ranked 0, 1,
    2, ...; when there is no such circle the call returns false and
    leaves [return_balls] alone. *)
Theorem X7_no_colour_keeps_hough_order (circles : list GsCircle)
    (baseBall : GolfBall) (return_balls : list GolfBall)
    (measure : GsCircle -> BallDetectorFacade.ColorMeasure)
    (search_mode : SearchStrategy.Mode) :
  BallDetectorFacade.triplet_is_zero (average_color_ baseBall) = true ->
  (LoopSpec.eligible circles = [] ->
   BallDetectorFacade.FilterAndScoreCandidates circles baseBall
     return_balls measure search_mode = (false, return_balls))
  /\ (LoopSpec.eligible circles <> [] ->
      exists balls,
        BallDetectorFacade.FilterAndScoreCandidates circles baseBall
          return_balls measure search_mode = (true, balls)
        /\ map ball_circle_ balls = LoopSpec.eligible circles
        /\ map quality_ranking balls
           = map Z.of_nat (seq 0 (length balls))).
Proof.
  intros Hzero.
  destruct (scored_candidates_spec circles baseBall measure search_mode)
    as [Hmap _].
  assert (Hfinal : forall l,
             BallDetectorFacade.final_candidates search_mode
               (negb (BallDetectorFacade.triplet_is_zero
                        (average_color_ baseBall))) l = l).
  { intros l. unfold BallDetectorFacade.final_candidates.
    rewrite Hzero. cbn [negb]. rewrite !andb_false_r. reflexivity. }
  unfold BallDetectorFacade.FilterAndScoreCandidates.
  rewrite Hfinal.
  split.
  - intros Hnone. rewrite Hnone in Hmap.
    apply map_eq_nil in Hmap. rewrite Hmap.
    destruct circles; reflexivity.
  - intros Hsome.
    destruct circles as [|c cs]; [exfalso; apply Hsome; reflexivity|].
    destruct (BallDetectorFacade.scored_candidates (c :: cs) baseBall
                measure search_mode) as [|f fs] eqn:Hfound.
    { exfalso. apply Hsome. rewrite <- Hmap. reflexivity. }
    eexists. split; [reflexivity|].
    destruct (to_balls_spec (f :: fs) 0) as [Hcirc Hk].
    split; [rewrite Hcirc; exact Hmap|].
    apply list_eq. intros k.
    rewrite !list_lookup_fmap.
    destruct (BallDetectorFacade.to_balls 0 (f :: fs) !! k) as [b|] eqn:Hb.
    + destruct (Hk k b Hb) as (e & _ & Hq & _).
      rewrite lookup_seq_lt by (apply lookup_lt_Some in Hb; exact Hb).
      cbn. f_equal. lia.
    + rewrite lookup_seq_ge by (apply lookup_ge_None in Hb; exact Hb).
      reflexivity.
Qed.

Lemma X7_no_colour_keeps_hough_order_witness :
  exists balls,
    BallDetectorFacade.FilterAndScoreCandidates
      (FacadeSpec.tiny_then_ball ++ FacadeSpec.two_circles)
      (mkBall 0 (mkCircle 0 0 0) 0 (mkTriplet 0 0 0) (mkTriplet 0 0 0)
              (mkTriplet 0 0 0))
      [] FacadeSpec.near_white SearchStrategy.kStrobed = (true, balls)
    /\ map ball_circle_ balls
       = [mkCircle 100 100 20; mkCircle 50 50 20; mkCircle 90 50 30].
Proof.
  destruct (X7_no_colour_keeps_hough_order
              (FacadeSpec.tiny_then_ball ++ FacadeSpec.two_circles)
              (mkBall 0 (mkCircle 0 0 0) 0 (mkTriplet 0 0 0)
                      (mkTriplet 0 0 0) (mkTriplet 0 0 0))
              [] FacadeSpec.near_white SearchStrategy.kStrobed)
    as [_ Hsome]; [reflexivity|].
  destruct Hsome as (balls & E & Hc & _); [vm_compute; discriminate|].
  exists balls. split; [exact E|]. rewrite Hc. vm_compute. reflexivity.
Defined.

(** * The tolerance filter of the strobed mode (claim C5) *)

Section ScoreOrder.
Import SearchStrategy BallDetectorFacade FacadeSpec CircleOps.
Variable measure : GsCircle -> ColorMeasure.
Hypothesis measure_attainable : attainable measure.

Lemma index_penalty_step (i : Z) :
  0 <= i ->
  1400000 + 200 * (10 * (i + 1)) ^ 3 <= 200 * (10 * (i + 2)) ^ 3.
Proof.
  intros Hi.
  replace ((10 * (i + 1)) ^ 3) with (1000 * ((i + 1) * (i + 1) * (i + 1)))
    by ring.
  replace ((10 * (i + 2)) ^ 3) with (1000 * ((i + 2) * (i + 2) * (i + 2)))
    by ring.
  nia.
Qed.

Lemma index_penalty_mono (i : Z) :
  0 <= i -> 200 * (10 * (i + 1)) ^ 3 <= 200 * (10 * (i + 2)) ^ 3.
Proof. intros Hi. pose proof (index_penalty_step i Hi). lia. Qed.

(** With colour distances of 8-bit statistics the scores grow along the
    list: the step of the index penalty, at least 1400000, outweighs the
    colour part, at most 1170450. *)
Lemma score_loop_increasing (cs : list GsCircle) :
  forall (i : Z) (acc : list CircleCandidateListElement),
    0 <= i ->
    exists new,
      score_loop measure true i cs acc = acc ++ new
      /\ Forall (fun e => (inject_Z (200 * (10 * (i + 1)) ^ 3)
                           <= calculated_color_difference e)%Q) new
      /\ StronglySorted
           (fun a b => (calculated_color_difference a + 229550
                        <= calculated_color_difference b)%Q) new.
Proof.
  induction cs as [|c rest IH]; intros i acc Hi.
  - exists []. rewrite app_nil_r. repeat split; constructor.
  - cbn [score_loop].
    destruct (i + 1 >? MAX_CIRCLES_TO_EVALUATE).
    { exists []. rewrite app_nil_r. repeat split; constructor. }
    assert (Hmono : forall e,
               (inject_Z (200 * (10 * (i + 1 + 1)) ^ 3)
                <= calculated_color_difference e)%Q ->
               (inject_Z (200 * (10 * (i + 1)) ^ 3)
                <= calculated_color_difference e)%Q).
    { intros e He. eapply Qle_trans; [|exact He].
      rewrite <- Zle_Qle.
      replace (i + 1 + 1) with (i + 2) by lia.
      apply index_penalty_mono. exact Hi. }
    destruct (rounded_radius c <? MIN_BALL_CANDIDATE_RADIUS).
    + destruct (IH (i + 1) acc ltac:(lia)) as (new & E & Hlow & Hs).
      exists new. split; [exact E|]. split; [|exact Hs].
      eapply Forall_impl; [exact Hlow|]. exact Hmono.
    + match goal with
      | |- context [score_loop _ _ _ _ (acc ++ [?e0])] =>
          set (e := e0);
          destruct (IH (i + 1) (acc ++ [e]) ltac:(lia))
            as (new & E & Hlow & Hs)
      end.
      exists (e :: new). rewrite E, <- app_assoc.
      split; [reflexivity|].
      destruct (measure_attainable c) as [Hc0 Hc1].
      assert (He : (calculated_color_difference e
                    == m_avg_diff (measure c) ^ 2
                       + 20 * m_std_diff (measure c) ^ 2
                       + inject_Z (200 * (10 * (i + 1)) ^ 3))%Q).
      { subst e. cbn [calculated_color_difference]. unfold color_score.
        rewrite (inject_Z_mult 200). reflexivity. }
      split.
      * constructor; [|eapply Forall_impl; [exact Hlow|exact Hmono]].
        rewrite He. lra.
      * constructor; [exact Hs|].
        eapply Forall_impl; [exact Hlow|].
        intros b Hb. cbn beta in Hb |- *.
        eapply Qle_trans; [|exact Hb].
        rewrite He.
        pose proof (index_penalty_step i Hi) as Hstep.
        replace (i + 1 + 1) with (i + 2) by lia.
        rewrite Zle_Qle, inject_Z_plus in Hstep.
        change (inject_Z 1400000) with 1400000%Q in Hstep.
        lra.
Qed.

(** The first-listed candidate then has the best score, and no other
    candidate comes within the tolerance of 50 of it. *)
Lemma first_scored_is_best (circles : list GsCircle) (baseBall : GolfBall)
    (first : CircleCandidateListElement)
    (rest : list CircleCandidateListElement) :
  triplet_is_zero (average_color_ baseBall) = false ->
  scored_candidates circles baseBall measure kStrobed = first :: rest ->
  best_score first rest = calculated_color_difference first
  /\ Forall (fun e => (calculated_color_difference first + 50
                       < calculated_color_difference e)%Q) rest.
Proof.
  intros Hcolor Hscored. unfold scored_candidates in Hscored.
  rewrite Hcolor in Hscored. cbn [negb orb] in Hscored.
  destruct (score_loop_increasing circles 0 [] ltac:(lia))
    as (new & E & _ & Hs).
  rewrite E in Hscored. cbn [app] in Hscored. subst new.
  inversion Hs as [|? ? _ Hfirst]; subst.
  assert (Hfar : Forall (fun e => (calculated_color_difference first + 50
                                   < calculated_color_difference e)%Q)
                   rest).
  { eapply Forall_impl; [exact Hfirst|]. intros e He. cbn beta in He. lra. }
  split; [|exact Hfar].
  unfold best_score. clear -Hfar.
  induction rest as [|e rest IH]; [reflexivity|].
  inversion Hfar as [|? ? He Hrest]; subst. cbn [fold_left].
  assert (Hb : Qle_bool (calculated_color_difference e)
                        (calculated_color_difference first) = false).
  { apply Qle_bool_false. lra. }
  rewrite Hb. apply IH. exact Hrest.
Qed.

End ScoreOrder.

(** C5.  Seventeen circles of radius 5 precede circles of radius 20 and
    30, all with a mean colour at distance 3 from the expected one.  The
    two scored candidates carry the numbers 18 and 19 and the scores
    1166400009 and 1371800009.  The best score is that of the first, which
    does not exceed the best score plus 50; but the limit is held in single
    precision, where 1166400059 becomes 1166400000, so the best candidate
    is dropped with the other one, no candidate is left to sort and the
    call fails. *)
Theorem C5_best_candidate_dropped :
  exists first second,
    BallDetectorFacade.scored_candidates FacadeSpec.tiny_then_two_balls
      FacadeSpec.white_ball FacadeSpec.near_white SearchStrategy.kStrobed
    = [first; second]
    /\ BallDetectorFacade.calculated_color_difference first = 1166400009%Q
    /\ BallDetectorFacade.calculated_color_difference second = 1371800009%Q
    /\ FacadeSpec.best_score first [second] = 1166400009%Q
    /\ FacadeSpec.within_tolerance
         (FacadeSpec.best_score first [second] + 50)%Q first
    /\ BallDetectorFacade.maxRGBDistance first = 1166400000%Q
    /\ BallDetectorFacade.final_candidates SearchStrategy.kStrobed true
         [first; second] = []
    /\ BallDetectorFacade.FilterAndScoreCandidates
         FacadeSpec.tiny_then_two_balls FacadeSpec.white_ball []
         FacadeSpec.near_white SearchStrategy.kStrobed = (false, []).
Proof.
  eexists _, _. split; [vm_compute; reflexivity|].
  repeat split; vm_compute; reflexivity.
Qed.

(** * Non-maximum suppression: order of the result, and the overlap measure *)

Section GreedyOrder.
Import BallImageProc NmsSpec StdSort.
Variables (boxes : list Rect) (pairs : list (Q * nat)) (nms_threshold : Q).

(** A pass of the outer loop appends at most the index of its own
    position to [indices]. *)
Lemma outer_step_appends (st : list bool * list nat) (i : nat) :
  exists sub,
    sub `sublist_of` take 1 (drop i pairs)
    /\ snd (outer_step boxes pairs nms_threshold st i)
       = snd st ++ map snd sub.
Proof.
  destruct st as [suppressed indices]. unfold outer_step.
  assert (Hnone : exists sub : list (Q * nat),
             sub `sublist_of` take 1 (drop i pairs)
             /\ indices = indices ++ map snd sub).
  { exists []. split; [apply sublist_nil_l|].
    rewrite app_nil_r. reflexivity. }
  destruct (suppressed !! i) as [[|]|]; [exact Hnone| |];
    (destruct (pairs !! i) as [[c idx]|] eqn:Hp; [|exact Hnone];
     exists [(c, idx)];
     (split;
      [ rewrite (drop_S _ _ _ Hp); cbn; rewrite take_0; reflexivity
      | destruct (boxes !! idx); reflexivity ])).
Qed.

Lemma outer_fold_appends (m : nat) :
  forall (a : nat) (st : list bool * list nat),
  exists sub,
    sub `sublist_of` take m (drop a pairs)
    /\ snd (fold_left (outer_step boxes pairs nms_threshold) (seq a m) st)
       = snd st ++ map snd sub.
Proof.
  induction m as [|m IH]; intros a st.
  - exists []. split; [apply sublist_nil_l|].
    cbn. rewrite app_nil_r. reflexivity.
  - cbn [seq fold_left].
    destruct (outer_step_appends st a) as (s1 & Hs1 & E1).
    destruct (IH (S a) (outer_step boxes pairs nms_threshold st a))
      as (s2 & Hs2 & E2).
    exists (s1 ++ s2). split.
    + replace (take (S m) (drop a pairs))
        with (take 1 (drop a pairs) ++ take m (drop (S a) pairs)).
      * apply sublist_app; assumption.
      * destruct (drop a pairs) as [|x l] eqn:Hd.
        -- assert (Hd' : drop (S a) pairs = []).
           { apply drop_ge. apply (f_equal length) in Hd.
             rewrite length_drop in Hd. cbn in Hd. lia. }
           rewrite Hd'. rewrite !take_nil. reflexivity.
        -- assert (Hd' : drop (S a) pairs = l).
           { replace (S a) with (a + 1)%nat by lia.
             rewrite <- drop_drop, Hd. reflexivity. }
           rewrite Hd'. cbn. rewrite take_0. reflexivity.
    + rewrite E2, E1, map_app, app_assoc. reflexivity.
Qed.

Lemma suppress_is_sublist :
  exists sub,
    sub `sublist_of` pairs
    /\ snd (suppress boxes pairs nms_threshold) = map snd sub.
Proof.
  unfold suppress.
  destruct (outer_fold_appends (length pairs) 0
              (replicate (length pairs) false, []))
    as (sub & Hsub & E).
  exists sub. rewrite drop_0, firstn_all in Hsub.
  split; [exact Hsub | exact E].
Qed.

(** The first position is never suppressed: its index heads the
    result. *)
Lemma suppress_head (c0 : Q) (i0 : nat) :
  pairs !! O = Some (c0, i0) ->
  snd (suppress boxes pairs nms_threshold) !! O = Some i0.
Proof.
  intros Hp. unfold suppress.
  destruct pairs as [|x rest] eqn:Hpairs; [discriminate|].
  rewrite <- Hpairs in *. 
  assert (Hlen : length pairs = S (length rest)) by (rewrite Hpairs; reflexivity).
  rewrite Hlen. cbn [seq fold_left replicate].
  destruct (outer_fold_appends (length rest) 1
              (outer_step boxes pairs nms_threshold
                          (false :: replicate (length rest) false, []) O))
    as (sub & _ & E).
  rewrite E.
  unfold outer_step at 1. cbn [lookup list_lookup].
  rewrite Hp.
  destruct (boxes !! i0); reflexivity.
Qed.

End GreedyOrder.

Section PairOrder.
Import BallImageProc NmsSpec StdSort.

Lemma confidence_pairs_NoDup (confidences : list Q) :
  forall (i0 : nat) (conf_threshold : Q),
    NoDup (map snd (confidence_pairs confidences i0 conf_threshold)).
Proof.
  induction confidences as [|c rest IH]; intros i0 t; [constructor|].
  cbn [confidence_pairs].
  destruct (Qle_bool t c); [|apply IH].
  cbn [map snd]. constructor; [|apply IH].
  intros Hin. apply list_elem_of_fmap in Hin as ([c' idx] & Heq & Hin).
  cbn in Heq. subst idx.
  apply confidence_pairs_elem in Hin as (k & Hk & _). lia.
Qed.

Lemma StronglySorted_sublist {A : Type} (R : A -> A -> Prop)
    (l1 l2 : list A) :
  l1 `sublist_of` l2 -> StronglySorted R l2 -> StronglySorted R l1.
Proof.
  induction 1 as [|x l1 l2 Hsub IH|x l1 l2 Hsub IH]; intros Hs.
  - constructor.
  - apply StronglySorted_inv in Hs as [Hs Hall].
    constructor; [apply IH; exact Hs|].
    rewrite Forall_forall in Hall |- *. intros y Hy.
    apply Hall. eapply elem_of_sublist; eassumption.
  - apply StronglySorted_inv in Hs as [Hs _]. apply IH. exact Hs.
Qed.

(** The result of the NMS lists the indices of a subsequence of the
    sorted confident pairs. *)
Lemma SingleClassNMS_sublist (boxes : list Rect) (confidences : list Q)
    (conf_threshold nms_threshold : Q) :
  exists sub,
    sub `sublist_of` std_sort by_confidence_desc
                       (confidence_pairs confidences 0 conf_threshold)
    /\ SingleClassNMS boxes confidences conf_threshold nms_threshold
       = map snd sub.
Proof.
  rewrite SingleClassNMS_suppress. apply suppress_is_sublist.
Qed.

End PairOrder.

(** X8.  The index list [SingleClassNMS] returns has no duplicates and is
    ordered by confidence: a detection listed earlier is at least as
    confident as one listed later. *)
Theorem X8_nms_result_ordered (boxes : list BallImageProc.Rect)
    (confidences : list Q) (conf_threshold nms_threshold : Q) :
  let kept :=
    BallImageProc.SingleClassNMS boxes confidences conf_threshold
                                 nms_threshold in
  NoDup kept
  /\ forall (p q i j : nat) (ci cj : Q),
       (p < q)%nat -> kept !! p = Some i -> kept !! q = Some j ->
       confidences !! i = Some ci -> confidences !! j = Some cj ->
       (cj <= ci)%Q.
Proof.
  cbv zeta.
  destruct (SingleClassNMS_sublist boxes confidences conf_threshold
              nms_threshold) as (sub & Hsub & ->).
  destruct (sorted_pairs_spec confidences conf_threshold) as [Hmem Hord].
  cbv zeta in Hmem, Hord.
  set (pairs := StdSort.std_sort BallImageProc.by_confidence_desc
                  (BallImageProc.confidence_pairs confidences 0
                                                  conf_threshold)) in *.
  split.
  - eapply sublist_NoDup; [|apply (fmap_sublist snd); exact Hsub].
    assert (Hperm : Permutation (map snd pairs)
                      (map snd (BallImageProc.confidence_pairs
                                  confidences 0 conf_threshold))).
    { apply Permutation_map. apply std_sort_perm. }
    rewrite Hperm. apply confidence_pairs_NoDup.
  - intros p q i j ci cj Hpq Hp Hq Hi Hj.
    rewrite list_lookup_fmap in Hp, Hq.
    destruct (sub !! p) as [[ci' i']|] eqn:Ep; [|discriminate].
    destruct (sub !! q) as [[cj' j']|] eqn:Eq; [|discriminate].
    cbn in Hp, Hq. injection Hp as ->. injection Hq as ->.
    assert (Hin_i : (ci', i) ∈ pairs).
    { eapply elem_of_sublist; [|exact Hsub].
      eapply list_elem_of_lookup_2. exact Ep. }
    assert (Hin_j : (cj', j) ∈ pairs).
    { eapply elem_of_sublist; [|exact Hsub].
      eapply list_elem_of_lookup_2. exact Eq. }
    apply Hmem in Hin_i as [Hi' _]. apply Hmem in Hin_j as [Hj' _].
    assert (ci = ci') by congruence. assert (cj = cj') by congruence.
    subst ci' cj'.
    assert (Hsorted : StronglySorted (fun a b : Q * nat => (fst b <= fst a)%Q)
                                     sub).
    { eapply StronglySorted_sublist; [exact Hsub|].
      eapply StronglySorted_weaken;
        [|apply (std_sort_sorted BallImageProc.by_confidence_desc
                   by_confidence_desc_asym by_confidence_desc_negtrans)].
      intros a b H. unfold StdSort.may_precede,
        BallImageProc.by_confidence_desc in H.
      apply negb_false_iff, Qle_bool_iff in H. exact H. }
    exact (StronglySorted_lookup _ _ Hsorted p q _ _ Hpq Ep Eq).
Qed.

(** X9.  The most confident detection always survives and is listed
    first: if any detection reaches the confidence threshold, the first
    returned index names a detection at least as confident as every
    detection that reaches the threshold.  This holds whatever the
    boxes are. *)
Theorem X9_nms_keeps_the_best (boxes : list BallImageProc.Rect)
    (confidences : list Q) (conf_threshold nms_threshold : Q)
    (k : nat) (c : Q) :
  confidences !! k = Some c -> (conf_threshold <= c)%Q ->
  exists (i : nat) (ci : Q),
    BallImageProc.SingleClassNMS boxes confidences conf_threshold
                                 nms_threshold !! O = Some i
    /\ confidences !! i = Some ci
    /\ (conf_threshold <= ci)%Q
    /\ forall (j : nat) (cj : Q),
         confidences !! j = Some cj -> (conf_threshold <= cj)%Q ->
         (cj <= ci)%Q.
Proof.
  intros Hk Hc.
  destruct (sorted_pairs_spec confidences conf_threshold) as [Hmem Hord].
  cbv zeta in Hmem, Hord.
  rewrite SingleClassNMS_suppress.
  set (pairs := StdSort.std_sort BallImageProc.by_confidence_desc
                  (BallImageProc.confidence_pairs confidences 0
                                                  conf_threshold)) in *.
  assert (Hin : (c, k) ∈ pairs) by (apply Hmem; split; assumption).
  destruct pairs as [|[c0 i0] rest] eqn:Hpairs; [inversion Hin|].
  rewrite <- Hpairs in *.
  assert (H0 : pairs !! O = Some (c0, i0)) by (rewrite Hpairs; reflexivity).
  exists i0, c0.
  split; [apply (suppress_head boxes pairs nms_threshold c0 i0 H0)|].
  assert (Hin0 : (c0, i0) ∈ pairs)
    by (eapply list_elem_of_lookup_2; exact H0).
  apply Hmem in Hin0 as [Hi0 Ht0].
  split; [exact Hi0|]. split; [exact Ht0|].
  intros j cj Hj Hcj.
  assert (Hinj : (cj, j) ∈ pairs) by (apply Hmem; split; assumption).
  apply list_elem_of_lookup_1 in Hinj as [q Hq].
  destruct q as [|q].
  - rewrite H0 in Hq. injection Hq as <- <-. apply Qle_refl.
  - exact (Hord O (S q) _ _ ltac:(lia) H0 Hq).
Qed.

Lemma X9_nms_keeps_the_best_witness :
  exists (i : nat) (ci : Q),
    BallImageProc.SingleClassNMS NmsSpec.three_boxes
      NmsSpec.three_confidences (1 # 2) (1 # 2) !! O = Some i
    /\ NmsSpec.three_confidences !! i = Some ci
    /\ (1 # 2 <= ci)%Q
    /\ forall (j : nat) (cj : Q),
         NmsSpec.three_confidences !! j = Some cj -> (1 # 2 <= cj)%Q ->
         (cj <= ci)%Q.
Proof.
  apply (X9_nms_keeps_the_best NmsSpec.three_boxes NmsSpec.three_confidences
           (1 # 2) (1 # 2) 1%nat (8 # 10)).
  - reflexivity.
  - vm_compute. discriminate.
Defined.

Section OverlapRange.
Import BallImageProc NmsSpec.

Lemma intersection_area_bounds (a b : Rect) :
  0 <= rwidth a -> 0 <= rheight a -> 0 <= rwidth b -> 0 <= rheight b ->
  0 <= intersection_area a b
  /\ intersection_area a b <= rwidth a * rheight a
  /\ intersection_area a b <= rwidth b * rheight b.
Proof.
  intros Hwa Hha Hwb Hhb. unfold intersection_area.
  set (dx := Z.max 0 (Z.min (rx a + rwidth a) (rx b + rwidth b)
                      - Z.max (rx a) (rx b))).
  set (dy := Z.max 0 (Z.min (ry a + rheight a) (ry b + rheight b)
                      - Z.max (ry a) (ry b))).
  assert (0 <= dx <= rwidth a /\ dx <= rwidth b) by (subst dx; lia).
  assert (0 <= dy <= rheight a /\ dy <= rheight b) by (subst dy; lia).
  clearbody dx dy. nia.
Qed.

End OverlapRange.

(** X10.  For boxes whose width and height are not negative, the overlap
    measure of [SingleClassNMS] lies between 0 and 1, does not depend on
    the order of the two boxes, and is 1 for a box of positive area
    compared with itself. *)
Theorem X10_iou_is_a_ratio (a b : BallImageProc.Rect) :
  0 <= BallImageProc.rwidth a -> 0 <= BallImageProc.rheight a ->
  0 <= BallImageProc.rwidth b -> 0 <= BallImageProc.rheight b ->
  (0 <= BallImageProc.iou a b)%Q
  /\ (BallImageProc.iou a b <= 1)%Q
  /\ (BallImageProc.iou a b == BallImageProc.iou b a)%Q
  /\ (0 < BallImageProc.rwidth a * BallImageProc.rheight a ->
      (BallImageProc.iou a a == 1)%Q).
Proof.
  intros Hwa Hha Hwb Hhb.
  destruct (intersection_area_bounds a b Hwa Hha Hwb Hhb) as (H0 & H1 & H2).
  assert (Hrange : (0 <= BallImageProc.iou a b <= 1)%Q).
  { rewrite iou_steps. cbv zeta.
    destruct (iou_parts_ordered _ _ _ H0 H1 H2) as [HI HIU].
    cbv zeta in HI, HIU.
    set (I := CvUtils.f32_round (inject_Z (NmsSpec.intersection_area a b)))
      in *.
    match goal with
    | |- context [Qle_bool ?u 0] => set (U := u) in *
    end.
    destruct (Qle_bool U 0) eqn:HU; cbn [negb]; [split; discriminate|].
    apply Qle_bool_false in HU.
    assert (Hq0 : (0 <= I / U)%Q).
    { apply Qle_shift_div_l; [exact HU|]. rewrite Qmult_0_l. exact HI. }
    split; [apply f32_round_nonneg; exact Hq0|].
    rewrite <- f32_round_one. apply f32_round_mono; [exact Hq0|].
    apply Qle_shift_div_r; [exact HU|]. rewrite Qmult_1_l. exact HIU. }
  split; [apply Hrange|]. split; [apply Hrange|].
  split; [apply iou_sym|].
  intros Harea. rewrite iou_steps. cbv zeta.
  assert (Hself : NmsSpec.intersection_area a a
                  = BallImageProc.rwidth a * BallImageProc.rheight a).
  { unfold NmsSpec.intersection_area.
    rewrite !Z.min_id, !Z.max_id.
    replace (BallImageProc.rx a + BallImageProc.rwidth a
             - BallImageProc.rx a) with (BallImageProc.rwidth a) by lia.
    replace (BallImageProc.ry a + BallImageProc.rheight a
             - BallImageProc.ry a) with (BallImageProc.rheight a) by lia.
    assert (0 < BallImageProc.rwidth a /\ 0 < BallImageProc.rheight a)
      by nia.
    lia. }
  rewrite Hself.
  set (s := BallImageProc.rwidth a * BallImageProc.rheight a) in *.
  assert (Hs0 : (0 <= inject_Z s)%Q)
    by (change 0%Q with (inject_Z 0); rewrite <- Zle_Qle; lia).
  assert (Hs1 : (1 <= inject_Z s)%Q)
    by (change 1%Q with (inject_Z 1); rewrite <- Zle_Qle; lia).
  pose proof (f32_round_mono 1 (inject_Z s) ltac:(discriminate) Hs1) as HF1.
  rewrite f32_round_one in HF1.
  pose proof (f32_round_double _ Hs0) as HD.
  pose proof (f32_round_idem _ Hs0) as HID.
  set (F := CvUtils.f32_round (inject_Z s)) in *.
  rewrite (f32_round_comp (F + F) (2 * F)) by ring.
  rewrite (f32_round_comp (CvUtils.f32_round (2 * F) - F) F)
    by (rewrite HD; ring).
  assert (HU : Qle_bool (CvUtils.f32_round F) 0 = false).
  { apply Qle_bool_false. rewrite HID. lra. }
  rewrite HU. cbn [negb].
  rewrite (f32_round_comp (F / CvUtils.f32_round F) 1).
  - apply f32_round_one.
  - rewrite HID. field. intros E. rewrite E in HF1. lra.
Qed.

Lemma X10_iou_is_a_ratio_witness :
  (0 <= BallImageProc.iou (BallImageProc.mkRect 0 0 10 10)
                          (BallImageProc.mkRect 5 0 10 10))%Q
  /\ (BallImageProc.iou (BallImageProc.mkRect 0 0 10 10)
                        (BallImageProc.mkRect 5 0 10 10) <= 1)%Q
  /\ (BallImageProc.iou (BallImageProc.mkRect 0 0 10 10)
                        (BallImageProc.mkRect 5 0 10 10)
      == BallImageProc.iou (BallImageProc.mkRect 5 0 10 10)
                           (BallImageProc.mkRect 0 0 10 10))%Q
  /\ (0 < BallImageProc.rwidth (BallImageProc.mkRect 0 0 10 10)
          * BallImageProc.rheight (BallImageProc.mkRect 0 0 10 10) ->
      (BallImageProc.iou (BallImageProc.mkRect 0 0 10 10)
                         (BallImageProc.mkRect 0 0 10 10) == 1)%Q).
Proof.
  apply (X10_iou_is_a_ratio (BallImageProc.mkRect 0 0 10 10)
           (BallImageProc.mkRect 5 0 10 10)); cbn; lia.
Defined.

(** * Spin analysis: comparison counts and the choice of the best rotation *)

Section Counts.
Import SpinAnalyzer SpinSpec.

Lemma filter_length_mono {A : Type} (P R : A -> Prop)
    `{!forall x, Decision (P x)} `{!forall x, Decision (R x)}
    (l : list A) :
  (forall x, P x -> R x) ->
  (length (filter P l) <= length (filter R l))%nat.
Proof.
  intros Himp. induction l as [|x l IH]; [reflexivity|].
  rewrite !filter_cons.
  destruct (decide (P x)) as [Hp|Hp].
  - rewrite decide_True by (apply Himp; exact Hp). cbn. lia.
  - destruct (decide (R x)); cbn; lia.
Qed.

Lemma CompareRotationImage_bounds (img1 : list (list Z))
    (img2 : list (list (Z * Z))) :
  0 <= fst (CompareRotationImage img1 img2)
  /\ fst (CompareRotationImage img1 img2)
     <= snd (CompareRotationImage img1 img2)
  /\ snd (CompareRotationImage img1 img2)
     <= Z.of_nat (length (pixel_pairs img1 img2)).
Proof.
  unfold CompareRotationImage. rewrite compare_fold. cbn [fst snd].
  pose proof (filter_length_mono compared_equal compared
                (pixel_pairs img1 img2) (fun x H => proj1 H)).
  pose proof (length_filter compared (pixel_pairs img1 img2)).
  lia.
Qed.

End Counts.

(** X11.  What the comparison stores into a rotation candidate: the
    number of matching pixels is between 0 and the number of pixels
    examined, which is at most the number of pixel positions; the score
    is undefined (0/0) exactly when no pixel was examined, and otherwise
    it is the fraction matching / examined, a number between 0 and 1. *)
Theorem X11_comparison_score_is_a_fraction (target_image : list (list Z))
    (c : SpinAnalyzer.RotationCandidate) :
  let c' := SpinAnalyzer.compare_candidate target_image c in
  0 <= SpinAnalyzer.pixels_matching c'
  /\ SpinAnalyzer.pixels_matching c' <= SpinAnalyzer.pixels_examined c'
  /\ SpinAnalyzer.pixels_examined c'
     <= Z.of_nat (length (SpinAnalyzer.pixel_pairs target_image
                            (SpinAnalyzer.img c)))
  /\ (SpinAnalyzer.score c' = None <-> SpinAnalyzer.pixels_examined c' = 0)
  /\ forall s, SpinAnalyzer.score c' = Some s ->
       (s == inject_Z (SpinAnalyzer.pixels_matching c')
             / inject_Z (SpinAnalyzer.pixels_examined c'))%Q
       /\ (0 <= s)%Q /\ (s <= 1)%Q.
Proof.
  cbv zeta. unfold SpinAnalyzer.compare_candidate.
  cbn [SpinAnalyzer.pixels_matching SpinAnalyzer.pixels_examined
       SpinAnalyzer.score].
  destruct (CompareRotationImage_bounds target_image (SpinAnalyzer.img c))
    as (H0 & H1 & H2).
  set (r := SpinAnalyzer.CompareRotationImage target_image
              (SpinAnalyzer.img c)) in *.
  split; [exact H0|]. split; [exact H1|]. split; [exact H2|].
  destruct (Z.eqb_spec (snd r) 0) as [Hz|Hnz].
  - split; [tauto|]. intros s Hs. discriminate.
  - split; [split; [discriminate | intros; contradiction]|].
    intros s [= <-].
    assert (Hpos : (0 < inject_Z (snd r))%Q)
      by (change 0%Q with (inject_Z 0); rewrite <- Zlt_Qlt; lia).
    split; [reflexivity|]. split.
    + apply Qle_shift_div_l; [exact Hpos|]. rewrite Qmult_0_l.
      change 0%Q with (inject_Z 0). rewrite <- Zle_Qle. exact H0.
    + apply Qle_shift_div_r; [exact Hpos|]. rewrite Qmult_1_l.
      rewrite <- Zle_Qle. exact H1.
Qed.

Section BestCandidate.
Import SpinAnalyzer SpinSpec.

Lemma best_fold (maxPixelsExamined : Z) (l : list RotationCandidate) :
  forall (m0 : Q) (i0 : Z),
    let r := fold_left (best_step maxPixelsExamined) l (m0, i0) in
    (m0 <= fst r)%Q
    /\ (forall c f, c ∈ l ->
          final_scaled_score maxPixelsExamined c = Some f ->
          (f <= fst r)%Q)
    /\ (r = (m0, i0)
        \/ exists c, c ∈ l
             /\ final_scaled_score maxPixelsExamined c = Some (fst r)
             /\ index c = snd r /\ (m0 < fst r)%Q).
Proof.
  induction l as [|c l IH]; intros m0 i0; cbv zeta.
  - cbn. split; [apply Qle_refl|]. split; [|left; reflexivity].
    intros c f Hc. inversion Hc.
  - cbn [fold_left].
    destruct (final_scaled_score maxPixelsExamined c) as [f|] eqn:Hf.
    + destruct (Qle_bool f m0) eqn:Hle.
      * replace (best_step maxPixelsExamined (m0, i0) c) with (m0, i0)
          by (unfold best_step; rewrite Hf; cbn; rewrite Hle; reflexivity).
        apply Qle_bool_iff in Hle.
        destruct (IH m0 i0) as (Hm & Hall & Hsrc). cbv zeta in *.
        split; [exact Hm|]. split.
        -- intros c' f' Hc' Hf'.
           apply elem_of_cons in Hc' as [->|Hc'].
           ++ rewrite Hf in Hf'. injection Hf' as <-.
              exact (Qle_trans _ _ _ Hle Hm).
           ++ eapply Hall; eassumption.
        -- destruct Hsrc as [E | (c' & Hc' & Hs & Hi & Hlt)];
             [left; exact E|].
           right. exists c'. split; [right; exact Hc'|].
           repeat split; assumption.
      * replace (best_step maxPixelsExamined (m0, i0) c)
          with (f, index c)
          by (unfold best_step; rewrite Hf; cbn; rewrite Hle; reflexivity).
        apply Qle_bool_false in Hle.
        destruct (IH f (index c)) as (Hm & Hall & Hsrc). cbv zeta in *.
        split; [exact (Qle_trans _ _ _ (Qlt_le_weak _ _ Hle) Hm)|].
        split.
        -- intros c' f' Hc' Hf'.
           apply elem_of_cons in Hc' as [->|Hc'].
           ++ rewrite Hf in Hf'. injection Hf' as <-. exact Hm.
           ++ eapply Hall; eassumption.
        -- right.
           destruct Hsrc as [E | (c' & Hc' & Hs & Hi & Hlt)].
           ++ exists c. rewrite E. cbn [fst snd].
              split; [left|]. repeat split; assumption.
           ++ exists c'. split; [right; exact Hc'|].
              repeat split; try assumption.
              exact (Qlt_trans _ _ _ Hle Hlt).
    + replace (best_step maxPixelsExamined (m0, i0) c) with (m0, i0)
        by (unfold best_step; rewrite Hf; reflexivity).
      destruct (IH m0 i0) as (Hm & Hall & Hsrc). cbv zeta in *.
      split; [exact Hm|]. split.
      * intros c' f' Hc' Hf'.
        apply elem_of_cons in Hc' as [->|Hc']; [congruence|].
        eapply Hall; eassumption.
      * destruct Hsrc as [E | (c' & Hc' & Hs & Hi & Hlt)];
          [left; exact E|].
        right. exists c'. split; [right; exact Hc'|].
        repeat split; assumption.
Qed.

End BestCandidate.


(** X13.  [MaskAreaOutsideBall] on an 8-bit image keeps the shape of the
    image, leaves every pixel inside the mask disc as it is and sets every
    pixel outside it to the mask value. *)
Theorem X13_mask_keeps_disc_and_paints_rest
    (in_circle : nat -> nat -> bool) (ball_image : list (list Z))
    (maskValue : Z) (x y : nat) (p : Z) :
  SpinAnalyzer.px_at ball_image x y = Some p -> 0 <= p <= 255 ->
  SpinAnalyzer.px_at
    (SpinAnalyzer.MaskAreaOutsideBall in_circle ball_image maskValue) x y
  = Some (if in_circle x y then p else maskValue)
  /\ length (SpinAnalyzer.MaskAreaOutsideBall in_circle ball_image maskValue)
     = length ball_image.
Proof.
  intros Hp Hrange. unfold SpinAnalyzer.MaskAreaOutsideBall.
  split; [|apply length_imap].
  unfold SpinAnalyzer.px_at in *.
  rewrite list_lookup_imap.
  destruct (ball_image !! x) as [row|]; [|discriminate]. cbn.
  rewrite list_lookup_imap, Hp. cbn. f_equal.
  destruct (in_circle x y).
  - rewrite Z.lxor_0_r.
    change 255 with (Z.ones 8). rewrite Z.land_ones by lia.
    apply Z.mod_small. lia.
  - rewrite Z.land_0_r. apply Z.lxor_0_l.
Qed.

Lemma X13_mask_keeps_disc_and_paints_rest_witness :
  SpinAnalyzer.px_at
    (SpinAnalyzer.MaskAreaOutsideBall (fun x y => (x =? y)%nat)
       [[10; 20]; [30; 40]] 128) 0 1
  = Some (if (fun x y => (x =? y)%nat) O 1%nat then 20 else 128)
  /\ length (SpinAnalyzer.MaskAreaOutsideBall (fun x y => (x =? y)%nat)
               [[10; 20]; [30; 40]] 128)
     = length [[10; 20]; [30; 40]].
Proof.
  apply (X13_mask_keeps_disc_and_paints_rest (fun x y => (x =? y)%nat)
           [[10; 20]; [30; 40]] 128 0 1 20).
  - reflexivity.
  - lia.
Defined.

(** * Rotation candidates: the index matrix and the fine search space *)

Section Grid.
Import SpinAnalyzer SpinSpec.

Lemma axis_values_lookup (fuel : nat) :
  forall (v angle_end increment : Z) (l : list Z),
    axis_values fuel v angle_end increment = Some l ->
    forall (n : nat) (a : Z),
      l !! n = Some a ->
      a = v + Z.of_nat n * increment /\ a <= angle_end.
Proof.
  induction fuel as [|fuel IH]; intros v e inc l Hl n a Hn; cbn in Hl.
  - destruct (v <=? e); [discriminate|].
    injection Hl as <-. destruct n; discriminate.
  - destruct (Z.leb_spec v e) as [Hle|Hgt].
    + destruct (axis_values fuel (v + inc) e inc) as [l'|] eqn:El;
        [|discriminate].
      cbn in Hl. injection Hl as <-.
      destruct n as [|n].
      * cbn in Hn. injection Hn as <-. lia.
      * cbn in Hn. destruct (IH _ _ _ _ El n a Hn) as [Ha Hb]. lia.
    + injection Hl as <-. destruct n; discriminate.
Qed.

Lemma axis_values_reaches (fuel : nat) :
  forall (v angle_end increment : Z) (l : list Z) (n : nat),
    0 < increment ->
    axis_values fuel v angle_end increment = Some l ->
    v + Z.of_nat n * increment <= angle_end ->
    l !! n = Some (v + Z.of_nat n * increment).
Proof.
  induction fuel as [|fuel IH]; intros v e inc l n Hinc Hl Hn; cbn in Hl.
  - destruct (Z.leb_spec v e); [discriminate|]. nia.
  - destruct (Z.leb_spec v e) as [Hle|Hgt]; [|nia].
    destruct (axis_values fuel (v + inc) e inc) as [l'|] eqn:El;
      [|discriminate].
    cbn in Hl. injection Hl as <-.
    destruct n as [|n].
    + cbn. f_equal. lia.
    + change ((v :: l') !! S n) with (l' !! n).
      rewrite (IH _ _ _ _ n Hinc El) by lia. f_equal. lia.
Qed.

Lemma elem_of_concat {A : Type} (x : A) (ls : list (list A)) :
  x ∈ concat ls <-> exists l, l ∈ ls /\ x ∈ l.
Proof.
  rewrite list_elem_of_In, in_concat.
  split; intros (l & H1 & H2); exists l;
    rewrite ?list_elem_of_In in *; tauto.
Qed.

Lemma rotation_grid_elem (xs ys zs : list Z) (xi yi zi : nat)
    (x y z : Z) :
  ((xi, yi, zi), (x, y, z)) ∈ rotation_grid xs ys zs
  <-> xs !! xi = Some x /\ ys !! yi = Some y /\ zs !! zi = Some z.
Proof.
  unfold rotation_grid. rewrite elem_of_concat. split.
  - intros (l & Hl & Hin).
    apply elem_of_lookup_imap in Hl as (xi' & x' & -> & Hx).
    apply elem_of_concat in Hin as (l2 & Hl2 & Hin).
    apply elem_of_lookup_imap in Hl2 as (yi' & y' & -> & Hy).
    apply elem_of_lookup_imap in Hin as (zi' & z' & Heq & Hz).
    injection Heq as -> -> -> -> -> ->. auto.
  - intros (Hx & Hy & Hz).
    eexists. split; [apply (elem_of_lookup_imap_2 _ _ _ _ Hx)|].
    apply elem_of_concat.
    eexists. split; [apply (elem_of_lookup_imap_2 _ _ _ _ Hy)|].
    apply (elem_of_lookup_imap_2
             (fun zi z => ((xi, yi, zi), (x, y, z))) _ _ _ Hz).
Qed.

(** The outputs of [ComputeCandidateAngleImages] in terms of the values
    of the three axis loops. *)
Lemma ComputeCandidateAngleImages_shape (fuel : nat)
    (geom : Z * Z * Z -> nat -> nat -> ProjGeom)
    (order : Z * Z * Z -> list (nat * nat))
    (base_dimple_image : list (list Z)) (s : RotationSearchSpace)
    (xs ys zs : list Z) :
  axis_values fuel (anglex_rotation_degrees_start s)
    (anglex_rotation_degrees_end s)
    (anglex_rotation_degrees_increment s) = Some xs ->
  axis_values fuel (angley_rotation_degrees_start s)
    (angley_rotation_degrees_end s)
    (angley_rotation_degrees_increment s) = Some ys ->
  axis_values fuel (anglez_rotation_degrees_start s)
    (anglez_rotation_degrees_end s)
    (anglez_rotation_degrees_increment s) = Some zs ->
  exists images,
    ComputeCandidateAngleImages fuel geom order base_dimple_image s
    = Some images
    /\ outputCandidateElementsMat images
       = imap (fun vectorIndex e =>
                 (fst e,
                  CvUtils.ushort_cast
                    (CvUtils.short_cast (Z.of_nat vectorIndex))))
              (rotation_grid xs ys zs)
    /\ output_candidates images
       = imap (fun vectorIndex e =>
                 mkCandidate (CvUtils.short_cast (Z.of_nat vectorIndex))
                   (Project2dImageTo3dBall (geom (snd e)) (order (snd e))
                                           base_dimple_image)
                   (fst (fst (snd e))) (snd (fst (snd e))) (snd (snd e))
                   0 0 (Some 0%Q))
              (rotation_grid xs ys zs).
Proof.
  intros Ex Ey Ez. unfold ComputeCandidateAngleImages.
  rewrite Ex.
  assert (Hcand : forall grid : list ((nat * nat * nat) * (Z * Z * Z)),
             imap (fun vectorIndex e =>
                     let '(x, y, z) := snd e in
                     mkCandidate (CvUtils.short_cast (Z.of_nat vectorIndex))
                       (Project2dImageTo3dBall (geom (x, y, z))
                          (order (x, y, z)) base_dimple_image)
                       x y z 0 0 (Some 0%Q)) grid
             = imap (fun vectorIndex e =>
                       mkCandidate
                         (CvUtils.short_cast (Z.of_nat vectorIndex))
                         (Project2dImageTo3dBall (geom (snd e))
                            (order (snd e)) base_dimple_image)
                         (fst (fst (snd e))) (snd (fst (snd e)))
                         (snd (snd e)) 0 0 (Some 0%Q)) grid).
  { intros grid. apply imap_ext. intros i [pos [[x y] z]] _. reflexivity. }
  destruct xs as [|x xs].
  { eexists. split; [reflexivity|]. split; reflexivity. }
  rewrite Ey. destruct ys as [|y ys].
  { eexists. split; [reflexivity|].
    cbn [outputCandidateElementsMat output_candidates].
    rewrite Hcand.
    assert (Hg : forall zs', rotation_grid (x :: xs) [] zs' = []).
    { intros zs'. unfold rotation_grid.
      assert (Hnil : forall (f : nat -> Z ->
                        list ((nat * nat * nat) * (Z * Z * Z))) l,
                 (forall i a, f i a = []) -> concat (imap f l) = []).
      { intros f l. revert f.
        induction l as [|a l IH]; intros f Hf; [reflexivity|].
        cbn. rewrite Hf. apply IH. intros i b. apply Hf. }
      apply Hnil. reflexivity. }
    rewrite !Hg. split; reflexivity. }
  rewrite Ez. eexists. split; [reflexivity|].
  cbn [outputCandidateElementsMat output_candidates].
  rewrite Hcand. split; reflexivity.
Qed.

Lemma short_cast_small (z : Z) :
  0 <= z < 32768 -> CvUtils.short_cast z = z.
Proof.
  intros Hz. unfold CvUtils.short_cast.
  rewrite Z.mod_small by lia. lia.
Qed.

Lemma ushort_cast_small (z : Z) :
  0 <= z < 65536 -> CvUtils.ushort_cast z = z.
Proof. intros Hz. unfold CvUtils.ushort_cast. apply Z.mod_small. lia. Qed.

(** The axis loops of a well-formed space, and the number of rotations
    they combine to. *)
Lemma axis_values_of_space (fuel : nat) (s : RotationSearchSpace) :
  well_formed_space s -> enough_fuel s fuel ->
  exists xs ys zs,
    axis_values fuel (anglex_rotation_degrees_start s)
      (anglex_rotation_degrees_end s)
      (anglex_rotation_degrees_increment s) = Some xs
    /\ axis_values fuel (angley_rotation_degrees_start s)
         (angley_rotation_degrees_end s)
         (angley_rotation_degrees_increment s) = Some ys
    /\ axis_values fuel (anglez_rotation_degrees_start s)
         (anglez_rotation_degrees_end s)
         (anglez_rotation_degrees_increment s) = Some zs
    /\ Z.of_nat (length (rotation_grid xs ys zs)) = candidate_count s.
Proof.
  intros (Hix & Hx & Hiy & Hy & Hiz & Hz) (Hfx & Hfy & Hfz).
  destruct (axis_values_spec fuel _ _ _ Hix Hfx) as (xs & Exs & Lx & _).
  destruct (axis_values_spec fuel _ _ _ Hiy Hfy) as (ys & Eys & Ly & _).
  destruct (axis_values_spec fuel _ _ _ Hiz Hfz) as (zs & Ezs & Lz & _).
  exists xs, ys, zs. repeat split; try assumption.
  rewrite rotation_grid_length, !Nat2Z.inj_mul, Lx, Ly, Lz.
  rewrite (proj2 (Z.leb_le _ _) Hx), (proj2 (Z.leb_le _ _) Hy),
    (proj2 (Z.leb_le _ _) Hz).
  unfold candidate_count, axis_count. ring.
Qed.

Lemma Qceiling_half (n : Z) : Qceiling (inject_Z n / 2) = (n + 1) / 2.
Proof.
  unfold Qceiling, Qfloor, Qdiv, Qmult, Qinv, Qopp, inject_Z. cbn.
  rewrite Z.mul_1_r. Z.div_mod_to_equations. lia.
Qed.

Lemma std_round_half (n : Z) :
  0 <= n -> CvUtils.std_round (inject_Z n / 2) = (n + 1) / 2.
Proof.
  intros Hn. unfold CvUtils.std_round.
  assert (H0 : Qle_bool 0 (inject_Z n / 2) = true).
  { apply Qle_bool_iff. apply Qle_shift_div_l; [reflexivity|].
    rewrite Qmult_0_l. change 0%Q with (inject_Z 0).
    rewrite <- Zle_Qle. exact Hn. }
  rewrite H0.
  unfold Qfloor, Qdiv, Qmult, Qinv, Qplus, inject_Z. cbn.
  rewrite !Z.mul_1_r. Z.div_mod_to_equations. lia.
Qed.

End Grid.

(** X14.  For a well-formed search space with at most 2^15 candidates (the
    range of the [short] counter that numbers them), every cell of the
    candidate index matrix that [ComputeCandidateAngleImages] fills holds
    the position, in the candidate vector, of the candidate generated for
    that cell: the candidate at that position carries the same number in
    its [index] field and the rotation start + cell index * increment on
    each axis.  Conversely every candidate of the vector is numbered with
    its own position and is pointed at by a cell of the matrix. *)
Theorem X14_index_matrix_points_at_candidates (fuel : nat)
    (geom : Z * Z * Z -> nat -> nat -> SpinAnalyzer.ProjGeom)
    (order : Z * Z * Z -> list (nat * nat))
    (base_dimple_image : list (list Z))
    (s : SpinAnalyzer.RotationSearchSpace) :
  SpinSpec.well_formed_space s ->
  SpinSpec.enough_fuel s fuel ->
  SpinSpec.fits_short s ->
  exists images,
    SpinAnalyzer.ComputeCandidateAngleImages fuel geom order
      base_dimple_image s = Some images
    /\ (forall (xi yi zi : nat) (k : Z),
          ((xi, yi, zi), k)
            ∈ SpinAnalyzer.outputCandidateElementsMat images ->
          exists c,
            0 <= k
            /\ SpinAnalyzer.output_candidates images !! Z.to_nat k = Some c
            /\ SpinAnalyzer.index c = k
            /\ SpinAnalyzer.rotation_of c
               = (SpinAnalyzer.anglex_rotation_degrees_start s
                  + Z.of_nat xi
                    * SpinAnalyzer.anglex_rotation_degrees_increment s,
                  SpinAnalyzer.angley_rotation_degrees_start s
                  + Z.of_nat yi
                    * SpinAnalyzer.angley_rotation_degrees_increment s,
                  SpinAnalyzer.anglez_rotation_degrees_start s
                  + Z.of_nat zi
                    * SpinAnalyzer.anglez_rotation_degrees_increment s))
    /\ (forall (k : nat) (c : SpinAnalyzer.RotationCandidate),
          SpinAnalyzer.output_candidates images !! k = Some c ->
          SpinAnalyzer.index c = Z.of_nat k
          /\ exists pos,
               (pos, Z.of_nat k)
                 ∈ SpinAnalyzer.outputCandidateElementsMat images).
Proof.
  intros Hwf Hfuel Hshort.
  destruct (axis_values_of_space fuel s Hwf Hfuel)
    as (xs & ys & zs & Exs & Eys & Ezs & Hlen).
  unfold SpinSpec.fits_short in Hshort. rewrite <- Hlen in Hshort.
  destruct (ComputeCandidateAngleImages_shape fuel geom order
              base_dimple_image s xs ys zs Exs Eys Ezs)
    as (images & Himg & Hmat & Hcands).
  exists images. split; [exact Himg|].
  rewrite Hmat, Hcands. split.
  - intros xi yi zi k Hin.
    apply elem_of_lookup_imap in Hin as (i & [pos [[x y] z]] & Heq & Hi).
    cbv beta in Heq. cbn [fst] in Heq. injection Heq as <- ->.
    assert (Hlt := lookup_lt_Some _ _ _ Hi).
    rewrite short_cast_small, ushort_cast_small by lia.
    assert (Hel : ((xi, yi, zi), (x, y, z))
                    ∈ SpinAnalyzer.rotation_grid xs ys zs)
      by (eapply list_elem_of_lookup_2; exact Hi).
    apply rotation_grid_elem in Hel as (Hxi & Hyi & Hzi).
    destruct (axis_values_lookup _ _ _ _ _ Exs _ _ Hxi) as [-> _].
    destruct (axis_values_lookup _ _ _ _ _ Eys _ _ Hyi) as [-> _].
    destruct (axis_values_lookup _ _ _ _ _ Ezs _ _ Hzi) as [-> _].
    eexists. split; [lia|].
    rewrite Nat2Z.id, list_lookup_imap, Hi.
    cbn [fmap option_fmap option_map SpinAnalyzer.index
         SpinAnalyzer.rotation_of SpinAnalyzer.x_rotation_degrees
         SpinAnalyzer.y_rotation_degrees SpinAnalyzer.z_rotation_degrees
         fst snd].
    split; [reflexivity|].
    split; [apply short_cast_small; lia|]. reflexivity.
  - intros k c Hk.
    apply list_lookup_imap_Some in Hk as ([pos rot] & Hg & ->).
    assert (Hlt := lookup_lt_Some _ _ _ Hg).
    cbn [SpinAnalyzer.index]. split; [apply short_cast_small; lia|].
    exists pos.
    pose proof (elem_of_lookup_imap_2
                  (fun vectorIndex e =>
                     (fst e,
                      CvUtils.ushort_cast
                        (CvUtils.short_cast (Z.of_nat vectorIndex))))
                  _ _ _ Hg) as Hin.
    cbv beta in Hin. cbn [fst] in Hin.
    rewrite short_cast_small, ushort_cast_small in Hin by lia.
    exact Hin.
Qed.

Lemma X14_index_matrix_points_at_candidates_witness :
  exists images,
    SpinAnalyzer.ComputeCandidateAngleImages 200
      (fun _ _ _ => SpinAnalyzer.mkGeom false 0 None) (fun _ => [])
      [[0]] (SpinAnalyzer.mkSpace 6 (-42) 42 5 (-30) 30 6 (-50) 60)
    = Some images
    /\ forall (k : nat) (c : SpinAnalyzer.RotationCandidate),
         SpinAnalyzer.output_candidates images !! k = Some c ->
         SpinAnalyzer.index c = Z.of_nat k.
Proof.
  destruct (X14_index_matrix_points_at_candidates 200
              (fun _ _ _ => SpinAnalyzer.mkGeom false 0 None) (fun _ => [])
              [[0]] (SpinAnalyzer.mkSpace 6 (-42) 42 5 (-30) 30 6 (-50) 60))
    as (images & E & _ & Hidx).
  - unfold SpinSpec.well_formed_space; cbn; lia.
  - unfold SpinSpec.enough_fuel; cbn; lia.
  - vm_compute. discriminate.
  - exists images. split; [exact E|].
    intros k c Hk. exact (proj1 (Hidx k c Hk)).
Defined.

(** X15.  The fine search space that [GetBallRotation] builds around the
    coarse winner always contains the winner's own rotation: for positive
    coarse increments the fine pass generates a candidate with exactly
    the rotation of the coarse winner, among
    (2 * ceil(ix / 2) + 1) * 3 * (2 * ceil(iz / 2) + 1) candidates. *)
Theorem X15_fine_search_revisits_coarse_winner (fuel : nat)
    (geom : Z * Z * Z -> nat -> nat -> SpinAnalyzer.ProjGeom)
    (order : Z * Z * Z -> list (nat * nat))
    (base_dimple_image : list (list Z))
    (initialSearchSpace : SpinAnalyzer.RotationSearchSpace)
    (c : SpinAnalyzer.RotationCandidate) :
  0 < SpinAnalyzer.anglex_rotation_degrees_increment initialSearchSpace ->
  0 < SpinAnalyzer.angley_rotation_degrees_increment initialSearchSpace ->
  0 < SpinAnalyzer.anglez_rotation_degrees_increment initialSearchSpace ->
  SpinSpec.enough_fuel
    (SpinAnalyzer.fine_search_space initialSearchSpace c) fuel ->
  exists images,
    SpinAnalyzer.ComputeCandidateAngleImages fuel geom order
      base_dimple_image
      (SpinAnalyzer.fine_search_space initialSearchSpace c) = Some images
    /\ (exists (k : nat) (c' : SpinAnalyzer.RotationCandidate),
          SpinAnalyzer.output_candidates images !! k = Some c'
          /\ SpinAnalyzer.rotation_of c' = SpinAnalyzer.rotation_of c)
    /\ Z.of_nat (length (SpinAnalyzer.output_candidates images))
       = (2 * ((SpinAnalyzer.anglex_rotation_degrees_increment
                  initialSearchSpace + 1) / 2) + 1)
         * 3
         * (2 * ((SpinAnalyzer.anglez_rotation_degrees_increment
                    initialSearchSpace + 1) / 2) + 1).
Proof.
  intros Hix Hiy Hiz (Hfx & Hfy & Hfz).
  unfold SpinAnalyzer.fine_search_space in *.
  cbn [SpinAnalyzer.anglex_rotation_degrees_start
       SpinAnalyzer.anglex_rotation_degrees_end
       SpinAnalyzer.anglex_rotation_degrees_increment
       SpinAnalyzer.angley_rotation_degrees_start
       SpinAnalyzer.angley_rotation_degrees_end
       SpinAnalyzer.angley_rotation_degrees_increment
       SpinAnalyzer.anglez_rotation_degrees_start
       SpinAnalyzer.anglez_rotation_degrees_end
       SpinAnalyzer.anglez_rotation_degrees_increment] in *.
  rewrite !Qceiling_half in *.
  rewrite std_round_half in * by lia.
  set (ix := SpinAnalyzer.anglex_rotation_degrees_increment
               initialSearchSpace) in *.
  set (iy := SpinAnalyzer.angley_rotation_degrees_increment
               initialSearchSpace) in *.
  set (iz := SpinAnalyzer.anglez_rotation_degrees_increment
               initialSearchSpace) in *.
  set (wx := (ix + 1) / 2) in *.
  set (wy := (iy + 1) / 2) in *.
  set (wz := (iz + 1) / 2) in *.
  assert (Hwx : 0 < wx) by (subst wx; Z.div_mod_to_equations; lia).
  assert (Hwy : 0 < wy) by (subst wy; Z.div_mod_to_equations; lia).
  assert (Hwz : 0 < wz) by (subst wz; Z.div_mod_to_equations; lia).
  set (cx := SpinAnalyzer.x_rotation_degrees c) in *.
  set (cy := SpinAnalyzer.y_rotation_degrees c) in *.
  set (cz := SpinAnalyzer.z_rotation_degrees c) in *.
  destruct (axis_values_spec fuel (cx - wx) (cx + wx) 1 Z.lt_0_1 Hfx)
    as (xs & Exs & Lxs & _).
  destruct (axis_values_spec fuel (cy - wy) (cy + wy) wy Hwy Hfy)
    as (ys & Eys & Lys & _).
  destruct (axis_values_spec fuel (cz - wz) (cz + wz) 1 Z.lt_0_1 Hfz)
    as (zs & Ezs & Lzs & _).
  destruct (ComputeCandidateAngleImages_shape fuel geom order
              base_dimple_image
              (SpinAnalyzer.mkSpace 1 (cx - wx) (cx + wx)
                                    wy (cy - wy) (cy + wy)
                                    1 (cz - wz) (cz + wz))
              xs ys zs Exs Eys Ezs)
    as (images & Himg & _ & Hcands).
  exists images. split; [exact Himg|].
  rewrite Hcands. split.
  - assert (Hx : xs !! Z.to_nat wx = Some cx).
    { rewrite (axis_values_reaches _ _ _ _ _ (Z.to_nat wx) Z.lt_0_1 Exs)
        by lia.
      f_equal. lia. }
    assert (Hy : ys !! 1%nat = Some cy).
    { rewrite (axis_values_reaches _ _ _ _ _ 1%nat Hwy Eys) by lia.
      f_equal. lia. }
    assert (Hz : zs !! Z.to_nat wz = Some cz).
    { rewrite (axis_values_reaches _ _ _ _ _ (Z.to_nat wz) Z.lt_0_1 Ezs)
        by lia.
      f_equal. lia. }
    assert (Hel : ((Z.to_nat wx, 1%nat, Z.to_nat wz), (cx, cy, cz))
                    ∈ SpinAnalyzer.rotation_grid xs ys zs)
      by (apply rotation_grid_elem; auto).
    apply list_elem_of_lookup_1 in Hel as [k Hk].
    exists k. eexists. rewrite list_lookup_imap, Hk. cbn.
    split; reflexivity.
  - rewrite length_imap, rotation_grid_length.
    rewrite !Nat2Z.inj_mul, Lxs, Lys, Lzs.
    destruct (Z.leb_spec (cx - wx) (cx + wx)); [|lia].
    destruct (Z.leb_spec (cy - wy) (cy + wy)); [|lia].
    destruct (Z.leb_spec (cz - wz) (cz + wz)); [|lia].
    rewrite !Z.div_1_r.
    replace (cy + wy - (cy - wy)) with (2 * wy) by lia.
    rewrite Z.div_mul by lia.
    lia.
Qed.

Lemma X15_fine_search_revisits_coarse_winner_witness :
  exists images,
    SpinAnalyzer.ComputeCandidateAngleImages 20
      (fun _ _ _ => SpinAnalyzer.mkGeom false 0 None) (fun _ => []) [[0]]
      (SpinAnalyzer.fine_search_space
         (SpinAnalyzer.mkSpace 6 (-42) 42 5 (-30) 30 6 (-50) 60)
         (SpinAnalyzer.mkCandidate 7 [] 12 (-5) 4 0 0 None))
    = Some images
    /\ Z.of_nat (length (SpinAnalyzer.output_candidates images)) = 147.
Proof.
  destruct (X15_fine_search_revisits_coarse_winner 20
              (fun _ _ _ => SpinAnalyzer.mkGeom false 0 None) (fun _ => [])
              [[0]] (SpinAnalyzer.mkSpace 6 (-42) 42 5 (-30) 30 6 (-50) 60)
              (SpinAnalyzer.mkCandidate 7 [] 12 (-5) 4 0 0 None))
    as (images & E & _ & Hlen).
  - cbn; lia.
  - cbn; lia.
  - cbn; lia.
  - unfold SpinSpec.enough_fuel. vm_compute. repeat split; reflexivity.
  - exists images. split; [exact E|]. rewrite Hlen. reflexivity.
Defined.

(** * The two search passes of [GetBallRotation] (claim C3) *)

Section ImageShapes.
Import SpinAnalyzer SpinSpec.

Lemma set_px_shape {A : Type} (img : list (list A)) (x y : nat) (v : A) :
  map length (set_px img x y v) = map length img.
Proof.
  unfold set_px. destruct (img !! x) as [row|] eqn:Hrow; [|reflexivity].
  apply list_eq. intros i. rewrite !list_lookup_fmap.
  destruct (decide (i = x)) as [->|Hne].
  - rewrite list_lookup_insert_eq by (eapply lookup_lt_Some; exact Hrow).
    rewrite Hrow. cbn. rewrite length_insert. reflexivity.
  - rewrite list_lookup_insert_ne by congruence. reflexivity.
Qed.

Lemma projectionOp_shape (geom : nat -> nat -> ProjGeom)
    (acc : list (list (Z * Z))) (pixel : Z) (x y : nat) :
  map length (projectionOp geom acc pixel x y) = map length acc.
Proof.
  unfold projectionOp.
  destruct (target (geom x y)) as [[[rX rY] z]|];
    destruct (prerotatedPointNotValid (geom x y));
    rewrite ?set_px_shape; reflexivity.
Qed.

Lemma Project_shape (geom : nat -> nat -> ProjGeom)
    (order : list (nat * nat)) (image_gray : list (list Z)) :
  map length (Project2dImageTo3dBall geom order image_gray)
  = map length image_gray.
Proof.
  unfold Project2dImageTo3dBall.
  set (init := map (map _) image_gray).
  assert (Hinit : map length init = map length image_gray).
  { subst init. rewrite map_map. apply map_ext. intros row.
    apply length_map. }
  clearbody init. revert init Hinit.
  induction order as [|pos order IH]; intros acc Hacc; cbn; [exact Hacc|].
  apply IH.
  destruct (px_at image_gray pos.1 pos.2) as [pixel|]; [|exact Hacc].
  rewrite projectionOp_shape. exact Hacc.
Qed.

Lemma square_rows_cols {A B : Type} (n : nat) (img : list (list A))
    (img' : list (list B)) :
  square_image n img -> map length img' = map length img ->
  image_rows img' = Z.of_nat n /\ image_cols img' = Z.of_nat n.
Proof.
  intros [Hrows Hcols] Hshape.
  assert (Hlen : length img' = length img).
  { rewrite <- (length_map length img'), Hshape. apply length_map. }
  unfold image_rows, image_cols. split; [congruence|].
  destruct img' as [|row' rest']; destruct img as [|row rest];
    try discriminate.
  - cbn in Hrows. subst n. reflexivity.
  - cbn in Hshape. injection Hshape as Hrow _.
    inversion Hcols as [|? ? Hr _]; subst. congruence.
Qed.

Lemma asserts_hold (n : nat) (img1 img2 : list (list Z))
    (geom : nat -> nat -> ProjGeom) (order : list (nat * nat)) :
  square_image n img1 -> square_image n img2 ->
  comparison_asserts img2 (Project2dImageTo3dBall geom order img1) = true.
Proof.
  intros H1 H2. unfold comparison_asserts.
  destruct (square_rows_cols n img2 img2 H2 eq_refl) as [R2 _].
  destruct (square_rows_cols n img1 _ H1 (Project_shape geom order img1))
    as [R1 C1].
  rewrite R1, R2, C1, !Z.eqb_refl. reflexivity.
Qed.

End ImageShapes.

Section SearchPass.
Import SpinAnalyzer SpinSpec.
Variables (geom : Z * Z * Z -> nat -> nat -> ProjGeom)
          (order : Z * Z * Z -> list (nat * nat))
          (image1 image2 : list (list Z)) (n : nat).
Hypothesis image1_square : square_image n image1.
Hypothesis image2_square : square_image n image2.

(** A pass over a well-formed space with at most 2^15 candidates: the
    candidates after the comparison, over the grid of the rotations. *)
Lemma search_pass_spec (fuel : nat) (s : RotationSearchSpace) :
  well_formed_space s -> enough_fuel s fuel -> fits_short s ->
  exists xs ys zs,
    axis_values fuel (anglex_rotation_degrees_start s)
      (anglex_rotation_degrees_end s)
      (anglex_rotation_degrees_increment s) = Some xs
    /\ axis_values fuel (angley_rotation_degrees_start s)
         (angley_rotation_degrees_end s)
         (angley_rotation_degrees_increment s) = Some ys
    /\ axis_values fuel (anglez_rotation_degrees_start s)
         (anglez_rotation_degrees_end s)
         (anglez_rotation_degrees_increment s) = Some zs
    /\ Z.of_nat (length (rotation_grid xs ys zs)) <= 32768
    /\ search_pass fuel geom order s image1 image2
       = Some (let cands :=
                 imap (fun k e =>
                         compared_candidate geom order image1 image2 k
                                            (snd e))
                      (rotation_grid xs ys zs) in
               (cands,
                snd (fold_left (best_step (max_pixels_examined cands))
                               cands ((-1)%Q, -1)))).
Proof.
  intros Hwf Hfuel Hshort.
  destruct (axis_values_of_space fuel s Hwf Hfuel)
    as (xs & ys & zs & Exs & Eys & Ezs & Hlen).
  unfold fits_short in Hshort. rewrite <- Hlen in Hshort.
  exists xs, ys, zs. repeat split; try assumption.
  destruct (ComputeCandidateAngleImages_shape fuel geom order image1 s
              xs ys zs Exs Eys Ezs) as (images & Himg & _ & Hcands).
  unfold search_pass. rewrite Himg, Hcands.
  set (grid := rotation_grid xs ys zs) in *.
  assert (Hassert :
            forallb (fun c => comparison_asserts image2 (img c))
              (imap (fun vectorIndex e =>
                       mkCandidate
                         (CvUtils.short_cast (Z.of_nat vectorIndex))
                         (Project2dImageTo3dBall (geom (snd e))
                            (order (snd e)) image1)
                         (fst (fst (snd e))) (snd (fst (snd e)))
                         (snd (snd e)) 0 0 (Some 0%Q)) grid) = true).
  { apply forallb_forall. intros c Hc.
    apply list_elem_of_In, elem_of_lookup_imap in Hc
      as (k & e & -> & _).
    cbn [img]. eapply asserts_hold; eassumption. }
  rewrite Hassert. unfold CompareCandidateAngleImages. cbv zeta.
  assert (Hmap :
            map (compare_candidate image2)
              (imap (fun vectorIndex e =>
                       mkCandidate
                         (CvUtils.short_cast (Z.of_nat vectorIndex))
                         (Project2dImageTo3dBall (geom (snd e))
                            (order (snd e)) image1)
                         (fst (fst (snd e))) (snd (fst (snd e)))
                         (snd (snd e)) 0 0 (Some 0%Q)) grid)
            = imap (fun k e =>
                      compared_candidate geom order image1 image2 k
                                         (snd e)) grid).
  { rewrite map_imap. apply imap_ext. intros k e Hk.
    apply lookup_lt_Some in Hk.
    unfold compared_candidate. rewrite short_cast_small by lia.
    reflexivity. }
  rewrite Hmap. reflexivity.
Qed.

(** The largest number of pixels examined is attained. *)
Lemma max_pixels_fold (l : list RotationCandidate) :
  forall m0 : Z,
    let r := fold_left (fun maxPixelsExamined c =>
                          if pixels_examined c >? maxPixelsExamined
                          then pixels_examined c else maxPixelsExamined)
                       l m0 in
    m0 <= r
    /\ (forall c, c ∈ l -> pixels_examined c <= r)
    /\ (r = m0 \/ exists c, c ∈ l /\ pixels_examined c = r).
Proof.
  induction l as [|c l IH]; intros m0; cbv zeta; cbn [fold_left].
  - split; [lia|]. split; [|left; reflexivity].
    intros c Hc. inversion Hc.
  - destruct (IH (if pixels_examined c >? m0 then pixels_examined c
                  else m0)) as (Hm & Hall & Hsrc).
    cbv zeta in *.
    set (r := fold_left _ l _) in *.
    destruct (Z.gtb_spec (pixels_examined c) m0) as [Hgt|Hle].
    + split; [lia|]. split.
      * intros c' Hc'. apply elem_of_cons in Hc' as [->|Hc'];
          [lia|apply Hall; exact Hc'].
      * right. destruct Hsrc as [E|(c' & Hc' & E)].
        -- exists c. split; [left|congruence].
        -- exists c'. split; [right; exact Hc'|exact E].
    + split; [lia|]. split.
      * intros c' Hc'. apply elem_of_cons in Hc' as [->|Hc'];
          [lia|apply Hall; exact Hc'].
      * destruct Hsrc as [E|(c' & Hc' & E)]; [left; exact E|].
        right. exists c'. split; [right; exact Hc'|exact E].
Qed.

(** What the comparison stores for a rotation. *)
Lemma compared_candidate_fields (k : nat) (r : Z * Z * Z) :
  let c := compared_candidate geom order image1 image2 k r in
  index c = Z.of_nat k
  /\ rotation_of c = r
  /\ pixels_examined c
     = snd (CompareRotationImage image2
              (Project2dImageTo3dBall (geom r) (order r) image1))
  /\ 0 <= pixels_matching c <= pixels_examined c
  /\ score c
     = (if pixels_examined c =? 0 then None
        else Some (inject_Z (pixels_matching c)
                   / inject_Z (pixels_examined c))%Q).
Proof.
  cbv zeta. unfold compared_candidate, compare_candidate, rotation_of.
  cbn [index x_rotation_degrees y_rotation_degrees z_rotation_degrees
       pixels_examined pixels_matching score img].
  destruct (CompareRotationImage_bounds image2
              (Project2dImageTo3dBall (geom r) (order r) image1))
    as (H0 & H1 & _).
  destruct r as [[x y] z]. repeat split; try assumption.
Qed.

(** A candidate that examined as many pixels as any other, and at least
    one, has a penalised score of at least 0. *)
Lemma full_count_score (maxPixelsExamined : Z) (k : nat) (r : Z * Z * Z) :
  let c := compared_candidate geom order image1 image2 k r in
  pixels_examined c = maxPixelsExamined -> 0 < maxPixelsExamined ->
  exists f, final_scaled_score maxPixelsExamined c = Some f /\ (0 <= f)%Q.
Proof.
  cbv zeta. intros Hmax Hpos.
  destruct (compared_candidate_fields k r) as (_ & _ & _ & Hm & Hs).
  cbv zeta in Hm, Hs.
  set (c := compared_candidate geom order image1 image2 k r) in *.
  unfold final_scaled_score. rewrite Hs.
  destruct (Z.eqb_spec (pixels_examined c) 0) as [E|_]; [lia|].
  eexists. split; [reflexivity|].
  rewrite Hmax.
  assert (Hs0 : (0 <= inject_Z (pixels_matching c)
                      / inject_Z maxPixelsExamined)%Q).
  { apply Qle_shift_div_l.
    - change 0%Q with (inject_Z 0). rewrite <- Zlt_Qlt. exact Hpos.
    - rewrite Qmult_0_l. change 0%Q with (inject_Z 0).
      rewrite <- Zle_Qle. lia. }
  set (s := (inject_Z (pixels_matching c) / inject_Z maxPixelsExamined)%Q)
    in *.
  assert (E : (((inject_Z maxPixelsExamined - inject_Z maxPixelsExamined)
                / 500) ^ 2 / 1000 == 0)%Q).
  { assert (E0 : (inject_Z maxPixelsExamined - inject_Z maxPixelsExamined
                  == 0)%Q) by ring.
    rewrite E0. reflexivity. }
  rewrite E. lra.
Qed.

(** The winner of a pass, when there is one, is the candidate at the
    returned position; and there is a winner as soon as one candidate
    examined a pixel. *)
Lemma pass_winner (grid : list ((nat * nat * nat) * (Z * Z * Z))) :
  let cands :=
    imap (fun k e =>
            compared_candidate geom order image1 image2 k (snd e)) grid in
  let best :=
    snd (fold_left (best_step (max_pixels_examined cands)) cands
                   ((-1)%Q, -1)) in
  (best = -1
   /\ forall c, c ∈ cands -> pixels_examined c = 0)
  \/ (exists c f,
        0 <= best /\ cands !! Z.to_nat best = Some c
        /\ final_scaled_score (max_pixels_examined cands) c = Some f
        /\ (-1 < f)%Q).
Proof.
  cbv zeta.
  set (cands := imap _ grid).
  set (maxPixelsExamined := max_pixels_examined cands).
  assert (Hfields : forall c, c ∈ cands ->
            exists k e, grid !! k = Some e
              /\ c = compared_candidate geom order image1 image2 k (snd e)).
  { intros c Hc. subst cands.
    apply elem_of_lookup_imap in Hc as (k & e & -> & Hk). eauto. }
  destruct (best_fold maxPixelsExamined cands (-1)%Q (-1))
    as (_ & Hall & Hsrc).
  cbv zeta in Hall, Hsrc.
  destruct Hsrc as [E | (c & Hc & Hf & Hi & Hlt)].
  - left. rewrite E in *. cbn [fst snd] in *. split; [reflexivity|].
    (* no candidate has examined a pixel: otherwise the fullest one
       would have scored *)
    destruct (max_pixels_fold cands (-1)) as (_ & Hle & Hatt).
    cbv zeta in Hle, Hatt.
    fold (max_pixels_examined cands) in Hle, Hatt.
    fold maxPixelsExamined in Hle, Hatt.
    intros c Hc.
    destruct (Hfields c Hc) as (k & e & _ & ->).
    destruct (compared_candidate_fields k (snd e)) as (_ & _ & _ & Hm & _).
    cbv zeta in Hm.
    destruct (Z.eq_dec (pixels_examined
                          (compared_candidate geom order image1 image2 k
                                              (snd e))) 0)
      as [Hz|Hnz]; [exact Hz|].
    exfalso.
    pose proof (Hle _ Hc) as Hck.
    destruct Hatt as [Hm1 | (m & Hmin & Hmax)]; [lia|].
    destruct (Hfields m Hmin) as (k' & e' & _ & ->).
    destruct (full_count_score maxPixelsExamined k' (snd e') Hmax
                ltac:(lia)) as (f & Hf & Hf0).
    pose proof (Hall _ f Hmin Hf) as Hbad. lra.
  - right. exists c. eexists.
    destruct (Hfields c Hc) as (k & e & Hk & ->).
    destruct (compared_candidate_fields k (snd e)) as (Hidx & _).
    cbv zeta in Hidx. rewrite <- Hi, Hidx.
    split; [lia|]. rewrite Nat2Z.id.
    split; [subst cands; rewrite list_lookup_imap, Hk; reflexivity|].
    split; [exact Hf|exact Hlt].
Qed.

End SearchPass.

Section FineSpace.
Import SpinAnalyzer SpinSpec.

(** The fine space around a candidate of a space with positive increments
    is well formed, and its grid holds the candidate's own rotation. *)
Lemma fine_space_revisits (fuel : nat) (s : RotationSearchSpace)
    (c : RotationCandidate) :
  0 < anglex_rotation_degrees_increment s ->
  0 < angley_rotation_degrees_increment s ->
  0 < anglez_rotation_degrees_increment s ->
  well_formed_space (fine_search_space s c)
  /\ forall xs ys zs,
       axis_values fuel
         (anglex_rotation_degrees_start (fine_search_space s c))
         (anglex_rotation_degrees_end (fine_search_space s c))
         (anglex_rotation_degrees_increment (fine_search_space s c))
       = Some xs ->
       axis_values fuel
         (angley_rotation_degrees_start (fine_search_space s c))
         (angley_rotation_degrees_end (fine_search_space s c))
         (angley_rotation_degrees_increment (fine_search_space s c))
       = Some ys ->
       axis_values fuel
         (anglez_rotation_degrees_start (fine_search_space s c))
         (anglez_rotation_degrees_end (fine_search_space s c))
         (anglez_rotation_degrees_increment (fine_search_space s c))
       = Some zs ->
       exists k pos,
         rotation_grid xs ys zs !! k = Some (pos, rotation_of c).
Proof.
  intros Hix Hiy Hiz.
  unfold fine_search_space, well_formed_space.
  cbn [anglex_rotation_degrees_start anglex_rotation_degrees_end
       anglex_rotation_degrees_increment
       angley_rotation_degrees_start angley_rotation_degrees_end
       angley_rotation_degrees_increment
       anglez_rotation_degrees_start anglez_rotation_degrees_end
       anglez_rotation_degrees_increment].
  rewrite !Qceiling_half.
  rewrite std_round_half by lia.
  set (wx := (anglex_rotation_degrees_increment s + 1) / 2).
  set (wy := (angley_rotation_degrees_increment s + 1) / 2).
  set (wz := (anglez_rotation_degrees_increment s + 1) / 2).
  assert (Hwx : 0 < wx) by (subst wx; Z.div_mod_to_equations; lia).
  assert (Hwy : 0 < wy) by (subst wy; Z.div_mod_to_equations; lia).
  assert (Hwz : 0 < wz) by (subst wz; Z.div_mod_to_equations; lia).
  split; [lia|].
  intros xs ys zs Exs Eys Ezs.
  assert (Hx : xs !! Z.to_nat wx = Some (x_rotation_degrees c)).
  { rewrite (axis_values_reaches _ _ _ _ _ (Z.to_nat wx) Z.lt_0_1 Exs)
      by lia.
    f_equal. lia. }
  assert (Hy : ys !! 1%nat = Some (y_rotation_degrees c)).
  { rewrite (axis_values_reaches _ _ _ _ _ 1%nat Hwy Eys) by lia.
    f_equal. lia. }
  assert (Hz : zs !! Z.to_nat wz = Some (z_rotation_degrees c)).
  { rewrite (axis_values_reaches _ _ _ _ _ (Z.to_nat wz) Z.lt_0_1 Ezs)
      by lia.
    f_equal. lia. }
  assert (Hel : ((Z.to_nat wx, 1%nat, Z.to_nat wz), rotation_of c)
                  ∈ rotation_grid xs ys zs)
    by (apply rotation_grid_elem; auto).
  apply list_elem_of_lookup_1 in Hel as [k Hk].
  exists k. eexists. exact Hk.
Qed.

End FineSpace.



(** * Brightness statistics of the ball image *)

Section Histogram.
Import SpinAnalyzer SpinImage SpinImageSpec.

Lemma calcHist_bin (img : list (list Z)) (i : nat) :
  (i < 256)%nat ->
  default 0 (calcHist img !! i)
  = Z.of_nat (length (filter (fun p => p = Z.of_nat i) (concat img))).
Proof.
  intros Hi. unfold calcHist.
  rewrite list_lookup_fmap, lookup_seq_lt by exact Hi. reflexivity.
Qed.

Lemma count_at_least_split (pixels : list Z) (c : Z) :
  Z.of_nat (length (filter (fun p => c <= p) pixels))
  = Z.of_nat (length (filter (fun p => p = c) pixels))
    + Z.of_nat (length (filter (fun p => c + 1 <= p) pixels)).
Proof.
  induction pixels as [|p pixels IH]; [reflexivity|].
  rewrite !filter_cons.
  destruct (decide (c <= p)), (decide (p = c)), (decide (c + 1 <= p));
    cbn [length]; lia.
Qed.

Lemma count_none_above (pixels : list Z) (c : Z) :
  Forall (fun p => p < c) pixels ->
  length (filter (fun p => c <= p) pixels) = O.
Proof.
  induction 1 as [|p pixels Hp _ IH]; [reflexivity|].
  rewrite filter_cons, decide_False by lia. exact IH.
Qed.

Lemma count_all_above (pixels : list Z) (c : Z) :
  Forall (fun p => c <= p) pixels ->
  length (filter (fun p => c <= p) pixels) = length pixels.
Proof.
  induction 1 as [|p pixels Hp _ IH]; [reflexivity|].
  rewrite filter_cons, decide_True by lia. cbn. rewrite IH. reflexivity.
Qed.

Lemma count_positive_elem (pixels : list Z) (P : Z -> Prop)
    `{!forall p, Decision (P p)} :
  (0 < length (filter P pixels))%nat -> exists p, p ∈ pixels /\ P p.
Proof.
  intros Hlen.
  destruct (filter P pixels) as [|p l] eqn:E; [cbn in Hlen; lia|].
  assert (Hin : p ∈ filter P pixels) by (rewrite E; left).
  apply list_elem_of_filter in Hin. exists p. tauto.
Qed.

Lemma brightness_scan_spec (img : list (list Z)) (targetPoints : Q) :
  forall (k : nat) (accum highest : Z),
    (k <= 256)%nat ->
    accum = count_at_least img (Z.of_nat k) ->
    (k < 256 -> (inject_Z accum < targetPoints)%Q)%nat ->
    brightest_from (concat img) (Z.of_nat k) highest ->
    let r := brightness_scan (calcHist img) targetPoints k accum highest in
    0 <= fst r <= 255
    /\ brightest_from (concat img) (fst r) (snd r)
    /\ ((targetPoints <= inject_Z (count_at_least img (fst r)))%Q
        /\ (fst r < 255 ->
            (inject_Z (count_at_least img (fst r + 1)) < targetPoints)%Q)
        \/ (fst r = 0
            /\ (inject_Z (count_at_least img 0) < targetPoints)%Q)).
Proof.
  induction k as [|i IH]; intros accum highest Hk Hacc Hlt Hbr; cbv zeta.
  - change (Z.of_nat 0) with 0 in *. cbn [brightness_scan fst snd].
    split; [lia|]. split; [exact Hbr|]. right.
    split; [reflexivity|]. rewrite <- Hacc. apply Hlt. lia.
  - cbn [brightness_scan].
    rewrite calcHist_bin by lia.
    set (n := Z.of_nat (length (filter (fun p => p = Z.of_nat i)
                                       (concat img)))).
    assert (Hsplit : count_at_least img (Z.of_nat i) = n + accum).
    { unfold count_at_least. rewrite count_at_least_split.
      subst n accum. unfold count_at_least.
      replace (Z.of_nat i + 1) with (Z.of_nat (S i)) by lia. reflexivity. }
    replace (accum + n) with (count_at_least img (Z.of_nat i)) by lia.
    set (highest' := if (highest <? 0) && (n >? 0)
                     then Z.of_nat i else highest).
    assert (Hbr' : brightest_from (concat img) (Z.of_nat i) highest').
    { subst highest'.
      destruct Hbr as [[-> Hall] | (Hle & Hin & Hall)].
      - cbn [Z.ltb Z.compare andb].
        destruct (Z.gtb_spec n 0) as [Hn|Hn].
        + right. split; [lia|].
          destruct (count_positive_elem (concat img)
                      (fun p => p = Z.of_nat i) ltac:(subst n; lia))
            as (p & Hp & ->).
          split; [exact Hp|].
          eapply Forall_impl; [exact Hall|]. cbn. intros; lia.
        + left. split; [reflexivity|].
          rewrite Forall_forall in Hall |- *. intros p Hp.
          specialize (Hall p Hp).
          destruct (Z.eq_dec p (Z.of_nat i)) as [->|Hne]; [|lia].
          exfalso.
          assert (Hpos : (0 < length (filter (fun q => q = Z.of_nat i)
                                             (concat img)))%nat).
          { destruct (filter (fun q => q = Z.of_nat i) (concat img))
              as [|a l] eqn:E; [|cbn; lia].
            assert (Hin : Z.of_nat i ∈ filter (fun q => q = Z.of_nat i)
                                              (concat img))
              by (apply list_elem_of_filter; split; [reflexivity|exact Hp]).
            rewrite E in Hin. inversion Hin. }
          subst n. lia.
      - destruct (Z.ltb_spec highest 0); [lia|]. cbn [andb].
        right. split; [lia|]. split; assumption. }
    destruct (Qle_bool targetPoints
                (inject_Z (count_at_least img (Z.of_nat i)))) eqn:Hfound.
    + cbn [fst snd]. split; [lia|]. split; [exact Hbr'|]. left.
      split; [apply Qle_bool_iff; exact Hfound|].
      intros Hi.
      replace (Z.of_nat i + 1) with (Z.of_nat (S i)) by lia.
      rewrite <- Hacc. apply Hlt. lia.
    + apply (IH _ highest'); [lia|reflexivity| |exact Hbr'].
      intros _. apply Qle_bool_false. exact Hfound.
Qed.

Lemma gray_image_total (img : list (list Z)) :
  gray_image img ->
  image_rows img * image_cols img = Z.of_nat (length (concat img))
  /\ Forall (fun p => 0 <= p <= 255) (concat img).
Proof.
  intros [Hrect Hpix]. split.
  - clear Hpix. unfold image_rows.
    generalize dependent (image_cols img). intros w Hrect.
    induction Hrect as [|row rest Hrow _ IH]; [reflexivity|].
    cbn [concat length]. rewrite length_app. lia.
  - clear Hrect. induction Hpix as [|row rest Hrow _ IH]; [constructor|].
    cbn. apply Forall_app. split; assumption.
Qed.

Lemma scan_of_gray_image (img : list (list Z)) (pct : Z) :
  gray_image img ->
  let r := GetImageCharacteristics img pct in
  0 <= fst r <= 255
  /\ brightest_from (concat img) (fst r) (snd r)
  /\ ((target_points img pct <= inject_Z (count_at_least img (fst r)))%Q
      /\ (fst r < 255 ->
          (inject_Z (count_at_least img (fst r + 1))
           < target_points img pct)%Q)
      \/ (fst r = 0
          /\ (inject_Z (count_at_least img 0) < target_points img pct)%Q)).
Proof.
  intros Hgray. destruct (gray_image_total img Hgray) as [_ Hpix].
  unfold GetImageCharacteristics. cbv zeta.
  apply (brightness_scan_spec img (target_points img pct) 256 0 (-1)).
  - lia.
  - unfold count_at_least. rewrite count_none_above; [reflexivity|].
    eapply Forall_impl; [exact Hpix|]. cbn. intros; lia.
  - lia.
  - left. split; [reflexivity|].
    eapply Forall_impl; [exact Hpix|]. cbn. intros; lia.
Qed.

Lemma target_at_most_total (img : list (list Z)) (pct : Z) :
  gray_image img -> 0 <= pct ->
  (target_points img pct <= inject_Z (count_at_least img 0))%Q.
Proof.
  intros Hgray Hpct. destruct (gray_image_total img Hgray) as [Htot Hpix].
  unfold target_points, count_at_least.
  rewrite count_all_above
    by (eapply Forall_impl; [exact Hpix|]; cbn; intros; lia).
  rewrite Htot.
  set (t := Z.of_nat (length (concat img))).
  apply Qle_shift_div_r; [reflexivity|].
  change 100%Q with (inject_Z 100).
  rewrite <- !inject_Z_mult. rewrite <- Zle_Qle. nia.
Qed.

End Histogram.

(** X16.  For an 8-bit image and a brightness percentage of at least 0,
    the cut-off that [GetImageCharacteristics] reports lies between 0 and
    255 and is the brightest value that still has the wanted share of
    the pixels at or above it: at least (100 - percentage) percent of the
    pixels are as bright as the cut-off, and, unless the cut-off is 255,
    fewer are brighter than it. *)
Theorem X16_brightness_cutoff_is_the_percentile (img : list (list Z))
    (brightness_percentage : Z) :
  SpinImageSpec.gray_image img ->
  0 <= brightness_percentage ->
  let cutoff :=
    fst (SpinImage.GetImageCharacteristics img brightness_percentage) in
  0 <= cutoff <= 255
  /\ (SpinImageSpec.target_points img brightness_percentage
      <= inject_Z (SpinImageSpec.count_at_least img cutoff))%Q
  /\ (cutoff < 255 ->
      (inject_Z (SpinImageSpec.count_at_least img (cutoff + 1))
       < SpinImageSpec.target_points img brightness_percentage)%Q).
Proof.
  intros Hgray Hpct. cbv zeta.
  destruct (scan_of_gray_image img brightness_percentage Hgray)
    as (Hrange & _ & [[Hge Hlt] | [_ Hnone]]).
  - split; [exact Hrange|]. split; assumption.
  - exfalso.
    exact (Qlt_not_le _ _ Hnone
             (target_at_most_total img brightness_percentage Hgray Hpct)).
Qed.

Lemma X16_brightness_cutoff_is_the_percentile_witness :
  0 <= fst (SpinImage.GetImageCharacteristics SpinImageSpec.four_pixels 50)
    <= 255
  /\ (SpinImageSpec.target_points SpinImageSpec.four_pixels 50
      <= inject_Z
           (SpinImageSpec.count_at_least SpinImageSpec.four_pixels
              (fst (SpinImage.GetImageCharacteristics
                      SpinImageSpec.four_pixels 50))))%Q
  /\ (fst (SpinImage.GetImageCharacteristics SpinImageSpec.four_pixels 50) < 255
      -> (inject_Z
            (SpinImageSpec.count_at_least SpinImageSpec.four_pixels
               (fst (SpinImage.GetImageCharacteristics
                       SpinImageSpec.four_pixels 50) + 1))
          < SpinImageSpec.target_points SpinImageSpec.four_pixels 50)%Q).
Proof.
  apply (X16_brightness_cutoff_is_the_percentile SpinImageSpec.four_pixels 50).
  - split; repeat constructor; cbn; lia.
  - lia.
Defined.

(** X17.  For a non-empty 8-bit image and a brightness percentage from 0
    to 99, the [highest_brightness] that [GetImageCharacteristics] reports
    is the brightest pixel value of the image. *)
Theorem X17_highest_brightness_is_the_maximum (img : list (list Z))
    (brightness_percentage : Z) :
  SpinImageSpec.gray_image img ->
  0 <= brightness_percentage < 100 ->
  concat img <> [] ->
  let highest :=
    snd (SpinImage.GetImageCharacteristics img brightness_percentage) in
  highest ∈ concat img
  /\ Forall (fun p => p <= highest) (concat img).
Proof.
  intros Hgray Hpct Hne. cbv zeta.
  destruct (scan_of_gray_image img brightness_percentage Hgray)
    as (Hrange & Hbr & Hfound).
  destruct Hbr as [[_ Hall] | (_ & Hin & Hall)]; [|split; assumption].
  exfalso.
  destruct (gray_image_total img Hgray) as [Htot _].
  assert (Hpos : (0 < SpinImageSpec.target_points img brightness_percentage)%Q).
  { unfold SpinImageSpec.target_points. rewrite Htot.
    apply Qlt_shift_div_l; [reflexivity|]. rewrite Qmult_0_l.
    rewrite <- inject_Z_mult. change 0%Q with (inject_Z 0).
    rewrite <- Zlt_Qlt.
    destruct (concat img); [contradiction|]. cbn [length]. nia. }
  assert (Hzero : SpinImageSpec.count_at_least img
                    (fst (SpinImage.GetImageCharacteristics img
                            brightness_percentage)) = 0).
  { unfold SpinImageSpec.count_at_least.
    rewrite count_none_above by exact Hall. reflexivity. }
  destruct Hfound as [[Hge _] | [Hz Hnone]].
  - rewrite Hzero in Hge. exact (Qlt_not_le _ _ Hpos Hge).
  - rewrite Hz in Hzero.
    pose proof (target_at_most_total img brightness_percentage Hgray
                  ltac:(lia)) as Hle.
    exact (Qlt_not_le _ _ Hnone Hle).
Qed.

Lemma X17_highest_brightness_is_the_maximum_witness :
  snd (SpinImage.GetImageCharacteristics SpinImageSpec.four_pixels 99)
    ∈ concat SpinImageSpec.four_pixels
  /\ Forall (fun p => p <= snd (SpinImage.GetImageCharacteristics
                                  SpinImageSpec.four_pixels 99))
            (concat SpinImageSpec.four_pixels).
Proof.
  apply (X17_highest_brightness_is_the_maximum SpinImageSpec.four_pixels 99).
  - split; repeat constructor; cbn; lia.
  - lia.
  - discriminate.
Defined.

(** * Calibration of the Gabor threshold *)

Section Calibration.
Import SpinAnalyzer SpinImage SpinImageSpec.
Variables (accumGray : list (list Z)) (kMin kMax : Z).

Lemma gabor_calibration_spec (down : bool) (fuel : nat) :
  forall (thr : Q) (wp : Z) (img : list (list Z)),
    (2 <= thr)%Q -> (thr <= 30)%Q ->
    (if down then (2 * (thr - 2) < inject_Z (Z.of_nat fuel))%Q
     else (2 * (30 - thr) < inject_Z (Z.of_nat fuel))%Q) ->
    img = fst (ApplyTestGaborFilter accumGray thr) ->
    wp = snd (ApplyTestGaborFilter accumGray thr) ->
    exists t,
      gabor_calibration fuel accumGray kMin kMax down thr wp img
      = Some (fst (ApplyTestGaborFilter accumGray t), t,
              snd (ApplyTestGaborFilter accumGray t))
      /\ (1 <= t)%Q /\ (t <= 31)%Q
      /\ (balanced kMin kMax (snd (ApplyTestGaborFilter accumGray t))
          \/ (t < 2)%Q \/ (30 < t)%Q)
      /\ (if down then (t <= thr)%Q else (thr <= t)%Q).
Proof.
  induction fuel as [|fuel IH]; intros thr wp img H2 H30 Hfuel Himg Hwp.
  - cbn [gabor_calibration].
    destruct ((wp <? kMin) || (wp >=? kMax)) eqn:Hout.
    + exfalso. change (inject_Z (Z.of_nat 0)) with 0%Q in Hfuel.
      destruct down; lra.
    + exists thr. subst img wp. split; [reflexivity|].
      apply orb_false_iff in Hout as [Ha Hb].
      apply Z.ltb_ge in Ha. rewrite Z.geb_leb in Hb. apply Z.leb_gt in Hb.
      split; [lra|]. split; [lra|].
      split; [left; split; assumption|]. destruct down; lra.
  - cbn [gabor_calibration].
    destruct ((wp <? kMin) || (wp >=? kMax)) eqn:Hout.
    + set (thr' := if down
                   then if kMin - wp >? 5 then (thr - 1)%Q
                        else (thr - (1 # 2))%Q
                   else if wp - kMax >? 5 then (thr + 1)%Q
                        else (thr + (1 # 2))%Q).
      assert (Hstep : if down
                      then ((thr' == thr - 1)%Q \/ (thr' == thr - (1 # 2))%Q)
                      else ((thr' == thr + 1)%Q \/ (thr' == thr + (1 # 2))%Q)).
      { subst thr'. destruct down.
        - destruct (kMin - wp >? 5); [left|right]; reflexivity.
        - destruct (wp - kMax >? 5); [left|right]; reflexivity. }
      rewrite Nat2Z.inj_succ in Hfuel. unfold Z.succ in Hfuel.
      rewrite inject_Z_plus in Hfuel.
      change (inject_Z 1) with 1%Q in Hfuel.
      destruct (negb (Qle_bool thr' 30) || negb (Qle_bool 2 thr'))
        eqn:Hbreak.
      * exists thr'. split; [reflexivity|].
        assert (Hlim : (30 < thr')%Q \/ (thr' < 2)%Q).
        { apply orb_true_iff in Hbreak as [H|H];
            apply negb_true_iff, Qle_bool_false in H; auto. }
        clearbody thr'.
        destruct down; destruct Hstep as [E|E], Hlim as [L|L];
          rewrite E in *; repeat split; try lra;
          solve [right; left; lra | right; right; lra].
      * apply orb_false_iff in Hbreak as [Ha Hb].
        apply negb_false_iff, Qle_bool_iff in Ha.
        apply negb_false_iff, Qle_bool_iff in Hb.
        destruct (IH thr' (snd (ApplyTestGaborFilter accumGray thr'))
                     (fst (ApplyTestGaborFilter accumGray thr'))
                     Hb Ha) as (t & Et & H1 & H31 & Hbal & Hdir);
          try reflexivity.
        { clearbody thr'. set (f := inject_Z (Z.of_nat fuel)) in *.
          clearbody f.
          destruct down; destruct Hstep as [E|E]; rewrite E; lra. }
        exists t. split; [exact Et|].
        split; [exact H1|]. split; [exact H31|]. split; [exact Hbal|].
        clearbody thr'.
        destruct down; destruct Hstep as [E|E]; rewrite E in Hdir; lra.
    + exists thr. subst img wp. split; [reflexivity|].
      apply orb_false_iff in Hout as [Ha Hb].
      apply Z.ltb_ge in Ha. rewrite Z.geb_leb in Hb. apply Z.leb_gt in Hb.
      split; [lra|]. split; [lra|].
      split; [left; split; assumption|]. destruct down; lra.
Qed.

(** What one call of [ApplyGaborFilterToBall] returns, by the sign of
    the prior threshold. *)
Lemma ApplyGaborFilterToBall_spec (fuel : nat) (cal prior : Q) :
  (39 <= fuel)%nat ->
  exists t thr,
    ApplyGaborFilterToBall fuel accumGray kMin kMax cal prior
    = Some (fst (ApplyTestGaborFilter accumGray t), thr)
    /\ ((0 < prior)%Q -> t = prior /\ thr = cal)
    /\ ((prior == 0)%Q -> t = kDefaultBinaryThreshold /\ thr = cal)
    /\ ((prior < 0)%Q ->
        (1 <= t)%Q /\ (t <= 31)%Q
        /\ (balanced kMin kMax (snd (ApplyTestGaborFilter accumGray t))
            \/ (t < 2)%Q \/ (30 < t)%Q)
        /\ ((t = kDefaultBinaryThreshold /\ thr = cal) \/ thr = t)).
Proof.
  intros Hfuel. unfold ApplyGaborFilterToBall. cbv zeta.
  destruct (Qle_bool prior 0) eqn:Hp0; cbn [negb].
  - apply Qle_bool_iff in Hp0.
    destruct (Qle_bool 0 prior) eqn:H0p; cbn [negb andb].
    + apply Qle_bool_iff in H0p.
      exists kDefaultBinaryThreshold, cal. split; [reflexivity|].
      split; [intros; lra|]. split; [auto|]. intros; lra.
    + apply Qle_bool_false in H0p.
      set (r0 := ApplyTestGaborFilter accumGray kDefaultBinaryThreshold).
      destruct ((snd r0 <? kMin) || (snd r0 >=? kMax)) eqn:Hout.
      * destruct (gabor_calibration_spec (snd r0 <? kMin) fuel
                    kDefaultBinaryThreshold (snd r0) (fst r0))
          as (t & Et & H1 & H31 & Hbal & _);
          try reflexivity; try (unfold kDefaultBinaryThreshold; lra).
        { assert (Hf : (inject_Z 39 <= inject_Z (Z.of_nat fuel))%Q)
            by (rewrite <- Zle_Qle; lia).
          change (inject_Z 39) with 39%Q in Hf.
          unfold kDefaultBinaryThreshold.
          destruct (snd r0 <? kMin); lra. }
        rewrite Et. exists t, t. split; [reflexivity|].
        split; [intros; lra|]. split; [intros; lra|].
        intros _. repeat split; try assumption. right. reflexivity.
      * exists kDefaultBinaryThreshold, cal. split; [reflexivity|].
        split; [intros; lra|]. split; [intros; lra|]. intros _.
        apply orb_false_iff in Hout as [Ha Hb].
        apply Z.ltb_ge in Ha. rewrite Z.geb_leb in Hb.
        apply Z.leb_gt in Hb.
        unfold kDefaultBinaryThreshold.
        split; [lra|]. split; [lra|].
        split; [left; split; assumption|]. left. split; reflexivity.
  - apply Qle_bool_false in Hp0.
    assert (H0p : Qle_bool 0 prior = true)
      by (apply Qle_bool_iff; lra).
    rewrite H0p. cbn [negb andb].
    exists prior, cal. split; [reflexivity|].
    split; [auto|]. split; [intros; lra|]. intros; lra.
Qed.

End Calibration.

(** X18.  The threshold calibration of [ApplyGaborFilterToBall] always
    ends, within 39 rounds of its loop: that is after at most 40 runs of
    the filter, the one before the loop and one in each round.  The image
    returned is the Gabor
    filter at one threshold t.  With a positive prior threshold t is that
    prior and nothing is calibrated; with a prior of 0 t is the default 11
    and nothing is calibrated; with a negative prior t lies between 1 and
    31, and either the white share at t lies in the wanted band or the
    search has run past the limits 2 and 30; the calibrated threshold is
    set to t when the search ran, and left alone otherwise. *)
Theorem X18_gabor_calibration_ends (fuel : nat) (accumGray : list (list Z))
    (kGaborMinWhitePercent kGaborMaxWhitePercent : Z)
    (calibrated_binary_threshold prior_binary_threshold : Q) :
  (39 <= fuel)%nat ->
  exists t thr,
    SpinImage.ApplyGaborFilterToBall fuel accumGray kGaborMinWhitePercent
      kGaborMaxWhitePercent calibrated_binary_threshold
      prior_binary_threshold
    = Some (fst (SpinAnalyzer.ApplyTestGaborFilter accumGray t), thr)
    /\ ((0 < prior_binary_threshold)%Q ->
        t = prior_binary_threshold /\ thr = calibrated_binary_threshold)
    /\ ((prior_binary_threshold == 0)%Q ->
        t = SpinImage.kDefaultBinaryThreshold
        /\ thr = calibrated_binary_threshold)
    /\ ((prior_binary_threshold < 0)%Q ->
        (1 <= t)%Q /\ (t <= 31)%Q
        /\ (SpinImageSpec.balanced kGaborMinWhitePercent
              kGaborMaxWhitePercent
              (snd (SpinAnalyzer.ApplyTestGaborFilter accumGray t))
            \/ (t < 2)%Q \/ (30 < t)%Q)
        /\ ((t = SpinImage.kDefaultBinaryThreshold
             /\ thr = calibrated_binary_threshold)
            \/ thr = t)).
Proof. apply ApplyGaborFilterToBall_spec. Qed.

Lemma X18_gabor_calibration_ends_witness :
  exists t thr,
    SpinImage.ApplyGaborFilterToBall 39 [[255; 255; 255; 255]] 38 44 0 (-1)
    = Some (fst (SpinAnalyzer.ApplyTestGaborFilter [[255; 255; 255; 255]] t),
            thr)
    /\ (1 <= t)%Q /\ (t <= 31)%Q.
Proof.
  destruct (X18_gabor_calibration_ends 39 [[255; 255; 255; 255]] 38 44 0
              (-1) ltac:(lia)) as (t & thr & E & _ & _ & Hneg).
  exists t, thr. split; [exact E|].
  destruct (Hneg ltac:(reflexivity)) as (H1 & H31 & _).
  split; assumption.
Defined.

(** X19.  In [GetBallRotation] the dimple images of the two balls are
    always computed with one and the same threshold: the second ball is
    filtered once, without any calibration of its own, at the threshold
    the first ball ended with (the default 11 when the first ball needed
    no calibration). *)
Theorem X19_both_balls_share_one_threshold (fuel : nat)
    (accumGray1 accumGray2 : list (list Z))
    (kGaborMinWhitePercent kGaborMaxWhitePercent : Z) :
  (39 <= fuel)%nat ->
  exists t,
    (1 <= t)%Q /\ (t <= 31)%Q
    /\ SpinImage.dimple_edges_of_both_balls fuel accumGray1 accumGray2
         kGaborMinWhitePercent kGaborMaxWhitePercent
       = Some (fst (SpinAnalyzer.ApplyTestGaborFilter accumGray1 t),
               fst (SpinAnalyzer.ApplyTestGaborFilter accumGray2 t)).
Proof.
  intros Hfuel. unfold SpinImage.dimple_edges_of_both_balls. cbv zeta.
  destruct (ApplyGaborFilterToBall_spec accumGray1 kGaborMinWhitePercent
              kGaborMaxWhitePercent fuel 0 (-1) Hfuel)
    as (t & thr & E1 & _ & _ & Hneg).
  destruct (Hneg ltac:(reflexivity)) as (H1 & H31 & _ & Hthr).
  rewrite E1. exists t. split; [exact H1|]. split; [exact H31|].
  destruct (ApplyGaborFilterToBall_spec accumGray2 kGaborMinWhitePercent
              kGaborMaxWhitePercent fuel thr thr Hfuel)
    as (t2 & thr2 & E2 & Hpos & Hzero & _).
  rewrite E2.
  destruct Hthr as [[-> ->] | ->].
  - destruct (Hzero ltac:(reflexivity)) as [-> _]. reflexivity.
  - destruct (Hpos ltac:(lra)) as [-> _]. reflexivity.
Qed.

Lemma X19_both_balls_share_one_threshold_witness :
  exists t,
    (1 <= t)%Q /\ (t <= 31)%Q
    /\ SpinImage.dimple_edges_of_both_balls 39 [[255; 255; 255; 255]]
         [[0; 100; 200; 255]] 38 44
       = Some (fst (SpinAnalyzer.ApplyTestGaborFilter
                      [[255; 255; 255; 255]] t),
               fst (SpinAnalyzer.ApplyTestGaborFilter
                      [[0; 100; 200; 255]] t)).
Proof.
  apply (X19_both_balls_share_one_threshold 39 [[255; 255; 255; 255]]
           [[0; 100; 200; 255]] 38 44).
  lia.
Defined.

(** * Regions of interest *)

(** X20.  The rectangle [IsolateBall] cuts out has sides 2 * r1.  When the
    image is wider and higher than that, the rectangle lies inside the
    image and keeps at least one column and one row free at the far
    edges; when the image is not wider (or not higher) than 2 * r1, the
    rectangle starts at a negative column (or row), outside the image. *)
Theorem X20_isolated_rectangle_fits (x1 y1 r1 img_cols img_rows : Z) :
  0 <= r1 ->
  let r := SpinImage.IsolateBall_rect x1 y1 r1 img_cols img_rows in
  BallImageProc.rwidth r = 2 * r1 /\ BallImageProc.rheight r = 2 * r1
  /\ (2 * r1 < img_cols ->
      0 <= BallImageProc.rx r
      /\ BallImageProc.rx r + BallImageProc.rwidth r < img_cols)
  /\ (2 * r1 < img_rows ->
      0 <= BallImageProc.ry r
      /\ BallImageProc.ry r + BallImageProc.rheight r < img_rows)
  /\ (img_cols <= 2 * r1 -> BallImageProc.rx r < 0)
  /\ (img_rows <= 2 * r1 -> BallImageProc.ry r < 0).
Proof.
  intros Hr. cbv zeta. unfold SpinImage.IsolateBall_rect.
  cbn [BallImageProc.rx BallImageProc.ry BallImageProc.rwidth
       BallImageProc.rheight].
  destruct (Z.geb_spec (Z.max 0 x1 + 2 * r1) img_cols);
    destruct (Z.geb_spec (Z.max 0 y1 + 2 * r1) img_rows);
    repeat split; intros; lia.
Qed.

Lemma X20_isolated_rectangle_fits_witness :
  BallImageProc.rwidth (SpinImage.IsolateBall_rect 600 10 30 640 480)
  = 2 * 30
  /\ BallImageProc.rheight (SpinImage.IsolateBall_rect 600 10 30 640 480)
     = 2 * 30
  /\ (2 * 30 < 640 ->
      0 <= BallImageProc.rx (SpinImage.IsolateBall_rect 600 10 30 640 480)
      /\ BallImageProc.rx (SpinImage.IsolateBall_rect 600 10 30 640 480)
         + BallImageProc.rwidth
             (SpinImage.IsolateBall_rect 600 10 30 640 480) < 640)
  /\ (2 * 30 < 480 ->
      0 <= BallImageProc.ry (SpinImage.IsolateBall_rect 600 10 30 640 480)
      /\ BallImageProc.ry (SpinImage.IsolateBall_rect 600 10 30 640 480)
         + BallImageProc.rheight
             (SpinImage.IsolateBall_rect 600 10 30 640 480) < 480)
  /\ (640 <= 2 * 30 ->
      BallImageProc.rx (SpinImage.IsolateBall_rect 600 10 30 640 480) < 0)
  /\ (480 <= 2 * 30 ->
      BallImageProc.ry (SpinImage.IsolateBall_rect 600 10 30 640 480) < 0).
Proof.
  apply (X20_isolated_rectangle_fits 600 10 30 640 480). lia.
Defined.

(** X21.  The area of interest in front of the ball always has a width
    and a height that are not negative.  For a ball whose truncated centre
    lies in the image and whose radius is not negative, the area lies
    inside the image, begins at the column of the ball's centre, is at
    most ten radii wide, and reaches from at most six radii above the
    centre to at most one and a half radii below it. *)
Theorem X21_area_of_interest_inside_image (ball : GolfBall)
    (img_cols img_rows : Z) :
  let r := ROIManager.GetAreaOfInterest ball img_cols img_rows in
  let x := CvUtils.int_cast (c0 (ball_circle_ ball)) in
  let y := CvUtils.int_cast (c1 (ball_circle_ ball)) in
  let radius := CvUtils.int_cast (c2 (ball_circle_ ball)) in
  0 <= BallImageProc.rwidth r /\ 0 <= BallImageProc.rheight r
  /\ (0 <= radius -> 0 <= x <= img_cols -> 0 <= y <= img_rows ->
      SpinImageSpec.inside_image r img_cols img_rows
      /\ BallImageProc.rx r = x
      /\ BallImageProc.rwidth r <= 10 * radius
      /\ y - 6 * radius <= BallImageProc.ry r <= y
      /\ BallImageProc.ry r + BallImageProc.rheight r
         <= y + (3 * radius) / 2).
Proof.
  cbv zeta. unfold ROIManager.GetAreaOfInterest, ROIManager.rect_of_points.
  cbn [fst snd BallImageProc.rx BallImageProc.ry BallImageProc.rwidth
       BallImageProc.rheight].
  set (x := CvUtils.int_cast (c0 (ball_circle_ ball))).
  set (y := CvUtils.int_cast (c1 (ball_circle_ ball))).
  set (radius := CvUtils.int_cast (c2 (ball_circle_ ball))).
  set (below := CvUtils.int_cast (inject_Z radius * (3 # 2))).
  split; [lia|]. split; [lia|].
  intros Hr Hx Hy.
  assert (Hbelow : below = (3 * radius) / 2).
  { subst below. unfold CvUtils.int_cast.
    assert (H0 : Qle_bool 0 (inject_Z radius * (3 # 2)) = true).
    { apply Qle_bool_iff. apply Qmult_le_0_compat; [|discriminate].
      change 0%Q with (inject_Z 0). rewrite <- Zle_Qle. exact Hr. }
    rewrite H0. unfold Qfloor, Qmult, inject_Z. cbn.
    f_equal. lia. }
  assert (0 <= below) by (rewrite Hbelow; apply Z.div_pos; lia).
  unfold SpinImageSpec.inside_image.
  cbn [BallImageProc.rx BallImageProc.ry BallImageProc.rwidth
       BallImageProc.rheight].
  rewrite <- Hbelow.
  repeat split; lia.
Qed.

Lemma X21_area_of_interest_inside_image_witness :
  ROIManager.GetAreaOfInterest
    (mkBall 0 (mkCircle (1005 # 10) 200 25) 0 (mkTriplet 0 0 0)
            (mkTriplet 0 0 0) (mkTriplet 0 0 0)) 640 480
  = BallImageProc.mkRect 100 50 250 187
  /\ SpinImageSpec.inside_image (BallImageProc.mkRect 100 50 250 187)
       640 480.
Proof.
  assert (E : ROIManager.GetAreaOfInterest
                (mkBall 0 (mkCircle (1005 # 10) 200 25) 0 (mkTriplet 0 0 0)
                        (mkTriplet 0 0 0) (mkTriplet 0 0 0)) 640 480
              = BallImageProc.mkRect 100 50 250 187)
    by (vm_compute; reflexivity).
  split; [exact E|]. rewrite <- E.
  apply (X21_area_of_interest_inside_image
           (mkBall 0 (mkCircle (1005 # 10) 200 25) 0 (mkTriplet 0 0 0)
                   (mkTriplet 0 0 0) (mkTriplet 0 0 0)) 640 480);
    vm_compute; repeat split; discriminate.
Defined.

(** * Hough detector: rounding, best circle, preprocessing *)

Section RoundedCircles.
Import CvUtils CircleOps HoughDetector HoughSpec HoughPipeline.

Lemma rounded_circle_fields (L : list GsCircle) (c : GsCircle) :
  c ∈ RoundCircleData L ->
  exists a b r, c = mkCircle (inject_Z a) (inject_Z b) (inject_Z r).
Proof.
  unfold RoundCircleData. intros Hc.
  apply list_elem_of_fmap in Hc as (c' & -> & _).
  eexists _, _, _. reflexivity.
Qed.

Lemma whole_circle_centre (a b r : Z) :
  CircleXY (mkCircle (inject_Z a) (inject_Z b) (inject_Z r)) = (a, b).
Proof.
  unfold CircleXY. cbn [c0 c1].
  rewrite (std_round_whole (inject_Z a) a), (std_round_whole (inject_Z b) b)
    by reflexivity.
  reflexivity.
Qed.

Lemma whole_circle_radius (a b r : Z) :
  rounded_radius (mkCircle (inject_Z a) (inject_Z b) (inject_Z r)) = r.
Proof.
  unfold rounded_radius. cbn [c2].
  apply std_round_whole. reflexivity.
Qed.

Lemma inject_Z_injective (a b : Z) : inject_Z a = inject_Z b -> a = b.
Proof. intros [= H]. exact H. Qed.

Lemma RoundCircleData_idempotent (L : list GsCircle) :
  RoundCircleData (RoundCircleData L) = RoundCircleData L.
Proof.
  unfold RoundCircleData. rewrite map_map. apply map_ext. intros c.
  cbn [c0 c1 c2].
  rewrite !(std_round_whole (inject_Z _) _ (Qeq_refl _)). reflexivity.
Qed.

End RoundedCircles.

Section BestCircle.
Import CvUtils HoughPipeline HoughPipelineSpec.

Lemma best_circle_loop_take (cs : list GsCircle) :
  forall (n : nat) (i : Z) (final_circle : GsCircle),
    i = 3 - Z.of_nat n -> (n <= 3)%nat ->
    best_circle_loop i cs final_circle
    = fold_left keep_larger (take n cs) final_circle.
Proof.
  induction cs as [|c rest IH]; intros n i fc Hi Hn.
  - rewrite take_nil. reflexivity.
  - cbn [best_circle_loop]. unfold kMaximumBestCirclesToEvaluate.
    destruct n as [|n].
    + replace (i + 1 >? 3) with true by (symmetry; apply Z.gtb_lt; lia).
      replace (i + 1 =? 1) with false by (symmetry; apply Z.eqb_neq; lia).
      reflexivity.
    + replace (i + 1 >? 3) with false
        by (symmetry; rewrite Z.gtb_ltb; apply Z.ltb_ge; lia).
      cbn [andb take fold_left].
      apply IH; lia.
Qed.

Lemma keep_larger_fold (l : list GsCircle) :
  forall fc : GsCircle,
    let r := fold_left keep_larger l fc in
    (r = fc /\ Forall (fun d => (c2 d <= c2 fc)%Q) l)
    \/ (exists k : nat,
          l !! k = Some r /\ (c2 fc < c2 r)%Q
          /\ (forall j d, (j < k)%nat -> l !! j = Some d
                          -> (c2 d < c2 r)%Q)
          /\ Forall (fun d => (c2 d <= c2 r)%Q) l).
Proof.
  induction l as [|c l IH]; intros fc; cbn zeta.
  - left. split; [reflexivity|constructor].
  - cbn [fold_left].
    destruct (Qle_bool (c2 c) (c2 fc)) eqn:Hle.
    + replace (keep_larger fc c) with fc
        by (unfold keep_larger; rewrite Hle; reflexivity).
      apply Qle_bool_iff in Hle.
      destruct (IH fc) as [[Hr Hall]|(k & Hk & Hlt & Hbefore & Hall)].
      * left. split; [exact Hr|]. constructor; assumption.
      * right. exists (S k). split; [exact Hk|]. split; [exact Hlt|].
        split.
        -- intros [|j] d Hj Hd.
           ++ injection Hd as <-. exact (Qle_lt_trans _ _ _ Hle Hlt).
           ++ apply (Hbefore j d); [lia|exact Hd].
        -- constructor; [|exact Hall].
           apply Qlt_le_weak. exact (Qle_lt_trans _ _ _ Hle Hlt).
    + replace (keep_larger fc c) with c
        by (unfold keep_larger; rewrite Hle; reflexivity).
      apply Qle_bool_false in Hle.
      destruct (IH c) as [[Hr Hall]|(k & Hk & Hlt & Hbefore & Hall)].
      * right. exists O. rewrite Hr. split; [reflexivity|].
        split; [exact Hle|]. split; [intros j d Hj; lia|].
        constructor; [apply Qle_refl|exact Hall].
      * right. exists (S k). split; [exact Hk|].
        split; [exact (Qlt_trans _ _ _ Hle Hlt)|]. split.
        -- intros [|j] d Hj Hd.
           ++ injection Hd as <-. exact Hlt.
           ++ apply (Hbefore j d); [lia|exact Hd].
        -- constructor; [apply Qlt_le_weak; exact Hlt|exact Hall].
Qed.

Lemma best_circle_loop_largest (first : GsCircle) (rest : list GsCircle) :
  largest_of_first_three (first :: rest)
    (best_circle_loop 0 (first :: rest) first).
Proof.
  rewrite (best_circle_loop_take (first :: rest) 3 0 first) by lia.
  set (cs := first :: rest).
  pose proof (keep_larger_fold (take 3 cs) first) as H. cbn zeta in H.
  set (r := fold_left keep_larger (take 3 cs) first) in *.
  assert (Hupto : forall j d, (j < 3)%nat -> cs !! j = Some d ->
                              take 3 cs !! j = Some d).
  { intros j d Hj Hd. rewrite lookup_take_lt by exact Hj. exact Hd. }
  destruct H as [[Hr Hall]|(k & Hk & Hlt & Hbefore & Hall)].
  - exists O. split; [lia|]. rewrite Hr. split; [reflexivity|]. split.
    + intros j d Hj Hd. rewrite Forall_forall in Hall.
      apply Hall. eapply list_elem_of_lookup_2. apply Hupto; eassumption.
    + intros j d Hj. lia.
  - assert (Hk3 : (k < 3)%nat).
    { apply lookup_lt_Some in Hk. rewrite length_take in Hk. lia. }
    exists k. split; [exact Hk3|]. split.
    + rewrite lookup_take_lt in Hk by exact Hk3. exact Hk.
    + split.
      * intros j d Hj Hd. rewrite Forall_forall in Hall.
        apply Hall. eapply list_elem_of_lookup_2. apply Hupto; eassumption.
      * intros j d Hj Hd. apply (Hbefore j d Hj).
        apply Hupto; [lia|exact Hd].
Qed.

End BestCircle.

Section Preprocessing.
Import CvUtils HoughSettings HoughPipeline HoughPipelineSpec.

Lemma force_odd_positive (n : Z) : (force_odd n >? 0) = (n >? 0).
Proof.
  unfold force_odd. rewrite !Z.gtb_ltb.
  destruct (Z.ltb_spec 0 n) as [Hn|Hn]; cbn [andb].
  - destruct (negb (Z.rem n 2 =? 1)); apply Z.ltb_lt; lia.
  - apply Z.ltb_ge. lia.
Qed.

Lemma force_odd_zero (n : Z) : (force_odd n =? 0) = (n =? 0).
Proof.
  unfold force_odd. rewrite Z.gtb_ltb.
  destruct (Z.ltb_spec 0 n) as [Hn|Hn]; cbn [andb]; [|reflexivity].
  destruct (negb (Z.rem n 2 =? 1)); [|reflexivity].
  transitivity false; [apply Z.eqb_neq|symmetry; apply Z.eqb_neq]; lia.
Qed.

Lemma force_odd_is_odd (n : Z) :
  0 < force_odd n -> Z.odd (force_odd n) = true.
Proof.
  intros Hpos.
  assert (Hn : 0 < n).
  { pose proof (force_odd_positive n) as H.
    rewrite (proj2 (Z.gtb_lt _ _) Hpos) in H.
    symmetry in H. apply Z.gtb_lt in H. exact H. }
  unfold force_odd.
  rewrite (proj2 (Z.gtb_lt _ _) Hn). cbn [andb].
  rewrite Z.rem_mod_nonneg by lia.
  destruct (Z.eqb_spec (n mod 2) 1) as [H1|H1]; cbn [negb].
  - apply Z.odd_spec. exists (n / 2). Z.div_mod_to_equations. lia.
  - apply Z.odd_spec. exists (n / 2). Z.div_mod_to_equations. lia.
Qed.

Lemma at_least_one (x : Z) : (if x <? 1 then 1 else x) = Z.max 1 x.
Proof. destruct (Z.ltb_spec x 1); lia. Qed.

End Preprocessing.

(** X22.  [RoundCircleData] leaves whole-numbered circles, which a second
    rounding does not change; on such circles
    [RemoveSmallestConcentricCircles] keeps, for every centre, exactly one
    circle, and that circle has the largest radius found at the centre. *)
Theorem X22_rounded_circles_dedup_exactly (L : list GsCircle) :
  let rounded := HoughPipeline.RoundCircleData L in
  let out := HoughDetector.RemoveSmallestConcentricCircles rounded in
  HoughPipeline.RoundCircleData rounded = rounded
  /\ out `sublist_of` rounded
  /\ (forall c, c ∈ rounded ->
        exists d, d ∈ out /\ c0 d = c0 c /\ c1 d = c1 c
                  /\ (c2 c <= c2 d)%Q)
  /\ (forall c d, c ∈ out -> d ∈ out ->
        c0 c = c0 d -> c1 c = c1 d -> c = d).
Proof.
  cbn zeta.
  split; [apply RoundCircleData_idempotent|].
  destruct (outer_loop_total (HoughPipeline.RoundCircleData L))
    as (out & _ & -> & Hsub & Hdom & Hnd).
  split; [exact Hsub|]. split.
  - intros c Hc.
    destruct (Hdom c Hc) as (d & Hd & Hxy & Hr).
    exists d. split; [exact Hd|].
    destruct (rounded_circle_fields L c Hc) as (a & b & r & ->).
    assert (Hd' : d ∈ HoughPipeline.RoundCircleData L)
      by (eapply elem_of_sublist; eassumption).
    destruct (rounded_circle_fields L d Hd') as (a' & b' & r' & ->).
    rewrite !whole_circle_centre in Hxy.
    rewrite !whole_circle_radius in Hr.
    injection Hxy as -> ->. cbn [c0 c1 c2].
    split; [reflexivity|]. split; [reflexivity|].
    rewrite <- Zle_Qle. exact Hr.
  - intros c d Hc Hd H0 H1.
    apply (same_centre_same_circle out c d Hnd Hc Hd).
    assert (Hc' : c ∈ HoughPipeline.RoundCircleData L)
      by (eapply elem_of_sublist; eassumption).
    assert (Hd' : d ∈ HoughPipeline.RoundCircleData L)
      by (eapply elem_of_sublist; eassumption).
    destruct (rounded_circle_fields L c Hc') as (a & b & r & ->).
    destruct (rounded_circle_fields L d Hd') as (a' & b' & r' & ->).
    rewrite !whole_circle_centre. cbn [c0 c1] in H0, H1.
    apply inject_Z_injective in H0, H1. congruence.
Qed.

(** X23.  [DetermineBestCircle] returns false and leaves [final_circle]
    alone when the targeted Hough transform finds nothing.  Otherwise it
    returns true with one of the found circles, moved by the offset of the
    region of interest: the first circle when the largest is not asked for,
    else the earliest circle of largest radius among the first three. *)
Theorem X23_best_circle_selection (first : GsCircle) (rest : list GsCircle)
    (offset_sub_to_full : Z * Z) (choose_largest_final_ball : bool)
    (final_circle : GsCircle) :
  HoughPipeline.DetermineBestCircle [] offset_sub_to_full
    choose_largest_final_ball final_circle = (false, final_circle)
  /\ exists chosen,
       HoughPipeline.DetermineBestCircle (first :: rest) offset_sub_to_full
         choose_largest_final_ball final_circle
       = (true,
          mkCircle
            (CvUtils.f32_round
               (c0 chosen + inject_Z (fst offset_sub_to_full)))
            (CvUtils.f32_round
               (c1 chosen + inject_Z (snd offset_sub_to_full)))
            (c2 chosen))
       /\ (if choose_largest_final_ball
           then HoughPipelineSpec.largest_of_first_three (first :: rest)
                  chosen
           else chosen = first).
Proof.
  split; [reflexivity|].
  unfold HoughPipeline.DetermineBestCircle.
  destruct choose_largest_final_ball; cbn [negb].
  - eexists. split; [reflexivity|]. apply best_circle_loop_largest.
  - exists first. split; reflexivity.
Qed.

(** X24.  For the two strobed modes, when the blur size before the Hough
    transform of the bundle of [GetParamsForMode] is positive, the
    preprocessing of the facade succeeds on a non-empty image and carries
    out exactly the operations that the bundle announces for the mode:
    CLAHE with clip limit and grid size raised to 1, the blur before Canny
    when its size is positive, Canny with the bundle's thresholds (a plain
    copy in externally strobed mode with blur size 0), and the blur before
    the Hough transform; both blur sizes are raised to the next odd number,
    and OpenCV accepts the arguments of every one of these operations.
    (With a blur size before the Hough transform of 0 or less the last
    blur raises an exception.) *)
Theorem X24_strobed_preprocessing_follows_params
    (cfg : HoughSettings.Settings) (mode : SearchStrategy.Mode) :
  mode = SearchStrategy.kStrobed \/ mode = SearchStrategy.kExternallyStrobed ->
  0 < SearchParams.pre_hough_blur_size (SearchParams.GetParamsForMode cfg mode) ->
  HoughPipeline.PreprocessForMode cfg false mode
  = (true,
     HoughPipelineSpec.announced (SearchParams.GetParamsForMode cfg mode)
       (SearchStrategy.mode_eqb mode SearchStrategy.kExternallyStrobed))
  /\ Forall HoughPipelineSpec.accepted
       (HoughPipelineSpec.announced (SearchParams.GetParamsForMode cfg mode)
          (SearchStrategy.mode_eqb mode
             SearchStrategy.kExternallyStrobed)).
Proof.
  intros Hmode Hblur. split.
  - clear Hblur. destruct Hmode as [-> | ->];
      unfold HoughPipeline.PreprocessForMode,
        HoughPipeline.PreProcessStrobedImage, HoughPipelineSpec.announced;
      cbn [SearchStrategy.mode_eqb SearchParams.GetParamsForMode
           SearchParams.use_clahe SearchParams.clahe_clip_limit
           SearchParams.clahe_tiles_grid_size
           SearchParams.pre_canny_blur_size
           SearchParams.pre_hough_blur_size SearchParams.canny_lower
           SearchParams.canny_upper andb].
    + destruct (HoughSettings.kStrobedBallsUseAltHoughAlgorithm cfg);
        rewrite force_odd_positive, !at_least_one; reflexivity.
    + rewrite force_odd_positive, force_odd_zero, !at_least_one. reflexivity.
  - assert (Hodd : forall k, 0 < k ->
              HoughPipelineSpec.accepted
                (HoughPipeline.GaussianBlur (HoughPipeline.force_odd k))).
    { intros k Hk.
      assert (Hpos : 0 < HoughPipeline.force_odd k).
      { unfold HoughPipeline.force_odd.
        destruct ((k >? 0) && negb (Z.rem k 2 =? 1)); lia. }
      split; [exact Hpos|apply force_odd_is_odd; exact Hpos]. }
    unfold HoughPipelineSpec.announced.
    repeat apply Forall_app_2.
    + destruct (SearchParams.use_clahe _); [|constructor].
      repeat constructor; cbn; lia.
    + destruct (Z.gtb_spec (SearchParams.pre_canny_blur_size
                              (SearchParams.GetParamsForMode cfg mode)) 0);
        [|constructor].
      constructor; [|constructor]. apply Hodd. lia.
    + match goal with
      | |- context [if ?b then _ else _] => destruct b
      end; repeat constructor.
    + constructor; [|constructor]. apply Hodd. exact Hblur.
Qed.

Lemma X24_strobed_preprocessing_follows_params_witness :
  HoughPipeline.PreprocessForMode HoughSettings.initial_settings false
    SearchStrategy.kStrobed
  = (true,
     [HoughPipeline.GaussianBlur 11; HoughPipeline.Canny 35 70;
      HoughPipeline.GaussianBlur 17])
  /\ Forall HoughPipelineSpec.accepted
       [HoughPipeline.GaussianBlur 11; HoughPipeline.Canny 35 70;
        HoughPipeline.GaussianBlur 17].
Proof.
  exact (X24_strobed_preprocessing_follows_params
           HoughSettings.initial_settings SearchStrategy.kStrobed
           (or_introl eq_refl) eq_refl).
Defined.

(** X25.  Whatever the configured values, [PreProcessStrobedImage] hands
    OpenCV a CLAHE clip limit and grid size of at least 1 and blur kernels
    of odd size whenever the size is positive; it returns false, having
    done nothing, for an empty image and for every mode that is not
    strobed. *)
Theorem X25_preprocessing_arguments_valid (cfg : HoughSettings.Settings)
    (search_image_empty : bool) (search_mode : SearchStrategy.Mode) :
  Forall HoughPipelineSpec.acceptable
    (snd (HoughPipeline.PreProcessStrobedImage cfg search_image_empty
            search_mode))
  /\ (fst (HoughPipeline.PreProcessStrobedImage cfg search_image_empty
             search_mode)
      = negb search_image_empty
        && (SearchStrategy.mode_eqb search_mode SearchStrategy.kStrobed
            || SearchStrategy.mode_eqb search_mode
                 SearchStrategy.kExternallyStrobed))
  /\ (if fst (HoughPipeline.PreProcessStrobedImage cfg search_image_empty
                search_mode)
      then True
      else snd (HoughPipeline.PreProcessStrobedImage cfg search_image_empty
                  search_mode) = []).
Proof.
  assert (Hstrobed : forall externally : bool,
    search_mode = (if externally then SearchStrategy.kExternallyStrobed
                   else SearchStrategy.kStrobed) ->
    Forall HoughPipelineSpec.acceptable
      (snd (HoughPipeline.PreProcessStrobedImage cfg false search_mode))).
  { intros externally ->.
    unfold HoughPipeline.PreProcessStrobedImage.
    assert (Hclahe : forall a b,
      HoughPipelineSpec.acceptable
        (HoughPipeline.CLAHE_apply (if a <? 1 then 1 else a)
                                   (if b <? 1 then 1 else b))).
    { intros a b. cbn. rewrite !at_least_one. lia. }
    assert (Hblur : forall n,
      HoughPipelineSpec.acceptable
        (HoughPipeline.GaussianBlur (HoughPipeline.force_odd n))).
    { intros n. cbn. apply force_odd_is_odd. }
    destruct externally; cbn [SearchStrategy.mode_eqb andb];
      repeat match goal with
             | |- context [if ?b then _ else _] =>
                 lazymatch b with
                 | (_ <? 1) => fail
                 | _ => destruct b
                 end
             end;
      cbn [snd app];
      repeat (first [apply Forall_nil_2 | apply Forall_cons_2]);
      first [apply Hclahe | apply Hblur | exact I]. }
  assert (Hflag : forall externally : bool,
    search_mode = (if externally then SearchStrategy.kExternallyStrobed
                   else SearchStrategy.kStrobed) ->
    fst (HoughPipeline.PreProcessStrobedImage cfg false search_mode) = true).
  { intros externally ->.
    unfold HoughPipeline.PreProcessStrobedImage.
    destruct externally; cbn [SearchStrategy.mode_eqb];
      [|destruct (HoughSettings.kStrobedBallsUseAltHoughAlgorithm cfg)];
      reflexivity. }
  destruct search_image_empty.
  - cbn. split; [constructor|]. split; reflexivity.
  - destruct search_mode;
      try (cbn; split; [constructor|]; split; reflexivity).
    + split; [apply (Hstrobed false); reflexivity|].
      rewrite (Hflag false) by reflexivity. split; [reflexivity|exact I].
    + split; [apply (Hstrobed true); reflexivity|].
      rewrite (Hflag true) by reflexivity. split; [reflexivity|exact I].
Qed.

(** * The OpenCV DNN detection path: slicing and post-processing *)

Section Slicing.
Import BallImageProc OnnxDetection OnnxSpec.

Lemma slice_origins_spec (limit step : Z) :
  0 < step ->
  forall (fuel : nat) (v : Z),
    limit - v <= Z.of_nat fuel ->
    exists l,
      slice_origins fuel v limit step = Some l
      /\ Forall (fun a => v <= a < limit) l
      /\ (forall p, v <= p < limit ->
            exists a, a ∈ l /\ a <= p < a + step).
Proof.
  intros Hstep. induction fuel as [|fuel IH]; intros v Hfuel.
  - cbn [slice_origins]. destruct (Z.ltb_spec v limit) as [Hlt|Hge]; [lia|].
    exists []. split; [reflexivity|]. split; [constructor|].
    intros p Hp. lia.
  - cbn [slice_origins]. destruct (Z.ltb_spec v limit) as [Hlt|Hge].
    + destruct (IH (v + step)) as (l & Hl & Hall & Hcover); [lia|].
      exists (v :: l). rewrite Hl. split; [reflexivity|]. split.
      * constructor; [lia|].
        eapply Forall_impl; [exact Hall|]. cbn. intros a Ha. lia.
      * intros p Hp. destruct (Z.lt_ge_cases p (v + step)) as [Hnear|Hfar].
        -- exists v. split; [apply list_elem_of_here|lia].
        -- destruct (Hcover p) as (a & Ha & Hpa); [lia|].
           exists a. split; [apply list_elem_of_further; exact Ha|exact Hpa].
    + exists []. split; [reflexivity|]. split; [constructor|].
      intros p Hp. lia.
Qed.

Lemma slice_origins_stuck (limit step : Z) :
  step <= 0 ->
  forall (fuel : nat) (v : Z),
    v < limit -> slice_origins fuel v limit step = None.
Proof.
  intros Hstep. induction fuel as [|fuel IH]; intros v Hv;
    cbn [slice_origins]; rewrite (proj2 (Z.ltb_lt _ _) Hv);
    [reflexivity|].
  rewrite IH by lia. reflexivity.
Qed.

Lemma slice_origins_nonempty (fuel : nat) (limit step : Z) :
  0 < limit -> slice_origins fuel 0 limit step <> Some [].
Proof.
  intros Hl. destruct fuel as [|fuel]; cbn [slice_origins];
    rewrite (proj2 (Z.ltb_lt _ _) Hl); [discriminate|].
  destruct (slice_origins fuel (0 + step) limit step); discriminate.
Qed.

Lemma sahi_slices_spec (fuel : nat) (cols rows W H overlap : Z) :
  0 <= overlap < W -> overlap < H ->
  cols <= Z.of_nat fuel -> rows <= Z.of_nat fuel ->
  exists slices,
    sahi_slices fuel cols rows W H overlap = Some slices
    /\ Forall (proper_slice cols rows) slices
    /\ (forall px py, 0 <= px < cols -> 0 <= py < rows ->
          exists s, s ∈ slices /\ covers s px py).
Proof.
  intros Hw Hh Hfc Hfr.
  destruct (slice_origins_spec rows (H - overlap) ltac:(lia) fuel 0)
    as (ys & Hys & Hyall & Hycover); [lia|].
  destruct (slice_origins_spec cols (W - overlap) ltac:(lia) fuel 0)
    as (xs & Hxs & Hxall & Hxcover); [lia|].
  unfold sahi_slices. rewrite Hys.
  destruct ys as [|y0 ys'].
  - exists []. split; [reflexivity|]. split; [constructor|].
    intros px py _ Hpy. destruct (Hycover py Hpy) as (a & Ha & _).
    inversion Ha.
  - rewrite Hxs. eexists. split; [reflexivity|].
    set (ys := y0 :: ys') in *.
    rewrite Forall_forall in Hyall, Hxall.
    split.
    + apply Forall_forall. intros s Hs.
      apply elem_of_concat in Hs as (row & Hrow & Hs).
      apply list_elem_of_fmap in Hrow as (y & -> & Hy).
      apply list_elem_of_fmap in Hs as (x & -> & Hx).
      specialize (Hyall y Hy). specialize (Hxall x Hx).
      unfold proper_slice. cbn [rx ry rwidth rheight]. lia.
    + intros px py Hpx Hpy.
      destruct (Hxcover px Hpx) as (x & Hx & Hxp).
      destruct (Hycover py Hpy) as (y & Hy & Hyp).
      exists (mkRect x y (Z.min W (cols - x)) (Z.min H (rows - y))).
      split.
      * apply elem_of_concat. eexists. split.
        -- apply list_elem_of_fmap. exists y. split; [reflexivity|exact Hy].
        -- apply list_elem_of_fmap. exists x. split; [reflexivity|exact Hx].
      * unfold covers. cbn [rx ry rwidth rheight]. lia.
Qed.

End Slicing.

Section PostProcessing.
Import CvUtils BallImageProc OnnxDetection OnnxSpec StdSort.

Variables (kONNXInputSize : Z) (kONNXConfidenceThreshold : Q)
          (cols rows : Z).

Lemma parse_detection_in_step (slice : Rect) (st : list Rect * list Q)
    (d : Detection) :
  in_step cols rows st ->
  in_step cols rows
    (parse_detection kONNXInputSize kONNXConfidenceThreshold cols rows
       slice st d).
Proof.
  intros [Hlen Hall]. unfold parse_detection.
  destruct (Qle_bool kONNXConfidenceThreshold (confidence d));
    [|split; assumption].
  match goal with
  | |- context [if ?b then _ else _] => destruct b eqn:Hcheck
  end; [|split; assumption].
  rewrite !andb_true_iff in Hcheck.
  destruct Hcheck as (((((Hw & Hh) & Hx) & Hy) & Hxw) & Hyh).
  apply Z.gtb_lt in Hw, Hh. apply Z.geb_le in Hx, Hy.
  apply Z.leb_le in Hxw, Hyh.
  split; cbn [fst snd].
  - rewrite !length_app, Hlen. reflexivity.
  - apply Forall_app. split; [exact Hall|].
    constructor; [|constructor].
    unfold proper_slice. cbn [rx ry rwidth rheight]. lia.
Qed.

Lemma collect_detections_in_step (net : Rect -> list Detection)
    (slices : list Rect) :
  in_step cols rows
    (collect_detections kONNXInputSize kONNXConfidenceThreshold cols rows
       net slices).
Proof.
  unfold collect_detections.
  assert (Hinner : forall slice ds st, in_step cols rows st ->
            in_step cols rows (fold_left
                       (parse_detection kONNXInputSize
                          kONNXConfidenceThreshold cols rows slice)
                       ds st)).
  { intros slice ds. induction ds as [|d ds IH]; intros st Hst;
      [exact Hst|].
    cbn [fold_left]. apply IH, parse_detection_in_step, Hst. }
  assert (Houter : forall st, in_step cols rows st ->
            in_step cols rows (fold_left
                       (fun st slice =>
                          fold_left
                            (parse_detection kONNXInputSize
                               kONNXConfidenceThreshold cols rows slice)
                            (net slice) st)
                       slices st)).
  { induction slices as [|s ss IH]; intros st Hst; [exact Hst|].
    cbn [fold_left]. apply IH, Hinner, Hst. }
  apply Houter. split; [reflexivity|constructor].
Qed.

Lemma int_cast_half (n : Z) : 0 <= n -> int_cast (inject_Z n / 2) = n / 2.
Proof.
  intros Hn. unfold int_cast.
  assert (H0 : Qle_bool 0 (inject_Z n / 2) = true).
  { apply Qle_bool_iff. apply Qle_shift_div_l; [reflexivity|].
    rewrite Qmult_0_l. change 0%Q with (inject_Z 0).
    rewrite <- Zle_Qle. exact Hn. }
  rewrite H0.
  unfold Qfloor, Qdiv, Qmult, Qinv, inject_Z. cbn.
  rewrite !Z.mul_1_r. reflexivity.
Qed.

Lemma circle_of_box_in_image (box : Rect) :
  cols < 2 ^ 24 -> rows < 2 ^ 24 ->
  proper_slice cols rows box ->
  ball_in_image cols rows (circle_of_box box).
Proof.
  intros Hc Hr (Hx & Hy & Hw & Hh & Hxw & Hyh).
  unfold ball_in_image, circle_of_box. cbn [c0 c1 c2].
  rewrite !std_round_half by lia.
  rewrite int_cast_half by lia.
  set (zx := rx box + (rwidth box + 1) / 2).
  set (zy := ry box + (rheight box + 1) / 2).
  set (zr := Z.max (rwidth box) (rheight box / 2)).
  assert (Hzx : 0 <= zx <= cols)
    by (subst zx; Z.div_mod_to_equations; lia).
  assert (Hzy : 0 <= zy <= rows)
    by (subst zy; Z.div_mod_to_equations; lia).
  assert (Hzr : 1 <= zr < 2 ^ 24)
    by (subst zr; Z.div_mod_to_equations; lia).
  rewrite (f32_round_whole (inject_Z zx) zx (Qeq_refl _)) by lia.
  rewrite (f32_round_whole (inject_Z zy) zy (Qeq_refl _)) by lia.
  rewrite (f32_round_whole (inject_Z zr) zr (Qeq_refl _)) by lia.
  change 0%Q with (inject_Z 0). change 1%Q with (inject_Z 1).
  rewrite <- !Zle_Qle. lia.
Qed.

Lemma SingleClassNMS_index_bound (boxes : list Rect) (confidences : list Q)
    (conf_threshold nms_threshold : Q) (idx : nat) :
  idx ∈ SingleClassNMS boxes confidences conf_threshold nms_threshold ->
  (idx < length confidences)%nat.
Proof.
  destruct (SingleClassNMS_sublist boxes confidences conf_threshold
              nms_threshold) as (sub & Hsub & ->).
  intros Hidx.
  apply list_elem_of_fmap in Hidx as ([c i] & -> & Hin).
  assert (Hin' : (c, i) ∈ std_sort by_confidence_desc
                   (confidence_pairs confidences 0 conf_threshold))
    by (eapply elem_of_sublist; eassumption).
  rewrite (std_sort_perm by_confidence_desc) in Hin'.
  apply confidence_pairs_elem in Hin' as (k & -> & Hk & _).
  apply lookup_lt_Some in Hk. cbn [snd]. lia.
Qed.

Lemma omap_length_total {A B : Type} (f : A -> option B) (l : list A) :
  Forall (fun a => is_Some (f a)) l -> length (omap f l) = length l.
Proof.
  induction 1 as [|a l [b Hb] _ IH]; [reflexivity|].
  cbn [omap list_omap]. rewrite Hb. cbn. f_equal. exact IH.
Qed.

End PostProcessing.

(** X26.  With an overlap that is not negative and smaller than a slice in
    both directions, the SAHI slicing ends; every slice is a non-empty
    rectangle inside the image, and every pixel of the image lies in some
    slice. *)
Theorem X26_sahi_slices_cover_image (fuel : nat)
    (cols rows kSAHISliceWidth kSAHISliceHeight overlap : Z) :
  0 <= overlap < kSAHISliceWidth -> overlap < kSAHISliceHeight ->
  cols <= Z.of_nat fuel -> rows <= Z.of_nat fuel ->
  exists slices,
    OnnxDetection.sahi_slices fuel cols rows kSAHISliceWidth
      kSAHISliceHeight overlap = Some slices
    /\ Forall (OnnxSpec.proper_slice cols rows) slices
    /\ (forall px py, 0 <= px < cols -> 0 <= py < rows ->
          exists s, s ∈ slices /\ OnnxSpec.covers s px py).
Proof. apply sahi_slices_spec. Qed.

Lemma X26_sahi_slices_cover_image_witness :
  exists slices,
    OnnxDetection.sahi_slices 700 640 480 320 320
      (OnnxDetection.sahi_overlap 320 (2 # 10)) = Some slices
    /\ Forall (OnnxSpec.proper_slice 640 480) slices
    /\ (forall px py, 0 <= px < 640 -> 0 <= py < 480 ->
          exists s, s ∈ slices /\ OnnxSpec.covers s px py).
Proof.
  apply (X26_sahi_slices_cover_image 700 640 480 320 320
           (OnnxDetection.sahi_overlap 320 (2 # 10)));
    vm_compute; first [discriminate | reflexivity | split; discriminate
                       | split; [discriminate|reflexivity]].
Defined.

(** X27.  When the configured overlap is as large as the slice width or
    the slice height, the SAHI slicing of a non-empty image does not come
    to an end: however many rounds the loops of [DetectBallsOpenCVDNN] are
    given, they are still running and appending slices. *)
Theorem X27_sahi_overlap_too_large_never_ends (fuel : nat)
    (channels cols rows kSAHISliceWidth kSAHISliceHeight : Z)
    (kSAHIOverlapRatio : Q) (kONNXInputSize : Z)
    (kONNXConfidenceThreshold kONNXNMSThreshold : Q)
    (net : BallImageProc.Rect -> list OnnxDetection.Detection)
    (detected_circles : list GsCircle) :
  channels = 1 \/ channels = 3 ->
  0 < cols -> 0 < rows ->
  kSAHISliceWidth
    <= OnnxDetection.sahi_overlap kSAHISliceWidth kSAHIOverlapRatio
  \/ kSAHISliceHeight
     <= OnnxDetection.sahi_overlap kSAHISliceWidth kSAHIOverlapRatio ->
  OnnxDetection.DetectBallsOpenCVDNN fuel channels cols rows true
    kSAHISliceWidth kSAHISliceHeight kSAHIOverlapRatio kONNXInputSize
    kONNXConfidenceThreshold kONNXNMSThreshold net detected_circles = None.
Proof.
  intros Hch Hcols Hrows Hover.
  unfold OnnxDetection.DetectBallsOpenCVDNN.
  replace ((channels =? 1) || (channels =? 3)) with true
    by (destruct Hch as [-> | ->]; reflexivity).
  cbn [negb]. unfold OnnxDetection.dnn_slices, OnnxDetection.sahi_slices.
  set (overlap := OnnxDetection.sahi_overlap kSAHISliceWidth
                    kSAHIOverlapRatio) in *.
  destruct (Z.le_gt_cases kSAHISliceHeight overlap) as [Hh|Hh].
  - rewrite (slice_origins_stuck rows (kSAHISliceHeight - overlap))
      by lia.
    reflexivity.
  - destruct Hover as [Hw|Hh']; [|lia].
    pose proof (slice_origins_nonempty fuel rows
                  (kSAHISliceHeight - overlap) Hrows) as Hne.
    destruct (OnnxDetection.slice_origins fuel 0 rows
                (kSAHISliceHeight - overlap)) as [[|y ys]|];
      [congruence| |reflexivity].
    rewrite (slice_origins_stuck cols (kSAHISliceWidth - overlap))
      by lia.
    reflexivity.
Qed.

Lemma X27_sahi_overlap_too_large_never_ends_witness :
  OnnxDetection.DetectBallsOpenCVDNN 1000 3 640 480 true 320 320 1 640
    (1 # 2) (4 # 10) (fun _ => []) [] = None.
Proof.
  apply (X27_sahi_overlap_too_large_never_ends 1000 3 640 480 320 320 1 640
           (1 # 2) (4 # 10) (fun _ => []) []).
  - right. reflexivity.
  - reflexivity.
  - reflexivity.
  - left. vm_compute. discriminate.
Defined.

(** X28.  [DetectBallsOpenCVDNN] returns false and leaves the circles
    alone for an image that has neither one nor three channels.
    Otherwise, when the slicing ends and no OpenCV call throws, it
    returns: every confidence it collected has its box, every index the
    NMS keeps yields one circle, every circle has its centre inside the
    image and a radius of at least one pixel, and the flag tells whether
    there is a circle. *)
Theorem X28_dnn_circles_inside_image (fuel : nat)
    (channels cols rows : Z) (use_sahi : bool)
    (kSAHISliceWidth kSAHISliceHeight : Z)
    (kSAHIOverlapRatio : Q) (kONNXInputSize : Z)
    (kONNXConfidenceThreshold kONNXNMSThreshold : Q)
    (net : BallImageProc.Rect -> list OnnxDetection.Detection)
    (detected_circles : list GsCircle) :
  cols < 2 ^ 24 -> rows < 2 ^ 24 ->
  OnnxSpec.slicing_ends fuel cols rows use_sahi kSAHISliceWidth
    kSAHISliceHeight kSAHIOverlapRatio ->
  exists flag circles,
    OnnxDetection.DetectBallsOpenCVDNN fuel channels cols rows use_sahi
      kSAHISliceWidth kSAHISliceHeight kSAHIOverlapRatio kONNXInputSize
      kONNXConfidenceThreshold kONNXNMSThreshold net detected_circles
    = Some (flag, circles)
    /\ if (channels =? 1) || (channels =? 3) then
         exists slices,
           OnnxDetection.dnn_slices fuel cols rows use_sahi
             kSAHISliceWidth kSAHISliceHeight kSAHIOverlapRatio
           = Some slices
           /\ (let detections :=
                 OnnxDetection.collect_detections kONNXInputSize
                   kONNXConfidenceThreshold cols rows net slices in
               length (fst detections) = length (snd detections)
               /\ length circles
                  = length (BallImageProc.SingleClassNMS (fst detections)
                              (snd detections) kONNXConfidenceThreshold
                              kONNXNMSThreshold))
           /\ Forall (OnnxSpec.ball_in_image cols rows) circles
           /\ (flag = true <-> circles <> [])
       else flag = false /\ circles = detected_circles.
Proof.
  intros Hcols Hrows Hends.
  unfold OnnxDetection.DetectBallsOpenCVDNN.
  destruct ((channels =? 1) || (channels =? 3)); cbn [negb];
    [|exists false, detected_circles; split; [reflexivity|split; reflexivity]].
  assert (Hslices : exists slices,
            OnnxDetection.dnn_slices fuel cols rows use_sahi
              kSAHISliceWidth kSAHISliceHeight kSAHIOverlapRatio
            = Some slices).
  { unfold OnnxDetection.dnn_slices. destruct use_sahi.
    - destruct (Hends eq_refl) as (Hw & Hh & Hfc & Hfr).
      destruct (sahi_slices_spec fuel cols rows kSAHISliceWidth
                  kSAHISliceHeight _ Hw Hh Hfc Hfr) as (slices & E & _).
      exists slices. exact E.
    - eexists. reflexivity. }
  destruct Hslices as (slices & Eslices). rewrite Eslices.
  pose proof (collect_detections_in_step kONNXInputSize
                kONNXConfidenceThreshold cols rows net slices)
    as [Hlen Hboxes].
  destruct (OnnxDetection.collect_detections kONNXInputSize
              kONNXConfidenceThreshold cols rows net slices)
    as [boxes confidences] eqn:Edet.
  cbn [fst snd] in Hlen, Hboxes.
  eexists _, _. split; [reflexivity|].
  exists slices. split; [reflexivity|].
  cbn zeta. rewrite Edet. cbn [fst snd]. split; [|split].
  - split; [exact Hlen|].
    apply omap_length_total. apply Forall_forall. intros idx Hidx.
    apply SingleClassNMS_index_bound in Hidx.
    destruct (lookup_lt_is_Some_2 boxes idx) as [b Hb]; [lia|].
    rewrite Hb. eexists. reflexivity.
  - apply Forall_forall. intros c Hc.
    apply list_elem_of_omap in Hc as (idx & _ & Hc).
    destruct (boxes !! idx) as [b|] eqn:Hb; [|discriminate].
    cbn in Hc. injection Hc as <-.
    apply circle_of_box_in_image; [assumption..|].
    rewrite Forall_forall in Hboxes. apply Hboxes.
    eapply list_elem_of_lookup_2. exact Hb.
  - match goal with
    | |- context [omap ?f ?l] => destruct (omap f l) as [|c cs]
    end; cbn; split; congruence.
Qed.

Lemma X28_dnn_circles_inside_image_witness :
  exists flag circles,
    OnnxDetection.DetectBallsOpenCVDNN 0 3 640 480 false 320 320 (2 # 10)
      640 (1 # 2) (4 # 10)
      (fun _ => [OnnxDetection.mkDetection 320 320 64 64 (9 # 10)]) []
    = Some (flag, circles)
    /\ Forall (OnnxSpec.ball_in_image 640 480) circles.
Proof.
  destruct (X28_dnn_circles_inside_image 0 3 640 480 false 320 320 (2 # 10)
              640 (1 # 2) (4 # 10)
              (fun _ => [OnnxDetection.mkDetection 320 320 64 64 (9 # 10)])
              [])
    as (flag & circles & E & H).
  - reflexivity.
  - reflexivity.
  - intros Hs. discriminate Hs.
  - exists flag, circles. split; [exact E|].
    cbn [Z.eqb orb] in H. destruct H as (slices & _ & _ & Hin & _).
    exact Hin.
Defined.

(** * The threshold search of the ellipse detector, and the shape of the
    colour mask *)

Section CannySearch.
Import EllipseDetector.
Variable edge_mean : Z -> Z -> Q.

(** The thresholds stay 4 * n away from where the search began, for a
    whole number n. *)
Lemma canny_loop_spec (fuel : nat) :
  forall lowThresh highThresh : Z,
    canny_loop fuel edge_mean lowThresh highThresh 0 = None
    \/ exists n : Z,
         canny_loop fuel edge_mean lowThresh highThresh 0
         = Some (lowThresh + 4 * n, highThresh + 4 * n, false)
         /\ (8 <= edge_mean (lowThresh + 4 * n)%Z (highThresh + 4 * n)%Z)%Q
         /\ (edge_mean (lowThresh + 4 * n)%Z (highThresh + 4 * n)%Z <= 15)%Q.
Proof.
  induction fuel as [|fuel IH]; intros low high; [left; reflexivity|].
  cbn [canny_loop].
  unfold kMaxFinalizationCannyMean, kMinFinalizationCannyMean,
    kCannyToleranceIncrement.
  change (0 >? 30) with false. cbv iota.
  destruct (Qle_bool (edge_mean low high) 15) eqn:Hmax; cbn [negb].
  - destruct (Qle_bool 8 (edge_mean low high)) eqn:Hmin; cbn [negb].
    + right. exists 0. rewrite !Z.mul_0_r, !Z.add_0_r.
      split; [reflexivity|].
      split; apply Qle_bool_iff; assumption.
    + destruct (IH (low - 4) (high - 4)) as [Hn|(n & Hs & Hb)].
      * left. exact Hn.
      * right. exists (n - 1).
        replace (low + 4 * (n - 1)) with (low - 4 + 4 * n) by ring.
        replace (high + 4 * (n - 1)) with (high - 4 + 4 * n) by ring.
        split; [exact Hs|exact Hb].
  - destruct (IH (low + 4) (high + 4)) as [Hn|(n & Hs & Hb)].
    + left. exact Hn.
    + right. exists (n + 1).
      replace (low + 4 * (n + 1)) with (low + 4 + 4 * n) by ring.
      replace (high + 4 * (n + 1)) with (high + 4 + 4 * n) by ring.
      split; [exact Hs|exact Hb].
Qed.

End CannySearch.

Section MaskShape.
Import ColorFilter SpinSpec.

Lemma cv_inRange_shape (img : list (list HsvPixel))
    (lb ub : GsColorTriplet) :
  map length (cv_inRange img lb ub) = map length img.
Proof.
  unfold cv_inRange. rewrite map_map. apply map_ext. intros row.
  apply length_map.
Qed.

Lemma cv_inRange_px_binary (lb ub : GsColorTriplet) (p : HsvPixel) :
  is_binary_value (cv_inRange_px lb ub p).
Proof.
  unfold cv_inRange_px, is_binary_value.
  match goal with
  | |- context [if ?b then _ else _] => destruct b
  end; [right|left]; reflexivity.
Qed.

Lemma lor_binary (a b : Z) :
  is_binary_value a -> is_binary_value b -> is_binary_value (Z.lor a b).
Proof.
  unfold is_binary_value. intros [-> | ->] [-> | ->]; cbn; auto.
Qed.

Lemma mapped_pixels {A : Type} (P : Z -> Prop) (f : A -> Z)
    (img : list (list A)) :
  (forall p, P (f p)) -> all_pixels P (map (map f) img).
Proof.
  intros Hf. unfold all_pixels.
  apply Forall_forall. intros row Hrow.
  apply list_elem_of_fmap in Hrow as (row' & -> & _).
  apply Forall_forall. intros v Hv.
  apply list_elem_of_fmap in Hv as (p & -> & _). apply Hf.
Qed.

Lemma mapped_shape {A : Type} (f : A -> Z) (img : list (list A)) :
  map length (map (map f) img) = map length img.
Proof.
  rewrite map_map. apply map_ext. intros row. apply length_map.
Qed.

End MaskShape.

(** X29.  The threshold search of [FindLargestEllipse] has no working
    limit on its rounds.  Whatever the image, it is either still running
    after any given number of rounds, or it has stopped without reporting
    failure at thresholds 30 + 4n and 70 + 4n where the mean of the edge
    image lies between 8 and 15; when no such pair of thresholds exists,
    it never ends. *)
Theorem X29_canny_search_has_no_limit (edge_mean : Z -> Z -> Q)
    (fuel : nat) :
  (EllipseDetector.find_canny_thresholds fuel edge_mean = None
   \/ exists n : Z,
        EllipseDetector.find_canny_thresholds fuel edge_mean
        = Some (30 + 4 * n, 70 + 4 * n, false)
        /\ (8 <= edge_mean (30 + 4 * n)%Z (70 + 4 * n)%Z)%Q
        /\ (edge_mean (30 + 4 * n)%Z (70 + 4 * n)%Z <= 15)%Q)
  /\ ((forall n : Z,
         (edge_mean (30 + 4 * n)%Z (70 + 4 * n)%Z < 8)%Q
         \/ (15 < edge_mean (30 + 4 * n)%Z (70 + 4 * n)%Z)%Q) ->
      EllipseDetector.find_canny_thresholds fuel edge_mean = None).
Proof.
  pose proof (canny_loop_spec edge_mean fuel 30 70) as H.
  split; [exact H|].
  intros Hout. destruct H as [H|(n & _ & Hlo & Hhi)]; [exact H|].
  exfalso. destruct (Hout n) as [Hlt|Hgt].
  - exact (Qlt_not_le _ _ Hlt Hlo).
  - exact (Qlt_not_le _ _ Hgt Hhi).
Qed.

Lemma X29_canny_search_has_no_limit_witness :
  EllipseDetector.find_canny_thresholds 1000 (fun _ _ => 20%Q) = None.
Proof.
  apply (proj2 (X29_canny_search_has_no_limit (fun _ _ => 20%Q) 1000)).
  intros n. right. reflexivity.
Defined.

(** X30.  Whatever the bounds and the widening, the colour mask has the
    shape of the HSV image, row by row, and holds only the values 0 and
    255. *)
Theorem X30_color_mask_keeps_image_shape
    (hsvImage : list (list ColorFilter.HsvPixel))
    (input_lowerHsv input_upperHsv : GsColorTriplet) (wideningAmount : Q) :
  map length (ColorFilter.GetColorMaskImage hsvImage input_lowerHsv
                input_upperHsv wideningAmount)
  = map length hsvImage
  /\ SpinSpec.all_pixels SpinSpec.is_binary_value
       (ColorFilter.GetColorMaskImage hsvImage input_lowerHsv
          input_upperHsv wideningAmount).
Proof.
  unfold ColorFilter.GetColorMaskImage. cbv zeta.
  match goal with
  | |- context [if ?b then _ else _] => destruct b
  end.
  - split; [apply cv_inRange_shape|].
    apply mapped_pixels. intros p. apply cv_inRange_px_binary.
  - unfold ColorFilter.cv_inRange. rewrite bitwise_or_maps.
    split; [apply mapped_shape|].
    apply mapped_pixels. intros p.
    apply lor_binary; apply cv_inRange_px_binary.
Qed.
